(** * AlgorithmVisualizer: the graph algorithms and their step traces

    A shallow embedding of the Python sources [grafo.py], [config.py] and
    [algorithms/*.py], and the properties of the step traces they emit.

    Conventions.
    - Matrix cells are integers ([Z]). The matrix of a loaded graph is a
      NumPy array of 64-bit integers, so a sum of a cost and a cell wraps
      around as [int64] does; the theorems about costs assume weights
      small enough for no sum to wrap ([pesos_acotados]).
    - [float('inf')] is the constructor [Inf] of [num].
    - A Python [dict] is a [gmap], a [set] a [gset]; a list indexed by
      node is a [list] read with [!!] and written with [<[_:=_]>].
    - [heapq] is modelled by its contract: the entries are totally
      ordered tuples, so [heappop] returns the least entry and leaves the
      other entries; the queue is kept as a sorted list.
    - The priorities of A* are binary64 floats ([PrimFloat]).
    - A [while] loop is iterated with a fuel that bounds its turns; the
      termination lemmas show that the bound is never reached. The loop
      that climbs the parents has no such bound in general: there the
      fuel is the number of parent entries, and running out of it means
      that the climb has come back to a node, from where the loop of the
      source runs forever.
    - The recursive functions ([_dfs], [find]) take the number [limite]
      of nested calls that the recursion limit of the interpreter leaves
      to them, and raise [RecursionError] beyond it.
    - Every algorithm is modelled over values (modules [BFS], [DFS],
      [Dijkstra], ...), where a step holds the values of its fields. The
      algorithms whose steps hold copies of the working objects are
      modelled a second time over objects (modules [BFSMem], [DFSMem],
      [DijkstraMem], ...), where [visitado.add], [padre[v] = u] and the
      like change an object in place and a step holds the addresses of
      the copies it was given; the runs over objects are shown to leave
      the steps of the runs over values. *)

From Stdlib Require Import PrimFloat Uint63.
From Stdlib Require OrderedTypeEx.
From stdpp Require Import gmap strings list fin_maps pretty sorting.

Open Scope Z_scope.

(** ** Numbers with infinity, as stored in [dist] *)

Inductive num := Num (z : Z) | Inf.

Global Instance num_eq_dec : EqDecision num.
Proof. solve_decision. Defined.

(** [a < d] for an integer [a] and a stored distance [d]. *)
Definition Z_lt_num (a : Z) (d : num) : bool :=
  match d with
  | Num z => bool_decide (a < z)
  | Inf => true
  end.

(** ** Exceptions and results *)

Inductive exn :=
  | IndexError | KeyError | TypeError | ValueError | AttributeError
  | FileNotFoundError | JSONDecodeError | RecursionError | OtherError.

Global Instance exn_eq_dec : EqDecision exn.
Proof. solve_decision. Defined.

Inductive result (A : Type) :=
  | Ok (a : A)
  | Raise (e : exn).
Arguments Ok {A} a.
Arguments Raise {A} e.

Global Instance result_ret : MRet result := λ A a, Ok a.
Global Instance result_bind : MBind result := λ A B f r,
  match r with
  | Ok a => f a
  | Raise e => Raise e
  end.

(** What a call gives to its caller: the value it returns, the exception
    it raises, or nothing, when one of its loops never ends. *)
Inductive llamada (A : Type) :=
  | Devuelve (a : A)
  | Lanza (e : exn)
  | NoTermina.
Arguments Devuelve {A} a.
Arguments Lanza {A} e.
Arguments NoTermina {A}.

(** [for x in l: s = f(s, x)], stopping at the first exception. *)
Fixpoint plegar {A B : Type} (f : A → B → result A) (s : A) (l : list B) : result A :=
  match l with
  | [] => Ok s
  | x :: r => s' ← f s x; plegar f s' r
  end.

(** Indexing of a Python list or a NumPy axis by an integer: a negative
    index counts from the end, an index outside [-len, len) raises. *)
Definition indexar {A : Type} (l : list A) (i : Z) : result A :=
  let n := Z.of_nat (length l) in
  if bool_decide (0 ≤ i < n) then
    from_option Ok (Raise IndexError) (l !! Z.to_nat i)
  else if bool_decide (- n ≤ i < 0) then
    from_option Ok (Raise IndexError) (l !! Z.to_nat (n + i))
  else Raise IndexError.

(** ** The sum of two 64-bit integers of NumPy, which wraps around *)

Definition int64 (z : Z) : Z := (z + 2 ^ 63) `mod` 2 ^ 64 - 2 ^ 63.
Global Arguments int64 : simpl never.

(** ** The loaded graph ([grafo.py], class [GrafoActivo])

    [G] is the NetworkX graph, kept as its adjacency: [G !! a] holds the
    neighbours of the node [a], each with the weight of its edge. [pos],
    the result of the spring layout, is not part of the model. *)

Record GrafoActivo := {
  matriz : list (list Z);
  nombres : list string;
  N : nat;
  G : gmap string (gmap string Z);
  nombre_grafo : string
}.

(** [G.add_edge(a, b, weight=w)] on an undirected graph: the two nodes are
    added when they are new, and the edge gets the weight [w] in both
    adjacencies, in place of the weight it had. *)
Definition add_edge (g : gmap string (gmap string Z)) (a b : string) (w : Z)
    : gmap string (gmap string Z) :=
  let g1 := <[a := <[b := w]> (default ∅ (g !! a))]> g in
  <[b := <[a := w]> (default ∅ (g1 !! b))]> g1.

(** The weight of the edge between [a] and [b], when [G] has one. *)
Definition peso_arista (g : gmap string (gmap string Z)) (a b : string) : option Z :=
  g !! a ≫= (.!! b).

(** [ga.matriz[u][v]] for natural indices inside the matrix; outside it
    the source raises, and the total reading below yields [0]. The
    algorithms over natural indices are used with a square matrix of
    dimension [N] and indices below [N]. *)
Definition celda (m : list (list Z)) (u v : nat) : Z :=
  default 0 (m !! u ≫= (.!! v)).

(** [ga.matriz[u][v]] for arbitrary integer indices. *)
Definition celda_np (m : list (list Z)) (u v : Z) : result Z :=
  fila ← indexar m u; indexar fila v.

Definition cuadrada (ga : GrafoActivo) : Prop :=
  length (matriz ga) = N ga ∧ Forall (λ fila, length fila = N ga) (matriz ga).

(** The cells are 64-bit integers: what [np.array] builds from integers
    that fit. *)
Definition enteros64 (ga : GrafoActivo) : Prop :=
  Forall (Forall (λ w, - 2 ^ 63 ≤ w < 2 ^ 63)) (matriz ga).

(** The largest cell of the matrix, or 0. *)
Definition peso_max (ga : GrafoActivo) : Z := foldr Z.max 0 (concat (matriz ga)).

(** The weights are small enough for a sum of [N] of them to be a 64-bit
    integer. *)
Definition pesos_acotados (ga : GrafoActivo) : Prop :=
  ∀ i j, Z.of_nat (N ga) * celda (matriz ga) i j < 2 ^ 63.

(** ** Priority queues ([heapq]) *)

Section heapq.
Context {E : Type} (ltb : E → E → bool).

Fixpoint heappush (pq : list E) (x : E) : list E :=
  match pq with
  | [] => [x]
  | y :: r => if ltb y x then y :: heappush r x else x :: y :: r
  end.

Definition heappop (pq : list E) : option (E * list E) :=
  match pq with
  | [] => None
  | x :: r => Some (x, r)
  end.
End heapq.

(** The order of the tuples [(prioridad, nodo)] with an integer priority. *)
Definition entrada_ltb (a b : Z * nat) : bool :=
  bool_decide (a.1 < b.1) || (bool_decide (a.1 = b.1) && bool_decide (a.2 < b.2)%nat).

(** ** Control flow of a [while] loop body *)

Inductive flujo (A : Type) :=
  | Sigue (a : A)      (* next turn *)
  | Alto (a : A).      (* the loop is left: condition false, or [break] *)
Arguments Sigue {A} a.
Arguments Alto {A} a.

Fixpoint iterar {A : Type} (cuerpo : A → flujo A) (fuel : nat) (s : A) : flujo A :=
  match fuel with
  | O => Sigue s
  | S f =>
      match cuerpo s with
      | Sigue s' => iterar cuerpo f s'
      | Alto s' => Alto s'
      end
  end.

Definition estado_de {A : Type} (r : flujo A) : A :=
  match r with Sigue a | Alto a => a end.

(** The same for a body that may raise. *)
Fixpoint iterar_exc {A : Type} (cuerpo : A → result (flujo A)) (fuel : nat) (s : A)
    : result (flujo A) :=
  match fuel with
  | O => Ok (Sigue s)
  | S f =>
      match cuerpo s with
      | Ok (Sigue s') => iterar_exc cuerpo f s'
      | Ok (Alto s') => Ok (Alto s')
      | Raise e => Raise e
      end
  end.

(** ** Path reconstruction, shared by Dijkstra, A* and Bellman-Ford

    [while n is not None and n in padre: camino.append(n); n = padre[n]]
    followed by [camino.reverse()]. The loop has no other exit: when the
    parents lead back to a node already appended, it runs forever.
    [subir] appends at most [fuel] nodes and gives [None] when a further
    node is to be appended; with the number of entries of [padre] as
    fuel, that node is one met before. *)

Fixpoint subir (padre : gmap nat (option nat)) (fuel : nat) (n : option nat)
    (camino : list nat) {struct fuel} : option (list nat) :=
  match n with
  | None => Some camino
  | Some k =>
      match padre !! k with
      | None => Some camino
      | Some p =>
          match fuel with
          | O => None
          | S f => subir padre f p (camino ++ [k])
          end
      end
  end.

Definition reconstruir (padre : gmap nat (option nat)) (objetivo : nat)
    : option (list nat) :=
  reverse <$> subir padre (size padre) (Some objetivo) [].

(** ** Conversions ([grafo.py]) *)

(** [matriz_a_aristas]: every nonzero cell, both directions. *)
Definition matriz_a_aristas (m : list (list Z)) : list (nat * nat * Z) :=
  i ← seq 0 (length m);
  j ← seq 0 (length m);
  if bool_decide (celda m i j ≠ 0) then [(i, j, celda m i j)] else [].

(** [matriz_a_lista_ady]: per node, the pairs (neighbour, weight). *)
Definition matriz_a_lista_ady (m : list (list Z)) : list (list (nat * Z)) :=
  (λ i, j ← seq 0 (length m);
        if bool_decide (celda m i j ≠ 0) then [(j, celda m i j)] else [])
  <$> seq 0 (length m).

(** [generar_coords]: [columnas = ceil(sqrt(n))], node [i] at
    [(i % columnas, i // columnas)]. The ceiling of the square root is
    computed on integers, as the float computation gives it for every
    [n] below 2^52. *)
Definition columnas (n : nat) : nat :=
  let r := Z.to_nat (Z.sqrt (Z.of_nat n)) in
  if bool_decide ((r * r)%nat = n) then r else S r.

Definition generar_coords (n : nat) : gmap nat (nat * nat) :=
  list_to_map ((λ i, (i, (i `mod` columnas n, i `div` columnas n)%nat)) <$> seq 0 n).

(** ** The bundled sample graphs ([config.py], [GRAFOS_EJEMPLO]) *)

Definition matriz_grafo1 : list (list Z) :=
  [ [0;  8;  0;  0;  0;  0;  9; 10;  6; 12;  3];
    [8;  0; 10;  0;  2;  0;  0;  0;  0;  0;  7];
    [0; 10;  0;  9;  0;  0;  0;  0;  0;  0;  5];
    [0;  0;  9;  0; 13; 12;  0;  0;  0;  0;  0];
    [0;  2;  0; 13;  0; 10;  6;  0;  0;  0;  0];
    [0;  0;  0; 12; 10;  0;  8;  0;  0;  0;  0];
    [9;  0;  0;  0;  6;  8;  0;  7;  0;  0;  0];
    [10; 0;  0;  0;  0;  0;  7;  0;  3;  0;  0];
    [6;  0;  0;  0;  0;  0;  0;  3;  0; 10;  0];
    [12; 0;  0;  0;  0;  0;  0;  0; 10;  0;  8];
    [3;  7;  5;  0;  0;  0;  0;  0;  0;  8;  0] ].

Definition nombres_grafo1 : list string :=
  ["A"; "B"; "C"; "D"; "E"; "F"; "G"; "H"; "I"; "J"; "K"]%string.

Definition matriz_grafo2 : list (list Z) :=
  [ [0;  4;  0;  0;  0;  0;  0];
    [4;  0;  8;  0;  0;  0; 11];
    [0;  8;  0;  7;  0;  4;  0];
    [0;  0;  7;  0;  9; 14;  0];
    [0;  0;  0;  9;  0; 10;  0];
    [0;  0;  4; 14; 10;  0;  2];
    [0; 11;  0;  0;  0;  2;  0] ].

Definition nombres_grafo2 : list string := ["S"; "T"; "U"; "V"; "W"; "X"; "Y"]%string.

(** ** BFS ([algorithms/bfs.py])

    The start index is an arbitrary integer, and the matrix is read as
    NumPy reads it. The field [encolados] is not in the source: it logs
    every [cola.append(v)] as the pair (node being explored, [v]). *)

Module BFS.

Record paso := {
  actual : Z;
  visitados : gset Z;
  p_padre : gmap Z (option Z)
}.

Record estado := {
  visitado : gset Z;
  cola : list Z;
  padre : gmap Z (option Z);
  pasos : list paso;
  encolados : list (Z * Z)
}.

Definition rango (n : nat) : list Z := Z.of_nat <$> seq 0 n.

(** One turn of [for v in range(ga.N)]. *)
Definition explorar (ga : GrafoActivo) (u : Z) (s : estado) (v : Z) : result estado :=
  w ← celda_np (matriz ga) u v;
  if bool_decide (w > 0) && bool_decide (v ∉ visitado s) then
    Ok {| visitado := visitado s;
          cola := cola s ++ [v];
          padre := match padre s !! v with
                   | None => <[v := Some u]> (padre s)
                   | Some _ => padre s
                   end;
          pasos := pasos s;
          encolados := encolados s ++ [(u, v)] |}
  else Ok s.

Definition cuerpo (ga : GrafoActivo) (s : estado) : result (flujo estado) :=
  match cola s with
  | [] => Ok (Alto s)
  | u :: resto =>
      if bool_decide (u ∈ visitado s) then
        Ok (Sigue {| visitado := visitado s; cola := resto; padre := padre s;
                     pasos := pasos s; encolados := encolados s |})
      else
        let vis := {[u]} ∪ visitado s in
        let s1 := {| visitado := vis; cola := resto; padre := padre s;
                     pasos := pasos s ++ [{| actual := u; visitados := vis;
                                             p_padre := padre s |}];
                     encolados := encolados s |} in
        s2 ← plegar (explorar ga u) s1 (rango (N ga));
        Ok (Sigue s2)
  end.

Definition inicial (inicio : Z) : estado :=
  {| visitado := ∅; cola := [inicio]; padre := {[inicio := None]};
     pasos := []; encolados := [] |}.

(** Every turn takes one node from the queue; a node is explored once,
    and an exploration appends at most [N] nodes. *)
Definition fuel (ga : GrafoActivo) : nat := S (S (S (N ga) * N ga)).

Definition bucle (ga : GrafoActivo) (inicio : Z) : result (flujo estado) :=
  iterar_exc (cuerpo ga) (fuel ga) (inicial inicio).

Definition bfs_pasos (ga : GrafoActivo) (inicio : Z) : result (list paso) :=
  r ← bucle ga inicio; Ok (pasos (estado_de r)).

End BFS.

(** ** DFS ([algorithms/dfs.py])

    [limite] is the number of nested calls of [_dfs] that the recursion
    limit of the interpreter leaves: a call beyond it raises
    [RecursionError]. The matrix is read as NumPy reads it, so a row
    that is not there raises [IndexError]. *)

Module DFS.

Record paso := {
  actual : nat;
  visitados : gset nat;
  p_padre : gmap nat (option nat)
}.

Record estado := {
  visitado : gset nat;
  padre : gmap nat (option nat);
  pasos : list paso
}.

Definition visitar (u : nat) (s : estado) : estado :=
  let vis := {[u]} ∪ visitado s in
  {| visitado := vis; padre := padre s;
     pasos := pasos s ++ [{| actual := u; visitados := vis; p_padre := padre s |}] |}.

Definition con_padre (v u : nat) (s : estado) : estado :=
  {| visitado := visitado s; padre := <[v := Some u]> (padre s); pasos := pasos s |}.

Fixpoint _dfs (ga : GrafoActivo) (limite : nat) (u : nat) (s : estado) : result estado :=
  match limite with
  | O => Raise RecursionError
  | S f =>
      foldl (λ os v,
               s' ← os;
               w ← celda_np (matriz ga) (Z.of_nat u) (Z.of_nat v);
               if bool_decide (w > 0) && bool_decide (v ∉ visitado s')
               then _dfs ga f v (con_padre v u s')
               else Ok s')
            (Ok (visitar u s)) (seq 0 (N ga))
  end.

Definition inicial (inicio : nat) : estado :=
  {| visitado := ∅; padre := {[inicio := None]}; pasos := [] |}.

Definition dfs_pasos (limite : nat) (ga : GrafoActivo) (inicio : nat)
    : result (list paso) :=
  s ← _dfs ga limite inicio (inicial inicio); Ok (pasos s).

End DFS.

(** ** Dijkstra ([algorithms/dijkstra.py]) *)

Module Dijkstra.

Record paso := {
  actual : nat;
  visitados : gset nat;
  p_dist : list num;
  p_padre : gmap nat (option nat)
}.

Record estado := {
  dist : list num;
  padre : gmap nat (option nat);
  pq : list (Z * nat);
  pasos : list paso;
  visitado : gset nat
}.

(** One turn of [for v in range(ga.N)] for the node [u] popped with [costo]. *)
Definition relajar (ga : GrafoActivo) (costo : Z) (u : nat) (s : estado) (v : nat) : estado :=
  if bool_decide (celda (matriz ga) u v > 0) then
    let nuevo := int64 (costo + celda (matriz ga) u v) in
    if Z_lt_num nuevo (default Inf (dist s !! v)) then
      {| dist := <[v := Num nuevo]> (dist s);
         padre := <[v := Some u]> (padre s);
         pq := heappush entrada_ltb (pq s) (nuevo, v);
         pasos := pasos s;
         visitado := visitado s |}
    else s
  else s.

Definition cuerpo (ga : GrafoActivo) (objetivo : nat) (s : estado) : flujo estado :=
  match heappop (pq s) with
  | None => Alto s
  | Some ((costo, u), resto) =>
      if bool_decide (u ∈ visitado s) then
        Sigue {| dist := dist s; padre := padre s; pq := resto;
                 pasos := pasos s; visitado := visitado s |}
      else
        let vis := {[u]} ∪ visitado s in
        let s1 := {| dist := dist s; padre := padre s; pq := resto;
                     pasos := pasos s ++ [{| actual := u; visitados := vis;
                                             p_dist := dist s; p_padre := padre s |}];
                     visitado := vis |} in
        if bool_decide (u = objetivo) then Alto s1
        else Sigue (foldl (relajar ga costo u) s1 (seq 0 (N ga)))
  end.

Definition inicial (ga : GrafoActivo) (inicio : nat) : estado :=
  {| dist := <[inicio := Num 0]> (replicate (N ga) Inf);
     padre := {[inicio := None]};
     pq := [(0, inicio)];
     pasos := [];
     visitado := ∅ |}.

(** Every turn of the loop pops one entry; a node is expanded once, and
    an expansion pushes at most [N] entries. *)
Definition fuel (ga : GrafoActivo) : nat := S (S (N ga * N ga)).

Definition bucle (ga : GrafoActivo) (inicio objetivo : nat) : flujo estado :=
  iterar (cuerpo ga objetivo) (fuel ga) (inicial ga inicio).

(** [dist[inicio] = 0] raises [IndexError] when [inicio] is no index of
    [dist]; [inicial] is the state after it. *)
Definition dijkstra_pasos (ga : GrafoActivo) (inicio objetivo : nat)
    : llamada (list paso * list nat * list num) :=
  if bool_decide (inicio < N ga)%nat then
    let s := estado_de (bucle ga inicio objetivo) in
    match reconstruir (padre s) objetivo with
    | Some camino => Devuelve (pasos s, camino, dist s)
    | None => NoTermina
    end
  else Lanza IndexError.

End Dijkstra.

(** ** A* ([algorithms/a_star.py])

    The loop is written once over the type [P] of the priorities, with
    the heuristic [h v] (for [h(v, objetivo)]), the sum [suma nuevo p]
    (for [nuevo + p]) and the order [ltb] of the heap entries; the source
    is its instance at binary64 floats below. [g[u]] is read on a node
    that was popped, whose entry exists. *)

Module AStar.

Record paso := {
  actual : nat;
  visitados : gset nat;
  p_g : gmap nat Z;
  p_padre : gmap nat (option nat)
}.

Section generico.
Context {P : Type} (h : nat → P) (suma : Z → P → P) (ltb : P * nat → P * nat → bool).

Record estado := {
  g : gmap nat Z;
  padre : gmap nat (option nat);
  pq : list (P * nat);
  pasos : list paso;
  visitado : gset nat
}.

(** One turn of [for v in range(ga.N)]. *)
Definition expandir (ga : GrafoActivo) (u : nat) (s : estado) (v : nat) : estado :=
  if bool_decide (celda (matriz ga) u v > 0) then
    let nuevo := int64 (default 0 (g s !! u) + celda (matriz ga) u v) in
    if match g s !! v with
       | None => true
       | Some gv => bool_decide (nuevo < gv)
       end
    then
      {| g := <[v := nuevo]> (g s);
         padre := <[v := Some u]> (padre s);
         pq := heappush ltb (pq s) (suma nuevo (h v), v);
         pasos := pasos s;
         visitado := visitado s |}
    else s
  else s.

Definition cuerpo (ga : GrafoActivo) (objetivo : nat) (s : estado) : flujo estado :=
  match heappop (pq s) with
  | None => Alto s
  | Some ((_, u), resto) =>
      if bool_decide (u ∈ visitado s) then
        Sigue {| g := g s; padre := padre s; pq := resto;
                 pasos := pasos s; visitado := visitado s |}
      else
        let vis := {[u]} ∪ visitado s in
        let s1 := {| g := g s; padre := padre s; pq := resto;
                     pasos := pasos s ++ [{| actual := u; visitados := vis;
                                             p_g := g s; p_padre := padre s |}];
                     visitado := vis |} in
        if bool_decide (u = objetivo) then Alto s1
        else Sigue (foldl (expandir ga u) s1 (seq 0 (N ga)))
  end.

Definition inicial (inicio : nat) : estado :=
  {| g := {[inicio := 0]};
     padre := {[inicio := None]};
     pq := [(h inicio, inicio)];
     pasos := [];
     visitado := ∅ |}.

(** Every turn pops one entry. An entry is pushed when [g[v]] is set
    or lowered, and an expansion pushes at most [N] entries. *)
Definition fuel (ga : GrafoActivo) : nat := S (S (N ga * N ga)).

Definition bucle (ga : GrafoActivo) (inicio objetivo : nat) : flujo estado :=
  iterar (cuerpo ga objetivo) (fuel ga) (inicial inicio).

Definition a_star_gen (ga : GrafoActivo) (inicio objetivo : nat)
    : llamada (list paso * list nat * gmap nat Z) :=
  let s := estado_de (bucle ga inicio objetivo) in
  match reconstruir (padre s) objetivo with
  | Some camino => Devuelve (pasos s, camino, g s)
  | None => NoTermina
  end.
End generico.

Arguments g {P} _.
Arguments padre {P} _.
Arguments pq {P} _.
Arguments pasos {P} _.
Arguments visitado {P} _.

(** The conversion of a 64-bit integer to a float, to the nearest float;
    it is exact below 2^53. *)
Definition float_de_Z (z : Z) : float :=
  if bool_decide (z = - 2 ^ 63) then
    PrimFloat.opp (PrimFloat.mul (PrimFloat.of_uint63 (Uint63.of_Z (2 ^ 62)))
                                 (PrimFloat.of_uint63 (Uint63.of_Z 2)))
  else if bool_decide (z < 0) then PrimFloat.opp (PrimFloat.of_uint63 (Uint63.of_Z (- z)))
  else PrimFloat.of_uint63 (Uint63.of_Z z).

(** [math.hypot] on integer arguments. *)
Definition hypot (dx dy : Z) : float :=
  PrimFloat.sqrt (float_de_Z (dx * dx + dy * dy)).

(** [h(a, b)] over [coords = generar_coords(ga.N)]: [coords[b]] and
    [coords[a]] raise [KeyError] for a node without coordinates. *)
Definition heuristica (coords : gmap nat (nat * nat)) (a b : nat) : result float :=
  cb ← from_option Ok (Raise KeyError) (coords !! b);
  ca ← from_option Ok (Raise KeyError) (coords !! a);
  Ok (hypot (Z.of_nat cb.1 - Z.of_nat ca.1) (Z.of_nat cb.2 - Z.of_nat ca.2)).

(** [h(v, objetivo)] inside the loop. There [v] comes from
    [range(ga.N)] and [objetivo] has been read by the first call of [h],
    so both have coordinates and nothing is raised. *)
Definition h_objetivo (ga : GrafoActivo) (objetivo v : nat) : float :=
  match heuristica (generar_coords (N ga)) v objetivo with
  | Ok x => x
  | Raise _ => PrimFloat.zero
  end.

(** The order of the tuples [(f, nodo)]: the first components are
    compared, and the nodes when these are equal. *)
Definition entrada_float_ltb (a b : float * nat) : bool :=
  if PrimFloat.eqb a.1 b.1 then bool_decide (a.2 < b.2)%nat
  else PrimFloat.ltb a.1 b.1.

(** The loop of [a_star_pasos]: the instance at binary64 floats. *)
Definition bucle_float (ga : GrafoActivo) (inicio objetivo : nat) : flujo (@estado float) :=
  bucle (h_objetivo ga objetivo)
        (λ nuevo p, PrimFloat.add (float_de_Z nuevo) p)
        entrada_float_ltb ga inicio objetivo.

(** The first call [h(inicio, objetivo)] raises [KeyError] when the
    start or the goal has no coordinates. *)
Definition a_star_pasos (ga : GrafoActivo) (inicio objetivo : nat)
    : llamada (list paso * list nat * gmap nat Z) :=
  match heuristica (generar_coords (N ga)) inicio objetivo with
  | Raise e => Lanza e
  | Ok _ =>
      a_star_gen (h_objetivo ga objetivo)
                 (λ nuevo p, PrimFloat.add (float_de_Z nuevo) p)
                 entrada_float_ltb ga inicio objetivo
  end.

End AStar.

(** ** Bellman-Ford ([algorithms/bellman_ford.py])

    A step is one of the two dictionaries the source appends: the one of
    a relaxation (['tipo': 'relajacion'], ['cambio': True]) or the one of
    a round without change (['tipo': 'sin_cambios'], ['cambio': False]).
    The fields [relajadas] and [rondas] of the state are not in the
    source: [relajadas] counts the relaxations of the current round and
    [rondas] lists that count for every round that was run. *)

Module BellmanFord.

Inductive paso :=
  | Relajacion (iter : nat) (dist : list num) (padre : gmap nat (option nat))
               (arista_evaluada : nat * nat) (peso : Z)
               (dist_anterior dist_nueva : num)
  | SinCambios (iter : nat) (dist : list num) (padre : gmap nat (option nat)).

Record estado := {
  dist : list num;
  padre : gmap nat (option nat);
  pasos : list paso;
  cambio_en_iteracion : bool;
  relajadas : nat;
  rondas : list nat
}.

(** One turn of [for u, v, peso in grafo] in round [i]. *)
Definition relajar (i : nat) (s : estado) (a : nat * nat * Z) : estado :=
  let '(u, v, peso) := a in
  let dist_anterior := default Inf (dist s !! v) in
  match default Inf (dist s !! u) with
  | Inf => s
  | Num du =>
      if Z_lt_num (int64 (du + peso)) dist_anterior then
        let dist' := <[v := Num (int64 (du + peso))]> (dist s) in
        let padre' := <[v := Some u]> (padre s) in
        {| dist := dist';
           padre := padre';
           pasos := pasos s ++
             [Relajacion (i + 1) dist' padre' (u, v) peso dist_anterior
                         (default Inf (dist' !! v))];
           cambio_en_iteracion := true;
           relajadas := S (relajadas s);
           rondas := rondas s |}
      else s
  end.

(** The body of [for i in range(ga.N - 1)]; [Alto] is the [break]. *)
Definition ronda (grafo : list (nat * nat * Z)) (s : estado) (i : nat) : flujo estado :=
  let s0 := {| dist := dist s; padre := padre s; pasos := pasos s;
               cambio_en_iteracion := false; relajadas := O; rondas := rondas s |} in
  let s1 := foldl (relajar i) s0 grafo in
  let s2 := {| dist := dist s1; padre := padre s1; pasos := pasos s1;
               cambio_en_iteracion := cambio_en_iteracion s1;
               relajadas := relajadas s1;
               rondas := rondas s1 ++ [relajadas s1] |} in
  if cambio_en_iteracion s1 then Sigue s2
  else Alto {| dist := dist s2; padre := padre s2;
               pasos := pasos s2 ++ [SinCambios (i + 1) (dist s2) (padre s2)];
               cambio_en_iteracion := false;
               relajadas := relajadas s2; rondas := rondas s2 |}.

Fixpoint rondas_desde (grafo : list (nat * nat * Z)) (s : estado) (idx : list nat)
    : estado :=
  match idx with
  | [] => s
  | i :: r =>
      match ronda grafo s i with
      | Sigue s' => rondas_desde grafo s' r
      | Alto s' => s'
      end
  end.

Definition inicial (ga : GrafoActivo) (origen : nat) : estado :=
  {| dist := <[origen := Num 0]> (replicate (N ga) Inf);
     padre := {[origen := None]};
     pasos := [];
     cambio_en_iteracion := false;
     relajadas := O;
     rondas := [] |}.

Definition final (ga : GrafoActivo) (origen : nat) : estado :=
  rondas_desde (matriz_a_aristas (matriz ga)) (inicial ga origen) (seq 0 (N ga - 1)).

(** [dist[origen] = 0] raises [IndexError] when [origen] is no index of
    [dist]; [inicial] is the state after it. *)
Definition bellman_ford_pasos (ga : GrafoActivo) (origen objetivo : nat)
    : llamada (list paso * list nat * list num) :=
  if bool_decide (origen < N ga)%nat then
    let s := final ga origen in
    match reconstruir (padre s) objetivo with
    | Some camino => Devuelve (pasos s, camino, dist s)
    | None => NoTermina
    end
  else Lanza IndexError.

End BellmanFord.

(** ** Kruskal ([algorithms/kruskal.py]) *)

Module Kruskal.

Record paso := {
  edge : nat * nat;
  w : Z;
  ok : bool;
  mst : list (nat * nat)
}.

(** [sorted(..., key=lambda x: x[2])]: a stable sort by weight. *)
Fixpoint insertar (a : nat * nat * Z) (l : list (nat * nat * Z)) : list (nat * nat * Z) :=
  match l with
  | [] => [a]
  | b :: r => if bool_decide (b.2 ≤ a.2) then b :: insertar a r else a :: b :: r
  end.

Definition ordenar (l : list (nat * nat * Z)) : list (nat * nat * Z) :=
  foldl (λ acc a, insertar a acc) [] l.

Definition aristas (ga : GrafoActivo) : list (nat * nat * Z) :=
  ordenar (i ← seq 0 (N ga);
           j ← seq (S i) (N ga - S i);
           if bool_decide (celda (matriz ga) i j > 0)
           then [(i, j, celda (matriz ga) i j)] else []).

(** [find] with path compression. [limite] is the number of nested
    calls of [find] that the recursion limit of the interpreter leaves: a
    call beyond it raises [RecursionError]. The nodes are indices of
    [padre_uf], so the readings of the list raise nothing. *)
Fixpoint find (limite : nat) (padre_uf : list nat) (x : nat) : result (list nat * nat) :=
  match limite with
  | O => Raise RecursionError
  | S f =>
      let p := default x (padre_uf !! x) in
      if bool_decide (p ≠ x) then
        r ← find f padre_uf p;
        Ok (<[x := r.2]> r.1, r.2)
      else Ok (padre_uf, p)
  end.

Record estado := {
  padre_uf : list nat;
  e_mst : list (nat * nat);
  pasos : list paso
}.

(** The body of [for u, v, w in aristas]. *)
Definition cuerpo (limite : nat) (s : estado) (a : nat * nat * Z) : result estado :=
  let '(u, v, w) := a in
  r1 ← find limite (padre_uf s) u;
  r2 ← find limite r1.1 v;
  let ru := r1.2 in
  let rv := r2.2 in
  let aceptada := bool_decide (ru ≠ rv) in
  let uf3 := if aceptada then <[ru := rv]> r2.1 else r2.1 in
  let mst' := if aceptada then e_mst s ++ [(u, v)] else e_mst s in
  Ok {| padre_uf := uf3;
        e_mst := mst';
        pasos := pasos s ++ [{| edge := (u, v); w := w; ok := aceptada; mst := mst' |}] |}.

Definition inicial (ga : GrafoActivo) : estado :=
  {| padre_uf := seq 0 (N ga); e_mst := []; pasos := [] |}.

(** The state after the turns of the loop for the edges [l]. *)
Definition recorrer (limite : nat) (ga : GrafoActivo) (l : list (nat * nat * Z))
    : result estado :=
  plegar (cuerpo limite) (inicial ga) l.

Definition kruskal_pasos (limite : nat) (ga : GrafoActivo) : result (list paso) :=
  s ← recorrer limite ga (aristas ga); Ok (pasos s).

End Kruskal.

(** ** Prim ([algorithms/prim.py])

    [padre = [-1] * N]: the entry [-1] is [None] here. The field
    [extraidos] of the state is not in the source: it logs the heap
    entry popped at each inclusion, in step order. *)

Module Prim.

Record paso := {
  actual : nat;
  visitados : list nat;
  mst : list (nat * nat)
}.

Record estado := {
  visitado : list bool;
  heap : list (Z * nat);
  e_mst : list (nat * nat);
  padre : list (option nat);
  pasos : list paso;
  extraidos : list (Z * nat)
}.

(** One turn of [for v, w in lista[u]]. *)
Definition empujar (u : nat) (s : estado) (vw : nat * Z) : estado :=
  let '(v, w) := vw in
  if negb (default false (visitado s !! v)) then
    {| visitado := visitado s;
       heap := heappush entrada_ltb (heap s) (w, v);
       e_mst := e_mst s;
       padre := <[v := Some u]> (padre s);
       pasos := pasos s;
       extraidos := extraidos s |}
  else s.

Definition cuerpo (ga : GrafoActivo) (lista : list (list (nat * Z))) (s : estado)
    : flujo estado :=
  match heappop (heap s) with
  | None => Alto s
  | Some ((peso, u), resto) =>
      if default false (visitado s !! u) then
        Sigue {| visitado := visitado s; heap := resto; e_mst := e_mst s;
                 padre := padre s; pasos := pasos s; extraidos := extraidos s |}
      else
        let vis := <[u := true]> (visitado s) in
        let mst' :=
          match default None (padre s !! u) with
          | Some p => e_mst s ++ [(p, u)]
          | None => e_mst s
          end in
        let s1 :=
          {| visitado := vis; heap := resto; e_mst := mst'; padre := padre s;
             pasos := pasos s ++
               [{| actual := u;
                   visitados := filter (λ i, default false (vis !! i) = true) (seq 0 (N ga));
                   mst := mst' |}];
             extraidos := extraidos s ++ [(peso, u)] |} in
        Sigue (foldl (empujar u) s1 (default [] (lista !! u)))
  end.

Definition inicial (ga : GrafoActivo) : estado :=
  {| visitado := replicate (N ga) false;
     heap := [(0, 0%nat)];
     e_mst := [];
     padre := replicate (N ga) None;
     pasos := [];
     extraidos := [] |}.

(** Every turn pops one entry; a node is included once, and an
    inclusion pushes at most [N] entries. *)
Definition fuel (ga : GrafoActivo) : nat := S (S (N ga * N ga)).

Definition bucle (ga : GrafoActivo) : flujo estado :=
  iterar (cuerpo ga (matriz_a_lista_ady (matriz ga))) (fuel ga) (inicial ga).

Definition prim_pasos (ga : GrafoActivo) : list paso :=
  pasos (estado_de (bucle ga)).

End Prim.

(** The weight of a list of edges of the graph. *)
Definition peso_total (ga : GrafoActivo) (es : list (nat * nat)) : Z :=
  foldr (λ e acc, celda (matriz ga) e.1 e.2 + acc) 0 es.

(** ** Loading a graph ([grafo.py], [GrafoActivo.cargar])

    [np.array] builds a two-dimensional array from rows of one length
    and refuses rows of different lengths with a [ValueError]. The
    result is the object after a call that returned; what a failed call
    leaves in [self] is not part of the model. *)

Definition np_array (m : list (list Z)) : result (list (list Z)) :=
  match m with
  | [] => Ok []
  | f :: r =>
      if bool_decide (Forall (λ x, length x = length f) r) then Ok m
      else Raise ValueError
  end.

(** The body of the two nested loops of [cargar], for one pair [(i, j)]. *)
Definition agregar_arista (arr : list (list Z)) (nombres : list string)
    (g : gmap string (gmap string Z)) (ij : nat * nat)
    : result (gmap string (gmap string Z)) :=
  w ← celda_np arr (Z.of_nat ij.1) (Z.of_nat ij.2);
  if bool_decide (w > 0) then
    a ← indexar nombres (Z.of_nat ij.1);
    b ← indexar nombres (Z.of_nat ij.2);
    Ok (add_edge g a b w)
  else Ok g.

(** [for i in range(N): for j in range(i + 1, N)]. *)
Definition pares_superiores (n : nat) : list (nat * nat) :=
  i ← seq 0 n; j ← seq (S i) (n - S i); [(i, j)].

Definition cargar (matriz : list (list Z)) (nombres : list string) (nombre_grafo : string)
    : result GrafoActivo :=
  arr ← np_array matriz;
  g ← plegar (agregar_arista arr nombres) ∅ (pares_superiores (length matriz));
  Ok {| matriz := arr; nombres := nombres; N := length matriz; G := g;
        nombre_grafo := nombre_grafo |}.

(** ** Loading from a JSON file ([grafo.py], [cargar_desde_json])

    [json.load] yields the values below. A string is a sequence of
    characters with codes below 256. *)

#[warnings="-register-all"]
Inductive json :=
  | JNull
  | JBool (b : bool)
  | JInt (z : Z)
  | JFloat (f : float)
  | JStr (s : string)
  | JList (l : list json)
  | JDict (d : list (string * json)).

Fixpoint buscar (k : string) (d : list (string * json)) : option json :=
  match d with
  | [] => None
  | (k', v) :: r => if bool_decide (k = k') then Some v else buscar k r
  end.

Fixpoint subcadena (s t : string) : bool :=
  String.prefix s t ||
  match t with
  | EmptyString => false
  | String _ t' => subcadena s t'
  end.

Definition caracteres (s : string) : list json :=
  (λ c, JStr (String c EmptyString)) <$> String.list_ascii_of_string s.

Definition es_cadena (k : string) (x : json) : bool :=
  match x with
  | JStr s => bool_decide (s = k)
  | _ => false
  end.

(** [k in x] for a string [k]. *)
Definition py_contiene (k : string) (x : json) : result bool :=
  match x with
  | JDict d => Ok (bool_decide (is_Some (buscar k d)))
  | JList l => Ok (existsb (es_cadena k) l)
  | JStr s => Ok (subcadena k s)
  | _ => Raise TypeError
  end.

(** [len(x)] *)
Definition py_len (x : json) : result nat :=
  match x with
  | JList l => Ok (length l)
  | JStr s => Ok (String.length s)
  | JDict d => Ok (length d)
  | _ => Raise TypeError
  end.

(** The values of [for y in x]. *)
Definition py_iter (x : json) : result (list json) :=
  match x with
  | JList l => Ok l
  | JStr s => Ok (caracteres s)
  | JDict d => Ok ((λ kv, JStr kv.1) <$> d)
  | _ => Raise TypeError
  end.

(** [x[i]] for an index of a [range]. The keys of a JSON object are
    strings, so an integer is none of them. *)
Definition py_item (x : json) (i : nat) : result json :=
  match x with
  | JList l => indexar l (Z.of_nat i)
  | JStr s => indexar (caracteres s) (Z.of_nat i)
  | JDict _ => Raise KeyError
  | _ => Raise TypeError
  end.

(** [x[k]] for a string [k]. *)
Definition py_clave (x : json) (k : string) : result json :=
  match x with
  | JDict d => from_option Ok (Raise KeyError) (buscar k d)
  | _ => Raise TypeError
  end.

(** [x.get(k, d)] *)
Definition py_get (x : json) (k : string) (d : json) : result json :=
  match x with
  | JDict l => Ok (default d (buscar k l))
  | _ => Raise AttributeError
  end.

(** [fila[j] = v]. The cell was read before it is written, so [fila] is
    no dictionary here (the reading [fila[j]] of one raises); that case
    is closed with the exception of the reading. *)
Definition py_asignar (fila : json) (j : nat) (v : json) : result json :=
  match fila with
  | JList l =>
      if bool_decide (j < length l)%nat then Ok (JList (<[j := v]> l))
      else Raise IndexError
  | JDict _ => Raise KeyError
  | _ => Raise TypeError
  end.

(** [matriz[i][j] = v]: the row [matriz[i]] is fetched, then written. The
    row of a list is the list's own object; the row of a string is a new
    string, whose writing raises. *)
Definition asignar_celda (matriz : json) (i j : nat) (v : json) : result json :=
  match matriz with
  | JList filas =>
      fila ← indexar filas (Z.of_nat i);
      fila' ← py_asignar fila j v;
      Ok (JList (<[i := fila']> filas))
  | _ =>
      fila ← py_item matriz i;
      _ ← py_asignar fila j v;
      Ok matriz
  end.

Inductive salida :=
  | Exito (matriz nombres : json)
  | Fallo (mensaje : string).

(** [chr(65 + i) if i < 26 else f"N{i}"] *)
Definition nombre_por_defecto (i : nat) : json :=
  if bool_decide (i < 26)%nat
  then JStr (String (Ascii.ascii_of_nat (65 + i)) EmptyString)
  else JStr ("N" +:+ pretty i).

(** [sorted(list(nodos))] for the set [nodos] of the strings of [l]. *)
Fixpoint insertar_cadena (s : string) (l : list string) : list string :=
  match l with
  | [] => [s]
  | t :: r =>
      if String.eqb s t then l
      else if String.ltb s t then s :: l
      else t :: insertar_cadena s r
  end.

Definition ordenar_conjunto (l : list string) : list string :=
  foldl (λ acc s, insertar_cadena s acc) [] l.

(** [idx[s]] for [idx = {nombre: i for i, nombre in enumerate(nombres)}]. *)
Definition indice (nombres : list string) (s : string) : nat :=
  default O (fst <$> list_find (λ t, t = s) nombres).

(** [for i in range(n): for j in range(n)] *)
Definition pares (n : nat) : list (nat * nat) :=
  i ← seq 0 n; j ← seq 0 n; [(i, j)].

Definition mensaje_no_cuadrada : string := "La matriz no es cuadrada".
Definition mensaje_sin_clave : string := "JSON debe contener 'matriz' o 'aristas'".
Definition mensaje_no_encontrado : string := "Archivo no encontrado".
Definition mensaje_json_invalido : string :=
  "JSON inv" +:+ String (Ascii.ascii_of_nat 225) "lido".

Section carga_json.
(** The interpreter and the file system: [open(ruta)] with
    [json.load(f)]; the comparison [!=] and [max] of two values;
    [str(x)] of a value; [str(e)] of an exception. *)
Variable leer_json : string → result json.
Variable py_ne : json → json → bool.
Variable py_max : json → json → result json.
Variable py_str : json → string.
Variable str_exn : exn → string.

(** [for fila in matriz: if len(fila) != n: return ...]; [true] when
    the loop returns. *)
Fixpoint no_cuadrada (n : nat) (filas : list json) : result bool :=
  match filas with
  | [] => Ok false
  | fila :: r =>
      k ← py_len fila;
      if bool_decide (k ≠ n) then Ok true else no_cuadrada n r
  end.

Definition simetrizar_celda (matriz : json) (ij : nat * nat) : result json :=
  fi ← py_item matriz ij.1;
  a ← py_item fi ij.2;
  fj ← py_item matriz ij.2;
  b ← py_item fj ij.1;
  if py_ne a b then
    val ← py_max a b;
    m1 ← asignar_celda matriz ij.1 ij.2 val;
    asignar_celda m1 ij.2 ij.1 val
  else Ok matriz.

Definition formato_matriz (data : json) : result salida :=
  matriz ← py_clave data "matriz";
  n ← py_len matriz;
  filas ← py_iter matriz;
  mal ← no_cuadrada n filas;
  if mal : bool then Ok (Fallo mensaje_no_cuadrada)
  else
    matriz' ← plegar simetrizar_celda matriz (pares n);
    nombres ← py_get data "nombres" JNull;
    por_defecto ← match nombres with
                  | JNull => Ok true
                  | _ => k ← py_len nombres; Ok (bool_decide (k ≠ n))
                  end;
    Ok (Exito matriz'
              (if por_defecto : bool then JList (nombre_por_defecto <$> seq 0 n)
               else nombres)).

Definition recoger_nodos (nodos : list string) (a : json) : result (list string) :=
  o ← py_clave a "origen";
  d ← py_clave a "destino";
  Ok (nodos ++ [py_str o; py_str d]).

Definition poner_arista (nombres : list string) (matriz : list (list json)) (a : json)
    : result (list (list json)) :=
  o ← py_clave a "origen";
  d ← py_clave a "destino";
  let u := indice nombres (py_str o) in
  let v := indice nombres (py_str d) in
  peso ← py_get a "peso" (JInt 1);
  let m1 := alter (λ fila, <[v := peso]> fila) u matriz in
  Ok (alter (λ fila, <[u := peso]> fila) v m1).

Definition formato_aristas (data : json) : result salida :=
  aristas ← py_clave data "aristas";
  elementos ← py_iter aristas;
  nodos ← plegar recoger_nodos [] elementos;
  let nombres := ordenar_conjunto nodos in
  let n := length nombres in
  matriz ← plegar (poner_arista nombres) (replicate n (replicate n (JInt 0))) elementos;
  Ok (Exito (JList (JList <$> matriz)) (JList (JStr <$> nombres))).

(** The body of the [try]. *)
Definition intento (ruta : string) : result salida :=
  data ← leer_json ruta;
  es_matriz ← py_contiene "matriz" data;
  if es_matriz : bool then formato_matriz data
  else
    es_aristas ← py_contiene "aristas" data;
    if es_aristas : bool then formato_aristas data
    else Ok (Fallo mensaje_sin_clave).

Definition cargar_desde_json (ruta : string)
    : option json * option json * option string :=
  match intento ruta with
  | Ok (Exito matriz nombres) => (Some matriz, Some nombres, None)
  | Ok (Fallo mensaje) => (None, None, Some mensaje)
  | Raise FileNotFoundError => (None, None, Some mensaje_no_encontrado)
  | Raise JSONDecodeError => (None, None, Some mensaje_json_invalido)
  | Raise e => (None, None, Some (str_exn e))
  end.
End carga_json.

(** ** The sample graphs, loaded *)

Definition vacio : GrafoActivo :=
  {| matriz := []; nombres := []; N := 0; G := ∅; nombre_grafo := "" |}.

Definition cargado (r : result GrafoActivo) : GrafoActivo :=
  match r with
  | Ok ga => ga
  | Raise _ => vacio
  end.

Definition grafo1 : GrafoActivo := cargado (cargar matriz_grafo1 nombres_grafo1 "Grafo 1").
Definition grafo2 : GrafoActivo := cargado (cargar matriz_grafo2 nombres_grafo2 "Grafo 2").

(** A graph of ten nodes with the three edges 0-1 (weight 3), 1-3
    (weight 1) and 0-3 (weight 1). On the grid of [generar_coords 10]
    the nodes 0, 1 and 3 are in the first row, in columns 0, 1 and 3. *)
Definition matriz_atajo : list (list Z) :=
  [ [0; 3; 0; 1; 0; 0; 0; 0; 0; 0];
    [3; 0; 0; 1; 0; 0; 0; 0; 0; 0];
    [0; 0; 0; 0; 0; 0; 0; 0; 0; 0];
    [1; 1; 0; 0; 0; 0; 0; 0; 0; 0];
    [0; 0; 0; 0; 0; 0; 0; 0; 0; 0];
    [0; 0; 0; 0; 0; 0; 0; 0; 0; 0];
    [0; 0; 0; 0; 0; 0; 0; 0; 0; 0];
    [0; 0; 0; 0; 0; 0; 0; 0; 0; 0];
    [0; 0; 0; 0; 0; 0; 0; 0; 0; 0];
    [0; 0; 0; 0; 0; 0; 0; 0; 0; 0] ].

Definition grafo_atajo : GrafoActivo :=
  cargado (cargar matriz_atajo (replicate 10 "n"%string) "atajo").

(** The sum of the weights of the accepted steps of Kruskal. *)
Definition peso_aceptado (ps : list Kruskal.paso) : Z :=
  foldr (λ p acc, if Kruskal.ok p then Kruskal.w p + acc else acc) 0 ps.

(** The ['mst'] list of the last step of Prim. *)
Definition mst_final (ps : list Prim.paso) : list (nat * nat) :=
  default [] (Prim.mst <$> last ps).

(** ** Reading a Bellman-Ford trace *)












(** ** Reading a trace of visits

    [crece prev l fin]: the list [l] of pairs (['actual'], ['visitados'])
    starts from the set [prev], every step adds its own node, which was
    not in the set before, and nothing else, and the last set is [fin]. *)
Fixpoint crece `{Countable A} (prev : gset A) (l : list (A * gset A)) (fin : gset A) : Prop :=
  match l with
  | [] => fin = prev
  | (a, v) :: r => (a ∉ prev) ∧ v = {[a]} ∪ prev ∧ crece v r fin
  end.

(** The nodes not yet visited among the candidates. *)
Definition faltan `{Countable A} (vis : gset A) (cands : list A) : nat :=
  length (filter (λ v, v ∉ vis) cands).

(** The node from which [v] was first appended to the queue, in the log
    of the appends. *)
Fixpoint primer_origen (v : Z) (log : list (Z * Z)) : option Z :=
  match log with
  | [] => None
  | (u, w) :: r => if bool_decide (w = v) then Some u else primer_origen v r
  end.

(** An index that NumPy accepts on an axis of length [N]. *)
Definition indice_valido (ga : GrafoActivo) (x : Z) : Prop :=
  - Z.of_nat (N ga) ≤ x < Z.of_nat (N ga).

Definition bfs_vista (p : BFS.paso) : Z * gset Z := (BFS.actual p, BFS.visitados p).

Record bfs_inv (ga : GrafoActivo) (inicio : Z) (s : BFS.estado) : Prop := {
  bfs_inv_cola : Forall (λ x, x ∈ inicio :: BFS.rango (N ga)) (BFS.cola s);
  bfs_inv_crece : crece ∅ (bfs_vista <$> BFS.pasos s) (BFS.visitado s);
  bfs_inv_raiz : BFS.padre s !! inicio = Some None;
  bfs_inv_padre : ∀ v, v ≠ inicio →
    BFS.padre s !! v = Some <$> primer_origen v (BFS.encolados s);
  bfs_inv_pasos : ∀ k p, BFS.pasos s !! k = Some p → BFS.p_padre p ⊆ BFS.padre s;
  bfs_inv_orden : ∀ k k' p p', (k ≤ k')%nat →
    BFS.pasos s !! k = Some p → BFS.pasos s !! k' = Some p' →
    BFS.p_padre p ⊆ BFS.p_padre p';
  bfs_inv_primero :
    (BFS.pasos s = [] ∧ BFS.cola s = [inicio] ∧ BFS.visitado s = ∅) ∨
    BFS.actual <$> head (BFS.pasos s) = Some inicio
}.

Definition bfs_medida (ga : GrafoActivo) (inicio : Z) (s : BFS.estado) : nat :=
  length (BFS.cola s) + N ga * faltan (BFS.visitado s) (inicio :: BFS.rango (N ga)).


(** ** Walks and their costs

    [camino_de ga inicio v c]: some walk from [inicio] to [v] along
    edges of the matrix (cells above zero) costs [c]. *)
Inductive camino_de (ga : GrafoActivo) (inicio : nat) : nat → Z → Prop :=
  | camino_inicio : camino_de ga inicio inicio 0
  | camino_arista (u v : nat) (c : Z) :
      camino_de ga inicio u c → (v < N ga)%nat → celda (matriz ga) u v > 0 →
      camino_de ga inicio v (c + celda (matriz ga) u v).

(** The order of the heap entries with an integer priority. *)
Definition entrada_le (a b : Z * nat) : Prop :=
  a.1 < b.1 ∨ (a.1 = b.1 ∧ (a.2 ≤ b.2)%nat).

Definition dij_vista (p : Dijkstra.paso) : nat * gset nat :=
  (Dijkstra.actual p, Dijkstra.visitados p).

(** The invariant of the loop of Dijkstra, between two turns. *)
Record dij_inv (ga : GrafoActivo) (inicio : nat) (s : Dijkstra.estado) : Prop := {
  dij_len : length (Dijkstra.dist s) = N ga;
  dij_nodos : Forall (λ e, (e.2 < N ga)%nat) (Dijkstra.pq s);
  dij_crece : crece ∅ (dij_vista <$> Dijkstra.pasos s) (Dijkstra.visitado s);
  dij_orden : StronglySorted entrada_le (Dijkstra.pq s);
  dij_inicio : Dijkstra.dist s !! inicio = Some (Num 0);
  dij_camino : ∀ v d, Dijkstra.dist s !! v = Some (Num d) → camino_de ga inicio v d;
  dij_finito : ∀ u, u ∈ Dijkstra.visitado s →
    ∃ du, Dijkstra.dist s !! u = Some (Num du);
  dij_relajado : ∀ u v du, u ∈ Dijkstra.visitado s → (v < N ga)%nat →
    celda (matriz ga) u v > 0 → Dijkstra.dist s !! u = Some (Num du) →
    ∃ dv, Dijkstra.dist s !! v = Some (Num dv) ∧ dv ≤ du + celda (matriz ga) u v;
  dij_encolado : ∀ v d, v ∉ Dijkstra.visitado s →
    Dijkstra.dist s !! v = Some (Num d) → (d, v) ∈ Dijkstra.pq s;
  dij_claves : ∀ c v, (c, v) ∈ Dijkstra.pq s →
    ∃ d, Dijkstra.dist s !! v = Some (Num d) ∧ d ≤ c;
  dij_monotono : ∀ u c v du, u ∈ Dijkstra.visitado s → (c, v) ∈ Dijkstra.pq s →
    Dijkstra.dist s !! u = Some (Num du) → du ≤ c;
  dij_optimo : ∀ u c du, u ∈ Dijkstra.visitado s → camino_de ga inicio u c →
    Dijkstra.dist s !! u = Some (Num du) → du ≤ c
}.

(** The invariant inside [for v in range(ga.N)], for the node [u]
    popped with the cost [du], after the turns for the nodes [hechos]. *)
Record dij_exp (ga : GrafoActivo) (inicio u : nat) (du : Z) (hechos : list nat)
    (s : Dijkstra.estado) : Prop := {
  exp_len : length (Dijkstra.dist s) = N ga;
  exp_nodos : Forall (λ e, (e.2 < N ga)%nat) (Dijkstra.pq s);
  exp_orden : StronglySorted entrada_le (Dijkstra.pq s);
  exp_inicio : Dijkstra.dist s !! inicio = Some (Num 0);
  exp_camino : ∀ v d, Dijkstra.dist s !! v = Some (Num d) → camino_de ga inicio v d;
  exp_u : Dijkstra.dist s !! u = Some (Num du);
  exp_visitado : u ∈ Dijkstra.visitado s;
  exp_cota : ∀ x, x ∈ Dijkstra.visitado s →
    ∃ dx, Dijkstra.dist s !! x = Some (Num dx) ∧ dx ≤ du;
  exp_relajado : ∀ x v dx, x ∈ Dijkstra.visitado s → x ≠ u → (v < N ga)%nat →
    celda (matriz ga) x v > 0 → Dijkstra.dist s !! x = Some (Num dx) →
    ∃ dv, Dijkstra.dist s !! v = Some (Num dv) ∧ dv ≤ dx + celda (matriz ga) x v;
  exp_parcial : ∀ v, v ∈ hechos → celda (matriz ga) u v > 0 →
    ∃ dv, Dijkstra.dist s !! v = Some (Num dv) ∧ dv ≤ du + celda (matriz ga) u v;
  exp_encolado : ∀ v d, v ∉ Dijkstra.visitado s →
    Dijkstra.dist s !! v = Some (Num d) → (d, v) ∈ Dijkstra.pq s;
  exp_claves : ∀ c v, (c, v) ∈ Dijkstra.pq s →
    ∃ d, Dijkstra.dist s !! v = Some (Num d) ∧ d ≤ c;
  exp_monotono : ∀ c v, (c, v) ∈ Dijkstra.pq s → du ≤ c;
  exp_optimo : ∀ x c dx, x ∈ Dijkstra.visitado s → camino_de ga inicio x c →
    Dijkstra.dist s !! x = Some (Num dx) → dx ≤ c
}.

(** How the loop of Dijkstra ends. *)
Record dij_fin (ga : GrafoActivo) (inicio objetivo : nat) (s : Dijkstra.estado) : Prop := {
  fin_len : length (Dijkstra.dist s) = N ga;
  fin_crece : crece ∅ (dij_vista <$> Dijkstra.pasos s) (Dijkstra.visitado s);
  fin_camino : ∀ v d, Dijkstra.dist s !! v = Some (Num d) → camino_de ga inicio v d;
  fin_optimo : ∀ c, camino_de ga inicio objetivo c →
    ∃ d, Dijkstra.dist s !! objetivo = Some (Num d) ∧ d ≤ c
}.

Definition dij_medida (ga : GrafoActivo) (s : Dijkstra.estado) : nat :=
  length (Dijkstra.pq s) + N ga * faltan (Dijkstra.visitado s) (seq 0 (N ga)).

(** [margen ga vis c]: the cost [c] leaves room for one more weight for
    each node of the graph that is not in [vis]. *)
Definition margen (ga : GrafoActivo) (vis : gset nat) (c : Z) : Prop :=
  0 ≤ c ∧
  c + Z.of_nat (faltan vis (seq 0 (N ga))) * peso_max ga ≤ Z.of_nat (N ga) * peso_max ga.

(** The costs in the queue of Dijkstra are bounded. *)
Definition dij_cota (ga : GrafoActivo) (s : Dijkstra.estado) : Prop :=
  Forall (λ e, (e.2 < N ga)%nat ∧ margen ga (Dijkstra.visitado s) e.1) (Dijkstra.pq s).

Definition ast_vista (p : AStar.paso) : nat * gset nat :=
  (AStar.actual p, AStar.visitados p).

(** The invariant of the loop of A*, whatever the priorities. *)
Record ast_inv {P : Type} (ga : GrafoActivo) (inicio : nat) (s : @AStar.estado P) : Prop := {
  ast_nodos : Forall (λ e, (e.2 < N ga)%nat ∧ is_Some (AStar.g s !! e.2)) (AStar.pq s);
  ast_crece : crece ∅ (ast_vista <$> AStar.pasos s) (AStar.visitado s);
  ast_camino : ∀ v c, AStar.g s !! v = Some c → camino_de ga inicio v c
}.

Definition ast_medida {P : Type} (ga : GrafoActivo) (s : @AStar.estado P) : nat :=
  length (AStar.pq s) + N ga * faltan (AStar.visitado s) (seq 0 (N ga)).

(** The costs in [g] are bounded. *)
Definition ast_cota {P : Type} (ga : GrafoActivo) (s : @AStar.estado P) : Prop :=
  ∀ v c, AStar.g s !! v = Some c → margen ga (AStar.visitado s) c.

Definition dfs_vista (p : DFS.paso) : nat * gset nat := (DFS.actual p, DFS.visitados p).

(** The nodes that Prim has marked, in the order of the list of a step. *)
Definition marcados (ga : GrafoActivo) (vis : list bool) : list nat :=
  filter (λ i, default false (vis !! i) = true) (seq 0 (N ga)).

Definition prim_vista (p : Prim.paso) : nat * gset nat :=
  (Prim.actual p, list_to_set (Prim.visitados p)).

Record prim_inv (ga : GrafoActivo) (s : Prim.estado) : Prop := {
  prim_len : length (Prim.visitado s) = N ga;
  prim_nodos : Forall (λ e, (e.2 < N ga)%nat) (Prim.heap s);
  prim_crece : crece ∅ (prim_vista <$> Prim.pasos s) (list_to_set (marcados ga (Prim.visitado s)))
}.

Definition prim_medida (ga : GrafoActivo) (s : Prim.estado) : nat :=
  length (Prim.heap s) +
  N ga * faltan (list_to_set (marcados ga (Prim.visitado s)) : gset nat) (seq 0 (N ga)).

(** [extiende prev ps fin]: from the list [prev], every step of
    Kruskal has as ['mst'] the list before it, with its own edge
    appended when the step is accepted, and the last list is [fin]. *)
Fixpoint extiende (prev : list (nat * nat)) (ps : list Kruskal.paso)
    (fin : list (nat * nat)) : Prop :=
  match ps with
  | [] => fin = prev
  | p :: r =>
      Kruskal.mst p = (if Kruskal.ok p then prev ++ [Kruskal.edge p] else prev) ∧
      extiende (Kruskal.mst p) r fin
  end.

(** ** Objects and references

    The mutable objects of one type live in an arena: a list indexed by
    the address of the object. A step holds the addresses of the objects
    of its fields. [alojar] allocates an object (the copy made by
    [set(x)], [dict(x)], [x[:]] or [list(x)]), [mutar] changes an object
    in place, and [valor] reads one. The working objects of an
    algorithm are the first of their arenas. *)

Definition alojar {A : Type} (ar : list A) (x : A) : list A * nat :=
  (ar ++ [x], length ar).

Definition mutar {A : Type} (f : A → A) (ar : list A) (l : nat) : list A :=
  alter f l ar.

Definition valor {A : Type} (d : A) (ar : list A) (l : nat) : A :=
  default d (ar !! l).

(** [conserva k ar ar']: from [ar] to [ar'] no object is lost, and the
    objects from the address [k] on are unchanged. *)
Definition conserva {A : Type} (k : nat) (ar ar' : list A) : Prop :=
  (length ar ≤ length ar')%nat ∧ ∀ l, (k ≤ l < length ar)%nat → ar' !! l = ar !! l.

Global Arguments alojar : simpl never.
Global Arguments mutar : simpl never.
Global Arguments valor : simpl never.

(** ** BFS over objects *)

Module BFSMem.

Record paso := {
  actual : Z;
  visitados : nat;      (* the address of the set *)
  p_padre : nat         (* the address of the dictionary *)
}.

Record estado := {
  conjuntos : list (gset Z);               (* [visitado] is at 0 *)
  dicts : list (gmap Z (option Z));        (* [padre] is at 0 *)
  cola : list Z;
  pasos : list paso;
  encolados : list (Z * Z)
}.

Definition visitado (s : estado) : gset Z := valor ∅ (conjuntos s) 0.
Definition padre (s : estado) : gmap Z (option Z) := valor ∅ (dicts s) 0.
Global Arguments visitado : simpl never.
Global Arguments padre : simpl never.

Definition explorar (ga : GrafoActivo) (u : Z) (s : estado) (v : Z) : result estado :=
  w ← celda_np (matriz ga) u v;
  if bool_decide (w > 0) && bool_decide (v ∉ visitado s) then
    Ok {| conjuntos := conjuntos s;
          dicts := match padre s !! v with
                   | None => mutar (<[v := Some u]>) (dicts s) 0
                   | Some _ => dicts s
                   end;
          cola := cola s ++ [v];
          pasos := pasos s;
          encolados := encolados s ++ [(u, v)] |}
  else Ok s.

Definition cuerpo (ga : GrafoActivo) (s : estado) : result (flujo estado) :=
  match cola s with
  | [] => Ok (Alto s)
  | u :: resto =>
      if bool_decide (u ∈ visitado s) then
        Ok (Sigue {| conjuntos := conjuntos s; dicts := dicts s; cola := resto;
                     pasos := pasos s; encolados := encolados s |})
      else
        (* visitado.add(u) *)
        let c1 := mutar (λ vis, {[u]} ∪ vis) (conjuntos s) 0 in
        (* set(visitado) *)
        let cv := alojar c1 (valor ∅ c1 0) in
        (* dict(padre) *)
        let dp := alojar (dicts s) (valor ∅ (dicts s) 0) in
        let s1 := {| conjuntos := cv.1; dicts := dp.1; cola := resto;
                     pasos := pasos s ++ [{| actual := u; visitados := cv.2;
                                             p_padre := dp.2 |}];
                     encolados := encolados s |} in
        s2 ← plegar (explorar ga u) s1 (BFS.rango (N ga));
        Ok (Sigue s2)
  end.

Definition inicial (inicio : Z) : estado :=
  {| conjuntos := [∅]; dicts := [{[inicio := None]}]; cola := [inicio];
     pasos := []; encolados := [] |}.

Definition bucle (ga : GrafoActivo) (turnos : nat) (inicio : Z) : result (flujo estado) :=
  iterar_exc (cuerpo ga) turnos (inicial inicio).

(** What a step holds, read in the memory of the state [s]. *)
Definition leer (s : estado) (p : paso) : BFS.paso :=
  {| BFS.actual := actual p;
     BFS.visitados := valor ∅ (conjuntos s) (visitados p);
     BFS.p_padre := valor ∅ (dicts s) (p_padre p) |}.

(** The trace, as its reader finds it in the state [s]. *)
Definition traza (s : estado) : list BFS.paso := leer s <$> pasos s.

Definition valores (s : estado) : BFS.estado :=
  {| BFS.visitado := visitado s; BFS.cola := cola s; BFS.padre := padre s;
     BFS.pasos := traza s; BFS.encolados := encolados s |}.

Definition bien_formado (s : estado) : Prop :=
  (0 < length (conjuntos s))%nat ∧ (0 < length (dicts s))%nat ∧
  Forall (λ p, (0 < visitados p < length (conjuntos s))%nat ∧
               (0 < p_padre p < length (dicts s))%nat) (pasos s).

(** From [s] to [s'] the steps of [s] are kept, and so are the objects
    they hold. *)
Definition estable (s s' : estado) : Prop :=
  conserva 1 (conjuntos s) (conjuntos s') ∧ conserva 1 (dicts s) (dicts s') ∧
  pasos s `prefix_of` pasos s'.

End BFSMem.

(** ** Refinement of a run over objects by the run over values

    [abs] reads the values of a state over objects, [wf] is the
    well-formedness of such a state, and [R s a] relates a state [s] to a
    later state [a]. *)

Definition refina_estado {A B : Type} (abs : A → B) (wf : A → Prop) (R : A → A → Prop)
    (s a : A) (b : B) : Prop :=
  abs a = b ∧ wf a ∧ R s a.

Definition refina_flujo {A B : Type} (abs : A → B) (wf : A → Prop) (R : A → A → Prop)
    (s : A) (r : flujo A) (r' : flujo B) : Prop :=
  match r, r' with
  | Sigue a, Sigue b | Alto a, Alto b => refina_estado abs wf R s a b
  | _, _ => False
  end.

Definition refina_resultado {X Y : Type} (rel : X → Y → Prop)
    (r : result X) (r' : result Y) : Prop :=
  match r, r' with
  | Ok a, Ok b => rel a b
  | Raise e, Raise e' => e = e'
  | _, _ => False
  end.


(** ** Dijkstra over objects *)

Module DijkstraMem.

Record paso := {
  actual : nat;
  visitados : nat;      (* the address of the set *)
  p_dist : nat;         (* the address of the list *)
  p_padre : nat         (* the address of the dictionary *)
}.

Record estado := {
  conjuntos : list (gset nat);               (* [visitado] is at 0 *)
  listas : list (list num);                  (* [dist] is at 0 *)
  dicts : list (gmap nat (option nat));      (* [padre] is at 0 *)
  pq : list (Z * nat);
  pasos : list paso
}.

Definition visitado (s : estado) : gset nat := valor ∅ (conjuntos s) 0.
Definition dist (s : estado) : list num := valor [] (listas s) 0.
Definition padre (s : estado) : gmap nat (option nat) := valor ∅ (dicts s) 0.
Global Arguments visitado : simpl never.
Global Arguments dist : simpl never.
Global Arguments padre : simpl never.

Definition relajar (ga : GrafoActivo) (costo : Z) (u : nat) (s : estado) (v : nat) : estado :=
  if bool_decide (celda (matriz ga) u v > 0) then
    let nuevo := int64 (costo + celda (matriz ga) u v) in
    if Z_lt_num nuevo (default Inf (dist s !! v)) then
      {| conjuntos := conjuntos s;
         listas := mutar (<[v := Num nuevo]>) (listas s) 0;
         dicts := mutar (<[v := Some u]>) (dicts s) 0;
         pq := heappush entrada_ltb (pq s) (nuevo, v);
         pasos := pasos s |}
    else s
  else s.

Definition cuerpo (ga : GrafoActivo) (objetivo : nat) (s : estado) : flujo estado :=
  match heappop (pq s) with
  | None => Alto s
  | Some ((costo, u), resto) =>
      if bool_decide (u ∈ visitado s) then
        Sigue {| conjuntos := conjuntos s; listas := listas s; dicts := dicts s;
                 pq := resto; pasos := pasos s |}
      else
        (* visitado.add(u) *)
        let c1 := mutar (λ vis, {[u]} ∪ vis) (conjuntos s) 0 in
        (* set(visitado), dist[:], dict(padre) *)
        let cv := alojar c1 (valor ∅ c1 0) in
        let ld := alojar (listas s) (valor [] (listas s) 0) in
        let dp := alojar (dicts s) (valor ∅ (dicts s) 0) in
        let s1 := {| conjuntos := cv.1; listas := ld.1; dicts := dp.1; pq := resto;
                     pasos := pasos s ++ [{| actual := u; visitados := cv.2;
                                             p_dist := ld.2; p_padre := dp.2 |}] |} in
        if bool_decide (u = objetivo) then Alto s1
        else Sigue (foldl (relajar ga costo u) s1 (seq 0 (N ga)))
  end.

Definition inicial (ga : GrafoActivo) (inicio : nat) : estado :=
  {| conjuntos := [∅];
     listas := [<[inicio := Num 0]> (replicate (N ga) Inf)];
     dicts := [{[inicio := None]}];
     pq := [(0, inicio)];
     pasos := [] |}.

Definition bucle (ga : GrafoActivo) (turnos : nat) (inicio objetivo : nat) : flujo estado :=
  iterar (cuerpo ga objetivo) turnos (inicial ga inicio).

Definition leer (s : estado) (p : paso) : Dijkstra.paso :=
  {| Dijkstra.actual := actual p;
     Dijkstra.visitados := valor ∅ (conjuntos s) (visitados p);
     Dijkstra.p_dist := valor [] (listas s) (p_dist p);
     Dijkstra.p_padre := valor ∅ (dicts s) (p_padre p) |}.

Definition traza (s : estado) : list Dijkstra.paso := leer s <$> pasos s.

Definition valores (s : estado) : Dijkstra.estado :=
  {| Dijkstra.dist := dist s; Dijkstra.padre := padre s; Dijkstra.pq := pq s;
     Dijkstra.pasos := traza s; Dijkstra.visitado := visitado s |}.

Definition bien_formado (s : estado) : Prop :=
  (0 < length (conjuntos s))%nat ∧ (0 < length (listas s))%nat ∧
  (0 < length (dicts s))%nat ∧
  Forall (λ p, (0 < visitados p < length (conjuntos s))%nat ∧
               (0 < p_dist p < length (listas s))%nat ∧
               (0 < p_padre p < length (dicts s))%nat) (pasos s).

Definition estable (s s' : estado) : Prop :=
  conserva 1 (conjuntos s) (conjuntos s') ∧ conserva 1 (listas s) (listas s') ∧
  conserva 1 (dicts s) (dicts s') ∧ pasos s `prefix_of` pasos s'.

End DijkstraMem.

(** ** A* over objects *)

Module AStarMem.

Record paso := {
  actual : nat;
  visitados : nat;      (* the address of the set *)
  p_g : nat;            (* the address of the dictionary of costs *)
  p_padre : nat         (* the address of the dictionary of parents *)
}.

Section generico.
Context {P : Type} (h : nat → P) (suma : Z → P → P) (ltb : P * nat → P * nat → bool).

Record estado := {
  conjuntos : list (gset nat);               (* [visitado] is at 0 *)
  costos : list (gmap nat Z);                (* [g] is at 0 *)
  dicts : list (gmap nat (option nat));      (* [padre] is at 0 *)
  pq : list (P * nat);
  pasos : list paso
}.

Definition visitado (s : estado) : gset nat := valor ∅ (conjuntos s) 0.
Definition g (s : estado) : gmap nat Z := valor ∅ (costos s) 0.
Definition padre (s : estado) : gmap nat (option nat) := valor ∅ (dicts s) 0.

Definition expandir (ga : GrafoActivo) (u : nat) (s : estado) (v : nat) : estado :=
  if bool_decide (celda (matriz ga) u v > 0) then
    let nuevo := int64 (default 0 (g s !! u) + celda (matriz ga) u v) in
    if match g s !! v with
       | None => true
       | Some gv => bool_decide (nuevo < gv)
       end
    then
      {| conjuntos := conjuntos s;
         costos := mutar (<[v := nuevo]>) (costos s) 0;
         dicts := mutar (<[v := Some u]>) (dicts s) 0;
         pq := heappush ltb (pq s) (suma nuevo (h v), v);
         pasos := pasos s |}
    else s
  else s.

Definition cuerpo (ga : GrafoActivo) (objetivo : nat) (s : estado) : flujo estado :=
  match heappop (pq s) with
  | None => Alto s
  | Some ((_, u), resto) =>
      if bool_decide (u ∈ visitado s) then
        Sigue {| conjuntos := conjuntos s; costos := costos s; dicts := dicts s;
                 pq := resto; pasos := pasos s |}
      else
        (* visitado.add(u) *)
        let c1 := mutar (λ vis, {[u]} ∪ vis) (conjuntos s) 0 in
        (* set(visitado), dict(g), dict(padre) *)
        let cv := alojar c1 (valor ∅ c1 0) in
        let cg := alojar (costos s) (valor ∅ (costos s) 0) in
        let dp := alojar (dicts s) (valor ∅ (dicts s) 0) in
        let s1 := {| conjuntos := cv.1; costos := cg.1; dicts := dp.1; pq := resto;
                     pasos := pasos s ++ [{| actual := u; visitados := cv.2;
                                             p_g := cg.2; p_padre := dp.2 |}] |} in
        if bool_decide (u = objetivo) then Alto s1
        else Sigue (foldl (expandir ga u) s1 (seq 0 (N ga)))
  end.

Definition inicial (inicio : nat) : estado :=
  {| conjuntos := [∅];
     costos := [{[inicio := 0]}];
     dicts := [{[inicio := None]}];
     pq := [(h inicio, inicio)];
     pasos := [] |}.

Definition bucle (ga : GrafoActivo) (turnos : nat) (inicio objetivo : nat) : flujo estado :=
  iterar (cuerpo ga objetivo) turnos (inicial inicio).

Definition leer (s : estado) (p : paso) : AStar.paso :=
  {| AStar.actual := actual p;
     AStar.visitados := valor ∅ (conjuntos s) (visitados p);
     AStar.p_g := valor ∅ (costos s) (p_g p);
     AStar.p_padre := valor ∅ (dicts s) (p_padre p) |}.

Definition traza (s : estado) : list AStar.paso := leer s <$> pasos s.

Definition valores (s : estado) : @AStar.estado P :=
  {| AStar.g := g s; AStar.padre := padre s; AStar.pq := pq s;
     AStar.pasos := traza s; AStar.visitado := visitado s |}.

Definition bien_formado (s : estado) : Prop :=
  (0 < length (conjuntos s))%nat ∧ (0 < length (costos s))%nat ∧
  (0 < length (dicts s))%nat ∧
  Forall (λ p, (0 < visitados p < length (conjuntos s))%nat ∧
               (0 < p_g p < length (costos s))%nat ∧
               (0 < p_padre p < length (dicts s))%nat) (pasos s).

Definition estable (s s' : estado) : Prop :=
  conserva 1 (conjuntos s) (conjuntos s') ∧ conserva 1 (costos s) (costos s') ∧
  conserva 1 (dicts s) (dicts s') ∧ pasos s `prefix_of` pasos s'.

End generico.

Arguments conjuntos {P} _.
Arguments costos {P} _.
Arguments dicts {P} _.
Arguments pq {P} _.
Arguments pasos {P} _.
Global Arguments visitado : simpl never.
Global Arguments g : simpl never.
Global Arguments padre : simpl never.

(** The loop of [a_star_pasos]: the instance at binary64 floats. *)
Definition bucle_float (ga : GrafoActivo) (turnos : nat) (inicio objetivo : nat)
    : flujo (@estado float) :=
  bucle (AStar.h_objetivo ga objetivo)
        (λ nuevo p, PrimFloat.add (AStar.float_de_Z nuevo) p)
        AStar.entrada_float_ltb ga turnos inicio objetivo.

End AStarMem.

(** ** Prim over objects

    The list of the field ['visitados'] is built anew at every step by
    the comprehension; the list of the field ['mst'] is a copy of the
    working list [mst]. *)

Module PrimMem.

Record paso := {
  actual : nat;
  visitados : nat;      (* the address of the list of nodes *)
  mst : nat             (* the address of the list of edges *)
}.

Record estado := {
  visitado : list bool;
  heap : list (Z * nat);
  nodos : list (list nat);                   (* the lists of the comprehensions *)
  aristas : list (list (nat * nat));         (* [mst] is at 0 *)
  padre : list (option nat);
  pasos : list paso;
  extraidos : list (Z * nat)
}.

Definition e_mst (s : estado) : list (nat * nat) := valor [] (aristas s) 0.
Global Arguments e_mst : simpl never.

Definition empujar (u : nat) (s : estado) (vw : nat * Z) : estado :=
  let '(v, w) := vw in
  if negb (default false (visitado s !! v)) then
    {| visitado := visitado s;
       heap := heappush entrada_ltb (heap s) (w, v);
       nodos := nodos s;
       aristas := aristas s;
       padre := <[v := Some u]> (padre s);
       pasos := pasos s;
       extraidos := extraidos s |}
  else s.

Definition cuerpo (ga : GrafoActivo) (lista : list (list (nat * Z))) (s : estado)
    : flujo estado :=
  match heappop (heap s) with
  | None => Alto s
  | Some ((peso, u), resto) =>
      if default false (visitado s !! u) then
        Sigue {| visitado := visitado s; heap := resto; nodos := nodos s;
                 aristas := aristas s; padre := padre s; pasos := pasos s;
                 extraidos := extraidos s |}
      else
        let vis := <[u := true]> (visitado s) in
        (* mst.append((padre[u], u)) *)
        let a1 :=
          match default None (padre s !! u) with
          | Some p => mutar (λ m, m ++ [(p, u)]) (aristas s) 0
          | None => aristas s
          end in
        (* [i for i in range(ga.N) if visitado[i]], list(mst) *)
        let nv := alojar (nodos s)
                    (filter (λ i, default false (vis !! i) = true) (seq 0 (N ga))) in
        let am := alojar a1 (valor [] a1 0) in
        let s1 :=
          {| visitado := vis; heap := resto; nodos := nv.1; aristas := am.1;
             padre := padre s;
             pasos := pasos s ++ [{| actual := u; visitados := nv.2; mst := am.2 |}];
             extraidos := extraidos s ++ [(peso, u)] |} in
        Sigue (foldl (empujar u) s1 (default [] (lista !! u)))
  end.

Definition inicial (ga : GrafoActivo) : estado :=
  {| visitado := replicate (N ga) false;
     heap := [(0, 0%nat)];
     nodos := [];
     aristas := [[]];
     padre := replicate (N ga) None;
     pasos := [];
     extraidos := [] |}.

Definition bucle (ga : GrafoActivo) (turnos : nat) : flujo estado :=
  iterar (cuerpo ga (matriz_a_lista_ady (matriz ga))) turnos (inicial ga).

Definition leer (s : estado) (p : paso) : Prim.paso :=
  {| Prim.actual := actual p;
     Prim.visitados := valor [] (nodos s) (visitados p);
     Prim.mst := valor [] (aristas s) (mst p) |}.

Definition traza (s : estado) : list Prim.paso := leer s <$> pasos s.

Definition valores (s : estado) : Prim.estado :=
  {| Prim.visitado := visitado s; Prim.heap := heap s; Prim.e_mst := e_mst s;
     Prim.padre := padre s; Prim.pasos := traza s; Prim.extraidos := extraidos s |}.

Definition bien_formado (s : estado) : Prop :=
  (0 < length (aristas s))%nat ∧
  Forall (λ p, (visitados p < length (nodos s))%nat ∧
               (0 < mst p < length (aristas s))%nat) (pasos s).

Definition estable (s s' : estado) : Prop :=
  conserva 0 (nodos s) (nodos s') ∧ conserva 1 (aristas s) (aristas s') ∧
  pasos s `prefix_of` pasos s'.

End PrimMem.

(** ** Kruskal over objects *)

Module KruskalMem.

Record paso := {
  edge : nat * nat;
  w : Z;
  ok : bool;
  mst : nat             (* the address of the list of edges *)
}.

Record estado := {
  padre_uf : list nat;
  listas : list (list (nat * nat));          (* [mst] is at 0 *)
  pasos : list paso
}.

Definition e_mst (s : estado) : list (nat * nat) := valor [] (listas s) 0.
Global Arguments e_mst : simpl never.

Definition cuerpo (limite : nat) (s : estado) (a : nat * nat * Z) : result estado :=
  let '(u, v, w) := a in
  r1 ← Kruskal.find limite (padre_uf s) u;
  r2 ← Kruskal.find limite r1.1 v;
  let ru := r1.2 in
  let rv := r2.2 in
  let aceptada := bool_decide (ru ≠ rv) in
  let uf3 := if aceptada then <[ru := rv]> r2.1 else r2.1 in
  (* mst.append((u, v)) *)
  let l1 := if aceptada then mutar (λ m, m ++ [(u, v)]) (listas s) 0 else listas s in
  (* list(mst) *)
  let lm := alojar l1 (valor [] l1 0) in
  Ok {| padre_uf := uf3;
        listas := lm.1;
        pasos := pasos s ++ [{| edge := (u, v); w := w; ok := aceptada; mst := lm.2 |}] |}.

Definition inicial (ga : GrafoActivo) : estado :=
  {| padre_uf := seq 0 (N ga); listas := [[]]; pasos := [] |}.

(** The state after the turns of the loop for the edges [l]. *)
Definition recorrer (limite : nat) (ga : GrafoActivo) (l : list (nat * nat * Z))
    : result estado :=
  plegar (cuerpo limite) (inicial ga) l.

Definition leer (s : estado) (p : paso) : Kruskal.paso :=
  {| Kruskal.edge := edge p; Kruskal.w := w p; Kruskal.ok := ok p;
     Kruskal.mst := valor [] (listas s) (mst p) |}.

Definition traza (s : estado) : list Kruskal.paso := leer s <$> pasos s.

Definition valores (s : estado) : Kruskal.estado :=
  {| Kruskal.padre_uf := padre_uf s; Kruskal.e_mst := e_mst s;
     Kruskal.pasos := traza s |}.

Definition bien_formado (s : estado) : Prop :=
  (0 < length (listas s))%nat ∧
  Forall (λ p, (0 < mst p < length (listas s))%nat) (pasos s).

Definition estable (s s' : estado) : Prop :=
  conserva 1 (listas s) (listas s') ∧ pasos s `prefix_of` pasos s'.

End KruskalMem.

(** ** DFS over objects *)

Module DFSMem.

Record paso := {
  actual : nat;
  visitados : nat;      (* the address of the set *)
  p_padre : nat         (* the address of the dictionary *)
}.

Record estado := {
  conjuntos : list (gset nat);               (* [visitado] is at 0 *)
  dicts : list (gmap nat (option nat));      (* [padre] is at 0 *)
  pasos : list paso
}.

Definition visitado (s : estado) : gset nat := valor ∅ (conjuntos s) 0.
Definition padre (s : estado) : gmap nat (option nat) := valor ∅ (dicts s) 0.
Global Arguments visitado : simpl never.
Global Arguments padre : simpl never.

(** [visitado.add(u)] and [pasos.append({...})]. *)
Definition visitar (u : nat) (s : estado) : estado :=
  let c1 := mutar (λ vis, {[u]} ∪ vis) (conjuntos s) 0 in
  let cv := alojar c1 (valor ∅ c1 0) in
  let dp := alojar (dicts s) (valor ∅ (dicts s) 0) in
  {| conjuntos := cv.1; dicts := dp.1;
     pasos := pasos s ++ [{| actual := u; visitados := cv.2; p_padre := dp.2 |}] |}.

(** [padre[v] = u]. *)
Definition con_padre (v u : nat) (s : estado) : estado :=
  {| conjuntos := conjuntos s; dicts := mutar (<[v := Some u]>) (dicts s) 0;
     pasos := pasos s |}.

Fixpoint _dfs (ga : GrafoActivo) (limite : nat) (u : nat) (s : estado) : result estado :=
  match limite with
  | O => Raise RecursionError
  | S f =>
      foldl (λ os v,
               s' ← os;
               w ← celda_np (matriz ga) (Z.of_nat u) (Z.of_nat v);
               if bool_decide (w > 0) && bool_decide (v ∉ visitado s')
               then _dfs ga f v (con_padre v u s')
               else Ok s')
            (Ok (visitar u s)) (seq 0 (N ga))
  end.

Definition inicial (inicio : nat) : estado :=
  {| conjuntos := [∅]; dicts := [{[inicio := None]}]; pasos := [] |}.

Definition leer (s : estado) (p : paso) : DFS.paso :=
  {| DFS.actual := actual p;
     DFS.visitados := valor ∅ (conjuntos s) (visitados p);
     DFS.p_padre := valor ∅ (dicts s) (p_padre p) |}.

Definition traza (s : estado) : list DFS.paso := leer s <$> pasos s.

Definition dfs_pasos (limite : nat) (ga : GrafoActivo) (inicio : nat)
    : result (list DFS.paso) :=
  s ← _dfs ga limite inicio (inicial inicio); Ok (traza s).

Definition valores (s : estado) : DFS.estado :=
  {| DFS.visitado := visitado s; DFS.padre := padre s; DFS.pasos := traza s |}.

Definition bien_formado (s : estado) : Prop :=
  (0 < length (conjuntos s))%nat ∧ (0 < length (dicts s))%nat ∧
  Forall (λ p, (0 < visitados p < length (conjuntos s))%nat ∧
               (0 < p_padre p < length (dicts s))%nat) (pasos s).

Definition estable (s s' : estado) : Prop :=
  conserva 1 (conjuntos s) (conjuntos s') ∧ conserva 1 (dicts s) (dicts s') ∧
  pasos s `prefix_of` pasos s'.

End DFSMem.

(** ** Snapshot isolation

    [conserva_pasos pasos leer s s']: every step of the state [s] is at
    the same place of the list of steps of [s'], and reads in [s'] what
    it reads in [s]. [emitido pasos leer s s' v]: the step that follows
    the steps of [s] is in [s'], and reads [v] there. *)

Definition conserva_pasos {S P V : Type} (pasos : S → list P) (leer : S → P → V)
    (s s' : S) : Prop :=
  ∀ k p, pasos s !! k = Some p → pasos s' !! k = Some p ∧ leer s' p = leer s p.

Definition emitido {S P V : Type} (pasos : S → list P) (leer : S → P → V)
    (s s' : S) (v : V) : Prop :=
  ∃ p, pasos s' !! length (pasos s) = Some p ∧ leer s' p = v.

(** BFS: the steps present after [t1] turns are unchanged after
    [t2 >= t1] turns; the step emitted in the turn that starts in the
    state [s] holds, after any later turn, the values that [visitado]
    and [padre] had when it was emitted. *)
Definition bfs_aislado (ga : GrafoActivo) (inicio : Z) : Prop :=
  (∀ t1 t2 r1 r2, (t1 ≤ t2)%nat →
     BFSMem.bucle ga t1 inicio = Ok r1 → BFSMem.bucle ga t2 inicio = Ok r2 →
     conserva_pasos BFSMem.pasos BFSMem.leer (estado_de r1) (estado_de r2)) ∧
  (∀ t t2 s u resto r2, (t < t2)%nat →
     BFSMem.bucle ga t inicio = Ok (Sigue s) → BFSMem.cola s = u :: resto →
     u ∉ BFSMem.visitado s → BFSMem.bucle ga t2 inicio = Ok r2 →
     emitido BFSMem.pasos BFSMem.leer s (estado_de r2)
       {| BFS.actual := u; BFS.visitados := {[u]} ∪ BFSMem.visitado s;
          BFS.p_padre := BFSMem.padre s |}).

(** DFS: a call of [_dfs] on the node [u] leaves the steps emitted
    before it unchanged, and the step it emits first holds, when the
    call returns, the values of the time of its emission. *)
Definition dfs_aislado (ga : GrafoActivo) (inicio : nat) : Prop :=
  DFSMem.bien_formado (DFSMem.inicial inicio) ∧
  ∀ limite u s s', DFSMem.bien_formado s → DFSMem._dfs ga limite u s = Ok s' →
    DFSMem.bien_formado s' ∧
    conserva_pasos DFSMem.pasos DFSMem.leer s s' ∧
    emitido DFSMem.pasos DFSMem.leer s s'
      {| DFS.actual := u; DFS.visitados := {[u]} ∪ DFSMem.visitado s;
         DFS.p_padre := DFSMem.padre s |}.

Definition dij_aislado (ga : GrafoActivo) (inicio objetivo : nat) : Prop :=
  (∀ t1 t2, (t1 ≤ t2)%nat →
     conserva_pasos DijkstraMem.pasos DijkstraMem.leer
       (estado_de (DijkstraMem.bucle ga t1 inicio objetivo))
       (estado_de (DijkstraMem.bucle ga t2 inicio objetivo))) ∧
  (∀ t t2 s costo u resto, (t < t2)%nat →
     DijkstraMem.bucle ga t inicio objetivo = Sigue s →
     heappop (DijkstraMem.pq s) = Some ((costo, u), resto) →
     u ∉ DijkstraMem.visitado s →
     emitido DijkstraMem.pasos DijkstraMem.leer s
       (estado_de (DijkstraMem.bucle ga t2 inicio objetivo))
       {| Dijkstra.actual := u; Dijkstra.visitados := {[u]} ∪ DijkstraMem.visitado s;
          Dijkstra.p_dist := DijkstraMem.dist s;
          Dijkstra.p_padre := DijkstraMem.padre s |}).

Definition ast_aislado (ga : GrafoActivo) (inicio objetivo : nat) : Prop :=
  (∀ t1 t2, (t1 ≤ t2)%nat →
     conserva_pasos AStarMem.pasos AStarMem.leer
       (estado_de (AStarMem.bucle_float ga t1 inicio objetivo))
       (estado_de (AStarMem.bucle_float ga t2 inicio objetivo))) ∧
  (∀ t t2 s f u resto, (t < t2)%nat →
     AStarMem.bucle_float ga t inicio objetivo = Sigue s →
     heappop (AStarMem.pq s) = Some ((f, u), resto) →
     u ∉ AStarMem.visitado s →
     emitido AStarMem.pasos AStarMem.leer s
       (estado_de (AStarMem.bucle_float ga t2 inicio objetivo))
       {| AStar.actual := u; AStar.visitados := {[u]} ∪ AStarMem.visitado s;
          AStar.p_g := AStarMem.g s;
          AStar.p_padre := AStarMem.padre s |}).

Definition prim_aislado (ga : GrafoActivo) : Prop :=
  (∀ t1 t2, (t1 ≤ t2)%nat →
     conserva_pasos PrimMem.pasos PrimMem.leer
       (estado_de (PrimMem.bucle ga t1)) (estado_de (PrimMem.bucle ga t2))) ∧
  (∀ t t2 s peso u resto, (t < t2)%nat →
     PrimMem.bucle ga t = Sigue s →
     heappop (PrimMem.heap s) = Some ((peso, u), resto) →
     default false (PrimMem.visitado s !! u) = false →
     emitido PrimMem.pasos PrimMem.leer s (estado_de (PrimMem.bucle ga t2))
       {| Prim.actual := u;
          Prim.visitados := marcados ga (<[u := true]> (PrimMem.visitado s));
          Prim.mst := match default None (PrimMem.padre s !! u) with
                      | Some p => PrimMem.e_mst s ++ [(p, u)]
                      | None => PrimMem.e_mst s
                      end |}).

(** Kruskal: [l1] are the edges of the turns that were run, which left
    the state [s1]; [(u, v, w)] is the edge of the next turn, and [l2]
    the edges of later turns, which left the state [s2]. *)
Definition kruskal_aislado (limite : nat) (ga : GrafoActivo) : Prop :=
  (∀ l1 l2 s1 s2,
     KruskalMem.recorrer limite ga l1 = Ok s1 →
     KruskalMem.recorrer limite ga (l1 ++ l2) = Ok s2 →
     conserva_pasos KruskalMem.pasos KruskalMem.leer s1 s2) ∧
  (∀ l1 u v w l2 s1 s2,
     KruskalMem.recorrer limite ga l1 = Ok s1 →
     KruskalMem.recorrer limite ga (l1 ++ (u, v, w) :: l2) = Ok s2 →
     ∃ aceptada,
       emitido KruskalMem.pasos KruskalMem.leer s1 s2
         {| Kruskal.edge := (u, v); Kruskal.w := w; Kruskal.ok := aceptada;
            Kruskal.mst := if aceptada then KruskalMem.e_mst s1 ++ [(u, v)]
                           else KruskalMem.e_mst s1 |}).

Fixpoint es_ruta (ga : GrafoActivo) (l : list nat) : Prop :=
  match l with
  | u :: (v :: _) as r => celda (matriz ga) u v > 0 ∧ es_ruta ga r
  | _ => True
  end.

Fixpoint peso_ruta (ga : GrafoActivo) (l : list nat) : Z :=
  match l with
  | u :: (v :: _) as r => celda (matriz ga) u v + peso_ruta ga r
  | _ => 0
  end.

(** What is asked of a route from [inicio] to [k] that follows a tree
    of parents. *)
Record ruta_de (ga : GrafoActivo) (inicio k : nat) (l : list nat) : Prop := {
  ruta_cabeza : head l = Some inicio;
  ruta_final : last l = Some k;
  ruta_aristas : es_ruta ga l;
  ruta_nodos : Forall (λ v, (v < N ga)%nat) l;
  ruta_simple : NoDup l
}.

(** The nodes with a parent entry whose potential is at most the one of [k]. *)
Definition bajo (padre : gmap nat (option nat)) (pot : nat → Z) (k : nat) : gset nat :=
  filter (λ v, pot v ≤ pot k) (dom padre).

(** The invariant of the parents of Dijkstra. *)
Record dij_padres (ga : GrafoActivo) (inicio : nat) (s : Dijkstra.estado) : Prop := {
  pad_len : length (Dijkstra.dist s) = N ga;
  pad_inicio : Dijkstra.dist s !! inicio = Some (Num 0);
  pad_no_neg : ∀ v d, Dijkstra.dist s !! v = Some (Num d) → 0 ≤ d;
  pad_claves : ∀ c v, (c, v) ∈ Dijkstra.pq s →
    ∃ d, Dijkstra.dist s !! v = Some (Num d) ∧ d ≤ c;
  pad_raiz : Dijkstra.padre s !! inicio = Some None;
  pad_unica : ∀ v, Dijkstra.padre s !! v = Some None → v = inicio;
  pad_arista : ∀ v u, Dijkstra.padre s !! v = Some (Some u) →
    celda (matriz ga) u v > 0 ∧
    ∃ du dv, Dijkstra.dist s !! u = Some (Num du) ∧ Dijkstra.dist s !! v = Some (Num dv) ∧
             du + celda (matriz ga) u v ≤ dv;
  pad_dom : ∀ v, is_Some (Dijkstra.padre s !! v) ↔ ∃ d, Dijkstra.dist s !! v = Some (Num d)
}.

(** The invariant of the parents of A*. *)
Record ast_padres {P : Type} (ga : GrafoActivo) (inicio : nat) (s : @AStar.estado P)
    : Prop := {
  apad_inicio : AStar.g s !! inicio = Some 0;
  apad_no_neg : ∀ v c, AStar.g s !! v = Some c → 0 ≤ c;
  apad_pq : Forall (λ e, is_Some (AStar.g s !! e.2)) (AStar.pq s);
  apad_raiz : AStar.padre s !! inicio = Some None;
  apad_unica : ∀ v, AStar.padre s !! v = Some None → v = inicio;
  apad_arista : ∀ v u, AStar.padre s !! v = Some (Some u) →
    (v < N ga)%nat ∧ celda (matriz ga) u v > 0 ∧
    ∃ gu gv, AStar.g s !! u = Some gu ∧ AStar.g s !! v = Some gv ∧
             gu + celda (matriz ga) u v ≤ gv;
  apad_dom : ∀ v, is_Some (AStar.padre s !! v) ↔ is_Some (AStar.g s !! v)
}.

Definition aristas_validas (ga : GrafoActivo) (grafo : list (nat * nat * Z)) : Prop :=
  ∀ u v w, (u, v, w) ∈ grafo ↔
    (u < N ga)%nat ∧ (v < N ga)%nat ∧ w = celda (matriz ga) u v ∧ w > 0.

Record bf_sano (ga : GrafoActivo) (origen : nat) (s : BellmanFord.estado) : Prop := {
  bs_len : length (BellmanFord.dist s) = N ga;
  bs_origen : BellmanFord.dist s !! origen = Some (Num 0);
  bs_no_neg : ∀ v d, BellmanFord.dist s !! v = Some (Num d) → 0 ≤ d;
  bs_camino : ∀ v d, BellmanFord.dist s !! v = Some (Num d) →
    ∃ l, ruta_de ga origen v l ∧ peso_ruta ga l = d ∧
         ∀ k x, l !! k = Some x →
           ∃ dx, BellmanFord.dist s !! x = Some (Num dx) ∧ dx ≤ peso_ruta ga (take (S k) l);
  bs_raiz : BellmanFord.padre s !! origen = Some None;
  bs_unica : ∀ v, BellmanFord.padre s !! v = Some None → v = origen;
  bs_arista : ∀ v u, BellmanFord.padre s !! v = Some (Some u) →
    celda (matriz ga) u v > 0 ∧
    ∃ du dv, BellmanFord.dist s !! u = Some (Num du) ∧
             BellmanFord.dist s !! v = Some (Num dv) ∧
             du + celda (matriz ga) u v ≤ dv;
  bs_dom : ∀ v, is_Some (BellmanFord.padre s !! v) ↔
                ∃ d, BellmanFord.dist s !! v = Some (Num d)
}.

Definition mejora (d d' : list num) : Prop :=
  ∀ v x, d !! v = Some (Num x) → ∃ x', d' !! v = Some (Num x') ∧ x' ≤ x.

Definition bf_cota (ga : GrafoActivo) (origen : nat) (k : nat) (dist : list num) : Prop :=
  ∀ l v, head l = Some origen → last l = Some v → es_ruta ga l →
         Forall (λ x, (x < N ga)%nat) l → (length l ≤ S k)%nat →
         ∃ d, dist !! v = Some (Num d) ∧ d ≤ peso_ruta ga l.

Definition bf_fijo (ga : GrafoActivo) (dist : list num) : Prop :=
  ∀ u v du, (u < N ga)%nat → (v < N ga)%nat → celda (matriz ga) u v > 0 →
            dist !! u = Some (Num du) →
            ∃ dv, dist !! v = Some (Num dv) ∧ dv ≤ du + celda (matriz ga) u v.

Definition alcanzable (ga : GrafoActivo) (a b : nat) : Prop := ∃ c, camino_de ga a b c.

(** In the step [p] of BFS every visited node other than the start has
    as parent a visited node next to it. *)
Definition bfs_arbol (ga : GrafoActivo) (inicio : nat) (p : BFS.paso) : Prop :=
  ∀ z, z ∈ BFS.visitados p → z ≠ Z.of_nat inicio →
    ∃ a b, BFS.p_padre p !! z = Some (Some (Z.of_nat a)) ∧ z = Z.of_nat b ∧
           Z.of_nat a ∈ BFS.visitados p ∧ celda (matriz ga) a b > 0.

Record bfs_base (ga : GrafoActivo) (inicio : nat) (s : BFS.estado) : Prop := {
  ba_cola : ∀ z, z ∈ BFS.cola s → ∃ v, z = Z.of_nat v ∧ alcanzable ga inicio v;
  ba_vis : ∀ z, z ∈ BFS.visitado s → ∃ v, z = Z.of_nat v ∧ alcanzable ga inicio v;
  ba_inicio : Z.of_nat inicio ∈ BFS.visitado s ∨ Z.of_nat inicio ∈ BFS.cola s;
  ba_padre : ∀ z p, BFS.padre s !! z = Some p →
    (z = Z.of_nat inicio ∧ p = None) ∨
    ∃ a b, p = Some (Z.of_nat a) ∧ z = Z.of_nat b ∧ z ≠ Z.of_nat inicio ∧
           Z.of_nat a ∈ BFS.visitado s ∧ celda (matriz ga) a b > 0;
  ba_dom : ∀ z, z ∈ BFS.visitado s ∨ z ∈ BFS.cola s → is_Some (BFS.padre s !! z);
  ba_pasos : ∀ p, p ∈ BFS.pasos s → bfs_arbol ga inicio p
}.

(** Every neighbour of a visited node, the node [salvo] apart, is
    visited or waits in the queue. *)
Definition bfs_cerrado (ga : GrafoActivo) (salvo : option nat) (s : BFS.estado) : Prop :=
  ∀ u v, Z.of_nat u ∈ BFS.visitado s → Some u ≠ salvo → (v < N ga)%nat →
         celda (matriz ga) u v > 0 →
         Z.of_nat v ∈ BFS.visitado s ∨ Z.of_nat v ∈ BFS.cola s.

(** In the step [p] of DFS every visited node other than the start has
    as parent a visited node next to it. *)
Definition dfs_arbol (ga : GrafoActivo) (inicio : nat) (p : DFS.paso) : Prop :=
  ∀ z, z ∈ DFS.visitados p → z ≠ inicio →
    ∃ a, DFS.p_padre p !! z = Some (Some a) ∧ a ∈ DFS.visitados p ∧
         celda (matriz ga) a z > 0.

Record dfs_sano (ga : GrafoActivo) (inicio : nat) (s : DFS.estado) : Prop := {
  ds_vis : ∀ z, z ∈ DFS.visitado s → alcanzable ga inicio z;
  ds_padre : ∀ z, z ∈ DFS.visitado s → z ≠ inicio →
    ∃ a, DFS.padre s !! z = Some (Some a) ∧ a ∈ DFS.visitado s ∧
         celda (matriz ga) a z > 0;
  ds_pasos : ∀ p, p ∈ DFS.pasos s → dfs_arbol ga inicio p
}.

Definition prim_incluido (s : Prim.estado) (v : nat) : Prop :=
  default false (Prim.visitado s !! v) = true.

(** [prim_hoja ga vis ar p]: the step [p] is the first one, of node 0
    and without an edge, or it appends to the edges [ar] one edge of the
    graph from a node of [vis] to its own node. *)
Definition prim_hoja (ga : GrafoActivo) (vis : gset nat) (ar : list (nat * nat))
    (p : Prim.paso) : Prop :=
  (vis = ∅ ∧ Prim.actual p = 0%nat ∧ Prim.mst p = ar) ∨
  (∃ a, a ∈ vis ∧ celda (matriz ga) a (Prim.actual p) > 0 ∧
        Prim.mst p = ar ++ [(a, Prim.actual p)]).

Fixpoint prim_arbol (ga : GrafoActivo) (vis : gset nat) (ar : list (nat * nat))
    (ps : list Prim.paso) (finvis : gset nat) (fin : list (nat * nat)) : Prop :=
  match ps with
  | [] => finvis = vis ∧ fin = ar
  | p :: r => prim_hoja ga vis ar p ∧
              prim_arbol ga (list_to_set (Prim.visitados p)) (Prim.mst p) r finvis fin
  end.

Record prim_sano (ga : GrafoActivo) (s : Prim.estado) : Prop := {
  sn_padre_len : length (Prim.padre s) = N ga;
  sn_heap : ∀ w v, (w, v) ∈ Prim.heap s →
    prim_incluido s v ∨ (∃ a, Prim.padre s !! v = Some (Some a)) ∨
    (v = 0%nat ∧ Prim.pasos s = []);
  sn_padre : ∀ v a, Prim.padre s !! v = Some (Some a) →
    prim_incluido s a ∧ celda (matriz ga) a v > 0;
  sn_raiz : prim_incluido s 0 ∨
    (Prim.pasos s = [] ∧ (∃ w, (w, 0%nat) ∈ Prim.heap s) ∧
     Prim.padre s !! 0%nat = Some None ∧ Prim.e_mst s = [] ∧
     ∀ v, ¬ prim_incluido s v);
  sn_alc : ∀ v, prim_incluido s v → alcanzable ga 0 v;
  sn_cerr : ∀ u v, prim_incluido s u → (v < N ga)%nat → celda (matriz ga) u v > 0 →
    prim_incluido s v ∨ ∃ w, (w, v) ∈ Prim.heap s;
  sn_arbol : prim_arbol ga ∅ [] (Prim.pasos s)
               (list_to_set (marcados ga (Prim.visitado s))) (Prim.e_mst s)
}.

Inductive uf_raiz (uf : list nat) : nat → nat → nat → Prop :=
  | raiz_aqui (x : nat) : uf !! x = Some x → uf_raiz uf 0 x x
  | raiz_sube (x p k r : nat) :
      uf !! x = Some p → p ≠ x → uf_raiz uf k p r → uf_raiz uf (S k) x r.

Definition uf_rep (uf : list nat) (x r : nat) : Prop := ∃ k, uf_raiz uf k x r.

(** Every node below [n] has a representative. *)
Definition uf_bosque (n : nat) (uf : list nat) : Prop :=
  length uf = n ∧ ∀ x, (x < n)%nat → ∃ r, uf_rep uf x r.

(** Two nodes are joined by edges of [es], in either direction. *)
Definition conectados (es : list (nat * nat)) : relation nat :=
  rtsc (λ a b, (a, b) ∈ es).

(** [kruskal_traza prev ps fin]: from the accepted edges [prev], every
    step is accepted exactly when the accepted edges before it do not
    join the ends of its edge, its ['mst'] is the list before it, with
    its edge appended when accepted, and the last list is [fin]. *)
Fixpoint kruskal_traza (prev : list (nat * nat)) (ps : list Kruskal.paso)
    (fin : list (nat * nat)) : Prop :=
  match ps with
  | [] => fin = prev
  | p :: r =>
      (Kruskal.ok p = true ↔ ¬ conectados prev (Kruskal.edge p).1 (Kruskal.edge p).2) ∧
      Kruskal.mst p = (if Kruskal.ok p then prev ++ [Kruskal.edge p] else prev) ∧
      kruskal_traza (Kruskal.mst p) r fin
  end.

Record kr_inv (ga : GrafoActivo) (hechas : list (nat * nat * Z)) (s : Kruskal.estado)
    : Prop := {
  kr_bosque : uf_bosque (N ga) (Kruskal.padre_uf s);
  kr_aristas : ∀ a b, (a, b) ∈ Kruskal.e_mst s →
    ∃ r, uf_rep (Kruskal.padre_uf s) a r ∧ uf_rep (Kruskal.padre_uf s) b r;
  kr_clases : ∀ x y r, uf_rep (Kruskal.padre_uf s) x r → uf_rep (Kruskal.padre_uf s) y r →
    conectados (Kruskal.e_mst s) x y;
  kr_hechas : ∀ u v w, (u, v, w) ∈ hechas → conectados (Kruskal.e_mst s) u v;
  kr_traza : kruskal_traza [] (Kruskal.pasos s) (Kruskal.e_mst s)
}.

(** The candidate edges of Kruskal, before sorting. *)
Definition kr_candidatas (ga : GrafoActivo) : list (nat * nat * Z) :=
  i ← seq 0 (N ga);
  j ← seq (S i) (N ga - S i);
  if bool_decide (celda (matriz ga) i j > 0)
  then [(i, j, celda (matriz ga) i j)] else [].

(** The edge and the weight of a step. *)
Definition kr_arista (p : Kruskal.paso) : nat * nat * Z :=
  ((Kruskal.edge p).1, (Kruskal.edge p).2, Kruskal.w p).

Definition json_de_matriz (m : list (list Z)) : json :=
  JList ((λ fila, JList (JInt <$> fila)) <$> m).

(** [matriz[i][j] = z] on a matrix of integers. *)
Definition poner_celda (m : list (list Z)) (i j : nat) (z : Z) : list (list Z) :=
  match m !! i with
  | Some fila => <[i := <[j := z]> fila]> m
  | None => m
  end.

(** What one turn of the loop that forces the symmetry does to a matrix
    of integers. *)
Definition simetrizar_entera (m : list (list Z)) (ij : nat * nat) : list (list Z) :=
  let a := celda m ij.1 ij.2 in
  let b := celda m ij.2 ij.1 in
  if bool_decide (a = b) then m
  else poner_celda (poner_celda m ij.1 ij.2 (a `max` b)) ij.2 ij.1 (a `max` b).

(** [n] rows of [n] cells. *)
Definition de_orden (n : nat) (m : list (list Z)) : Prop :=
  length m = n ∧ Forall (λ fila, length fila = n) m.

Definition une (py_str : json → string) (e : list (string * json)) (a b : string) : Prop :=
  ∃ o d, buscar "origen" e = Some o ∧ buscar "destino" e = Some d ∧
         ((py_str o = a ∧ py_str d = b) ∨ (py_str o = b ∧ py_str d = a)).

(** The names of the two ends of every edge, in the order of the file. *)
Definition extremos (py_str : json → string) (es : list (list (string * json)))
    : list string :=
  e ← es;
  match buscar "origen" e, buscar "destino" e with
  | Some o, Some d => [py_str o; py_str d]
  | _, _ => []
  end.

(** The order of [sorted] on strings. *)
Definition cadena_menor (a b : string) : Prop := String.ltb a b = true.

Definition lista_index (l : list string) (s : string) : option nat :=
  fst <$> list_find (λ t, t = s) l.

(** [nombres.index(origen_name) if origen_name in nombres else 0] *)
Definition elegir_origen (ga : GrafoActivo) (origen_name : string) : Z :=
  if bool_decide (origen_name ∈ nombres ga)
  then Z.of_nat (default O (lista_index (nombres ga) origen_name))
  else 0.

(** [nombres.index(dest_name) if dest_name in nombres else N - 1] *)
Definition elegir_destino (ga : GrafoActivo) (dest_name : string) : Z :=
  if bool_decide (dest_name ∈ nombres ga)
  then Z.of_nat (default O (lista_index (nombres ga) dest_name))
  else Z.of_nat (N ga) - 1.

Definition dij_distancia (p : Dijkstra.paso) (d : Z) : Prop :=
  Dijkstra.p_dist p !! Dijkstra.actual p = Some (Num d).

(** The distance of the step [p] is at most the distance of [q]. *)
Definition dij_antes (p q : Dijkstra.paso) : Prop :=
  ∀ d e, dij_distancia p d → dij_distancia q e → d ≤ e.

Record dij_traza (ga : GrafoActivo) (inicio objetivo : nat) (s : Dijkstra.estado)
    : Prop := {
  tr_final : ∀ p, p ∈ Dijkstra.pasos s →
    ∃ d, dij_distancia p d ∧ camino_de ga inicio (Dijkstra.actual p) d ∧
         ∀ c, camino_de ga inicio (Dijkstra.actual p) c → d ≤ c;
  tr_orden : StronglySorted dij_antes (Dijkstra.pasos s);
  tr_objetivo : ∀ i p, Dijkstra.pasos s !! i = Some p → Dijkstra.actual p = objetivo →
    S i = length (Dijkstra.pasos s)
}.

Inductive saltos (ga : GrafoActivo) (inicio : nat) : nat → nat → Prop :=
  | saltos_inicio : saltos ga inicio inicio 0
  | saltos_arista (u v k : nat) :
      saltos ga inicio u k → (v < N ga)%nat → celda (matriz ga) u v > 0 →
      saltos ga inicio v (S k).

(** [k] is the least number of edges of a walk from [inicio] to the
    node [z]. *)
Definition bfs_nivel (ga : GrafoActivo) (inicio : nat) (z : Z) (k : nat) : Prop :=
  ∃ v, z = Z.of_nat v ∧ saltos ga inicio v k ∧
       ∀ k', saltos ga inicio v k' → (k ≤ k')%nat.

(** The node of the step [p] is at most as far from the start as the
    node of [q]. *)
Definition bfs_antes (ga : GrafoActivo) (inicio : nat) (p q : BFS.paso) : Prop :=
  ∀ kp kq, bfs_nivel ga inicio (BFS.actual p) kp → bfs_nivel ga inicio (BFS.actual q) kq →
    (kp ≤ kq)%nat.

Record bfs_niveles (ga : GrafoActivo) (inicio : nat) (s : BFS.estado) : Prop := {
  nv_padre : ∀ z, is_Some (BFS.padre s !! z) → ∃ k, bfs_nivel ga inicio z k;
  nv_hijo : ∀ z a, BFS.padre s !! z = Some (Some a) →
    ∃ k, bfs_nivel ga inicio a k ∧ bfs_nivel ga inicio z (S k);
  nv_dom : ∀ z, is_Some (BFS.padre s !! z) → z ∈ BFS.visitado s ∨ z ∈ BFS.cola s;
  nv_orden : ∀ l1 z l2 x kx kz, BFS.cola s = l1 ++ z :: l2 → z ∉ l1 →
    z ∉ BFS.visitado s → x ∈ l1 →
    bfs_nivel ga inicio x kx → bfs_nivel ga inicio z kz → (kx ≤ kz)%nat;
  nv_ancho : ∀ x z kx kz, x ∈ BFS.cola s → z ∈ BFS.cola s → z ∉ BFS.visitado s →
    bfs_nivel ga inicio x kx → bfs_nivel ga inicio z kz → (kx ≤ S kz)%nat;
  nv_vis : ∀ v z kv kz, v ∈ BFS.visitado s → z ∈ BFS.cola s → z ∉ BFS.visitado s →
    bfs_nivel ga inicio v kv → bfs_nivel ga inicio z kz → (kv ≤ kz)%nat;
  nv_pasos : StronglySorted (bfs_antes ga inicio) (BFS.pasos s);
  nv_pasos_hijo : ∀ p z a, p ∈ BFS.pasos s → BFS.p_padre p !! z = Some (Some a) →
    ∃ k, bfs_nivel ga inicio a k ∧ bfs_nivel ga inicio z (S k);
  nv_actual : ∀ p, p ∈ BFS.pasos s → BFS.actual p ∈ BFS.visitado s
}.

(** The invariant inside [for v in range(ga.N)], for the node [u] at
    the level [L]. *)
Record bfs_expande (ga : GrafoActivo) (inicio u : nat) (L : nat) (s : BFS.estado)
    : Prop := {
  ex_u : bfs_nivel ga inicio (Z.of_nat u) L;
  ex_padre : ∀ z, is_Some (BFS.padre s !! z) → ∃ k, bfs_nivel ga inicio z k;
  ex_hijo : ∀ z a, BFS.padre s !! z = Some (Some a) →
    ∃ k, bfs_nivel ga inicio a k ∧ bfs_nivel ga inicio z (S k);
  ex_dom : ∀ z, is_Some (BFS.padre s !! z) → z ∈ BFS.visitado s ∨ z ∈ BFS.cola s;
  ex_orden : ∀ l1 z l2 x kx kz, BFS.cola s = l1 ++ z :: l2 → z ∉ l1 →
    z ∉ BFS.visitado s → x ∈ l1 →
    bfs_nivel ga inicio x kx → bfs_nivel ga inicio z kz → (kx ≤ kz)%nat;
  ex_arriba : ∀ x kx, x ∈ BFS.cola s → bfs_nivel ga inicio x kx → (kx ≤ S L)%nat;
  ex_abajo : ∀ z kz, z ∈ BFS.cola s → z ∉ BFS.visitado s → bfs_nivel ga inicio z kz →
    (L ≤ kz)%nat;
  ex_vis : ∀ v kv, v ∈ BFS.visitado s → bfs_nivel ga inicio v kv → (kv ≤ L)%nat
}.

Record ast_cierre {P : Type} (ga : GrafoActivo) (inicio objetivo : nat)
    (s : @AStar.estado P) : Prop := {
  ac_pq : ∀ v, is_Some (AStar.g s !! v) → v ∈ AStar.visitado s ∨ ∃ f, (f, v) ∈ AStar.pq s;
  ac_vecinos : ∀ u v, u ∈ AStar.visitado s → (v < N ga)%nat → celda (matriz ga) u v > 0 →
    is_Some (AStar.g s !! v);
  ac_inicio : is_Some (AStar.g s !! inicio);
  ac_objetivo : objetivo ∉ AStar.visitado s;
  ac_visitado : ∀ u, u ∈ AStar.visitado s → is_Some (AStar.g s !! u)
}.

(** When the loop has ended: the goal, when a walk reaches it, has a
    cost and is the node of the last step; it is the node of no other
    step; and when no walk reaches it, the visited nodes are the nodes
    that a walk reaches. *)
Record ast_final {P : Type} (ga : GrafoActivo) (inicio objetivo : nat)
    (s : @AStar.estado P) : Prop := {
  af_hallado : ∀ c, camino_de ga inicio objetivo c →
    is_Some (AStar.g s !! objetivo) ∧
    ∃ p, last (AStar.pasos s) = Some p ∧ AStar.actual p = objetivo;
  af_ultimo : ∀ i p, AStar.pasos s !! i = Some p → AStar.actual p = objetivo →
    S i = length (AStar.pasos s);
  af_todos : (∀ c, ¬ camino_de ga inicio objetivo c) →
    ∀ v, v ∈ AStar.visitado s ↔ alcanzable ga inicio v
}.

Inductive dfs_ancestro (padre : gmap nat (option nat)) (a : nat) : nat → Prop :=
  | ancestro_mismo : dfs_ancestro padre a a
  | ancestro_sube (x y : nat) :
      padre !! x = Some (Some y) → dfs_ancestro padre a y → dfs_ancestro padre a x.

(** The step [q] follows the step [p]: the parent of the node of [q] is
    the node of [p] or one of its ancestors. *)
Definition dfs_sigue (p q : DFS.paso) : Prop :=
  ∃ a, DFS.p_padre q !! DFS.actual q = Some (Some a) ∧
       dfs_ancestro (DFS.p_padre q) a (DFS.actual p).

Definition dfs_preorden (ps : list DFS.paso) : Prop :=
  ∀ k p q, ps !! k = Some p → ps !! (S k) = Some q → dfs_sigue p q.

(** The parent of a visited node is visited, and the nodes of the steps
    are visited. *)
Record dfs_pila (s : DFS.estado) : Prop := {
  pi_padre : ∀ z y, z ∈ DFS.visitado s → DFS.padre s !! z = Some (Some y) →
    y ∈ DFS.visitado s;
  pi_pasos : ∀ p, p ∈ DFS.pasos s → DFS.actual p ∈ DFS.visitado s
}.

(** What [cargar] has drawn after the pairs of indices [L]: between two
    labels the graph has the edge of the positive cell of a pair of [L]
    whose indices carry them, in either order. *)
Definition dibujada (arr : list (list Z)) (ns : list string) (L : list (nat * nat))
    (g : gmap string (gmap string Z)) : Prop :=
  ∀ a b w, peso_arista g a b = Some w ↔
    ∃ i j, (i, j) ∈ L ∧ celda arr i j = w ∧ w > 0 ∧
           ((ns !! i = Some a ∧ ns !! j = Some b) ∨ (ns !! i = Some b ∧ ns !! j = Some a)).

(** * Properties *)

(** ** The sample graphs *)

Lemma grafo2_cargado :
  cargar matriz_grafo2 nombres_grafo2 "Grafo 2" = Ok grafo2 ∧ N grafo2 = 7%nat.
Proof. vm_compute. done. Qed.

Lemma grafo1_cargado :
  cargar matriz_grafo1 nombres_grafo1 "Grafo 1" = Ok grafo1 ∧ N grafo1 = 11%nat.
Proof. vm_compute. done. Qed.

(** ** Dijkstra on the sample graph of seven nodes *)

(** C1, as stated, fails: from S (index 0) to W (index 4) the reported
    cost [dist[W]] is 26, not 21. *)
Lemma dijkstra_grafo2_costo_no_21 :
  ∃ ps camino dist,
    Dijkstra.dijkstra_pasos grafo2 0 4 = Devuelve (ps, camino, dist) ∧
    dist !! 4%nat = Some (Num 26) ∧
    Num 26 ≠ Num 21.
Proof.
  eexists _, _, _. split; [vm_compute; reflexivity|].
  split; [vm_compute; reflexivity|discriminate].
Qed.

(** C1, amended: on the bundled graph (whose edge of weight 2 joins X and
    Y, indices 5 and 6, while W and Y are not adjacent) Dijkstra from S to
    W returns a trace whose last step is the step of W, the path S, T, U,
    X, W (indices 0, 1, 2, 5, 4) and the distances with [dist[W] = 26],
    the weight of that path. *)
Theorem dijkstra_grafo2_camino_costo :
  celda (matriz grafo2) 5 6 = 2 ∧ celda (matriz grafo2) 4 6 = 0 ∧
  (∃ ps dist,
     Dijkstra.dijkstra_pasos grafo2 0 4 = Devuelve (ps, [0; 1; 2; 5; 4]%nat, dist) ∧
     Dijkstra.actual <$> last ps = Some 4%nat ∧
     dist !! 4%nat = Some (Num 26)) ∧
  celda (matriz grafo2) 0 1 + celda (matriz grafo2) 1 2 +
    celda (matriz grafo2) 2 5 + celda (matriz grafo2) 5 4 = 26.
Proof.
  split; [vm_compute; reflexivity|]. split; [vm_compute; reflexivity|].
  split; [|vm_compute; reflexivity].
  eexists _, _. split; [vm_compute; reflexivity|].
  split; vm_compute; reflexivity.
Qed.

(** ** Prim records the wrong edge *)

(** C2 at the bundled graph of seven nodes: the fifth inclusion (node V,
    index 3) pops the entry of weight 7, the edge U-V, and the edge
    appended to the MST is (X, V) = (5, 3), of weight 14. *)
Lemma prim_grafo2_arista_registrada :
  Prim.extraidos (estado_de (Prim.bucle grafo2)) !! 5%nat = Some (7, 3%nat) ∧
  (Prim.mst <$> Prim.prim_pasos grafo2 !! 5%nat)
    = Some [(0, 1); (1, 2); (2, 5); (5, 6); (5, 3)]%nat ∧
  celda (matriz grafo2) 5 3 = 14 ∧
  celda (matriz grafo2) 2 3 = 7.
Proof. vm_compute. done. Qed.

(** More room for the recursion changes nothing. *)
Lemma find_mas_limite (f f' : nat) (uf : list nat) (x : nat) (r : list nat * nat) :
  Kruskal.find f uf x = Ok r → (f ≤ f')%nat → Kruskal.find f' uf x = Ok r.
Proof.
  revert f' x r. induction f as [|f IH]; intros f' x r H Hle; [done|].
  destruct f' as [|f']; [lia|]. simpl in *.
  case_bool_decide; [|done].
  destruct (Kruskal.find f uf _) as [r'|] eqn:Hr; [|done].
  by rewrite (IH f' _ r' Hr) by lia.
Qed.

Lemma kruskal_cuerpo_mas_limite (f f' : nat) (s s' : Kruskal.estado) (a : nat * nat * Z) :
  Kruskal.cuerpo f s a = Ok s' → (f ≤ f')%nat → Kruskal.cuerpo f' s a = Ok s'.
Proof.
  destruct a as [[u v] w]. unfold Kruskal.cuerpo. intros H Hle.
  destruct (Kruskal.find f _ u) as [r1|] eqn:H1; [|done].
  rewrite (find_mas_limite _ _ _ _ _ H1 Hle). simpl in *.
  destruct (Kruskal.find f _ v) as [r2|] eqn:H2; [|done].
  by rewrite (find_mas_limite _ _ _ _ _ H2 Hle).
Qed.

Lemma plegar_mono {A B : Type} (f g : A → B → result A) (l : list B) :
  (∀ s x s', f s x = Ok s' → g s x = Ok s') →
  ∀ s s', plegar f s l = Ok s' → plegar g s l = Ok s'.
Proof.
  intros Hfg. induction l as [|x l IH]; intros s s'; simpl; [done|].
  destruct (f s x) as [s1|] eqn:Hx; [|done]. rewrite (Hfg _ _ _ Hx). apply IH.
Qed.

Lemma kruskal_pasos_mas_limite (f f' : nat) (ga : GrafoActivo) (ps : list Kruskal.paso) :
  Kruskal.kruskal_pasos f ga = Ok ps → (f ≤ f')%nat → Kruskal.kruskal_pasos f' ga = Ok ps.
Proof.
  unfold Kruskal.kruskal_pasos, Kruskal.recorrer. intros H Hle.
  destruct (plegar (Kruskal.cuerpo f) _ _) as [s|] eqn:Hs; [|done].
  rewrite (plegar_mono (Kruskal.cuerpo f) (Kruskal.cuerpo f') _) with (s' := s); [done| |done].
  intros ? ? ? Hc. by eapply kruskal_cuerpo_mas_limite.
Qed.

(** C3 at the bundled graphs: whatever room the recursion limit leaves to
    [find], from one call for each node on, the accepted edges of Kruskal
    weigh 34 (57 on the graph of eleven nodes), while the final ['mst']
    list of Prim weighs 41 (65). *)
Lemma kruskal_prim_pesos_distintos :
  (∀ k, ∃ ps, Kruskal.kruskal_pasos (N grafo2 + k) grafo2 = Ok ps ∧ peso_aceptado ps = 34) ∧
  peso_total grafo2 (mst_final (Prim.prim_pasos grafo2)) = 41 ∧
  (∀ k, ∃ ps, Kruskal.kruskal_pasos (N grafo1 + k) grafo1 = Ok ps ∧ peso_aceptado ps = 57) ∧
  peso_total grafo1 (mst_final (Prim.prim_pasos grafo1)) = 65.
Proof.
  split_and!; try (vm_compute; reflexivity).
  - intros k. eexists. split.
    + apply (kruskal_pasos_mas_limite (N grafo2)); [vm_compute; reflexivity|lia].
    + vm_compute. reflexivity.
  - intros k. eexists. split.
    + apply (kruskal_pasos_mas_limite (N grafo1)); [vm_compute; reflexivity|lia].
    + vm_compute. reflexivity.
Qed.

(** ** A* against Dijkstra *)

(** C4, as stated, fails: on [grafo_atajo], a square matrix without
    negative weights, from node 1 to node 0, A* pops the goal with
    [g = 3] (the direct edge) before node 3, whose priority is
    [1 + 3.0]; Dijkstra reports 2 (through node 3). *)
Lemma a_star_difiere_de_dijkstra :
  cuadrada grafo_atajo ∧
  Forall (Forall (λ w, 0 ≤ w)) (matriz grafo_atajo) ∧
  (1 < N grafo_atajo)%nat ∧
  ∃ pa ca g pd cd dist,
    AStar.a_star_pasos grafo_atajo 1 0 = Devuelve (pa, ca, g) ∧
    Dijkstra.dijkstra_pasos grafo_atajo 1 0 = Devuelve (pd, cd, dist) ∧
    g !! 0%nat = Some 3 ∧ dist !! 0%nat = Some (Num 2).
Proof.
  split; [split; [reflexivity|vm_compute; repeat constructor]|].
  split; [vm_compute; repeat constructor; discriminate|].
  split; [vm_compute; lia|].
  eexists _, _, _, _, _, _.
  split; [vm_compute; reflexivity|]. split; [vm_compute; reflexivity|].
  split; vm_compute; reflexivity.
Qed.

(** ** Folds that may raise *)

Lemma plegar_app {A B : Type} (f : A → B → result A) (s : A) (l1 l2 : list B) :
  plegar f s (l1 ++ l2) = s' ← plegar f s l1; plegar f s' l2.
Proof.
  revert s. induction l1 as [|x l1 IH]; intros s; simpl; [done|].
  destruct (f s x); simpl; [apply IH|done].
Qed.

Lemma plegar_inv {A B : Type} (I : A → Prop) (f : A → B → result A) (l : list B) :
  (∀ s x s', x ∈ l → I s → f s x = Ok s' → I s') →
  ∀ s s', I s → plegar f s l = Ok s' → I s'.
Proof.
  induction l as [|x l IH]; intros Hf s s' Hs H; simpl in H.
  - by injection H as <-.
  - destruct (f s x) as [s1|e] eqn:Hx; simpl in H; [|done].
    eapply IH; [..|exact H].
    + intros ? ? ? Hin. apply Hf. by right.
    + eapply Hf; [|exact Hs|exact Hx]. by left.
Qed.

Lemma plegar_ok {A B : Type} (I : A → Prop) (f : A → B → result A) (l : list B) :
  (∀ s x, x ∈ l → I s → ∃ s', f s x = Ok s' ∧ I s') →
  ∀ s, I s → ∃ s', plegar f s l = Ok s' ∧ I s'.
Proof.
  induction l as [|x l IH]; intros Hf s Hs; simpl.
  - by exists s.
  - destruct (Hf s x) as (s1 & -> & Hs1); [by left|done|]. simpl.
    apply IH; [|done]. intros ? ? Hin. apply Hf. by right.
Qed.

Lemma plegar_raise {A B : Type} (f : A → B → result A) (l : list B) (s : A) (e : exn) :
  plegar f s l = Raise e → ∃ s' x, x ∈ l ∧ f s' x = Raise e.
Proof.
  revert s. induction l as [|x l IH]; intros s H; simpl in H; [done|].
  destruct (f s x) as [s1|e'] eqn:Hx; simpl in H.
  - destruct (IH _ H) as (s' & y & Hy & Hr). exists s', y. split; [by right|done].
  - injection H as ->. exists s, x. split; [by left|done].
Qed.

(** ** Indexing *)

Lemma indexar_ok {A : Type} (l : list A) (i : nat) (x : A) :
  l !! i = Some x → indexar l (Z.of_nat i) = Ok x.
Proof.
  intros H. unfold indexar. pose proof (lookup_lt_Some _ _ _ H).
  rewrite bool_decide_eq_true_2 by lia. by rewrite Nat2Z.id, H.
Qed.


Lemma indexar_negativo {A : Type} (l : list A) (i : Z) :
  - Z.of_nat (length l) ≤ i < 0 →
  ∃ x, l !! Z.to_nat (Z.of_nat (length l) + i) = Some x ∧ indexar l i = Ok x.
Proof.
  intros H. unfold indexar.
  rewrite bool_decide_eq_false_2 by lia. rewrite bool_decide_eq_true_2 by lia.
  destruct (lookup_lt_is_Some_2 l (Z.to_nat (Z.of_nat (length l) + i))) as [x Hx]; [lia|].
  exists x. by rewrite Hx.
Qed.

Lemma indexar_error {A : Type} (l : list A) (i : Z) (e : exn) :
  indexar l i = Raise e → e = IndexError.
Proof.
  unfold indexar. repeat case_bool_decide;
    try (destruct (l !! _); simpl); congruence.
Qed.

Lemma celda_np_error (m : list (list Z)) (u v : Z) (e : exn) :
  celda_np m u v = Raise e → e = IndexError.
Proof.
  unfold celda_np. destruct (indexar m u) as [fila|e'] eqn:Hu; simpl.
  - apply indexar_error.
  - intros [= <-]. by eapply indexar_error.
Qed.

Lemma celda_np_ok (m : list (list Z)) (u v : nat) (fila : list Z) (w : Z) :
  m !! u = Some fila → fila !! v = Some w →
  celda_np m (Z.of_nat u) (Z.of_nat v) = Ok w ∧ celda m u v = w.
Proof.
  intros Hu Hv. unfold celda_np, celda.
  rewrite (indexar_ok _ _ _ Hu). simpl. rewrite (indexar_ok _ _ _ Hv).
  by rewrite Hu; simpl; rewrite Hv.
Qed.

(** ** Loading a graph *)

Definition filas_iguales (m : list (list Z)) (c : nat) : Prop :=
  Forall (λ fila, length fila = c) m.

Lemma np_array_ok (m : list (list Z)) (c : nat) :
  filas_iguales m c → np_array m = Ok m.
Proof.
  intros H. destruct m as [|f r]; [done|]. simpl.
  rewrite bool_decide_eq_true_2; [done|].
  apply Forall_cons in H as [-> H]. done.
Qed.

Lemma np_array_inv (m arr : list (list Z)) :
  np_array m = Ok arr → arr = m ∧ ∃ c, filas_iguales m c.
Proof.
  destruct m as [|f r]; simpl.
  - intros [= <-]. split; [done|]. exists O. constructor.
  - case_bool_decide as H; [|done]. intros [= <-]. split; [done|].
    exists (length f). by constructor.
Qed.

Lemma elem_of_pares_superiores (n i j : nat) :
  (i, j) ∈ pares_superiores n ↔ (i < j < n)%nat.
Proof.
  unfold pares_superiores. rewrite list_elem_of_bind. split.
  - intros (i' & Hij & Hi). apply list_elem_of_bind in Hij as (j' & Hij & Hj).
    apply list_elem_of_singleton in Hij as [= -> ->].
    apply elem_of_seq in Hi, Hj. lia.
  - intros H. exists i. split; [|apply elem_of_seq; lia].
    apply list_elem_of_bind. exists j. split; [by apply list_elem_of_singleton|].
    apply elem_of_seq. lia.
Qed.

(** C8, as stated, fails: a matrix of two rows and three columns is
    loaded, and so is a matrix of one row with two labels. *)
Lemma cargar_no_rechaza_formas :
  (¬ filas_iguales [[0; 1; 5]; [1; 0; 5]] 2 ∧
   ∃ ga, cargar [[0; 1; 5]; [1; 0; 5]] ["A"; "B"]%string "ancho" = Ok ga ∧ N ga = 2%nat) ∧
  (length ["A"; "B"]%string ≠ length [[0]] ∧
   ∃ ga, cargar [[0]] ["A"; "B"]%string "uno" = Ok ga ∧ N ga = 1%nat).
Proof.
  split; split.
  - intros Hf. apply Forall_cons in Hf as [Hf _]. discriminate Hf.
  - eexists. vm_compute. done.
  - simpl. lia.
  - eexists. vm_compute. done.
Qed.

Lemma np_array_error (m : list (list Z)) (e : exn) :
  np_array m = Raise e → e = ValueError.
Proof.
  destruct m as [|f r]; simpl; [done|]. case_bool_decide; congruence.
Qed.

Lemma agregar_arista_error arr ns g ij e :
  agregar_arista arr ns g ij = Raise e → e = IndexError.
Proof.
  unfold agregar_arista.
  destruct (celda_np arr _ _) as [w|e'] eqn:Hw; simpl.
  - case_bool_decide; [|done].
    destruct (indexar ns (Z.of_nat ij.1)) as [a|e1] eqn:Ha; simpl.
    + destruct (indexar ns (Z.of_nat ij.2)) as [b|e2] eqn:Hb; simpl; [done|].
      intros [= <-]. by eapply indexar_error.
    + intros [= <-]. by eapply indexar_error.
  - intros [= <-]. by eapply celda_np_error.
Qed.

Lemma cargar_errores (m : list (list Z)) (ns : list string) (g : string) (e : exn) :
  cargar m ns g = Raise e → e = ValueError ∨ e = IndexError.
Proof.
  unfold cargar.
  destruct (np_array m) as [arr|e'] eqn:Harr; simpl.
  - destruct (plegar _ _ _) as [g'|e''] eqn:Hp; simpl; [done|].
    intros [= <-]. right.
    apply plegar_raise in Hp as (s & x & _ & Hx). by eapply agregar_arista_error.
  - intros [= <-]. left. by eapply np_array_error.
Qed.

(** C8, amended: [cargar] checks neither that the matrix is square nor
    the number of labels. A matrix whose rows have one length [c], with
    at most one row or at most [c] rows, and whose edges above the
    diagonal join labelled indices, is loaded as it is: [N] is the number
    of rows, and the matrix and the labels are the ones given. A call
    fails only with the [ValueError] of [np.array] or the [IndexError] of
    a reading of a cell or a label. *)
Theorem cargar_sin_validar_forma (m : list (list Z)) (ns : list string) (g : string)
    (c : nat) :
  filas_iguales m c →
  (length m ≤ 1 ∨ length m ≤ c)%nat →
  (∀ i j, (i < j < length m)%nat → celda m i j > 0 → (j < length ns)%nat) →
  (∃ ga, cargar m ns g = Ok ga ∧
         matriz ga = m ∧ nombres ga = ns ∧ N ga = length m ∧ nombre_grafo ga = g) ∧
  (∀ m' ns' g' e, cargar m' ns' g' = Raise e → e = ValueError ∨ e = IndexError).
Proof.
  intros Hfilas Hdim Hns. split; [|intros; by eapply cargar_errores].
  unfold cargar. rewrite (np_array_ok _ _ Hfilas). simpl.
  destruct (plegar_ok (λ _, True) (agregar_arista m ns) (pares_superiores (length m)))
    with (s := (∅ : gmap string (gmap string Z))) as (g' & -> & _); [|done|by eexists].
  intros s [i j] Hij _. apply elem_of_pares_superiores in Hij.
  destruct (lookup_lt_is_Some_2 m i) as [fila Hfila]; [lia|].
  assert (length fila = c) by (eapply Forall_lookup_1 in Hfilas; eauto).
  destruct (lookup_lt_is_Some_2 fila j) as [w Hw]; [lia|].
  destruct (celda_np_ok _ _ _ _ _ Hfila Hw) as [Hnp Hc].
  unfold agregar_arista. simpl. rewrite Hnp. simpl.
  case_bool_decide as Hpos; [|by eexists].
  assert (j < length ns)%nat as Hj by (apply (Hns i j); [lia|by rewrite Hc]).
  destruct (lookup_lt_is_Some_2 ns i) as [a Ha]; [lia|].
  destruct (lookup_lt_is_Some_2 ns j) as [b Hb]; [lia|].
  rewrite (indexar_ok _ _ _ Ha). simpl. rewrite (indexar_ok _ _ _ Hb). simpl.
  by eexists.
Qed.

Lemma cargar_sin_validar_forma_testigo :
  (∃ ga, cargar [[0; 1; 5]; [1; 0; 5]] ["A"; "B"]%string "ancho" = Ok ga ∧
         matriz ga = [[0; 1; 5]; [1; 0; 5]] ∧ nombres ga = ["A"; "B"]%string ∧
         N ga = 2%nat ∧ nombre_grafo ga = "ancho"%string) ∧
  (∀ m' ns' g' e, cargar m' ns' g' = Raise e → e = ValueError ∨ e = IndexError).
Proof.
  apply (cargar_sin_validar_forma [[0; 1; 5]; [1; 0; 5]] ["A"; "B"]%string "ancho" 3).
  - repeat constructor.
  - right. simpl. lia.
  - intros i j Hij _. simpl in *. lia.
Defined.

(** ** Loading from a JSON file *)

Lemma no_cuadrada_detecta (n : nat) (filas : list json) :
  Forall (λ f, ∃ l, f = JList l) filas →
  Exists (λ f, py_len f ≠ Ok n) filas →
  no_cuadrada n filas = Ok true.
Proof.
  induction filas as [|f r IH]; intros Hl Hex; [by apply Exists_nil in Hex|].
  apply Forall_cons in Hl as [[l ->] Hl]. simpl.
  case_bool_decide as Hk; [done|].
  apply Exists_cons in Hex as [Hex|Hex]; [|by apply IH].
  simpl in Hex. destruct Hex. f_equal.
  destruct (decide (length l = n)); [done|by destruct Hk].
Qed.

(** Comparison, maximum and [str] on the integers and strings of the
    examples below. *)
Definition ne_enteros (a b : json) : bool :=
  match a, b with
  | JInt x, JInt y => negb (bool_decide (x = y))
  | _, _ => true
  end.

Definition max_enteros (a b : json) : result json :=
  match a, b with
  | JInt x, JInt y => Ok (JInt (x `max` y))
  | _, _ => Raise TypeError
  end.

Definition str_cadenas (a : json) : string :=
  match a with
  | JStr s => s
  | _ => ""
  end.

Definition un_archivo (contenido : json) (ruta : string) : result json :=
  if bool_decide (ruta = "grafo.json") then Ok contenido else Raise FileNotFoundError.

Example cargar_desde_json_matriz :
  cargar_desde_json
    (un_archivo (JDict [("matriz", JList [JList [JInt 0; JInt 2]; JList [JInt 3; JInt 0]])]))
    ne_enteros max_enteros str_cadenas (λ _, "error") "grafo.json"
  = (Some (JList [JList [JInt 0; JInt 3]; JList [JInt 3; JInt 0]]),
     Some (JList [JStr "A"; JStr "B"]), None).
Proof. vm_compute. reflexivity. Qed.

Example cargar_desde_json_aristas :
  cargar_desde_json
    (un_archivo (JDict [("aristas",
       JList [JDict [("origen", JStr "B"); ("destino", JStr "A"); ("peso", JInt 5)];
              JDict [("origen", JStr "C"); ("destino", JStr "A")]])]))
    ne_enteros max_enteros str_cadenas (λ _, "error") "grafo.json"
  = (Some (JList [JList [JInt 0; JInt 5; JInt 1];
                  JList [JInt 5; JInt 0; JInt 0];
                  JList [JInt 1; JInt 0; JInt 0]]),
     Some (JList [JStr "A"; JStr "B"; JStr "C"]), None).
Proof. vm_compute. reflexivity. Qed.

Example cargar_desde_json_fallos :
  cargar_desde_json (un_archivo (JInt 5)) ne_enteros max_enteros str_cadenas
    (λ _, "error") "otro.json" = (None, None, Some mensaje_no_encontrado) ∧
  cargar_desde_json (un_archivo (JInt 5)) ne_enteros max_enteros str_cadenas
    (λ _, "error") "grafo.json" = (None, None, Some "error"%string) ∧
  cargar_desde_json (un_archivo (JDict [("matriz", JList [JList [JInt 0; JInt 1]])]))
    ne_enteros max_enteros str_cadenas (λ _, "error") "grafo.json"
    = (None, None, Some mensaje_no_cuadrada) ∧
  cargar_desde_json (un_archivo (JList [JStr "nodos"]))
    ne_enteros max_enteros str_cadenas (λ _, "error") "grafo.json"
    = (None, None, Some mensaje_sin_clave).
Proof. vm_compute. done. Qed.

(** C10: whatever the file system and the interpreter answer, and
    whatever the path, [cargar_desde_json] returns a triple of one of two
    shapes: a matrix and labels with no message, or a message alone. A
    missing file, a file that is no JSON, a dictionary with neither key,
    a list of rows with a row of another length, and any other exception
    each give the message alone. *)
Theorem cargar_desde_json_total
    (leer_json : string → result json) (py_ne : json → json → bool)
    (py_max : json → json → result json) (py_str : json → string)
    (str_exn : exn → string) (ruta : string) :
  let r := cargar_desde_json leer_json py_ne py_max py_str str_exn ruta in
  ((∃ matriz nombres, r = (Some matriz, Some nombres, None)) ∨
   (∃ mensaje, r = (None, None, Some mensaje))) ∧
  (leer_json ruta = Raise FileNotFoundError → r = (None, None, Some mensaje_no_encontrado)) ∧
  (leer_json ruta = Raise JSONDecodeError → r = (None, None, Some mensaje_json_invalido)) ∧
  (∀ e, intento leer_json py_ne py_max py_str ruta = Raise e →
        ∃ mensaje, r = (None, None, Some mensaje)) ∧
  (∀ d, leer_json ruta = Ok (JDict d) → buscar "matriz" d = None →
        buscar "aristas" d = None → r = (None, None, Some mensaje_sin_clave)) ∧
  (∀ d filas, leer_json ruta = Ok (JDict d) → buscar "matriz" d = Some (JList filas) →
        Forall (λ f, ∃ l, f = JList l) filas →
        Exists (λ f, py_len f ≠ Ok (length filas)) filas →
        r = (None, None, Some mensaje_no_cuadrada)).
Proof.
  intros r. subst r. unfold cargar_desde_json.
  split; [|split; [|split; [|split; [|split]]]].
  - destruct (intento _ _ _ _ _) as [[m n|msg]|e]; [left|right|right]; eauto.
    destruct e; eauto.
  - intros H. unfold intento. by rewrite H.
  - intros H. unfold intento. by rewrite H.
  - intros e ->. destruct e; eauto.
  - intros d H Hm Ha. unfold intento. rewrite H. simpl. rewrite Hm, Ha. simpl.
    done.
  - intros d filas H Hm Hl Hex. unfold intento. rewrite H. simpl. rewrite Hm. simpl.
    unfold formato_matriz. simpl. rewrite Hm. simpl.
    by rewrite (no_cuadrada_detecta _ _ Hl Hex).
Qed.












Lemma elem_of_matriz_a_aristas (m : list (list Z)) (i j : nat) (w : Z) :
  (i, j, w) ∈ matriz_a_aristas m ↔
  (i < length m)%nat ∧ (j < length m)%nat ∧ w = celda m i j ∧ w ≠ 0.
Proof.
  unfold matriz_a_aristas. rewrite list_elem_of_bind. split.
  - intros (i' & Hij & Hi). apply list_elem_of_bind in Hij as (j' & Hij & Hj).
    apply elem_of_seq in Hi, Hj. case_bool_decide; [|by apply elem_of_nil in Hij].
    apply list_elem_of_singleton in Hij as [= -> -> ->]. split_and!; [lia..|done|done].
  - intros (Hi & Hj & -> & Hw). exists i. split; [|apply elem_of_seq; lia].
    apply list_elem_of_bind. exists j. split; [|apply elem_of_seq; lia].
    rewrite bool_decide_eq_true_2 by done. by apply list_elem_of_singleton.
Qed.




Lemma grafo2_cuadrada : cuadrada grafo2.
Proof. split; [reflexivity|]. vm_compute. repeat constructor. Qed.

Lemma grafo1_cuadrada : cuadrada grafo1.
Proof. split; [reflexivity|]. vm_compute. repeat constructor. Qed.

(** * Loops *)

Lemma iterar_exc_inv {A : Type} (P : A → Prop) (cuerpo : A → result (flujo A)) :
  (∀ s r, P s → cuerpo s = Ok r → P (estado_de r)) →
  ∀ fuel s r, P s → iterar_exc cuerpo fuel s = Ok r → P (estado_de r).
Proof.
  intros Hc. induction fuel as [|f IH]; intros s r Hs; simpl.
  - by intros [= <-].
  - destruct (cuerpo s) as [[s'|s']|e] eqn:Hs'; [|intros [= <-]|done].
    + apply IH. by apply (Hc s (Sigue s')).
    + by apply (Hc s (Alto s')).
Qed.

Lemma iterar_exc_termina {A : Type} (P Q : A → Prop) (mu : A → nat)
    (cuerpo : A → result (flujo A)) :
  (∀ s, P s → match cuerpo s with
              | Ok (Sigue s') => P s' ∧ (mu s' < mu s)%nat
              | Ok (Alto s') => Q s'
              | Raise _ => False
              end) →
  ∀ fuel s, P s → (mu s < fuel)%nat →
    ∃ s', iterar_exc cuerpo fuel s = Ok (Alto s') ∧ Q s'.
Proof.
  intros Hc. induction fuel as [|f IH]; intros s Hs Hmu; [lia|]. simpl.
  specialize (Hc s Hs). destruct (cuerpo s) as [[s'|s']|e]; [|by eexists|done].
  destruct Hc as [Hs' Hlt]. apply IH; [done|lia].
Qed.

Lemma iterar_inv {A : Type} (P : A → Prop) (cuerpo : A → flujo A) :
  (∀ s, P s → P (estado_de (cuerpo s))) →
  ∀ fuel s, P s → P (estado_de (iterar cuerpo fuel s)).
Proof.
  intros Hc. induction fuel as [|f IH]; intros s Hs; simpl; [done|].
  specialize (Hc s Hs). destruct (cuerpo s) as [s'|s']; [by apply IH|done].
Qed.

Lemma iterar_termina {A : Type} (P Q : A → Prop) (mu : A → nat) (cuerpo : A → flujo A) :
  (∀ s, P s → match cuerpo s with
              | Sigue s' => P s' ∧ (mu s' < mu s)%nat
              | Alto s' => Q s'
              end) →
  ∀ fuel s, P s → (mu s < fuel)%nat → ∃ s', iterar cuerpo fuel s = Alto s' ∧ Q s'.
Proof.
  intros Hc. induction fuel as [|f IH]; intros s Hs Hmu; [lia|]. simpl.
  specialize (Hc s Hs). destruct (cuerpo s) as [s'|s']; [|by eexists].
  destruct Hc as [Hs' Hlt]. apply IH; [done|lia].
Qed.

(** * Traces of visits *)

Lemma crece_snoc `{Countable A} (prev : gset A) (l : list (A * gset A)) (fin : gset A)
    (a : A) :
  crece prev l fin → a ∉ fin → crece prev (l ++ [(a, {[a]} ∪ fin)]) ({[a]} ∪ fin).
Proof.
  revert prev. induction l as [|[b v] l IH]; intros prev; simpl.
  - by intros ->.
  - intros (? & ? & ?) ?. eauto.
Qed.

Lemma crece_subseteq `{Countable A} (prev : gset A) (l : list (A * gset A)) (fin : gset A) :
  crece prev l fin → prev ⊆ fin ∧ ∀ a v, (a, v) ∈ l → a ∈ v ∧ v ⊆ fin.
Proof.
  revert prev. induction l as [|[b w] l IH]; intros prev; simpl.
  - intros ->. split; [done|]. intros a v Hin. by apply elem_of_nil in Hin.
  - intros (Hb & -> & Hr). destruct (IH _ Hr) as [Hsub Hall]. split; [set_solver|].
    intros a v Hin. apply elem_of_cons in Hin as [[= -> ->]|Hin]; [|by apply Hall].
    split; [set_solver|done].
Qed.

Lemma faltan_subseteq `{Countable A} (vis vis' : gset A) (cands : list A) :
  vis ⊆ vis' → (faltan vis' cands ≤ faltan vis cands)%nat.
Proof.
  intros Hsub. unfold faltan. induction cands as [|c cands IH]; simpl; [done|].
  rewrite !filter_cons. destruct (decide (c ∉ vis')), (decide (c ∉ vis)); simpl; try lia.
  set_solver.
Qed.

Lemma faltan_visita `{Countable A} (vis : gset A) (cands : list A) (u : A) :
  u ∈ cands → u ∉ vis → (faltan ({[u]} ∪ vis) cands < faltan vis cands)%nat.
Proof.
  intros Hin Hu. unfold faltan. induction cands as [|c cands IH]; [by apply elem_of_nil in Hin|].
  rewrite !filter_cons.
  pose proof (faltan_subseteq vis ({[u]} ∪ vis) cands) as Hle. unfold faltan in Hle.
  apply elem_of_cons in Hin as [<-|Hin].
  - rewrite decide_False by set_solver. rewrite decide_True by done. simpl.
    assert (vis ⊆ {[u]} ∪ vis) by set_solver. specialize (Hle ltac:(done)). lia.
  - specialize (IH Hin).
    destruct (decide (c ∉ {[u]} ∪ vis)), (decide (c ∉ vis)); simpl; try lia.
    set_solver.
Qed.

Lemma faltan_length `{Countable A} (vis : gset A) (cands : list A) :
  (faltan vis cands ≤ length cands)%nat.
Proof. apply length_filter. Qed.

(** * BFS *)

Lemma primer_origen_app (v : Z) (l l' : list (Z * Z)) :
  primer_origen v (l ++ l') =
  match primer_origen v l with
  | Some u => Some u
  | None => primer_origen v l'
  end.
Proof.
  induction l as [|[u w] l IH]; simpl; [done|]. by case_bool_decide.
Qed.

Lemma indexar_valido {A : Type} (l : list A) (i : Z) :
  - Z.of_nat (length l) ≤ i < Z.of_nat (length l) → ∃ x, indexar l i = Ok x.
Proof.
  intros Hi. destruct (decide (0 ≤ i)) as [Hpos|Hneg].
  - destruct (lookup_lt_is_Some_2 l (Z.to_nat i)) as [x Hx]; [lia|].
    exists x. rewrite <- (Z2Nat.id i) by done. by apply indexar_ok.
  - destruct (indexar_negativo l i) as (x & _ & Hx); [lia|]. by exists x.
Qed.

Lemma indexar_elem {A : Type} (l : list A) (i : Z) (x : A) :
  indexar l i = Ok x → x ∈ l.
Proof.
  unfold indexar. repeat case_bool_decide; [| |done].
  - destruct (l !! Z.to_nat i) eqn:Hl; simpl; [|done]. intros [= <-].
    by eapply list_elem_of_lookup_2.
  - destruct (l !! Z.to_nat _) eqn:Hl; simpl; [|done]. intros [= <-].
    by eapply list_elem_of_lookup_2.
Qed.

Lemma celda_np_valido (ga : GrafoActivo) (u v : Z) :
  cuadrada ga → indice_valido ga u → indice_valido ga v →
  ∃ w, celda_np (matriz ga) u v = Ok w.
Proof.
  intros [Hlen Hfilas] Hu Hv. unfold celda_np, indice_valido in *.
  destruct (indexar_valido (matriz ga) u) as [fila Hfila]; [lia|].
  rewrite Hfila. simpl. apply indexar_valido.
  apply indexar_elem in Hfila. eapply Forall_forall in Hfilas; [|exact Hfila].
  simpl in Hfilas. lia.
Qed.

Lemma elem_of_rango (n : nat) (v : Z) : v ∈ BFS.rango n ↔ 0 ≤ v < Z.of_nat n.
Proof.
  unfold BFS.rango. rewrite list_elem_of_fmap. split.
  - intros (k & -> & Hk). apply elem_of_seq in Hk. lia.
  - intros Hv. exists (Z.to_nat v). split; [lia|]. apply elem_of_seq. lia.
Qed.

(** One turn of the inner loop, for a node whose row exists. *)
Lemma bfs_explorar_spec (ga : GrafoActivo) (inicio u : Z) (s : BFS.estado) (v : Z) :
  cuadrada ga → indice_valido ga u → v ∈ BFS.rango (N ga) →
  BFS.padre s !! inicio = Some None →
  (∀ x, x ≠ inicio → BFS.padre s !! x = Some <$> primer_origen x (BFS.encolados s)) →
  ∃ s', BFS.explorar ga u s v = Ok s' ∧
        BFS.visitado s' = BFS.visitado s ∧ BFS.pasos s' = BFS.pasos s ∧
        (length (BFS.cola s') ≤ S (length (BFS.cola s)))%nat ∧
        (Forall (λ x, x ∈ inicio :: BFS.rango (N ga)) (BFS.cola s) →
         Forall (λ x, x ∈ inicio :: BFS.rango (N ga)) (BFS.cola s')) ∧
        BFS.padre s ⊆ BFS.padre s' ∧
        BFS.padre s' !! inicio = Some None ∧
        (∀ x, x ≠ inicio → BFS.padre s' !! x = Some <$> primer_origen x (BFS.encolados s')).
Proof.
  intros Hc Hu Hv Hraiz Hpadre.
  assert (indice_valido ga v) as Hv'.
  { apply elem_of_rango in Hv. unfold indice_valido. lia. }
  destruct (celda_np_valido ga u v Hc Hu Hv') as [w Hw].
  unfold BFS.explorar. rewrite Hw. simpl.
  destruct (bool_decide (w > 0) && bool_decide (v ∉ BFS.visitado s)) eqn:Hcond.
  2:{ eexists. split; [done|]. split_and!; try done. lia. }
  eexists. split; [done|]. simpl. split_and!; try done.
  - rewrite length_app. simpl. lia.
  - intros Hcola. apply Forall_app. split; [done|]. constructor; [by right|done].
  - destruct (BFS.padre s !! v) eqn:Hpv; [done|]. by apply insert_subseteq.
  - destruct (BFS.padre s !! v) eqn:Hpv; [done|].
    rewrite lookup_insert_ne; [done|]. intros ->. congruence.
  - intros x Hx. rewrite primer_origen_app. simpl.
    destruct (BFS.padre s !! v) as [pv|] eqn:Hpv.
    + rewrite (Hpadre x Hx). destruct (primer_origen x (BFS.encolados s)) eqn:Hpo; [done|].
      destruct (decide (v = x)) as [<-|Hxv]; [|by rewrite bool_decide_eq_false_2].
      rewrite (Hpadre v Hx), Hpo in Hpv. done.
    + destruct (decide (x = v)) as [->|Hxv].
      * rewrite lookup_insert_eq. rewrite (Hpadre v Hx) in Hpv.
        destruct (primer_origen v (BFS.encolados s)); [done|].
        by rewrite bool_decide_eq_true_2.
      * rewrite lookup_insert_ne by done. rewrite (Hpadre x Hx).
        destruct (primer_origen x (BFS.encolados s)); [done|].
        by rewrite bool_decide_eq_false_2.
Qed.

Lemma bfs_plegar_explorar (ga : GrafoActivo) (inicio u : Z) (l : list Z) :
  cuadrada ga → indice_valido ga u → l ⊆ BFS.rango (N ga) →
  ∀ s,
    BFS.padre s !! inicio = Some None →
    (∀ x, x ≠ inicio → BFS.padre s !! x = Some <$> primer_origen x (BFS.encolados s)) →
    ∃ s', plegar (BFS.explorar ga u) s l = Ok s' ∧
          BFS.visitado s' = BFS.visitado s ∧ BFS.pasos s' = BFS.pasos s ∧
          (length (BFS.cola s') ≤ length (BFS.cola s) + length l)%nat ∧
          (Forall (λ x, x ∈ inicio :: BFS.rango (N ga)) (BFS.cola s) →
         Forall (λ x, x ∈ inicio :: BFS.rango (N ga)) (BFS.cola s')) ∧
          BFS.padre s ⊆ BFS.padre s' ∧
          BFS.padre s' !! inicio = Some None ∧
          (∀ x, x ≠ inicio → BFS.padre s' !! x = Some <$> primer_origen x (BFS.encolados s')).
Proof.
  intros Hc Hu. induction l as [|v l IH]; intros Hl s Hraiz Hpadre; simpl.
  - exists s. split_and!; try done. lia.
  - destruct (bfs_explorar_spec ga inicio u s v) as (s1 & -> & Hv1 & Hp1 & Hl1 & Hc1 & Hs1 & Hr1 & Hpa1);
      [done|done|apply Hl; by left|done|done|]. simpl.
    destruct (IH ltac:(set_solver) s1 Hr1 Hpa1) as (s' & -> & Hv2 & Hp2 & Hl2 & Hc2 & Hs2 & Hr2 & Hpa2).
    exists s'. split; [done|]. rewrite Hv2, Hv1, Hp2, Hp1. split_and!; try done.
    + lia.
    + eauto.
    + by etrans.
Qed.

Lemma indice_valido_candidato (ga : GrafoActivo) (inicio x : Z) :
  indice_valido ga inicio → x ∈ inicio :: BFS.rango (N ga) → indice_valido ga x.
Proof.
  intros Hi Hx. apply elem_of_cons in Hx as [->|Hx]; [done|].
  apply elem_of_rango in Hx. unfold indice_valido. lia.
Qed.

Lemma bfs_cuerpo_spec (ga : GrafoActivo) (inicio : Z) (s : BFS.estado) :
  cuadrada ga → indice_valido ga inicio → bfs_inv ga inicio s →
  match BFS.cuerpo ga s with
  | Ok (Sigue s') =>
      bfs_inv ga inicio s' ∧ (bfs_medida ga inicio s' < bfs_medida ga inicio s)%nat
  | Ok (Alto s') => bfs_inv ga inicio s' ∧ BFS.cola s' = []
  | Raise _ => False
  end.
Proof.
  intros Hc Hini Hinv. pose proof Hinv as [Hcola Hcrece Hraiz Hpadre Hpasos Horden Hprim].
  unfold BFS.cuerpo.
  destruct (BFS.cola s) as [|u resto] eqn:Hq; [done|].
  apply Forall_cons in Hcola as [Hin Hresto].
  assert (indice_valido ga u) as Hu by (by eapply indice_valido_candidato).
  case_bool_decide as Hvis.
  - split; [split; try done|unfold bfs_medida; simpl; rewrite Hq; simpl; lia].
    simpl. destruct Hprim as [(_ & _ & Hv0)|Hprim]; [|by right].
    rewrite Hv0 in Hvis. by apply elem_of_empty in Hvis.
  - set (s1 := {| BFS.visitado := {[u]} ∪ BFS.visitado s |}).
    destruct (bfs_plegar_explorar ga inicio u (BFS.rango (N ga)) Hc Hu ltac:(done) s1)
      as (s' & -> & Hv & Hp & Hl & Hcs & Hsub & Hr & Hpa); [done|done|]. simpl.
    simpl in Hv, Hp, Hl, Hcs, Hsub.
    split.
    + split; [by apply Hcs| | done | done | | |].
      * rewrite Hp, Hv, fmap_app. simpl. by apply crece_snoc.
      * intros k p. rewrite Hp. intros Hk.
        apply lookup_app_Some in Hk as [Hk|[_ Hk]].
        -- etrans; [by eapply Hpasos|done].
        -- apply list_lookup_singleton_Some in Hk as [_ <-]. done.
      * intros k k' p p' Hkk. rewrite Hp. intros Hk Hk'.
        apply lookup_app_Some in Hk' as [Hk'|[Hge' Hk']].
        -- apply lookup_app_Some in Hk as [Hk|[Hge Hk]]; [by eapply Horden|].
           apply lookup_lt_Some in Hk'. lia.
        -- apply list_lookup_singleton_Some in Hk' as [_ <-]. simpl.
           apply lookup_app_Some in Hk as [Hk|[Hge Hk]]; [by eapply Hpasos|].
           apply list_lookup_singleton_Some in Hk as [_ <-]. done.
      * right. rewrite Hp. simpl.
        destruct Hprim as [(Hp0 & Hq0 & _)|Hprim].
        -- rewrite Hp0. simpl. by injection Hq0 as ->.
        -- destruct (BFS.pasos s); [done|]. done.
    + unfold bfs_medida. rewrite Hv, Hq. simpl.
      pose proof (faltan_visita (BFS.visitado s) _ u Hin Hvis).
      unfold BFS.rango in Hl. rewrite length_fmap, length_seq in Hl. nia.
Qed.

Lemma bfs_inv_inicial (ga : GrafoActivo) (inicio : Z) : bfs_inv ga inicio (BFS.inicial inicio).
Proof.
  split; simpl.
  - constructor; [by left|constructor].
  - done.
  - apply lookup_singleton_eq.
  - intros v Hv. by rewrite lookup_singleton_ne.
  - intros k p Hk. done.
  - intros k k' p p' _ Hk. done.
  - by left.
Qed.

(** For an index that NumPy accepts, the loop of BFS raises nothing
    and ends on an empty queue, within the fuel of the model. *)
Lemma bfs_bucle_termina (ga : GrafoActivo) (inicio : Z) :
  cuadrada ga → indice_valido ga inicio →
  ∃ s, BFS.bucle ga inicio = Ok (Alto s) ∧ bfs_inv ga inicio s ∧ BFS.cola s = [].
Proof.
  intros Hc Hi. unfold BFS.bucle.
  apply (iterar_exc_termina (bfs_inv ga inicio) _ (bfs_medida ga inicio)).
  - intros s Hs. apply (bfs_cuerpo_spec ga inicio s Hc Hi Hs).
  - apply bfs_inv_inicial.
  - unfold bfs_medida, BFS.fuel. simpl.
    pose proof (faltan_length (∅ : gset Z) (inicio :: BFS.rango (N ga))) as Hf.
    simpl in Hf. unfold BFS.rango in Hf at 2. rewrite length_fmap, length_seq in Hf. nia.
Qed.

(** C6. For a square matrix and a valid start, BFS ends and returns
    its steps, and in every step the parent of a node [v] other than the
    start is the node from which [v] was first appended to the queue
    (the first pair with target [v] in the log of all the appends of the
    run, whatever later pairs have the same target), and every later
    step has the same parent for [v]. *)
Theorem bfs_padre_primer_descubrimiento (ga : GrafoActivo) (inicio : Z) :
  cuadrada ga → 0 ≤ inicio < Z.of_nat (N ga) →
  ∃ s, BFS.bucle ga inicio = Ok (Alto s) ∧
       BFS.bfs_pasos ga inicio = Ok (BFS.pasos s) ∧
       ∀ k p v pv,
         BFS.pasos s !! k = Some p → v ≠ inicio → BFS.p_padre p !! v = Some pv →
         (∃ u, pv = Some u ∧ primer_origen v (BFS.encolados s) = Some u) ∧
         (∀ k' p', (k ≤ k')%nat → BFS.pasos s !! k' = Some p' →
                   BFS.p_padre p' !! v = Some pv).
Proof.
  intros Hc Hi.
  destruct (bfs_bucle_termina ga inicio Hc) as (s & Hb & Hinv & _).
  { unfold indice_valido. lia. }
  exists s. split; [done|]. split; [unfold BFS.bfs_pasos; by rewrite Hb|].
  destruct Hinv as [_ _ _ Hpadre Hpasos Horden _].
  intros k p v pv Hk Hv Hpv. split.
  - pose proof (lookup_weaken _ _ _ _ Hpv (Hpasos k p Hk)) as Hfin.
    rewrite (Hpadre v Hv) in Hfin.
    destruct (primer_origen v (BFS.encolados s)) as [u|]; [|done].
    injection Hfin as <-. by exists u.
  - intros k' p' Hkk Hk'. eapply lookup_weaken; [exact Hpv|]. by eapply Horden.
Qed.

Lemma bfs_padre_primer_descubrimiento_testigo :
  ∃ s, BFS.bucle grafo2 0 = Ok (Alto s) ∧
       BFS.bfs_pasos grafo2 0 = Ok (BFS.pasos s) ∧
       ∀ k p v pv,
         BFS.pasos s !! k = Some p → v ≠ 0 → BFS.p_padre p !! v = Some pv →
         (∃ u, pv = Some u ∧ primer_origen v (BFS.encolados s) = Some u) ∧
         (∀ k' p', (k ≤ k')%nat → BFS.pasos s !! k' = Some p' →
                   BFS.p_padre p' !! v = Some pv).
Proof.
  apply (bfs_padre_primer_descubrimiento grafo2 0).
  - split; [reflexivity|]. vm_compute. repeat constructor.
  - rewrite (proj2 grafo2_cargado). lia.
Defined.

(** On the sample graph of seven nodes, node X (index 5) is appended
    to the queue from U (index 2) and again from Y (index 6), and its
    parent is U in the last step. *)
Example bfs_grafo2_reencolado :
  ∃ ps p, BFS.bfs_pasos grafo2 0 = Ok ps ∧ last ps = Some p ∧
          BFS.p_padre p !! 5 = Some (Some 2) ∧
          (∃ s, BFS.bucle grafo2 0 = Ok (Alto s) ∧
                filter (λ e, e.2 = 5) (BFS.encolados s) = [(2, 5); (6, 5); (3, 5)]).
Proof.
  eexists _, _. split; [vm_compute; reflexivity|]. split; [reflexivity|].
  split; [vm_compute; reflexivity|]. eexists. split; vm_compute; reflexivity.
Qed.




(** The visited sets of BFS grow by the node of each step. *)
Lemma bfs_pasos_crece (ga : GrafoActivo) (inicio : Z) :
  cuadrada ga → 0 ≤ inicio < Z.of_nat (N ga) →
  ∃ s, BFS.bucle ga inicio = Ok (Alto s) ∧
       BFS.bfs_pasos ga inicio = Ok (BFS.pasos s) ∧
       crece ∅ (bfs_vista <$> BFS.pasos s) (BFS.visitado s).
Proof.
  intros Hc Hi.
  destruct (bfs_bucle_termina ga inicio Hc) as (s & Hb & Hinv & _).
  { unfold indice_valido. lia. }
  exists s. split; [done|]. split; [unfold BFS.bfs_pasos; by rewrite Hb|].
  by destruct Hinv.
Qed.

(** * The heap *)

Lemma elem_of_heappush {E : Type} (ltb : E → E → bool) (pq : list E) (x e : E) :
  e ∈ heappush ltb pq x ↔ e = x ∨ e ∈ pq.
Proof.
  induction pq as [|y r IH]; simpl.
  - rewrite list_elem_of_singleton, elem_of_nil. tauto.
  - destruct (ltb y x); rewrite !elem_of_cons; [rewrite IH|]; tauto.
Qed.

Lemma length_heappush {E : Type} (ltb : E → E → bool) (pq : list E) (x : E) :
  length (heappush ltb pq x) = S (length pq).
Proof.
  induction pq as [|y r IH]; simpl; [done|]. destruct (ltb y x); simpl; by rewrite ?IH.
Qed.

Lemma entrada_ltb_false (a b : Z * nat) : entrada_ltb a b = false → entrada_le b a.
Proof.
  unfold entrada_ltb, entrada_le. destruct a as [a1 a2], b as [b1 b2]. simpl.
  repeat case_bool_decide; simpl; try done; intros _; lia.
Qed.

Lemma entrada_ltb_true (a b : Z * nat) : entrada_ltb a b = true → entrada_le a b.
Proof.
  unfold entrada_ltb, entrada_le. destruct a as [a1 a2], b as [b1 b2]. simpl.
  repeat case_bool_decide; simpl; try done; intros _; lia.
Qed.

Lemma entrada_le_trans (a b c : Z * nat) : entrada_le a b → entrada_le b c → entrada_le a c.
Proof. unfold entrada_le. lia. Qed.

Lemma heappush_ordenada (pq : list (Z * nat)) (x : Z * nat) :
  StronglySorted entrada_le pq → StronglySorted entrada_le (heappush entrada_ltb pq x).
Proof.
  induction pq as [|y r IH]; simpl; intros Hs.
  - repeat constructor.
  - apply StronglySorted_inv in Hs as [Hr Hy].
    destruct (entrada_ltb y x) eqn:Hyx.
    + constructor; [by apply IH|]. apply Forall_forall. intros e He.
      apply elem_of_heappush in He as [->|He]; [by apply entrada_ltb_true|].
      by eapply Forall_forall in Hy.
    + apply entrada_ltb_false in Hyx. constructor; [by constructor|].
      constructor; [done|]. eapply Forall_impl; [exact Hy|].
      intros e He. by eapply entrada_le_trans.
Qed.

Lemma camino_de_no_negativo (ga : GrafoActivo) (inicio v : nat) (c : Z) :
  camino_de ga inicio v c → 0 ≤ c.
Proof. induction 1; lia. Qed.

Lemma camino_de_rango (ga : GrafoActivo) (inicio v : nat) (c : Z) :
  (inicio < N ga)%nat → camino_de ga inicio v c → (v < N ga)%nat.
Proof. intros Hi. by induction 1. Qed.

(** * Sums of 64-bit integers *)

Lemma int64_id (z : Z) : - 2 ^ 63 ≤ z < 2 ^ 63 → int64 z = z.
Proof. intros H. unfold int64. rewrite Z.mod_small; lia. Qed.

Lemma peso_max_no_negativo (ga : GrafoActivo) : 0 ≤ peso_max ga.
Proof. unfold peso_max. induction (concat (matriz ga)); simpl; lia. Qed.

Lemma elem_of_concat {A : Type} (x : A) (ls : list (list A)) :
  x ∈ concat ls ↔ ∃ l, x ∈ l ∧ l ∈ ls.
Proof.
  induction ls as [|l ls IH]; simpl.
  - split; [by intros ?%elem_of_nil|by intros (? & _ & ?%elem_of_nil)].
  - rewrite elem_of_app, IH. split.
    + intros [H|(l' & H & Hin)]; [exists l; split; [done|by left]|].
      exists l'. split; [done|by right].
    + intros (l' & H & [->|Hin]%elem_of_cons); [by left|right; by exists l'].
Qed.

Lemma celda_peso_max (ga : GrafoActivo) (i j : nat) : celda (matriz ga) i j ≤ peso_max ga.
Proof.
  pose proof (peso_max_no_negativo ga) as H0. unfold celda.
  destruct (matriz ga !! i) as [fila|] eqn:Hi; simpl; [|done].
  destruct (fila !! j) as [w|] eqn:Hj; simpl; [|done].
  assert (w ∈ concat (matriz ga)) as Hin.
  { apply elem_of_concat. exists fila. split; by eapply list_elem_of_lookup_2. }
  unfold peso_max. clear -Hin. induction (concat (matriz ga)) as [|x l IH]; simpl.
  - by apply elem_of_nil in Hin.
  - apply elem_of_cons in Hin as [->|Hin]; [lia|]. specialize (IH Hin). lia.
Qed.

Lemma peso_max_celda (ga : GrafoActivo) :
  peso_max ga = 0 ∨ ∃ i j, peso_max ga = celda (matriz ga) i j.
Proof.
  assert (∀ w, w ∈ concat (matriz ga) → ∃ i j, w = celda (matriz ga) i j) as Hcel.
  { intros w Hw. apply elem_of_concat in Hw as (fila & Hw & Hf).
    apply list_elem_of_lookup_1 in Hw as [j Hj]. apply list_elem_of_lookup_1 in Hf as [i Hi].
    exists i, j. unfold celda. rewrite Hi. simpl. by rewrite Hj. }
  unfold peso_max. induction (concat (matriz ga)) as [|x l IH]; simpl; [by left|].
  destruct (Z.max_spec x (foldr Z.max 0 l)) as [[_ ->]|[_ ->]].
  - apply IH. intros w Hw. apply Hcel. by right.
  - right. apply Hcel. by left.
Qed.

Lemma pesos_acotados_max (ga : GrafoActivo) :
  pesos_acotados ga → Z.of_nat (N ga) * peso_max ga < 2 ^ 63.
Proof.
  intros H. destruct (peso_max_celda ga) as [->|(i & j & ->)]; [lia|apply H].
Qed.

Lemma pesos_acotados_de_max (ga : GrafoActivo) :
  Z.of_nat (N ga) * peso_max ga < 2 ^ 63 → pesos_acotados ga.
Proof.
  intros H i j. pose proof (celda_peso_max ga i j). nia.
Qed.

Lemma grafo2_acotado : pesos_acotados grafo2.
Proof. apply pesos_acotados_de_max. by vm_compute. Qed.

Lemma grafo_atajo_acotado : pesos_acotados grafo_atajo.
Proof. apply pesos_acotados_de_max. by vm_compute. Qed.

(** A cost with room for one more weight can take the weight of an edge. *)
Lemma margen_suma (ga : GrafoActivo) (vis : gset nat) (c : Z) (u v : nat) :
  pesos_acotados ga → margen ga vis c → (u < N ga)%nat → u ∉ vis →
  celda (matriz ga) u v > 0 →
  int64 (c + celda (matriz ga) u v) = c + celda (matriz ga) u v ∧
  margen ga ({[u]} ∪ vis) (c + celda (matriz ga) u v).
Proof.
  intros Hac [Hc0 Hc] Hu Hvis Hw.
  pose proof (pesos_acotados_max ga Hac) as Hmax.
  pose proof (celda_peso_max ga u v) as Hle.
  assert (u ∈ seq 0 (N ga)) as Hin by (apply elem_of_seq; lia).
  pose proof (faltan_visita vis _ u Hin Hvis) as Hf.
  assert (c + celda (matriz ga) u v +
            Z.of_nat (faltan ({[u]} ∪ vis) (seq 0 (N ga))) * peso_max ga
          ≤ Z.of_nat (N ga) * peso_max ga) as Hcota by nia.
  split; [|split; [lia|done]].
  apply int64_id. nia.
Qed.

Lemma margen_mono (ga : GrafoActivo) (vis vis' : gset nat) (c : Z) :
  vis ⊆ vis' → margen ga vis c → margen ga vis' c.
Proof.
  intros Hsub [Hc0 Hc]. split; [done|].
  pose proof (faltan_subseteq vis vis' (seq 0 (N ga)) Hsub).
  pose proof (peso_max_no_negativo ga). nia.
Qed.

(** * Dijkstra *)

Lemma Z_lt_num_true (a : Z) (d : num) :
  Z_lt_num a d = true ↔ (d = Inf ∨ ∃ z, d = Num z ∧ a < z).
Proof.
  destruct d as [z|]; simpl.
  - rewrite bool_decide_eq_true. naive_solver.
  - naive_solver.
Qed.

Lemma Z_lt_num_false (a : Z) (d : num) :
  Z_lt_num a d = false ↔ ∃ z, d = Num z ∧ z ≤ a.
Proof.
  destruct d as [z|]; simpl.
  - rewrite bool_decide_eq_false. split; [intros; exists z; split; [done|lia]|].
    intros (z' & [= <-] & ?). lia.
  - split; [done|]. by intros (? & ? & _).
Qed.

(** One turn of the inner loop. *)
Lemma dij_relajar_exp (ga : GrafoActivo) (inicio u : nat) (du : Z) (hechos : list nat)
    (s : Dijkstra.estado) (v : nat) :
  dij_exp ga inicio u du hechos s → (v < N ga)%nat →
  (celda (matriz ga) u v > 0 →
   int64 (du + celda (matriz ga) u v) = du + celda (matriz ga) u v) →
  dij_exp ga inicio u du (hechos ++ [v]) (Dijkstra.relajar ga du u s v) ∧
  Dijkstra.visitado (Dijkstra.relajar ga du u s v) = Dijkstra.visitado s ∧
  Dijkstra.pasos (Dijkstra.relajar ga du u s v) = Dijkstra.pasos s ∧
  (length (Dijkstra.pq (Dijkstra.relajar ga du u s v)) ≤ S (length (Dijkstra.pq s)))%nat.
Proof.
  intros [Hlen Hnod Hord Hini Hcam Hu Hvis Hcota Hrel Hpar Henc Hcla Hmon Hopt] Hv Hcabe.
  unfold Dijkstra.relajar.
  destruct (lookup_lt_is_Some_2 (Dijkstra.dist s) v) as [dv Hdv]; [lia|].
  case_bool_decide as Hw.
  2:{ split; [|split_and!; try done; lia]. split; try done.
      intros y Hy Hwy. apply elem_of_app in Hy as [Hy|Hy]; [by apply Hpar|].
      apply list_elem_of_singleton in Hy as ->. done. }
  cbv zeta. rewrite (Hcabe Hw), Hdv. simpl.
  destruct (Z_lt_num (du + celda (matriz ga) u v) dv) eqn:Hlt.
  2:{ split; [|split_and!; try done; lia]. split; try done.
      intros y Hy Hwy. apply elem_of_app in Hy as [Hy|Hy]; [by apply Hpar|].
      apply list_elem_of_singleton in Hy as ->.
      apply Z_lt_num_false in Hlt as (z & -> & Hz). by exists z. }
  assert (0 ≤ du) as Hdu0 by (eapply camino_de_no_negativo; by apply Hcam).
  assert (v ∉ Dijkstra.visitado s) as Hvnv.
  { intros Hin. destruct (Hcota v Hin) as (dx & Hdx & Hle).
    rewrite Hdx in Hdv. injection Hdv as <-. simpl in Hlt.
    apply bool_decide_eq_true in Hlt. lia. }
  assert (v ≠ u) as Hvu by (intros ->; done).
  assert (v ≠ inicio) as Hvi.
  { intros ->. rewrite Hini in Hdv. injection Hdv as <-. simpl in Hlt.
    apply bool_decide_eq_true in Hlt. lia. }
  assert (∀ x, x ≠ v →
    <[v := Num (du + celda (matriz ga) u v)]> (Dijkstra.dist s) !! x = Dijkstra.dist s !! x)
    as Hotros by (intros x Hx; by apply list_lookup_insert_ne).
  assert (<[v := Num (du + celda (matriz ga) u v)]> (Dijkstra.dist s) !! v
          = Some (Num (du + celda (matriz ga) u v))) as Heste
    by (apply list_lookup_insert_eq; lia).
  assert (∀ z, dv = Num z → du + celda (matriz ga) u v < z) as Hmenor.
  { intros z ->. simpl in Hlt. by apply bool_decide_eq_true in Hlt. }
  split; [|simpl; split_and!; try done; rewrite length_heappush; lia].
  split; simpl.
  - by rewrite length_insert.
  - apply Forall_forall. intros e He. apply elem_of_heappush in He as [->|He]; [done|].
    by eapply Forall_forall in Hnod.
  - by apply heappush_ordenada.
  - by rewrite Hotros.
  - intros x d. destruct (decide (x = v)) as [->|Hx].
    + rewrite Heste. intros [= <-]. by apply camino_arista; [apply Hcam|..].
    + rewrite Hotros by done. apply Hcam.
  - by rewrite Hotros.
  - done.
  - intros x Hx. rewrite Hotros by (intros ->; done). by apply Hcota.
  - intros x y dx Hx Hxu Hy Hwxy. rewrite Hotros by (intros ->; done). intros Hdx.
    destruct (Hrel x y dx Hx Hxu Hy Hwxy Hdx) as (dy & Hdy & Hle).
    destruct (decide (y = v)) as [->|Hyv].
    + rewrite Heste. eexists. split; [done|].
      rewrite Hdy in Hdv. injection Hdv as <-. specialize (Hmenor dy eq_refl). lia.
    + rewrite Hotros by done. by exists dy.
  - intros y Hy Hwy. destruct (decide (y = v)) as [->|Hyv].
    + rewrite Heste. eexists. split; [done|lia].
    + rewrite Hotros by done. apply elem_of_app in Hy as [Hy|Hy]; [by apply Hpar|].
      by apply list_elem_of_singleton in Hy.
  - intros y d Hy. destruct (decide (y = v)) as [->|Hyv].
    + rewrite Heste. intros [= <-]. apply elem_of_heappush. by left.
    + rewrite Hotros by done. intros Hd. apply elem_of_heappush. right. by apply Henc.
  - intros c y Hcy. apply elem_of_heappush in Hcy as [[= -> ->]|Hcy].
    + rewrite Heste. eexists. split; [done|lia].
    + destruct (Hcla c y Hcy) as (d & Hd & Hle). destruct (decide (y = v)) as [->|Hyv].
      * rewrite Heste. eexists. split; [done|].
        rewrite Hd in Hdv. injection Hdv as <-. specialize (Hmenor d eq_refl). lia.
      * rewrite Hotros by done. by exists d.
  - intros c y Hcy. apply elem_of_heappush in Hcy as [[= -> ->]|Hcy]; [lia|].
    by eapply Hmon.
  - intros x c dx Hx Hc. rewrite Hotros by (intros ->; done). by apply Hopt.
Qed.

Lemma dij_foldl_relajar (ga : GrafoActivo) (inicio u : nat) (du : Z) (l : list nat) :
  Forall (λ v, (v < N ga)%nat) l →
  (∀ v, celda (matriz ga) u v > 0 →
        int64 (du + celda (matriz ga) u v) = du + celda (matriz ga) u v) →
  ∀ hechos s,
    dij_exp ga inicio u du hechos s →
    dij_exp ga inicio u du (hechos ++ l) (foldl (Dijkstra.relajar ga du u) s l) ∧
    Dijkstra.visitado (foldl (Dijkstra.relajar ga du u) s l) = Dijkstra.visitado s ∧
    Dijkstra.pasos (foldl (Dijkstra.relajar ga du u) s l) = Dijkstra.pasos s ∧
    (length (Dijkstra.pq (foldl (Dijkstra.relajar ga du u) s l))
       ≤ length (Dijkstra.pq s) + length l)%nat.
Proof.
  induction l as [|v l IH]; intros Hl Hcabe hechos s Hexp; cbn [foldl].
  - rewrite app_nil_r. split_and!; try done. lia.
  - apply Forall_cons in Hl as [Hv Hl].
    destruct (dij_relajar_exp ga inicio u du hechos s v Hexp Hv (Hcabe v))
      as (Hexp1 & Hv1 & Hp1 & Hl1).
    destruct (IH Hl Hcabe _ _ Hexp1) as (Hexp2 & Hv2 & Hp2 & Hl2).
    rewrite <- app_assoc in Hexp2. simpl in Hexp2.
    split_and!; [done|congruence|congruence|simpl; lia].
Qed.

(** A walk either stays among the visited nodes, or leaves them at a
    node whose distance is at most the cost of the walk. *)
Lemma dij_frontera (ga : GrafoActivo) (inicio : nat) (s : Dijkstra.estado) (y : nat) (c : Z) :
  dij_inv ga inicio s → camino_de ga inicio y c →
  (y ∈ Dijkstra.visitado s ∧ (∃ dy, Dijkstra.dist s !! y = Some (Num dy) ∧ dy ≤ c)) ∨
  (∃ z dz, (z ∉ Dijkstra.visitado s) ∧ Dijkstra.dist s !! z = Some (Num dz) ∧ dz ≤ c).
Proof.
  intros Hinv. induction 1 as [|x y c Hc IH Hy Hw].
  - destruct (decide (inicio ∈ Dijkstra.visitado s)) as [Hin|Hin].
    + left. split; [done|]. exists 0. split; [by apply Hinv|done].
    + right. exists inicio, 0. split_and!; [done|by apply Hinv|done].
  - destruct IH as [(Hx & dx & Hdx & Hle)|(z & dz & Hz & Hdz & Hle)].
    + destruct (dij_relajado _ _ _ Hinv x y dx Hx Hy Hw Hdx) as (dy & Hdy & Hle').
      destruct (decide (y ∈ Dijkstra.visitado s)) as [Hin|Hin].
      * left. split; [done|]. exists dy. split; [done|lia].
      * right. exists y, dy. split_and!; [done|done|lia].
    + right. exists z, dz. split_and!; [done|done|lia].
Qed.

(** What a turn of the inner loop keeps whatever the weights are. *)
Lemma dij_relajar_base (ga : GrafoActivo) (costo : Z) (u : nat) (l : list nat) :
  Forall (λ v, (v < N ga)%nat) l →
  ∀ s, Forall (λ e, (e.2 < N ga)%nat) (Dijkstra.pq s) →
    let s' := foldl (Dijkstra.relajar ga costo u) s l in
    Forall (λ e, (e.2 < N ga)%nat) (Dijkstra.pq s') ∧
    Dijkstra.visitado s' = Dijkstra.visitado s ∧
    Dijkstra.pasos s' = Dijkstra.pasos s ∧
    (length (Dijkstra.pq s') ≤ length (Dijkstra.pq s) + length l)%nat.
Proof.
  induction l as [|v l IH]; intros Hl s Hpq; cbv zeta; cbn [foldl].
  - split_and!; try done. lia.
  - apply Forall_cons in Hl as [Hv Hl].
    set (s1 := Dijkstra.relajar ga costo u s v).
    assert (Forall (λ e, (e.2 < N ga)%nat) (Dijkstra.pq s1) ∧
            Dijkstra.visitado s1 = Dijkstra.visitado s ∧
            Dijkstra.pasos s1 = Dijkstra.pasos s ∧
            (length (Dijkstra.pq s1) ≤ S (length (Dijkstra.pq s)))%nat) as (H1 & H2 & H3 & H4).
    { unfold s1, Dijkstra.relajar. case_bool_decide; [|split_and!; try done; lia].
      cbv zeta. destruct (Z_lt_num _ _); [|split_and!; try done; lia]. simpl.
      split_and!; try done; [|rewrite length_heappush; lia].
      apply Forall_forall. intros e He. apply elem_of_heappush in He as [->|He]; [done|].
      by eapply Forall_forall in Hpq. }
    destruct (IH Hl s1 H1) as (H1' & H2' & H3' & H4').
    split_and!; [done|congruence|congruence|simpl; lia].
Qed.

(** For a valid start and whatever the weights, the loop of Dijkstra
    ends within the fuel of the model with visited sets that grow by the
    node of each step. *)
Lemma dij_bucle_crece (ga : GrafoActivo) (inicio objetivo : nat) :
  (inicio < N ga)%nat →
  ∃ s, Dijkstra.bucle ga inicio objetivo = Alto s ∧
       crece ∅ (dij_vista <$> Dijkstra.pasos s) (Dijkstra.visitado s).
Proof.
  intros Hi. unfold Dijkstra.bucle.
  apply (iterar_termina
           (λ s, Forall (λ e, (e.2 < N ga)%nat) (Dijkstra.pq s) ∧
                 crece ∅ (dij_vista <$> Dijkstra.pasos s) (Dijkstra.visitado s))
           _ (dij_medida ga)).
  - intros s [Hnod Hcre]. unfold Dijkstra.cuerpo.
    destruct (Dijkstra.pq s) as [|[costo u] resto] eqn:Hpq; simpl; [done|].
    apply Forall_cons in Hnod as [Hu Hnod]. simpl in Hu.
    case_bool_decide as Hvis.
    { split; [done|]. unfold dij_medida. simpl. rewrite Hpq. simpl. lia. }
    set (s1 := {| Dijkstra.dist := Dijkstra.dist s; Dijkstra.padre := Dijkstra.padre s;
                  Dijkstra.pq := resto |}).
    assert (crece ∅ (dij_vista <$> Dijkstra.pasos s1) (Dijkstra.visitado s1)) as Hcre1.
    { simpl. rewrite fmap_app. simpl. by apply crece_snoc. }
    case_bool_decide as Hobj; [done|].
    destruct (dij_relajar_base ga costo u (seq 0 (N ga))) with (s := s1)
      as (Hn2 & Hv2 & Hp2 & Hl2); [|done|].
    { apply Forall_forall. intros v Hv. apply elem_of_seq in Hv. lia. }
    split; [split; [done|by rewrite Hp2, Hv2]|].
    unfold dij_medida. rewrite Hv2, Hpq. simpl in Hl2 |- *. rewrite length_seq in Hl2.
    assert (u ∈ seq 0 (N ga)) as Hin by (apply elem_of_seq; lia).
    pose proof (faltan_visita (Dijkstra.visitado s) _ u Hin Hvis). nia.
  - split; simpl; [by repeat constructor|done].
  - unfold dij_medida, Dijkstra.fuel. simpl.
    pose proof (faltan_length (∅ : gset nat) (seq 0 (N ga))) as Hf.
    rewrite length_seq in Hf. nia.
Qed.

(** The bound of the costs of the queue. *)
Lemma dij_cota_relajar (ga : GrafoActivo) (costo : Z) (u : nat) (l : list nat) :
  Forall (λ v, (v < N ga)%nat) l →
  ∀ s, (∀ v, celda (matriz ga) u v > 0 →
             margen ga (Dijkstra.visitado s) (int64 (costo + celda (matriz ga) u v))) →
       dij_cota ga s → dij_cota ga (foldl (Dijkstra.relajar ga costo u) s l).
Proof.
  induction l as [|v l IH]; intros Hl s Hm Hs; cbn [foldl]; [done|].
  apply Forall_cons in Hl as [Hv Hl].
  assert (Dijkstra.visitado (Dijkstra.relajar ga costo u s v) = Dijkstra.visitado s ∧
          dij_cota ga (Dijkstra.relajar ga costo u s v)) as [Hvis Hs1].
  { unfold Dijkstra.relajar. case_bool_decide as Hw; [|done]. cbv zeta.
    destruct (Z_lt_num _ _); [|done]. split; [done|]. unfold dij_cota. simpl.
    apply Forall_forall. intros e He. apply elem_of_heappush in He as [->|He].
    - simpl. split; [done|by apply Hm].
    - by eapply Forall_forall in Hs. }
  apply IH; [done| |done]. by rewrite Hvis.
Qed.

Lemma dij_cota_cabe (ga : GrafoActivo) (s : Dijkstra.estado) (costo : Z) (u : nat)
    (resto : list (Z * nat)) :
  pesos_acotados ga → dij_cota ga s → Dijkstra.pq s = (costo, u) :: resto →
  u ∉ Dijkstra.visitado s →
  ∀ v, celda (matriz ga) u v > 0 →
       int64 (costo + celda (matriz ga) u v) = costo + celda (matriz ga) u v ∧
       margen ga ({[u]} ∪ Dijkstra.visitado s) (costo + celda (matriz ga) u v).
Proof.
  intros Hac Hs Hpq Hvis v Hw. unfold dij_cota in Hs. rewrite Hpq in Hs.
  apply Forall_cons in Hs as [[Hu Hm] _]. by apply margen_suma.
Qed.

Lemma dij_cota_cuerpo (ga : GrafoActivo) (objetivo : nat) (s : Dijkstra.estado) :
  pesos_acotados ga → dij_cota ga s →
  dij_cota ga (estado_de (Dijkstra.cuerpo ga objetivo s)).
Proof.
  intros Hac Hs. unfold Dijkstra.cuerpo.
  destruct (Dijkstra.pq s) as [|[costo u] resto] eqn:Hpq; simpl; [done|].
  pose proof Hs as Hs'. unfold dij_cota in Hs'. rewrite Hpq in Hs'.
  apply Forall_cons in Hs' as [[Hu Hm] Hresto]. simpl in Hu, Hm.
  case_bool_decide as Hvis; simpl; [done|].
  assert (Forall (λ e, (e.2 < N ga)%nat ∧ margen ga ({[u]} ∪ Dijkstra.visitado s) e.1) resto)
    as Hresto'.
  { eapply Forall_impl; [exact Hresto|]. intros e [? ?]. split; [done|].
    eapply margen_mono; [|done]. set_solver. }
  case_bool_decide; simpl; [done|].
  apply dij_cota_relajar; [| |done].
  - apply Forall_forall. intros v Hv. apply elem_of_seq in Hv. lia.
  - simpl. intros v Hw. destruct (dij_cota_cabe ga s costo u resto Hac Hs Hpq Hvis v Hw) as [-> ?].
    done.
Qed.

Lemma dij_cota_inicial (ga : GrafoActivo) (inicio : nat) :
  (inicio < N ga)%nat → dij_cota ga (Dijkstra.inicial ga inicio).
Proof.
  intros Hi. unfold dij_cota. simpl. apply Forall_singleton. simpl. split; [done|].
  split; [done|]. pose proof (faltan_length (∅ : gset nat) (seq 0 (N ga))) as Hf.
  rewrite length_seq in Hf. pose proof (peso_max_no_negativo ga). nia.
Qed.

Lemma dij_cuerpo_spec (ga : GrafoActivo) (inicio objetivo : nat) (s : Dijkstra.estado) :
  pesos_acotados ga → dij_cota ga s →
  dij_inv ga inicio s →
  match Dijkstra.cuerpo ga objetivo s with
  | Sigue s' => dij_inv ga inicio s' ∧ (dij_medida ga s' < dij_medida ga s)%nat
  | Alto s' => dij_fin ga inicio objetivo s'
  end.
Proof.
  intros Hac Hcot Hinv.
  pose proof Hinv as [Hlen Hnod Hcre Hord Hini Hcam Hfin Hrel Henc Hcla Hmon Hopt].
  unfold Dijkstra.cuerpo.
  destruct (Dijkstra.pq s) as [|[costo u] resto] eqn:Hpq; simpl.
  { (* the queue is empty *)
    split; try done. intros c Hc.
    assert (∀ y c, camino_de ga inicio y c → y ∈ Dijkstra.visitado s) as Htodos.
    { intros y c' Hy.
      destruct (dij_frontera ga inicio s y c' Hinv Hy) as [[? _]|(z & dz & Hz & Hdz & _)];
        [done|]. by apply Henc, elem_of_nil in Hdz. }
    destruct (Hfin objetivo (Htodos _ _ Hc)) as [d Hd]. exists d. split; [done|].
    eapply Hopt; eauto. }
  apply Forall_cons in Hnod as [Hu Hnod]. simpl in Hu.
  apply StronglySorted_inv in Hord as [Hord Hmin].
  case_bool_decide as Hvis.
  { (* an entry of a node already visited *)
    split.
    - split; simpl; try done.
      + intros v d Hv Hd. specialize (Henc v d Hv Hd).
        apply elem_of_cons in Henc as [[= -> ->]|?]; done.
      + intros c v Hcv. apply Hcla. by right.
      + intros x c v dx Hx Hcv. eapply Hmon; [done|by right].
    - unfold dij_medida. simpl. rewrite Hpq. simpl. lia. }
  (* a new node *)
  destruct (Hcla costo u ltac:(by left)) as (du & Hdu & Hle).
  assert (du = costo) as ->.
  { specialize (Henc u du Hvis Hdu). apply elem_of_cons in Henc as [[= ->]|Hin]; [done|].
    eapply Forall_forall in Hmin; [|exact Hin]. unfold entrada_le in Hmin. simpl in Hmin. lia. }
  assert (∀ c, camino_de ga inicio u c → costo ≤ c) as Hoptu.
  { intros c Hc.
    destruct (dij_frontera ga inicio s u c Hinv Hc) as [[? _]|(z & dz & Hz & Hdz & Hle')];
      [done|].
    specialize (Henc z dz Hz Hdz). apply elem_of_cons in Henc as [[= -> ->]|Hin]; [done|].
    eapply Forall_forall in Hmin; [|exact Hin]. unfold entrada_le in Hmin. simpl in Hmin. lia. }
  set (s1 := {| Dijkstra.dist := Dijkstra.dist s; Dijkstra.padre := Dijkstra.padre s;
                Dijkstra.pq := resto |}).
  assert (crece ∅ (dij_vista <$> Dijkstra.pasos s1) (Dijkstra.visitado s1)) as Hcre1.
  { simpl. rewrite fmap_app. simpl. by apply crece_snoc. }
  case_bool_decide as Hobj.
  { (* the goal: break *)
    subst objetivo. split; try done. intros c Hc. exists costo. split; [done|by apply Hoptu]. }
  assert (dij_exp ga inicio u costo [] s1) as Hexp.
  { split; simpl; try done.
    - set_solver.
    - intros x Hx. apply elem_of_union in Hx as [Hx|Hx].
      + apply elem_of_singleton in Hx as ->. by exists costo.
      + destruct (Hfin x Hx) as [dx Hdx]. exists dx. split; [done|].
        eapply Hmon; [done|by left|done].
    - intros x v dx Hx Hxu. apply Hrel. set_solver.
    - intros v Hv. by apply elem_of_nil in Hv.
    - intros v d Hv Hd. assert (v ∉ Dijkstra.visitado s) as Hv' by set_solver.
      specialize (Henc v d Hv' Hd). apply elem_of_cons in Henc as [[= -> ->]|?]; [|done].
      set_solver.
    - intros c v Hcv. apply Hcla. by right.
    - intros c v Hcv. eapply Forall_forall in Hmin; [|exact Hcv].
      unfold entrada_le in Hmin. simpl in Hmin. lia.
    - intros x c dx Hx Hc Hdx. apply elem_of_union in Hx as [Hx|Hx].
      + apply elem_of_singleton in Hx as ->. rewrite Hdu in Hdx. injection Hdx as <-.
        by apply Hoptu.
      + by eapply Hopt. }
  destruct (dij_foldl_relajar ga inicio u costo (seq 0 (N ga))) with (hechos := @nil nat) (s := s1)
    as (Hexp2 & Hv2 & Hp2 & Hl2); [| |done|].
  { apply Forall_forall. intros v Hv. apply elem_of_seq in Hv. lia. }
  { intros v Hw. by destruct (dij_cota_cabe ga s costo u resto Hac Hcot Hpq Hvis v Hw). }
  simpl in Hexp2, Hv2, Hp2, Hl2.
  destruct Hexp2 as [Hlen2 Hnod2 Hord2 Hini2 Hcam2 Hu2 Hvis2 Hcota2 Hrel2 Hpar2 Henc2 Hcla2 Hmon2 Hopt2].
  split.
  - split; try done.
    + by rewrite Hp2, Hv2.
    + intros x Hx. destruct (Hcota2 x Hx) as (dx & Hdx & _). by exists dx.
    + intros x v dx Hx Hv Hw Hdx. destruct (decide (x = u)) as [->|Hxu].
      * rewrite Hu2 in Hdx. injection Hdx as <-. apply Hpar2; [|done].
        apply elem_of_seq. lia.
      * by eapply Hrel2.
    + intros x c v dx Hx Hcv Hdx. destruct (Hcota2 x Hx) as (dx' & Hdx' & Hle').
      rewrite Hdx in Hdx'. injection Hdx' as <-. specialize (Hmon2 c v Hcv). lia.
  - unfold dij_medida. rewrite Hv2, Hpq. simpl. rewrite length_seq in Hl2.
    assert (u ∈ seq 0 (N ga)) as Hin by (apply elem_of_seq; lia).
    pose proof (faltan_visita (Dijkstra.visitado s) _ u Hin Hvis). nia.
Qed.

Lemma dij_inv_inicial (ga : GrafoActivo) (inicio : nat) :
  (inicio < N ga)%nat → dij_inv ga inicio (Dijkstra.inicial ga inicio).
Proof.
  intros Hi.
  assert (∀ v d, <[inicio := Num 0]> (replicate (N ga) Inf) !! v = Some (Num d) →
                 v = inicio ∧ d = 0) as Hd.
  { intros v d. destruct (decide (v = inicio)) as [->|Hv].
    - rewrite list_lookup_insert_eq by (by rewrite length_replicate). by intros [= <-].
    - rewrite list_lookup_insert_ne by done. intros H.
      apply lookup_replicate in H as [? _]. done. }
  split; simpl.
  - by rewrite length_insert, length_replicate.
  - by repeat constructor.
  - done.
  - repeat constructor.
  - apply list_lookup_insert_eq. by rewrite length_replicate.
  - intros v d H. apply Hd in H as [-> ->]. constructor.
  - intros u Hu. by apply elem_of_empty in Hu.
  - intros u v du Hu. by apply elem_of_empty in Hu.
  - intros v d _ H. apply Hd in H as [-> ->]. by left.
  - intros c v H. apply list_elem_of_singleton in H as [= -> ->]. exists 0. split; [|done].
    apply list_lookup_insert_eq. by rewrite length_replicate.
  - intros u c v du Hu. by apply elem_of_empty in Hu.
  - intros u c du Hu. by apply elem_of_empty in Hu.
Qed.

(** For a valid start and weights that no sum overflows, the loop of
    Dijkstra ends within the fuel of the model, with visited sets that
    grow by the node of each step, with distances that are costs of
    walks, and with the least cost of a walk to the goal as
    [dist[objetivo]] when the goal can be reached. *)
Lemma dij_bucle_termina (ga : GrafoActivo) (inicio objetivo : nat) :
  pesos_acotados ga → (inicio < N ga)%nat →
  ∃ s, Dijkstra.bucle ga inicio objetivo = Alto s ∧ dij_fin ga inicio objetivo s.
Proof.
  intros Hac Hi. unfold Dijkstra.bucle.
  apply (iterar_termina (λ s, dij_cota ga s ∧ dij_inv ga inicio s) _ (dij_medida ga)).
  - intros s [Hcot Hs].
    pose proof (dij_cota_cuerpo ga objetivo s Hac Hcot) as Hcot'.
    pose proof (dij_cuerpo_spec ga inicio objetivo s Hac Hcot Hs) as Hs'.
    destruct (Dijkstra.cuerpo ga objetivo s); [|done]. by destruct Hs'.
  - split; [by apply dij_cota_inicial|by apply dij_inv_inicial].
  - unfold dij_medida, Dijkstra.fuel. simpl.
    pose proof (faltan_length (∅ : gset nat) (seq 0 (N ga))) as Hf.
    rewrite length_seq in Hf. nia.
Qed.

(** * A-star *)

Section a_star.
Context {P : Type} (h : nat → P) (suma : Z → P → P) (ltb : P * nat → P * nat → bool).

(** What a turn of the inner loop keeps whatever the weights are. *)
Lemma ast_expandir_base (ga : GrafoActivo) (u : nat) (l : list nat) :
  Forall (λ v, (v < N ga)%nat) l →
  ∀ s : @AStar.estado P,
    Forall (λ e, (e.2 < N ga)%nat) (AStar.pq s) →
    let s' := foldl (AStar.expandir h suma ltb ga u) s l in
    Forall (λ e, (e.2 < N ga)%nat) (AStar.pq s') ∧
    AStar.visitado s' = AStar.visitado s ∧ AStar.pasos s' = AStar.pasos s ∧
    (length (AStar.pq s') ≤ length (AStar.pq s) + length l)%nat.
Proof.
  induction l as [|v l IH]; intros Hl s Hpq; cbv zeta; cbn [foldl].
  - split_and!; try done. lia.
  - apply Forall_cons in Hl as [Hv Hl].
    set (s1 := AStar.expandir h suma ltb ga u s v).
    assert (Forall (λ e, (e.2 < N ga)%nat) (AStar.pq s1) ∧
            AStar.visitado s1 = AStar.visitado s ∧ AStar.pasos s1 = AStar.pasos s ∧
            (length (AStar.pq s1) ≤ S (length (AStar.pq s)))%nat) as (H1 & H2 & H3 & H4).
    { unfold s1, AStar.expandir. case_bool_decide; [|split_and!; try done; lia].
      cbv zeta. destruct (match AStar.g s !! v with Some _ => _ | None => _ end);
        [|split_and!; try done; lia].
      simpl. split_and!; try done; [|rewrite length_heappush; lia].
      apply Forall_forall. intros e He. apply elem_of_heappush in He as [->|He]; [done|].
      by eapply Forall_forall in Hpq. }
    destruct (IH Hl s1 H1) as (H1' & H2' & H3' & H4').
    split_and!; [done|congruence|congruence|simpl; lia].
Qed.

(** For a valid start and whatever the weights, the loop of A* ends
    within the fuel of the model with visited sets that grow by the node
    of each step. *)
Lemma ast_bucle_crece (ga : GrafoActivo) (inicio objetivo : nat) :
  (inicio < N ga)%nat →
  ∃ s, AStar.bucle h suma ltb ga inicio objetivo = Alto s ∧
       crece ∅ (ast_vista <$> AStar.pasos s) (AStar.visitado s).
Proof.
  intros Hi. unfold AStar.bucle.
  apply (iterar_termina
           (λ s, Forall (λ e, (e.2 < N ga)%nat) (AStar.pq s) ∧
                 crece ∅ (ast_vista <$> AStar.pasos s) (AStar.visitado s))
           _ (ast_medida ga)).
  - intros s [Hnod Hcre]. unfold AStar.cuerpo.
    destruct (AStar.pq s) as [|[p u] resto] eqn:Hpq; simpl; [done|].
    apply Forall_cons in Hnod as [Hu Hnod]. simpl in Hu.
    case_bool_decide as Hvis.
    { split; [done|]. unfold ast_medida. simpl. rewrite Hpq. simpl. lia. }
    set (s1 := {| AStar.g := AStar.g s; AStar.padre := AStar.padre s; AStar.pq := resto |}).
    assert (crece ∅ (ast_vista <$> AStar.pasos s1) (AStar.visitado s1)) as Hcre1.
    { simpl. rewrite fmap_app. simpl. by apply crece_snoc. }
    case_bool_decide as Hobj; [done|].
    destruct (ast_expandir_base ga u (seq 0 (N ga))) with (s := s1)
      as (Hn2 & Hv2 & Hp2 & Hl2); [|done|].
    { apply Forall_forall. intros v Hv. apply elem_of_seq in Hv. lia. }
    split; [split; [done|by rewrite Hp2, Hv2]|].
    unfold ast_medida. rewrite Hv2, Hpq. simpl in Hl2 |- *. rewrite length_seq in Hl2.
    assert (u ∈ seq 0 (N ga)) as Hin by (apply elem_of_seq; lia).
    pose proof (faltan_visita (AStar.visitado s) _ u Hin Hvis). nia.
  - split; simpl; [by repeat constructor|done].
  - unfold ast_medida, AStar.fuel. simpl.
    pose proof (faltan_length (∅ : gset nat) (seq 0 (N ga))) as Hf.
    rewrite length_seq in Hf. nia.
Qed.

Lemma ast_expandir_spec (ga : GrafoActivo) (inicio u : nat) (gu : Z) (s : @AStar.estado P)
    (v : nat) :
  ast_inv ga inicio s → ast_cota ga s → AStar.g s !! u = Some gu → (v < N ga)%nat →
  (celda (matriz ga) u v > 0 →
   int64 (gu + celda (matriz ga) u v) = gu + celda (matriz ga) u v ∧
   margen ga (AStar.visitado s) (gu + celda (matriz ga) u v)) →
  let s' := AStar.expandir h suma ltb ga u s v in
  ast_inv ga inicio s' ∧ ast_cota ga s' ∧ AStar.g s' !! u = Some gu ∧
  AStar.visitado s' = AStar.visitado s ∧ AStar.pasos s' = AStar.pasos s ∧
  (length (AStar.pq s') ≤ S (length (AStar.pq s)))%nat.
Proof.
  intros Hinv Hcot Hgu Hv Hcabe. pose proof Hinv as [Hnod Hcre Hcam].
  cbv zeta. unfold AStar.expandir.
  case_bool_decide as Hw; [|split_and!; try done; lia].
  destruct (Hcabe Hw) as [Hid Hm]. cbv zeta. rewrite Hgu. simpl. rewrite Hid.
  destruct (match AStar.g s !! v with
            | Some gv => bool_decide (gu + celda (matriz ga) u v < gv)
            | None => true
            end) eqn:Hmejor; [|split_and!; try done; lia].
  assert (v ≠ u) as Hvu.
  { intros ->. rewrite Hgu in Hmejor. apply bool_decide_eq_true in Hmejor. lia. }
  simpl. split_and!; try done.
  - split; simpl.
    + apply Forall_forall. intros e He. apply elem_of_heappush in He as [->|He].
      * simpl. split; [done|]. rewrite lookup_insert_eq. by eexists.
      * eapply Forall_forall in Hnod as [He1 He2]; [|exact He]. split; [done|].
        rewrite lookup_insert. case_decide; [by eexists|done].
    + done.
    + intros x c. rewrite lookup_insert. case_decide as Hx.
      * subst x. intros [= <-]. apply camino_arista; [by apply Hcam|done|done].
      * apply Hcam.
  - intros x c. simpl. rewrite lookup_insert. case_decide as Hx.
    + intros [= <-]. done.
    + apply Hcot.
  - by rewrite lookup_insert_ne.
  - rewrite length_heappush. lia.
Qed.

Lemma ast_foldl_expandir (ga : GrafoActivo) (inicio u : nat) (gu : Z) (l : list nat) :
  Forall (λ v, (v < N ga)%nat) l →
  ∀ s : @AStar.estado P,
    ast_inv ga inicio s → ast_cota ga s → AStar.g s !! u = Some gu →
    (∀ v, celda (matriz ga) u v > 0 →
       int64 (gu + celda (matriz ga) u v) = gu + celda (matriz ga) u v ∧
       margen ga (AStar.visitado s) (gu + celda (matriz ga) u v)) →
    let s' := foldl (AStar.expandir h suma ltb ga u) s l in
    ast_inv ga inicio s' ∧ ast_cota ga s' ∧ AStar.g s' !! u = Some gu ∧
    AStar.visitado s' = AStar.visitado s ∧ AStar.pasos s' = AStar.pasos s ∧
    (length (AStar.pq s') ≤ length (AStar.pq s) + length l)%nat.
Proof.
  induction l as [|v l IH]; intros Hl s Hinv Hcot Hu Hcabe; cbv zeta; cbn [foldl].
  - split_and!; try done. lia.
  - apply Forall_cons in Hl as [Hv Hl].
    destruct (ast_expandir_spec ga inicio u gu s v Hinv Hcot Hu Hv (Hcabe v))
      as (Hinv1 & Hcot1 & Hu1 & Hv1 & Hp1 & Hl1).
    destruct (IH Hl _ Hinv1 Hcot1 Hu1) as (Hinv2 & Hcot2 & Hu2 & Hv2 & Hp2 & Hl2).
    { by rewrite Hv1. }
    split_and!; [done|done|done|congruence|congruence|simpl; lia].
Qed.

Lemma ast_cuerpo_spec (ga : GrafoActivo) (inicio objetivo : nat) (s : @AStar.estado P) :
  pesos_acotados ga → ast_cota ga s → ast_inv ga inicio s →
  match AStar.cuerpo h suma ltb ga objetivo s with
  | Sigue s' => (ast_cota ga s' ∧ ast_inv ga inicio s') ∧
                (ast_medida ga s' < ast_medida ga s)%nat
  | Alto s' =>
      crece ∅ (ast_vista <$> AStar.pasos s') (AStar.visitado s') ∧
      ∀ v c, AStar.g s' !! v = Some c → camino_de ga inicio v c
  end.
Proof.
  intros Hac Hcot Hinv. pose proof Hinv as [Hnod Hcre Hcam]. unfold AStar.cuerpo.
  destruct (AStar.pq s) as [|[p u] resto] eqn:Hpq; simpl; [done|].
  apply Forall_cons in Hnod as [[Hu [gu Hgu]] Hnod]. simpl in Hu, Hgu.
  case_bool_decide as Hvis.
  { split; [by split|]. unfold ast_medida. simpl. rewrite Hpq. simpl. lia. }
  set (s1 := {| AStar.g := AStar.g s; AStar.padre := AStar.padre s; AStar.pq := resto |}).
  assert (ast_inv ga inicio s1) as Hinv1.
  { split; simpl; try done. rewrite fmap_app. simpl. by apply crece_snoc. }
  assert (ast_cota ga s1) as Hcot1.
  { intros x c Hx. simpl in *. eapply margen_mono; [|by apply (Hcot x c)]. set_solver. }
  case_bool_decide as Hobj; [by destruct Hinv1|].
  destruct (ast_foldl_expandir ga inicio u gu (seq 0 (N ga))) with (s := s1)
    as (Hinv2 & Hcot2 & _ & Hv2 & _ & Hl2); [|done|done|done| |].
  { apply Forall_forall. intros v Hv. apply elem_of_seq in Hv. lia. }
  { intros v Hw. simpl. apply margen_suma; [done|by apply (Hcot u)|done|done|done]. }
  split; [done|]. unfold ast_medida. rewrite Hv2, Hpq. simpl in Hl2 |- *.
  rewrite length_seq in Hl2.
  assert (u ∈ seq 0 (N ga)) as Hin by (apply elem_of_seq; lia).
  pose proof (faltan_visita (AStar.visitado s) _ u Hin Hvis). nia.
Qed.

Lemma ast_inv_inicial (ga : GrafoActivo) (inicio : nat) :
  (inicio < N ga)%nat → ast_inv ga inicio (AStar.inicial h inicio).
Proof.
  intros Hi. split; simpl.
  - constructor; [|constructor]. simpl. split; [done|]. rewrite lookup_singleton_eq. by eexists.
  - done.
  - intros v c Hv. apply lookup_singleton_Some in Hv as [<- <-]. constructor.
Qed.

Lemma ast_cota_inicial (ga : GrafoActivo) (inicio : nat) :
  ast_cota ga (AStar.inicial h inicio).
Proof.
  intros v c Hv. simpl in *. apply lookup_singleton_Some in Hv as [_ <-].
  split; [done|]. pose proof (faltan_length (∅ : gset nat) (seq 0 (N ga))) as Hf.
  rewrite length_seq in Hf. pose proof (peso_max_no_negativo ga). nia.
Qed.

(** For a valid start and weights that no sum overflows, the loop of A*
    ends within the fuel of the model, its visited sets grow by the node
    of each step, and every cost in [g] is the cost of a walk from the
    start. *)
Lemma ast_bucle_termina (ga : GrafoActivo) (inicio objetivo : nat) :
  pesos_acotados ga → (inicio < N ga)%nat →
  ∃ s, AStar.bucle h suma ltb ga inicio objetivo = Alto s ∧
       crece ∅ (ast_vista <$> AStar.pasos s) (AStar.visitado s) ∧
       ∀ v c, AStar.g s !! v = Some c → camino_de ga inicio v c.
Proof.
  intros Hac Hi. unfold AStar.bucle.
  apply (iterar_termina (λ s, ast_cota ga s ∧ ast_inv ga inicio s) _ (ast_medida ga)).
  - intros s [Hcot Hs]. by apply ast_cuerpo_spec.
  - split; [apply ast_cota_inicial|by apply ast_inv_inicial].
  - unfold ast_medida, AStar.fuel. simpl.
    pose proof (faltan_length (∅ : gset nat) (seq 0 (N ga))) as Hf.
    rewrite length_seq in Hf. nia.
Qed.

End a_star.

(** * DFS *)

Lemma celda_np_cuadrada (ga : GrafoActivo) (u v : nat) :
  cuadrada ga → (u < N ga)%nat → (v < N ga)%nat →
  celda_np (matriz ga) (Z.of_nat u) (Z.of_nat v) = Ok (celda (matriz ga) u v).
Proof.
  intros [Hlen Hfilas] Hu Hv.
  destruct (lookup_lt_is_Some_2 (matriz ga) u) as [fila Hfila]; [lia|].
  assert (length fila = N ga) as Hl by (eapply Forall_lookup_1 in Hfilas; eauto).
  destruct (lookup_lt_is_Some_2 fila v) as [w Hw]; [lia|].
  by destruct (celda_np_ok _ _ _ _ _ Hfila Hw) as [-> ->].
Qed.

(** On a square matrix and for a node of the graph, the readings of the
    loop of [_dfs] raise nothing. *)
Lemma dfs_lecturas (ga : GrafoActivo) (f u : nat) (l : list nat) :
  cuadrada ga → (u < N ga)%nat → Forall (λ v, (v < N ga)%nat) l →
  ∀ os,
    foldl (λ os v,
             s' ← os;
             w ← celda_np (matriz ga) (Z.of_nat u) (Z.of_nat v);
             if bool_decide (w > 0) && bool_decide (v ∉ DFS.visitado s')
             then DFS._dfs ga f v (DFS.con_padre v u s')
             else Ok s') os l =
    foldl (λ os v,
             s' ← os;
             if bool_decide (celda (matriz ga) u v > 0) && bool_decide (v ∉ DFS.visitado s')
             then DFS._dfs ga f v (DFS.con_padre v u s')
             else Ok s') os l.
Proof.
  intros Hc Hu. induction l as [|v l IH]; intros Hl os; cbn [foldl]; [done|].
  apply Forall_cons in Hl as [Hv Hl]. rewrite (IH Hl). f_equal.
  destruct os as [s'|e]; [|done]. cbn [mbind result_bind].
  by rewrite (celda_np_cuadrada ga u v Hc Hu Hv).
Qed.

Lemma rango_acotado (n : nat) : Forall (λ v, (v < n)%nat) (seq 0 n).
Proof. apply Forall_forall. intros v Hv. apply elem_of_seq in Hv. lia. Qed.

Lemma dfs_spec (ga : GrafoActivo) (limite : nat) :
  cuadrada ga →
  ∀ u s,
    (u < N ga)%nat → u ∉ DFS.visitado s →
    (faltan (DFS.visitado s) (seq 0 (N ga)) ≤ limite)%nat →
    crece ∅ (dfs_vista <$> DFS.pasos s) (DFS.visitado s) →
    ∃ s', DFS._dfs ga limite u s = Ok s' ∧
          crece ∅ (dfs_vista <$> DFS.pasos s') (DFS.visitado s') ∧
          DFS.visitado s ⊆ DFS.visitado s'.
Proof.
  intros Hcua. induction limite as [|f IH]; intros u s Hu Hvis Hfuel Hcre.
  { assert (u ∈ seq 0 (N ga)) as Hin by (apply elem_of_seq; lia).
    pose proof (faltan_visita (DFS.visitado s) _ u Hin Hvis). lia. }
  cbn [DFS._dfs]. rewrite (dfs_lecturas ga f u _ Hcua Hu (rango_acotado (N ga))).
  assert (u ∈ seq 0 (N ga)) as Hin by (apply elem_of_seq; lia).
  pose proof (faltan_visita (DFS.visitado s) _ u Hin Hvis) as Hmenos.
  set (paso := λ (os : result DFS.estado) (v : nat),
         s' ← os;
         if bool_decide (celda (matriz ga) u v > 0) && bool_decide (v ∉ DFS.visitado s')
         then DFS._dfs ga f v (DFS.con_padre v u s') else Ok s').
  assert (∀ l, Forall (λ v, (v < N ga)%nat) l →
          ∀ s1, crece ∅ (dfs_vista <$> DFS.pasos s1) (DFS.visitado s1) →
                (faltan (DFS.visitado s1) (seq 0 (N ga)) ≤ f)%nat →
                ∃ s', foldl paso (Ok s1) l = Ok s' ∧
                      crece ∅ (dfs_vista <$> DFS.pasos s') (DFS.visitado s') ∧
                      DFS.visitado s1 ⊆ DFS.visitado s') as Hfold.
  { induction l as [|v l IHl]; intros Hl s1 Hc1 Hf1; cbn [foldl].
    - by exists s1.
    - apply Forall_cons in Hl as [Hv Hl]. unfold paso at 2. cbn [mbind result_bind].
      destruct (bool_decide (celda (matriz ga) u v > 0) && bool_decide (v ∉ DFS.visitado s1))
        eqn:Hcond.
      + apply andb_true_iff in Hcond as [_ Hnv]. apply bool_decide_eq_true in Hnv.
        destruct (IH v (DFS.con_padre v u s1) Hv Hnv Hf1 Hc1) as (s2 & -> & Hc2 & Hs2).
        simpl in Hs2.
        destruct (IHl Hl s2 Hc2) as (s' & -> & Hc' & Hs').
        { pose proof (faltan_subseteq _ _ (seq 0 (N ga)) Hs2). lia. }
        exists s'. split_and!; [done|done|by etrans].
      + by apply IHl. }
  destruct (Hfold (seq 0 (N ga))) with (s1 := DFS.visitar u s) as (s' & Hs' & Hc' & Hsub).
  - apply rango_acotado.
  - unfold DFS.visitar. simpl. rewrite fmap_app. simpl. by apply crece_snoc.
  - simpl. lia.
  - exists s'. split_and!; [done|done|]. simpl in Hsub. set_solver.
Qed.

(** For a square matrix, a valid start and room for one call of [_dfs]
    for each node, the recursion of DFS stays within the limit, and the
    visited sets grow by the node of each step. *)
Lemma dfs_pasos_crece (limite : nat) (ga : GrafoActivo) (inicio : nat) :
  cuadrada ga → (inicio < N ga)%nat → (N ga ≤ limite)%nat →
  ∃ s, DFS._dfs ga limite inicio (DFS.inicial inicio) = Ok s ∧
       DFS.dfs_pasos limite ga inicio = Ok (DFS.pasos s) ∧
       crece ∅ (dfs_vista <$> DFS.pasos s) (DFS.visitado s).
Proof.
  intros Hc Hi Hlim.
  destruct (dfs_spec ga limite Hc inicio (DFS.inicial inicio)) as (s & Hs & Hcre & _);
    [done|set_solver| |done|].
  - pose proof (faltan_length (∅ : gset nat) (seq 0 (N ga))) as Hf.
    rewrite length_seq in Hf. simpl. lia.
  - exists s. unfold DFS.dfs_pasos. by rewrite Hs.
Qed.

(** * Kruskal *)

Lemma extiende_snoc (prev : list (nat * nat)) (ps : list Kruskal.paso)
    (fin : list (nat * nat)) (p : Kruskal.paso) :
  extiende prev ps fin →
  Kruskal.mst p = (if Kruskal.ok p then fin ++ [Kruskal.edge p] else fin) →
  extiende prev (ps ++ [p]) (Kruskal.mst p).
Proof.
  revert prev. induction ps as [|q ps IH]; intros prev; simpl.
  - by intros ->.
  - intros [Hq Hr] Hp. split; [done|]. by apply IH.
Qed.

Lemma kruskal_cuerpo_extiende (limite : nat) (s s' : Kruskal.estado) (a : nat * nat * Z) :
  Kruskal.cuerpo limite s a = Ok s' →
  extiende [] (Kruskal.pasos s) (Kruskal.e_mst s) →
  extiende [] (Kruskal.pasos s') (Kruskal.e_mst s').
Proof.
  unfold Kruskal.cuerpo. destruct a as [[u v] w].
  destruct (Kruskal.find limite (Kruskal.padre_uf s) u) as [r1|]; [|done].
  cbn [mbind result_bind].
  destruct (Kruskal.find limite r1.1 v) as [r2|]; [|done].
  cbn [mbind result_bind]. intros [= <-] H. simpl.
  set (p := {| Kruskal.edge := (u, v) |}).
  change (if bool_decide (r1.2 ≠ r2.2) then Kruskal.e_mst s ++ [(u, v)] else Kruskal.e_mst s)
    with (Kruskal.mst p).
  by apply (extiende_snoc _ _ (Kruskal.e_mst s)).
Qed.

(** The ['mst'] list of every step of Kruskal is the list of the step
    before it, with one edge more when the step is accepted. *)
Lemma kruskal_pasos_extiende (limite : nat) (ga : GrafoActivo) (ps : list Kruskal.paso) :
  Kruskal.kruskal_pasos limite ga = Ok ps → ∃ fin, extiende [] ps fin.
Proof.
  unfold Kruskal.kruskal_pasos, Kruskal.recorrer.
  destruct (plegar _ _ _) as [s|] eqn:Hs; [|done]. intros [= <-].
  exists (Kruskal.e_mst s).
  apply (plegar_inv (λ s, extiende [] (Kruskal.pasos s) (Kruskal.e_mst s))
           (Kruskal.cuerpo limite) (Kruskal.aristas ga)) with (s := Kruskal.inicial ga);
    [|done|done].
  intros s0 x s1 _ H0 Hx. by eapply kruskal_cuerpo_extiende.
Qed.

(** * Prim *)

Lemma elem_of_marcados (ga : GrafoActivo) (vis : list bool) (i : nat) :
  i ∈ marcados ga vis ↔ (i < N ga)%nat ∧ default false (vis !! i) = true.
Proof.
  unfold marcados. rewrite list_elem_of_filter, elem_of_seq. split.
  - intros [? ?]. split; [lia|done].
  - intros [? ?]. split; [done|lia].
Qed.

Lemma marcados_insert (ga : GrafoActivo) (vis : list bool) (u : nat) :
  (u < N ga)%nat → length vis = N ga →
  list_to_set (marcados ga (<[u := true]> vis)) =@{gset nat}
    {[u]} ∪ list_to_set (marcados ga vis).
Proof.
  intros Hu Hlen. apply set_eq. intros i.
  rewrite elem_of_union, elem_of_singleton, !elem_of_list_to_set, !elem_of_marcados.
  destruct (decide (i = u)) as [->|Hi].
  - rewrite list_lookup_insert_eq by lia. simpl. tauto.
  - rewrite list_lookup_insert_ne by done. tauto.
Qed.

Lemma length_bind_condicional {A B : Type} (l : list A) (c : A → bool) (f : A → B) :
  (length (x ← l; if c x then [f x] else []) ≤ length l)%nat.
Proof.
  induction l as [|x l IH]; [done|]. rewrite bind_cons, length_app.
  destruct (c x); simpl; lia.
Qed.

Lemma lista_ady_spec (m : list (list Z)) (u : nat) (l : list (nat * Z)) :
  matriz_a_lista_ady m !! u = Some l →
  Forall (λ vw, (vw.1 < length m)%nat) l ∧ (length l ≤ length m)%nat.
Proof.
  unfold matriz_a_lista_ady. rewrite list_lookup_fmap.
  destruct (seq 0 (length m) !! u) as [i|] eqn:Hi; simpl; [|done]. intros [= <-]. split.
  - apply Forall_forall. intros [v w] Hin.
    apply list_elem_of_bind in Hin as (j & Hvw & Hj).
    apply elem_of_seq in Hj. case_bool_decide; [|by apply elem_of_nil in Hvw].
    apply list_elem_of_singleton in Hvw as [= -> ->]. simpl. lia.
  - etrans; [|by erewrite <- length_seq].
    apply (length_bind_condicional _ (λ j, bool_decide (celda m i j ≠ 0))
             (λ j, (j, celda m i j))).
Qed.

Lemma lista_ady_default (m : list (list Z)) (u : nat) :
  Forall (λ vw, (vw.1 < length m)%nat) (default [] (matriz_a_lista_ady m !! u)) ∧
  (length (default [] (matriz_a_lista_ady m !! u)) ≤ length m)%nat.
Proof.
  destruct (matriz_a_lista_ady m !! u) as [l|] eqn:Hl; simpl.
  - by apply (lista_ady_spec m u).
  - split; [constructor|lia].
Qed.

Lemma prim_foldl_empujar (ga : GrafoActivo) (u : nat) (l : list (nat * Z)) :
  Forall (λ vw, (vw.1 < N ga)%nat) l →
  ∀ s,
    Forall (λ e, (e.2 < N ga)%nat) (Prim.heap s) →
    let s' := foldl (Prim.empujar u) s l in
    Forall (λ e, (e.2 < N ga)%nat) (Prim.heap s') ∧
    Prim.visitado s' = Prim.visitado s ∧ Prim.pasos s' = Prim.pasos s ∧
    (length (Prim.heap s') ≤ length (Prim.heap s) + length l)%nat.
Proof.
  induction l as [|[v w] l IH]; intros Hl s Hs; cbv zeta; cbn [foldl].
  - split_and!; try done. lia.
  - apply Forall_cons in Hl as [Hv Hl]. simpl in Hv.
    assert (Forall (λ e, (e.2 < N ga)%nat) (Prim.heap (Prim.empujar u s (v, w))) ∧
            Prim.visitado (Prim.empujar u s (v, w)) = Prim.visitado s ∧
            Prim.pasos (Prim.empujar u s (v, w)) = Prim.pasos s ∧
            (length (Prim.heap (Prim.empujar u s (v, w))) ≤ S (length (Prim.heap s)))%nat)
      as (Hh1 & Hv1 & Hp1 & Hl1).
    { unfold Prim.empujar.
      destruct (default false (Prim.visitado s !! v)); simpl; [split_and!; try done; try lia|].
      split_and!; try done; [|rewrite length_heappush; lia].
      apply Forall_forall. intros e He. apply elem_of_heappush in He as [->|He]; [done|].
      by eapply Forall_forall in Hs. }
    destruct (IH Hl _ Hh1) as (Hh2 & Hv2 & Hp2 & Hl2).
    split_and!; [done|congruence|congruence|cbn [length]; lia].
Qed.

Lemma prim_cuerpo_spec (ga : GrafoActivo) (s : Prim.estado) :
  length (matriz ga) = N ga → prim_inv ga s →
  match Prim.cuerpo ga (matriz_a_lista_ady (matriz ga)) s with
  | Sigue s' => prim_inv ga s' ∧ (prim_medida ga s' < prim_medida ga s)%nat
  | Alto s' => prim_inv ga s'
  end.
Proof.
  intros Hm Hinv. pose proof Hinv as [Hlen Hnod Hcre]. unfold Prim.cuerpo.
  destruct (Prim.heap s) as [|[peso u] resto] eqn:Hh; cbn [heappop]; [done|].
  apply Forall_cons in Hnod as [Hu Hnod]. simpl in Hu.
  destruct (default false (Prim.visitado s !! u)) eqn:Hvis.
  { split; [by split|]. unfold prim_medida. simpl. rewrite Hh. simpl. lia. }
  set (vis := <[u := true]> (Prim.visitado s)).
  set (s1 := {| Prim.visitado := vis; Prim.heap := resto |}).
  assert (u ∉ (list_to_set (marcados ga (Prim.visitado s)) : gset nat)) as Hnu.
  { rewrite elem_of_list_to_set, elem_of_marcados. intros [_ H]. congruence. }
  destruct (lista_ady_default (matriz ga) u) as [Hlv Hll]. rewrite Hm in Hlv, Hll.
  destruct (prim_foldl_empujar ga u _ Hlv s1 Hnod) as (Hh2 & Hv2 & Hp2 & Hl2).
  subst s1 vis. cbn [Prim.visitado Prim.heap Prim.pasos] in Hv2, Hp2, Hl2. split.
  - split; [by rewrite Hv2, length_insert|done|].
    rewrite Hp2, Hv2, fmap_app. cbn [fmap list_fmap]. unfold prim_vista at 2.
    cbn [Prim.actual Prim.visitados].
    fold (marcados ga (<[u:=true]> (Prim.visitado s))). rewrite !marcados_insert by done.
    by apply crece_snoc.
  - unfold prim_medida. rewrite Hv2, Hh. rewrite marcados_insert by done.
    assert (u ∈ seq 0 (N ga)) as Hin by (apply elem_of_seq; lia).
    pose proof (faltan_visita _ _ u Hin Hnu). cbn [length]. nia.
Qed.

(** For a square matrix with a node 0, the loop of Prim ends within
    the fuel of the model, and the lists ['visitados'] grow by the node
    of each step. *)
Lemma prim_pasos_crece (ga : GrafoActivo) :
  length (matriz ga) = N ga → (0 < N ga)%nat →
  ∃ s, Prim.bucle ga = Alto s ∧
       crece ∅ (prim_vista <$> Prim.pasos s)
             (list_to_set (marcados ga (Prim.visitado s))).
Proof.
  intros Hm HN. unfold Prim.bucle.
  destruct (iterar_termina (prim_inv ga) (prim_inv ga) (prim_medida ga)
              (Prim.cuerpo ga (matriz_a_lista_ady (matriz ga))))
    with (fuel := Prim.fuel ga) (s := Prim.inicial ga) as (s & Hs & [_ _ Hc]).
  - intros s Hs. by apply prim_cuerpo_spec.
  - split; simpl.
    + by rewrite length_replicate.
    + by repeat constructor.
    + apply set_eq. intros i. rewrite elem_of_list_to_set, elem_of_marcados.
      split; [|set_solver]. intros [Hi H].
      rewrite lookup_replicate_2 in H by done. done.
  - unfold prim_medida, Prim.fuel. simpl.
    pose proof (faltan_length (list_to_set (marcados ga (replicate (N ga) false)) : gset nat)
                  (seq 0 (N ga))) as Hf.
    rewrite length_seq in Hf. nia.
  - by exists s.
Qed.

(** * Objects *)

Lemma valor_mutar_0 {A : Type} (d : A) (f : A → A) (ar : list A) :
  (0 < length ar)%nat → valor d (mutar f ar 0) 0 = f (valor d ar 0).
Proof. destruct ar; simpl; [lia|done]. Qed.


Lemma valor_mutar_otro {A : Type} (d : A) (f : A → A) (ar : list A) (l : nat) :
  l ≠ O → valor d (mutar f ar 0) l = valor d ar l.
Proof. intros Hl. unfold valor, mutar. by rewrite list_lookup_alter_ne. Qed.

Lemma length_mutar {A : Type} (f : A → A) (ar : list A) (l : nat) :
  length (mutar f ar l) = length ar.
Proof. apply length_alter. Qed.

Lemma valor_alojar_viejo {A : Type} (d x : A) (ar : list A) (l : nat) :
  (l < length ar)%nat → valor d (ar ++ [x]) l = valor d ar l.
Proof. intros Hl. unfold valor. by rewrite lookup_app_l. Qed.

Lemma valor_alojar {A : Type} (d x : A) (ar : list A) :
  valor d (ar ++ [x]) (length ar) = x.
Proof. unfold valor. by rewrite list_lookup_middle. Qed.

Lemma conserva_refl {A : Type} (k : nat) (ar : list A) : conserva k ar ar.
Proof. by split. Qed.

Lemma conserva_trans {A : Type} (k : nat) (ar1 ar2 ar3 : list A) :
  conserva k ar1 ar2 → conserva k ar2 ar3 → conserva k ar1 ar3.
Proof.
  intros [Hl1 H1] [Hl2 H2]. split; [lia|]. intros l Hl.
  rewrite H2 by lia. by apply H1.
Qed.

Lemma conserva_mutar_0 {A : Type} (f : A → A) (ar : list A) :
  conserva 1 ar (mutar f ar 0).
Proof.
  split; [by rewrite length_mutar|]. intros l Hl. unfold mutar.
  apply list_lookup_alter_ne. lia.
Qed.

Lemma conserva_alojar {A : Type} (k : nat) (ar : list A) (x : A) :
  conserva k ar (ar ++ [x]).
Proof.
  split; [rewrite length_app; lia|]. intros l Hl. by rewrite lookup_app_l by lia.
Qed.

Lemma conserva_valor {A : Type} (d : A) (k : nat) (ar ar' : list A) (l : nat) :
  conserva k ar ar' → (k ≤ l < length ar)%nat → valor d ar' l = valor d ar l.
Proof. intros [_ H] Hl. unfold valor. by rewrite H. Qed.

(** * Refinement of a loop over objects by the loop over values *)

Section refinamiento.
Context {A B : Type} (abs : A → B) (wf : A → Prop) (R : A → A → Prop).
Context (R_refl : ∀ s, R s s) (R_trans : ∀ s1 s2 s3, R s1 s2 → R s2 s3 → R s1 s3).

Lemma iterar_refina (cA : A → flujo A) (cB : B → flujo B) :
  (∀ s, wf s → refina_flujo abs wf R s (cA s) (cB (abs s))) →
  ∀ fuel s, wf s → refina_flujo abs wf R s (iterar cA fuel s) (iterar cB fuel (abs s)).
Proof.
  intros Hc. induction fuel as [|f IH]; intros s Hs; simpl; [by split_and!|].
  specialize (Hc s Hs). destruct (cA s) as [a|a], (cB (abs s)) as [b|b]; try done.
  destruct Hc as (<- & Ha & HR). specialize (IH a Ha).
  destruct (iterar cA f a) as [a'|a'], (iterar cB f (abs a)) as [b'|b']; try done;
    destruct IH as (? & ? & ?); split_and!; eauto.
Qed.

Lemma iterar_exc_refina (cA : A → result (flujo A)) (cB : B → result (flujo B)) :
  (∀ s, wf s → refina_resultado (refina_flujo abs wf R s) (cA s) (cB (abs s))) →
  ∀ fuel s, wf s →
    refina_resultado (refina_flujo abs wf R s) (iterar_exc cA fuel s) (iterar_exc cB fuel (abs s)).
Proof.
  intros Hc. induction fuel as [|f IH]; intros s Hs; simpl; [by split_and!|].
  specialize (Hc s Hs).
  destruct (cA s) as [[a|a]|e], (cB (abs s)) as [[b|b]|e']; try done.
  destruct Hc as (<- & Ha & HR). specialize (IH a Ha).
  destruct (iterar_exc cA f a) as [[a'|a']|e1], (iterar_exc cB f (abs a)) as [[b'|b']|e2];
    try done; destruct IH as (? & ? & ?); split_and!; eauto.
Qed.

Lemma foldl_refina {X : Type} (f : A → X → A) (g : B → X → B) (l : list X) :
  (∀ s x, wf s → refina_estado abs wf R s (f s x) (g (abs s) x)) →
  ∀ s, wf s → refina_estado abs wf R s (foldl f s l) (foldl g (abs s) l).
Proof.
  intros Hf. induction l as [|x l IH]; intros s Hs; cbn [foldl]; [by split_and!|].
  destruct (Hf s x Hs) as (Heq & Hwf & HR). destruct (IH _ Hwf) as (Heq' & Hwf' & HR').
  rewrite Heq in Heq'. split_and!; eauto.
Qed.

Lemma plegar_refina {X : Type} (f : A → X → result A) (g : B → X → result B) (l : list X) :
  (∀ s x, wf s → refina_resultado (refina_estado abs wf R s) (f s x) (g (abs s) x)) →
  ∀ s, wf s → refina_resultado (refina_estado abs wf R s) (plegar f s l) (plegar g (abs s) l).
Proof.
  intros Hf. induction l as [|x l IH]; intros s Hs; simpl; [by split_and!|].
  specialize (Hf s x Hs). destruct (f s x) as [a|e], (g (abs s) x) as [b|e']; try done.
  simpl. destruct Hf as (<- & Ha & HR). specialize (IH a Ha).
  destruct (plegar f a l) as [a'|e1], (plegar g (abs a) l) as [b'|e2]; try done.
  destruct IH as (? & ? & ?). split_and!; eauto.
Qed.

(** The states after [t1] and after [t1 + t2] turns. *)
Lemma iterar_suma (c : A → flujo A) (t1 t2 : nat) (s : A) :
  iterar c (t1 + t2) s =
  match iterar c t1 s with
  | Sigue s' => iterar c t2 s'
  | Alto s' => Alto s'
  end.
Proof.
  revert s. induction t1 as [|t1 IH]; intros s; simpl; [done|].
  destruct (c s); [apply IH|done].
Qed.

Lemma iterar_exc_suma (c : A → result (flujo A)) (t1 t2 : nat) (s : A) :
  iterar_exc c (t1 + t2) s =
  match iterar_exc c t1 s with
  | Ok (Sigue s') => iterar_exc c t2 s'
  | r => r
  end.
Proof.
  revert s. induction t1 as [|t1 IH]; intros s; simpl; [done|].
  destruct (c s) as [[?|?]|?]; [apply IH|done|done].
Qed.

(** The state after [t1] turns is well formed and related to the
    state after [t2 >= t1] turns. *)
Lemma iterar_estable (cA : A → flujo A) (cB : B → flujo B) :
  (∀ s, wf s → refina_flujo abs wf R s (cA s) (cB (abs s))) →
  ∀ t1 t2 s, wf s → (t1 ≤ t2)%nat →
    wf (estado_de (iterar cA t1 s)) ∧
    R (estado_de (iterar cA t1 s)) (estado_de (iterar cA t2 s)).
Proof.
  intros Hc t1 t2 s Hs Ht.
  assert (∀ t s, wf s → wf (estado_de (iterar cA t s)) ∧ R s (estado_de (iterar cA t s)))
    as Hrun.
  { intros t s' Hs'. pose proof (iterar_refina cA cB Hc t s' Hs') as H.
    destruct (iterar cA t s'), (iterar cB t (abs s')); try done;
      destruct H as (_ & ? & ?); done. }
  split; [by apply Hrun|].
  replace t2 with (t1 + (t2 - t1))%nat by lia. rewrite iterar_suma.
  destruct (Hrun t1 s Hs) as [Hwf1 _].
  destruct (iterar cA t1 s) as [s'|s']; simpl in *; [by apply Hrun|apply R_refl].
Qed.

Lemma iterar_exc_estable (cA : A → result (flujo A)) (cB : B → result (flujo B)) :
  (∀ s, wf s → refina_resultado (refina_flujo abs wf R s) (cA s) (cB (abs s))) →
  ∀ t1 t2 s r1 r2, wf s → (t1 ≤ t2)%nat →
    iterar_exc cA t1 s = Ok r1 → iterar_exc cA t2 s = Ok r2 →
    wf (estado_de r1) ∧ R (estado_de r1) (estado_de r2).
Proof.
  intros Hc t1 t2 s r1 r2 Hs Ht H1 H2.
  assert (∀ t s r, wf s → iterar_exc cA t s = Ok r → wf (estado_de r) ∧ R s (estado_de r))
    as Hrun.
  { intros t s' r Hs' Hr. pose proof (iterar_exc_refina cA cB Hc t s' Hs') as H.
    rewrite Hr in H. destruct r, (iterar_exc cB t (abs s')) as [[?|?]|?]; try done;
      destruct H as (_ & ? & ?); done. }
  destruct (Hrun t1 s r1 Hs H1) as [Hwf1 _]. split; [done|].
  replace t2 with (t1 + (t2 - t1))%nat in H2 by lia. rewrite iterar_exc_suma, H1 in H2.
  destruct r1 as [s'|s']; simpl in *.
  - by apply (Hrun _ _ _ Hwf1 H2).
  - injection H2 as <-. apply R_refl.
Qed.

End refinamiento.

(** * BFS over objects *)

Lemma bfs_mem_estable_refl (s : BFSMem.estado) : BFSMem.estable s s.
Proof. split_and!; [apply conserva_refl..|done]. Qed.

Lemma bfs_mem_estable_trans (s1 s2 s3 : BFSMem.estado) :
  BFSMem.estable s1 s2 → BFSMem.estable s2 s3 → BFSMem.estable s1 s3.
Proof.
  intros (? & ? & ?) (? & ? & ?). split_and!; [by eapply conserva_trans..|by etrans].
Qed.

(** A step of a well-formed state reads the same in every later
    state. *)
Lemma bfs_mem_leer_estable (s s' : BFSMem.estado) (p : BFSMem.paso) :
  BFSMem.bien_formado s → BFSMem.estable s s' → p ∈ BFSMem.pasos s →
  BFSMem.leer s' p = BFSMem.leer s p.
Proof.
  intros (_ & _ & Hp) (Hc & Hd & _) Hin.
  eapply Forall_forall in Hp as [Hv Hpa]; [|exact Hin]. unfold BFSMem.leer.
  rewrite (conserva_valor _ _ _ _ _ Hc) by lia.
  by rewrite (conserva_valor _ _ _ _ _ Hd) by lia.
Qed.

Lemma bfs_mem_traza_estable (s s' : BFSMem.estado) :
  BFSMem.bien_formado s → BFSMem.estable s s' →
  BFSMem.leer s' <$> BFSMem.pasos s = BFSMem.traza s.
Proof.
  intros Hwf Hest. unfold BFSMem.traza. apply list_fmap_ext.
  intros k p Hk. apply bfs_mem_leer_estable; [done..|]. by eapply list_elem_of_lookup_2.
Qed.

Lemma bfs_mem_explorar_refina (ga : GrafoActivo) (u : Z) (s : BFSMem.estado) (v : Z) :
  BFSMem.bien_formado s →
  refina_resultado (refina_estado BFSMem.valores BFSMem.bien_formado BFSMem.estable s)
    (BFSMem.explorar ga u s v) (BFS.explorar ga u (BFSMem.valores s) v).
Proof.
  intros Hwf. unfold BFSMem.explorar, BFS.explorar.
  destruct (celda_np (matriz ga) u v) as [w|e]; simpl; [|done].
  destruct (bool_decide (w > 0) && bool_decide (v ∉ BFSMem.visitado s)); simpl;
    [|split_and!; [done|done|apply bfs_mem_estable_refl]].
  destruct Hwf as (Hc & Hd & Hp).
  destruct (BFSMem.padre s !! v) eqn:Hpv.
  - split_and!.
    + reflexivity.
    + done.
    + split_and!; [apply conserva_refl..|done].
  - assert (BFSMem.estable s
      {| BFSMem.conjuntos := BFSMem.conjuntos s;
         BFSMem.dicts := mutar <[v:=Some u]> (BFSMem.dicts s) 0;
         BFSMem.cola := BFSMem.cola s ++ [v]; BFSMem.pasos := BFSMem.pasos s;
         BFSMem.encolados := BFSMem.encolados s ++ [(u, v)] |}) as Hest.
    { split_and!; [apply conserva_refl|apply conserva_mutar_0|done]. }
    split_and!; [|split_and!; simpl; [done|by rewrite length_mutar|]|done].
    + unfold BFSMem.valores. f_equal.
      * unfold BFSMem.padre. simpl. by rewrite valor_mutar_0.
      * by apply (bfs_mem_traza_estable s _).
    + eapply Forall_impl; [exact Hp|]. simpl. intros p. by rewrite length_mutar.
Qed.

Lemma bfs_mem_cuerpo_refina (ga : GrafoActivo) (s : BFSMem.estado) :
  BFSMem.bien_formado s →
  refina_resultado (refina_flujo BFSMem.valores BFSMem.bien_formado BFSMem.estable s)
    (BFSMem.cuerpo ga s) (BFS.cuerpo ga (BFSMem.valores s)).
Proof.
  intros Hwf. unfold BFSMem.cuerpo, BFS.cuerpo. simpl.
  destruct (BFSMem.cola s) as [|u resto] eqn:Hq; simpl.
  { split_and!; [done|done|apply bfs_mem_estable_refl]. }
  case_bool_decide as Hvis; simpl.
  { split_and!; [done|done|]. split_and!; [apply conserva_refl..|done]. }
  pose proof Hwf as (Hc & Hd & Hp).
  set (c1 := mutar (λ vis, {[u]} ∪ vis) (BFSMem.conjuntos s) 0).
  set (s1 := {| BFSMem.conjuntos := c1 ++ [valor ∅ c1 0] |}).
  assert (length c1 = length (BFSMem.conjuntos s)) as Hlc1 by apply length_mutar.
  assert (BFSMem.estable s s1) as Hest1.
  { split_and!; simpl.
    - eapply conserva_trans; [apply conserva_mutar_0|apply conserva_alojar].
    - apply conserva_alojar.
    - by apply prefix_app_r. }
  assert (BFSMem.bien_formado s1) as Hwf1.
  { split_and!; simpl.
    - rewrite length_app. simpl. lia.
    - rewrite length_app. simpl. lia.
    - apply Forall_app. split.
      + eapply Forall_impl; [exact Hp|]. intros p. simpl. rewrite !length_app. simpl. lia.
      + constructor; [|constructor]. simpl. rewrite !length_app. simpl. lia. }
  assert (valor ∅ c1 0 = {[u]} ∪ BFSMem.visitado s) as Hv1
    by (by apply valor_mutar_0).
  assert (BFSMem.valores s1 =
    {| BFS.visitado := {[u]} ∪ BFSMem.visitado s; BFS.cola := resto;
       BFS.padre := BFSMem.padre s;
       BFS.pasos := BFSMem.traza s ++
         [{| BFS.actual := u; BFS.visitados := {[u]} ∪ BFSMem.visitado s;
             BFS.p_padre := BFSMem.padre s |}];
       BFS.encolados := BFSMem.encolados s |}) as Hval1.
  { unfold BFSMem.valores. f_equal.
    - unfold BFSMem.visitado. simpl. by rewrite valor_alojar_viejo by lia.
    - unfold BFSMem.padre. simpl. by rewrite valor_alojar_viejo by lia.
    - unfold BFSMem.traza. simpl. rewrite fmap_app. f_equal.
      + by apply (bfs_mem_traza_estable s s1).
      + simpl. unfold BFSMem.leer. simpl. by rewrite !valor_alojar, Hv1. }
  pose proof (plegar_refina BFSMem.valores BFSMem.bien_formado BFSMem.estable
    bfs_mem_estable_refl bfs_mem_estable_trans (BFSMem.explorar ga u) (BFS.explorar ga u) (BFS.rango (N ga))
    (λ s x Hs, bfs_mem_explorar_refina ga u s x Hs) s1 Hwf1) as Hpl.
  rewrite Hval1 in Hpl. fold c1. fold s1.
  destruct (plegar (BFSMem.explorar ga u) s1 (BFS.rango (N ga))) as [a|e],
    (plegar (BFS.explorar ga u) _ (BFS.rango (N ga))) as [b|e']; try done. simpl.
  destruct Hpl as (? & ? & ?). split_and!; [done|done|]. by eapply bfs_mem_estable_trans.
Qed.

Lemma bfs_mem_inicial (inicio : Z) :
  BFSMem.bien_formado (BFSMem.inicial inicio) ∧
  BFSMem.valores (BFSMem.inicial inicio) = BFS.inicial inicio.
Proof. split; [|done]. split_and!; simpl; [lia|lia|constructor]. Qed.

(** The run over objects gives, turn by turn, the values of the run of
    [BFS.cuerpo]; the trace that the caller reads in the memory left by
    [bfs_pasos] is the list of steps of [BFS.bfs_pasos]. *)
Lemma bfs_mem_traza (ga : GrafoActivo) (inicio : Z) :
  (r ← BFSMem.bucle ga (BFS.fuel ga) inicio; Ok (BFSMem.traza (estado_de r)))
  = BFS.bfs_pasos ga inicio.
Proof.
  unfold BFS.bfs_pasos, BFS.bucle, BFSMem.bucle.
  destruct (bfs_mem_inicial inicio) as [Hwf Hval].
  pose proof (iterar_exc_refina BFSMem.valores BFSMem.bien_formado BFSMem.estable
    bfs_mem_estable_refl bfs_mem_estable_trans (BFSMem.cuerpo ga) (BFS.cuerpo ga)
    (bfs_mem_cuerpo_refina ga) (BFS.fuel ga) _ Hwf) as H.
  rewrite Hval in H.
  destruct (iterar_exc (BFSMem.cuerpo ga) _ _) as [[a|a]|e],
    (iterar_exc (BFS.cuerpo ga) _ _) as [[b|b]|e']; try done; simpl in *;
    try (destruct H as (<- & _ & _); done). by subst.
Qed.

(** * Dijkstra over objects *)

Lemma dij_mem_estable_refl (s : DijkstraMem.estado) : DijkstraMem.estable s s.
Proof. split_and!; [apply conserva_refl..|done]. Qed.

Lemma dij_mem_estable_trans (s1 s2 s3 : DijkstraMem.estado) :
  DijkstraMem.estable s1 s2 → DijkstraMem.estable s2 s3 → DijkstraMem.estable s1 s3.
Proof.
  intros (? & ? & ? & ?) (? & ? & ? & ?).
  split_and!; [by eapply conserva_trans..|by etrans].
Qed.

Lemma dij_mem_leer_estable (s s' : DijkstraMem.estado) (p : DijkstraMem.paso) :
  DijkstraMem.bien_formado s → DijkstraMem.estable s s' → p ∈ DijkstraMem.pasos s →
  DijkstraMem.leer s' p = DijkstraMem.leer s p.
Proof.
  intros (_ & _ & _ & Hp) (Hc & Hl & Hd & _) Hin.
  eapply Forall_forall in Hp as (Hv & Hdi & Hpa); [|exact Hin]. unfold DijkstraMem.leer.
  rewrite (conserva_valor _ _ _ _ _ Hc) by lia.
  rewrite (conserva_valor _ _ _ _ _ Hl) by lia.
  by rewrite (conserva_valor _ _ _ _ _ Hd) by lia.
Qed.

Lemma dij_mem_traza_estable (s s' : DijkstraMem.estado) :
  DijkstraMem.bien_formado s → DijkstraMem.estable s s' →
  DijkstraMem.leer s' <$> DijkstraMem.pasos s = DijkstraMem.traza s.
Proof.
  intros Hwf Hest. unfold DijkstraMem.traza. apply list_fmap_ext.
  intros k p Hk. apply dij_mem_leer_estable; [done..|]. by eapply list_elem_of_lookup_2.
Qed.

Lemma dij_mem_relajar_refina (ga : GrafoActivo) (costo : Z) (u : nat)
    (s : DijkstraMem.estado) (v : nat) :
  DijkstraMem.bien_formado s →
  refina_estado DijkstraMem.valores DijkstraMem.bien_formado DijkstraMem.estable s
    (DijkstraMem.relajar ga costo u s v) (Dijkstra.relajar ga costo u (DijkstraMem.valores s) v).
Proof.
  intros Hwf. unfold DijkstraMem.relajar, Dijkstra.relajar.
  case_bool_decide; [|split_and!; [done|done|apply dij_mem_estable_refl]].
  cbv zeta. simpl.
  destruct (Z_lt_num _ _); [|split_and!; [done|done|apply dij_mem_estable_refl]].
  pose proof Hwf as (Hc & Hl & Hd & Hp).
  set (s' := {| DijkstraMem.conjuntos := DijkstraMem.conjuntos s |}).
  assert (DijkstraMem.estable s s') as Hest.
  { split_and!; [apply conserva_refl|apply conserva_mutar_0..|done]. }
  split_and!; [|split_and!; simpl; [done|by rewrite length_mutar..|]|done].
  - unfold DijkstraMem.valores. f_equal.
    + unfold DijkstraMem.dist. simpl. by rewrite valor_mutar_0.
    + unfold DijkstraMem.padre. simpl. by rewrite valor_mutar_0.
    + by apply (dij_mem_traza_estable s s').
  - eapply Forall_impl; [exact Hp|]. simpl. intros p. by rewrite !length_mutar.
Qed.

Lemma dij_mem_cuerpo_refina (ga : GrafoActivo) (objetivo : nat) (s : DijkstraMem.estado) :
  DijkstraMem.bien_formado s →
  refina_flujo DijkstraMem.valores DijkstraMem.bien_formado DijkstraMem.estable s
    (DijkstraMem.cuerpo ga objetivo s) (Dijkstra.cuerpo ga objetivo (DijkstraMem.valores s)).
Proof.
  intros Hwf. unfold DijkstraMem.cuerpo, Dijkstra.cuerpo. simpl.
  destruct (heappop (DijkstraMem.pq s)) as [[[costo u] resto]|] eqn:Hq; simpl;
    [|split_and!; [done|done|apply dij_mem_estable_refl]].
  case_bool_decide as Hvis; simpl.
  { split_and!; [done|done|]. split_and!; [apply conserva_refl..|done]. }
  pose proof Hwf as (Hc & Hl & Hd & Hp).
  set (c1 := mutar (λ vis, {[u]} ∪ vis) (DijkstraMem.conjuntos s) 0).
  set (s1 := {| DijkstraMem.conjuntos := c1 ++ [valor ∅ c1 0] |}).
  assert (length c1 = length (DijkstraMem.conjuntos s)) as Hlc1 by apply length_mutar.
  assert (DijkstraMem.estable s s1) as Hest1.
  { split_and!; simpl.
    - eapply conserva_trans; [apply conserva_mutar_0|apply conserva_alojar].
    - apply conserva_alojar.
    - apply conserva_alojar.
    - by apply prefix_app_r. }
  assert (DijkstraMem.bien_formado s1) as Hwf1.
  { split_and!; simpl; try (rewrite length_app; simpl; lia).
    apply Forall_app. split.
    - eapply Forall_impl; [exact Hp|]. intros p. simpl. rewrite !length_app. simpl. lia.
    - constructor; [|constructor]. simpl. rewrite !length_app. simpl. lia. }
  assert (valor ∅ c1 0 = {[u]} ∪ DijkstraMem.visitado s) as Hv1
    by (by apply valor_mutar_0).
  assert (DijkstraMem.valores s1 =
    {| Dijkstra.dist := DijkstraMem.dist s; Dijkstra.padre := DijkstraMem.padre s;
       Dijkstra.pq := resto;
       Dijkstra.pasos := DijkstraMem.traza s ++
         [{| Dijkstra.actual := u; Dijkstra.visitados := {[u]} ∪ DijkstraMem.visitado s;
             Dijkstra.p_dist := DijkstraMem.dist s;
             Dijkstra.p_padre := DijkstraMem.padre s |}];
       Dijkstra.visitado := {[u]} ∪ DijkstraMem.visitado s |}) as Hval1.
  { unfold DijkstraMem.valores. f_equal.
    - unfold DijkstraMem.dist. simpl. by rewrite valor_alojar_viejo by lia.
    - unfold DijkstraMem.padre. simpl. by rewrite valor_alojar_viejo by lia.
    - unfold DijkstraMem.traza. simpl. rewrite fmap_app. f_equal.
      + by apply (dij_mem_traza_estable s s1).
      + simpl. unfold DijkstraMem.leer. simpl. by rewrite !valor_alojar, Hv1.
    - unfold DijkstraMem.visitado. simpl. by rewrite valor_alojar_viejo by lia. }
  fold c1. fold s1. rewrite <- Hval1.
  case_bool_decide; unfold refina_flujo, refina_estado;
    [split_and!; [reflexivity|exact Hwf1|exact Hest1]|].
  destruct (foldl_refina DijkstraMem.valores DijkstraMem.bien_formado DijkstraMem.estable
    dij_mem_estable_refl dij_mem_estable_trans
    (DijkstraMem.relajar ga costo u) (Dijkstra.relajar ga costo u) (seq 0 (N ga))
    (λ s x Hs, dij_mem_relajar_refina ga costo u s x Hs) s1 Hwf1) as (? & ? & ?).
  split_and!; [done|done|]. by eapply dij_mem_estable_trans.
Qed.

Lemma dij_mem_inicial (ga : GrafoActivo) (inicio : nat) :
  DijkstraMem.bien_formado (DijkstraMem.inicial ga inicio) ∧
  DijkstraMem.valores (DijkstraMem.inicial ga inicio) = Dijkstra.inicial ga inicio.
Proof. split; [|done]. split_and!; simpl; [lia..|constructor]. Qed.

Lemma dij_mem_traza (ga : GrafoActivo) (inicio objetivo : nat) :
  DijkstraMem.traza (estado_de (DijkstraMem.bucle ga (Dijkstra.fuel ga) inicio objetivo))
  = Dijkstra.pasos (estado_de (Dijkstra.bucle ga inicio objetivo)).
Proof.
  unfold Dijkstra.bucle, DijkstraMem.bucle.
  destruct (dij_mem_inicial ga inicio) as [Hwf Hval].
  pose proof (iterar_refina DijkstraMem.valores DijkstraMem.bien_formado DijkstraMem.estable
    dij_mem_estable_refl dij_mem_estable_trans (DijkstraMem.cuerpo ga objetivo)
    (Dijkstra.cuerpo ga objetivo) (dij_mem_cuerpo_refina ga objetivo) (Dijkstra.fuel ga) _ Hwf)
    as H.
  rewrite Hval in H.
  destruct (iterar (DijkstraMem.cuerpo ga objetivo) _ _) as [a|a],
    (iterar (Dijkstra.cuerpo ga objetivo) _ _) as [b|b]; try done; simpl in *;
    destruct H as (<- & _ & _); done.
Qed.

(** * A* over objects *)

Section a_star_mem.
Context {P : Type} (h : nat → P) (suma : Z → P → P) (ltb : P * nat → P * nat → bool).

Lemma ast_mem_estable_refl (s : @AStarMem.estado P) : AStarMem.estable s s.
Proof. split_and!; [apply conserva_refl..|done]. Qed.

Lemma ast_mem_estable_trans (s1 s2 s3 : @AStarMem.estado P) :
  AStarMem.estable s1 s2 → AStarMem.estable s2 s3 → AStarMem.estable s1 s3.
Proof.
  intros (? & ? & ? & ?) (? & ? & ? & ?).
  split_and!; [by eapply conserva_trans..|by etrans].
Qed.

Lemma ast_mem_leer_estable (s s' : @AStarMem.estado P) (p : AStarMem.paso) :
  AStarMem.bien_formado s → AStarMem.estable s s' → p ∈ AStarMem.pasos s →
  AStarMem.leer s' p = AStarMem.leer s p.
Proof.
  intros (_ & _ & _ & Hp) (Hc & Hl & Hd & _) Hin.
  eapply Forall_forall in Hp as (Hv & Hdi & Hpa); [|exact Hin]. unfold AStarMem.leer.
  rewrite (conserva_valor _ _ _ _ _ Hc) by lia.
  rewrite (conserva_valor _ _ _ _ _ Hl) by lia.
  by rewrite (conserva_valor _ _ _ _ _ Hd) by lia.
Qed.

Lemma ast_mem_traza_estable (s s' : @AStarMem.estado P) :
  AStarMem.bien_formado s → AStarMem.estable s s' →
  AStarMem.leer s' <$> AStarMem.pasos s = AStarMem.traza s.
Proof.
  intros Hwf Hest. unfold AStarMem.traza. apply list_fmap_ext.
  intros k p Hk. apply ast_mem_leer_estable; [done..|]. by eapply list_elem_of_lookup_2.
Qed.

Lemma ast_mem_expandir_refina (ga : GrafoActivo) (u : nat) (s : @AStarMem.estado P) (v : nat) :
  AStarMem.bien_formado s →
  refina_estado AStarMem.valores AStarMem.bien_formado AStarMem.estable s
    (AStarMem.expandir h suma ltb ga u s v)
    (AStar.expandir h suma ltb ga u (AStarMem.valores s) v).
Proof.
  intros Hwf. unfold AStarMem.expandir, AStar.expandir.
  case_bool_decide; [|split_and!; [done|done|apply ast_mem_estable_refl]].
  cbv zeta. cbn [AStar.g AStarMem.valores].
  set (nuevo := int64 (default 0 (AStarMem.g s !! u) + celda (matriz ga) u v)).
  destruct (match AStarMem.g s !! v with
            | Some gv => bool_decide (nuevo < gv)
            | None => true
            end); [|split_and!; [done|done|apply ast_mem_estable_refl]].
  pose proof Hwf as (Hc & Hl & Hd & Hp).
  set (s' := {| AStarMem.conjuntos := AStarMem.conjuntos s |}).
  assert (AStarMem.estable s s') as Hest.
  { split_and!; [apply conserva_refl|apply conserva_mutar_0..|done]. }
  split_and!; [|split_and!; simpl; [done|by rewrite length_mutar..|]|done].
  - unfold AStarMem.valores. f_equal.
    + unfold AStarMem.g. simpl. by rewrite valor_mutar_0.
    + unfold AStarMem.padre. simpl. by rewrite valor_mutar_0.
    + by apply (ast_mem_traza_estable s s').
  - eapply Forall_impl; [exact Hp|]. simpl. intros p. by rewrite !length_mutar.
Qed.

Lemma ast_mem_cuerpo_refina (ga : GrafoActivo) (objetivo : nat) (s : @AStarMem.estado P) :
  AStarMem.bien_formado s →
  refina_flujo AStarMem.valores AStarMem.bien_formado AStarMem.estable s
    (AStarMem.cuerpo h suma ltb ga objetivo s)
    (AStar.cuerpo h suma ltb ga objetivo (AStarMem.valores s)).
Proof.
  intros Hwf. unfold AStarMem.cuerpo, AStar.cuerpo. simpl.
  destruct (heappop (AStarMem.pq s)) as [[[costo u] resto]|] eqn:Hq; simpl;
    [|split_and!; [done|done|apply ast_mem_estable_refl]].
  case_bool_decide as Hvis; simpl.
  { split_and!; [done|done|]. split_and!; [apply conserva_refl..|done]. }
  pose proof Hwf as (Hc & Hl & Hd & Hp).
  set (c1 := mutar (λ vis, {[u]} ∪ vis) (AStarMem.conjuntos s) 0).
  set (s1 := {| AStarMem.conjuntos := c1 ++ [valor ∅ c1 0] |}).
  assert (length c1 = length (AStarMem.conjuntos s)) as Hlc1 by apply length_mutar.
  assert (AStarMem.estable s s1) as Hest1.
  { split_and!; simpl.
    - eapply conserva_trans; [apply conserva_mutar_0|apply conserva_alojar].
    - apply conserva_alojar.
    - apply conserva_alojar.
    - by apply prefix_app_r. }
  assert (AStarMem.bien_formado s1) as Hwf1.
  { split_and!; simpl; try (rewrite length_app; simpl; lia).
    apply Forall_app. split.
    - eapply Forall_impl; [exact Hp|]. intros p. simpl. rewrite !length_app. simpl. lia.
    - constructor; [|constructor]. simpl. rewrite !length_app. simpl. lia. }
  assert (valor ∅ c1 0 = {[u]} ∪ AStarMem.visitado s) as Hv1
    by (by apply valor_mutar_0).
  assert (AStarMem.valores s1 =
    {| AStar.g := AStarMem.g s; AStar.padre := AStarMem.padre s;
       AStar.pq := resto;
       AStar.pasos := AStarMem.traza s ++
         [{| AStar.actual := u; AStar.visitados := {[u]} ∪ AStarMem.visitado s;
             AStar.p_g := AStarMem.g s;
             AStar.p_padre := AStarMem.padre s |}];
       AStar.visitado := {[u]} ∪ AStarMem.visitado s |}) as Hval1.
  { unfold AStarMem.valores. f_equal.
    - unfold AStarMem.g. simpl. by rewrite valor_alojar_viejo by lia.
    - unfold AStarMem.padre. simpl. by rewrite valor_alojar_viejo by lia.
    - unfold AStarMem.traza. simpl. rewrite fmap_app. f_equal.
      + by apply (ast_mem_traza_estable s s1).
      + simpl. unfold AStarMem.leer. simpl. by rewrite !valor_alojar, Hv1.
    - unfold AStarMem.visitado. simpl. by rewrite valor_alojar_viejo by lia. }
  fold c1. fold s1. rewrite <- Hval1.
  case_bool_decide; unfold refina_flujo, refina_estado;
    [split_and!; [reflexivity|exact Hwf1|exact Hest1]|].
  destruct (foldl_refina AStarMem.valores AStarMem.bien_formado AStarMem.estable
    ast_mem_estable_refl ast_mem_estable_trans
    (AStarMem.expandir h suma ltb ga u) (AStar.expandir h suma ltb ga u) (seq 0 (N ga))
    (λ s x Hs, ast_mem_expandir_refina ga u s x Hs) s1 Hwf1) as (? & ? & ?).
  split_and!; [done|done|]. by eapply ast_mem_estable_trans.
Qed.

Lemma ast_mem_inicial (inicio : nat) :
  AStarMem.bien_formado (AStarMem.inicial h inicio) ∧
  AStarMem.valores (AStarMem.inicial h inicio) = AStar.inicial h inicio.
Proof. split; [|done]. split_and!; simpl; [lia..|constructor]. Qed.

Lemma ast_mem_traza (ga : GrafoActivo) (inicio objetivo : nat) :
  AStarMem.traza (estado_de (AStarMem.bucle h suma ltb ga (AStar.fuel ga) inicio objetivo))
  = AStar.pasos (estado_de (AStar.bucle h suma ltb ga inicio objetivo)).
Proof.
  unfold AStar.bucle, AStarMem.bucle.
  destruct (ast_mem_inicial inicio) as [Hwf Hval].
  pose proof (iterar_refina AStarMem.valores AStarMem.bien_formado AStarMem.estable
    ast_mem_estable_refl ast_mem_estable_trans (AStarMem.cuerpo h suma ltb ga objetivo)
    (AStar.cuerpo h suma ltb ga objetivo) (ast_mem_cuerpo_refina ga objetivo)
    (AStar.fuel ga) _ Hwf) as H.
  rewrite Hval in H.
  destruct (iterar (AStarMem.cuerpo h suma ltb ga objetivo) _ _) as [a|a],
    (iterar (AStar.cuerpo h suma ltb ga objetivo) _ _) as [b|b]; try done; simpl in *;
    destruct H as (<- & _ & _); done.
Qed.

End a_star_mem.

(** * Prim over objects *)

Lemma prim_mem_estable_refl (s : PrimMem.estado) : PrimMem.estable s s.
Proof. split_and!; [apply conserva_refl..|done]. Qed.

Lemma prim_mem_estable_trans (s1 s2 s3 : PrimMem.estado) :
  PrimMem.estable s1 s2 → PrimMem.estable s2 s3 → PrimMem.estable s1 s3.
Proof.
  intros (? & ? & ?) (? & ? & ?). split_and!; [by eapply conserva_trans..|by etrans].
Qed.

Lemma prim_mem_leer_estable (s s' : PrimMem.estado) (p : PrimMem.paso) :
  PrimMem.bien_formado s → PrimMem.estable s s' → p ∈ PrimMem.pasos s →
  PrimMem.leer s' p = PrimMem.leer s p.
Proof.
  intros (_ & Hp) (Hn & Ha & _) Hin.
  eapply Forall_forall in Hp as (Hv & Hm); [|exact Hin]. unfold PrimMem.leer.
  rewrite (conserva_valor _ _ _ _ _ Hn) by lia.
  by rewrite (conserva_valor _ _ _ _ _ Ha) by lia.
Qed.

Lemma prim_mem_traza_estable (s s' : PrimMem.estado) :
  PrimMem.bien_formado s → PrimMem.estable s s' →
  PrimMem.leer s' <$> PrimMem.pasos s = PrimMem.traza s.
Proof.
  intros Hwf Hest. unfold PrimMem.traza. apply list_fmap_ext.
  intros k p Hk. apply prim_mem_leer_estable; [done..|]. by eapply list_elem_of_lookup_2.
Qed.

Lemma prim_mem_empujar_refina (u : nat) (s : PrimMem.estado) (vw : nat * Z) :
  PrimMem.bien_formado s →
  refina_estado PrimMem.valores PrimMem.bien_formado PrimMem.estable s
    (PrimMem.empujar u s vw) (Prim.empujar u (PrimMem.valores s) vw).
Proof.
  intros Hwf. unfold PrimMem.empujar, Prim.empujar. destruct vw as [v w]. simpl.
  destruct (negb _); split_and!; try done; try apply prim_mem_estable_refl.
Qed.

Lemma prim_mem_cuerpo_refina (ga : GrafoActivo) (lista : list (list (nat * Z)))
    (s : PrimMem.estado) :
  PrimMem.bien_formado s →
  refina_flujo PrimMem.valores PrimMem.bien_formado PrimMem.estable s
    (PrimMem.cuerpo ga lista s) (Prim.cuerpo ga lista (PrimMem.valores s)).
Proof.
  intros Hwf. unfold PrimMem.cuerpo, Prim.cuerpo. simpl.
  destruct (heappop (PrimMem.heap s)) as [[[peso u] resto]|] eqn:Hq; simpl;
    [|split_and!; [done|done|apply prim_mem_estable_refl]].
  destruct (default false (PrimMem.visitado s !! u)) eqn:Hvis; simpl.
  { split_and!; [done|done|]. split_and!; [apply conserva_refl..|done]. }
  pose proof Hwf as (Ha & Hp).
  set (a1 := match default None (PrimMem.padre s !! u) with
             | Some p => mutar (λ m, m ++ [(p, u)]) (PrimMem.aristas s) 0
             | None => PrimMem.aristas s
             end).
  set (s1 := {| PrimMem.visitado := <[u:=true]> (PrimMem.visitado s) |}).
  assert (length a1 = length (PrimMem.aristas s)) as Hla1.
  { unfold a1. destruct (default None _); [apply length_mutar|done]. }
  assert (conserva 1 (PrimMem.aristas s) a1) as Hca1.
  { unfold a1. destruct (default None _); [apply conserva_mutar_0|apply conserva_refl]. }
  assert (valor [] a1 0 =
          match default None (PrimMem.padre s !! u) with
          | Some p => PrimMem.e_mst s ++ [(p, u)]
          | None => PrimMem.e_mst s
          end) as Hv1.
  { unfold a1. destruct (default None _); [by rewrite valor_mutar_0|done]. }
  assert (PrimMem.estable s s1) as Hest1.
  { split_and!; simpl.
    - apply conserva_alojar.
    - eapply conserva_trans; [exact Hca1|apply conserva_alojar].
    - by apply prefix_app_r. }
  assert (PrimMem.bien_formado s1) as Hwf1.
  { split_and!; simpl; try (rewrite length_app; simpl; lia).
    apply Forall_app. split.
    - eapply Forall_impl; [exact Hp|]. intros p. simpl. rewrite !length_app. simpl. lia.
    - constructor; [|constructor]. simpl. rewrite !length_app. simpl. lia. }
  assert (PrimMem.valores s1 =
    {| Prim.visitado := <[u:=true]> (PrimMem.visitado s); Prim.heap := resto;
       Prim.e_mst := match default None (PrimMem.padre s !! u) with
                     | Some p => PrimMem.e_mst s ++ [(p, u)]
                     | None => PrimMem.e_mst s
                     end;
       Prim.padre := PrimMem.padre s;
       Prim.pasos := PrimMem.traza s ++
         [{| Prim.actual := u;
             Prim.visitados :=
               filter (λ i, default false (<[u:=true]> (PrimMem.visitado s) !! i) = true)
                      (seq 0 (N ga));
             Prim.mst := match default None (PrimMem.padre s !! u) with
                         | Some p => PrimMem.e_mst s ++ [(p, u)]
                         | None => PrimMem.e_mst s
                         end |}];
       Prim.extraidos := PrimMem.extraidos s ++ [(peso, u)] |}) as Hval1.
  { unfold PrimMem.valores. f_equal.
    - unfold PrimMem.e_mst at 1. simpl. by rewrite valor_alojar_viejo, Hv1 by lia.
    - unfold PrimMem.traza. simpl. rewrite fmap_app. f_equal.
      + by apply (prim_mem_traza_estable s s1).
      + simpl. unfold PrimMem.leer. simpl. by rewrite !valor_alojar, Hv1. }
  fold a1. fold s1. rewrite <- Hval1.
  destruct (foldl_refina PrimMem.valores PrimMem.bien_formado PrimMem.estable
    prim_mem_estable_refl prim_mem_estable_trans
    (PrimMem.empujar u) (Prim.empujar u) (default [] (lista !! u))
    (λ s x Hs, prim_mem_empujar_refina u s x Hs) s1 Hwf1) as (? & ? & ?).
  split_and!; [done|done|]. by eapply prim_mem_estable_trans.
Qed.

Lemma prim_mem_inicial (ga : GrafoActivo) :
  PrimMem.bien_formado (PrimMem.inicial ga) ∧
  PrimMem.valores (PrimMem.inicial ga) = Prim.inicial ga.
Proof. split; [|done]. split_and!; simpl; [lia|constructor]. Qed.

Lemma prim_mem_traza (ga : GrafoActivo) :
  PrimMem.traza (estado_de (PrimMem.bucle ga (Prim.fuel ga))) = Prim.prim_pasos ga.
Proof.
  unfold Prim.prim_pasos, Prim.bucle, PrimMem.bucle.
  destruct (prim_mem_inicial ga) as [Hwf Hval].
  pose proof (iterar_refina PrimMem.valores PrimMem.bien_formado PrimMem.estable
    prim_mem_estable_refl prim_mem_estable_trans
    (PrimMem.cuerpo ga (matriz_a_lista_ady (matriz ga)))
    (Prim.cuerpo ga (matriz_a_lista_ady (matriz ga)))
    (prim_mem_cuerpo_refina ga _) (Prim.fuel ga) _ Hwf) as H.
  rewrite Hval in H.
  destruct (iterar (PrimMem.cuerpo ga _) _ _) as [a|a],
    (iterar (Prim.cuerpo ga _) _ _) as [b|b]; try done; simpl in *;
    destruct H as (<- & _ & _); done.
Qed.

(** * Kruskal over objects *)

Lemma kruskal_mem_estable_refl (s : KruskalMem.estado) : KruskalMem.estable s s.
Proof. split; [apply conserva_refl|done]. Qed.

Lemma kruskal_mem_estable_trans (s1 s2 s3 : KruskalMem.estado) :
  KruskalMem.estable s1 s2 → KruskalMem.estable s2 s3 → KruskalMem.estable s1 s3.
Proof. intros (? & ?) (? & ?). split; [by eapply conserva_trans|by etrans]. Qed.

Lemma kruskal_mem_leer_estable (s s' : KruskalMem.estado) (p : KruskalMem.paso) :
  KruskalMem.bien_formado s → KruskalMem.estable s s' → p ∈ KruskalMem.pasos s →
  KruskalMem.leer s' p = KruskalMem.leer s p.
Proof.
  intros (_ & Hp) (Hl & _) Hin.
  eapply Forall_forall in Hp as Hm; [|exact Hin]. simpl in Hm. unfold KruskalMem.leer.
  by rewrite (conserva_valor _ _ _ _ _ Hl) by lia.
Qed.

Lemma kruskal_mem_traza_estable (s s' : KruskalMem.estado) :
  KruskalMem.bien_formado s → KruskalMem.estable s s' →
  KruskalMem.leer s' <$> KruskalMem.pasos s = KruskalMem.traza s.
Proof.
  intros Hwf Hest. unfold KruskalMem.traza. apply list_fmap_ext.
  intros k p Hk. apply kruskal_mem_leer_estable; [done..|]. by eapply list_elem_of_lookup_2.
Qed.

Lemma kruskal_mem_cuerpo_refina (limite : nat) (s : KruskalMem.estado) (a : nat * nat * Z) :
  KruskalMem.bien_formado s →
  refina_resultado (refina_estado KruskalMem.valores KruskalMem.bien_formado
                      KruskalMem.estable s)
    (KruskalMem.cuerpo limite s a) (Kruskal.cuerpo limite (KruskalMem.valores s) a).
Proof.
  intros Hwf. unfold KruskalMem.cuerpo, Kruskal.cuerpo. destruct a as [[u v] w].
  cbn [Kruskal.padre_uf KruskalMem.valores].
  destruct (Kruskal.find limite (KruskalMem.padre_uf s) u) as [[uf1 ru]|e1]; [|done].
  cbn [mbind result_bind fst snd].
  destruct (Kruskal.find limite uf1 v) as [[uf2 rv]|e2]; [|done].
  cbn [mbind result_bind fst snd]. cbv zeta.
  pose proof Hwf as (Hl & Hp).
  set (l1 := if bool_decide (ru ≠ rv)
             then mutar (λ m, m ++ [(u, v)]) (KruskalMem.listas s) 0
             else KruskalMem.listas s).
  set (s1 := {| KruskalMem.padre_uf := if bool_decide (ru ≠ rv) then <[ru:=rv]> uf2 else uf2 |}).
  assert (length l1 = length (KruskalMem.listas s)) as Hll1.
  { unfold l1. destruct (bool_decide _); [apply length_mutar|done]. }
  assert (conserva 1 (KruskalMem.listas s) l1) as Hcl1.
  { unfold l1. destruct (bool_decide _); [apply conserva_mutar_0|apply conserva_refl]. }
  assert (valor [] l1 0 =
          if bool_decide (ru ≠ rv) then KruskalMem.e_mst s ++ [(u, v)]
          else KruskalMem.e_mst s) as Hv1.
  { unfold l1. destruct (bool_decide _); [by rewrite valor_mutar_0|done]. }
  assert (KruskalMem.estable s s1) as Hest1.
  { split; simpl.
    - eapply conserva_trans; [exact Hcl1|apply conserva_alojar].
    - by apply prefix_app_r. }
  assert (KruskalMem.bien_formado s1) as Hwf1.
  { split; simpl; [rewrite length_app; simpl; lia|].
    apply Forall_app. split.
    - eapply Forall_impl; [exact Hp|]. intros p. simpl. rewrite !length_app. simpl. lia.
    - constructor; [|constructor]. simpl. rewrite !length_app. simpl. lia. }
  simpl. split_and!; [|done|done].
  unfold KruskalMem.valores. f_equal.
  - unfold KruskalMem.e_mst at 1. simpl. by rewrite valor_alojar_viejo, Hv1 by lia.
  - unfold KruskalMem.traza. simpl. rewrite fmap_app. f_equal.
    + by apply (kruskal_mem_traza_estable s s1).
    + simpl. unfold KruskalMem.leer. simpl. by rewrite !valor_alojar, Hv1.
Qed.

Lemma kruskal_mem_inicial (ga : GrafoActivo) :
  KruskalMem.bien_formado (KruskalMem.inicial ga) ∧
  KruskalMem.valores (KruskalMem.inicial ga) = Kruskal.inicial ga.
Proof. split; [|done]. split; simpl; [lia|constructor]. Qed.

Lemma kruskal_mem_recorrer (limite : nat) (ga : GrafoActivo) (l : list (nat * nat * Z)) :
  refina_resultado (refina_estado KruskalMem.valores KruskalMem.bien_formado
                      KruskalMem.estable (KruskalMem.inicial ga))
    (KruskalMem.recorrer limite ga l) (Kruskal.recorrer limite ga l).
Proof.
  destruct (kruskal_mem_inicial ga) as [Hwf Hval].
  unfold KruskalMem.recorrer, Kruskal.recorrer. rewrite <- Hval.
  apply (plegar_refina KruskalMem.valores KruskalMem.bien_formado KruskalMem.estable
    kruskal_mem_estable_refl kruskal_mem_estable_trans); [|done].
  intros s x Hs. by apply kruskal_mem_cuerpo_refina.
Qed.

(** When the run over values returns its steps, the run over objects
    leaves them in its memory. *)
Lemma kruskal_mem_traza (limite : nat) (ga : GrafoActivo) (ps : list Kruskal.paso) :
  Kruskal.kruskal_pasos limite ga = Ok ps →
  ∃ s, KruskalMem.recorrer limite ga (Kruskal.aristas ga) = Ok s ∧
       KruskalMem.traza s = ps ∧ KruskalMem.bien_formado s.
Proof.
  unfold Kruskal.kruskal_pasos. intros H.
  pose proof (kruskal_mem_recorrer limite ga (Kruskal.aristas ga)) as Hr.
  destruct (Kruskal.recorrer limite ga _) as [b|] eqn:Hb; [|done].
  destruct (KruskalMem.recorrer limite ga _) as [a|]; [|done].
  destruct Hr as (Hval & Hwf & _). injection H as <-. exists a. rewrite <- Hval. done.
Qed.

(** * DFS over objects *)

Lemma dfs_mem_estable_refl (s : DFSMem.estado) : DFSMem.estable s s.
Proof. split_and!; [apply conserva_refl..|done]. Qed.

Lemma dfs_mem_estable_trans (s1 s2 s3 : DFSMem.estado) :
  DFSMem.estable s1 s2 → DFSMem.estable s2 s3 → DFSMem.estable s1 s3.
Proof.
  intros (? & ? & ?) (? & ? & ?). split_and!; [by eapply conserva_trans..|by etrans].
Qed.

Lemma dfs_mem_leer_estable (s s' : DFSMem.estado) (p : DFSMem.paso) :
  DFSMem.bien_formado s → DFSMem.estable s s' → p ∈ DFSMem.pasos s →
  DFSMem.leer s' p = DFSMem.leer s p.
Proof.
  intros (_ & _ & Hp) (Hc & Hd & _) Hin.
  eapply Forall_forall in Hp as [Hv Hpa]; [|exact Hin]. unfold DFSMem.leer.
  rewrite (conserva_valor _ _ _ _ _ Hc) by lia.
  by rewrite (conserva_valor _ _ _ _ _ Hd) by lia.
Qed.

Lemma dfs_mem_traza_estable (s s' : DFSMem.estado) :
  DFSMem.bien_formado s → DFSMem.estable s s' →
  DFSMem.leer s' <$> DFSMem.pasos s = DFSMem.traza s.
Proof.
  intros Hwf Hest. unfold DFSMem.traza. apply list_fmap_ext.
  intros k p Hk. apply dfs_mem_leer_estable; [done..|]. by eapply list_elem_of_lookup_2.
Qed.

Lemma dfs_mem_visitar_refina (u : nat) (s : DFSMem.estado) :
  DFSMem.bien_formado s →
  refina_estado DFSMem.valores DFSMem.bien_formado DFSMem.estable s
    (DFSMem.visitar u s) (DFS.visitar u (DFSMem.valores s)).
Proof.
  intros Hwf. pose proof Hwf as (Hc & Hd & Hp).
  unfold DFSMem.visitar, DFS.visitar. cbv zeta. simpl.
  set (c1 := mutar (λ vis, {[u]} ∪ vis) (DFSMem.conjuntos s) 0).
  set (s1 := {| DFSMem.conjuntos := c1 ++ [valor ∅ c1 0] |}).
  assert (length c1 = length (DFSMem.conjuntos s)) as Hlc1 by apply length_mutar.
  assert (DFSMem.estable s s1) as Hest1.
  { split_and!; simpl.
    - eapply conserva_trans; [apply conserva_mutar_0|apply conserva_alojar].
    - apply conserva_alojar.
    - by apply prefix_app_r. }
  assert (DFSMem.bien_formado s1) as Hwf1.
  { split_and!; simpl; try (rewrite length_app; simpl; lia).
    apply Forall_app. split.
    - eapply Forall_impl; [exact Hp|]. intros p. simpl. rewrite !length_app. simpl. lia.
    - constructor; [|constructor]. simpl. rewrite !length_app. simpl. lia. }
  assert (valor ∅ c1 0 = {[u]} ∪ DFSMem.visitado s) as Hv1
    by (by apply valor_mutar_0).
  split_and!; [|done|done].
  unfold DFSMem.valores. f_equal.
  - unfold DFSMem.visitado at 1. simpl. by rewrite valor_alojar_viejo by lia.
  - unfold DFSMem.padre at 1. simpl. by rewrite valor_alojar_viejo by lia.
  - unfold DFSMem.traza. simpl. rewrite fmap_app. f_equal.
    + by apply (dfs_mem_traza_estable s s1).
    + simpl. unfold DFSMem.leer. simpl. by rewrite !valor_alojar, Hv1.
Qed.

Lemma dfs_mem_con_padre_refina (v u : nat) (s : DFSMem.estado) :
  DFSMem.bien_formado s →
  refina_estado DFSMem.valores DFSMem.bien_formado DFSMem.estable s
    (DFSMem.con_padre v u s) (DFS.con_padre v u (DFSMem.valores s)).
Proof.
  intros Hwf. pose proof Hwf as (Hc & Hd & Hp). unfold DFSMem.con_padre, DFS.con_padre.
  set (s' := {| DFSMem.conjuntos := DFSMem.conjuntos s |}).
  assert (DFSMem.estable s s') as Hest.
  { split_and!; [apply conserva_refl|apply conserva_mutar_0|done]. }
  split_and!; [|split_and!; simpl; [done|by rewrite length_mutar|]|done].
  - unfold DFSMem.valores. simpl. f_equal.
    + unfold DFSMem.padre at 1. simpl. by rewrite valor_mutar_0.
    + by apply (dfs_mem_traza_estable s s').
  - eapply Forall_impl; [exact Hp|]. simpl. intros p. by rewrite length_mutar.
Qed.

Lemma dfs_mem_refina (ga : GrafoActivo) (limite : nat) :
  ∀ u s, DFSMem.bien_formado s →
    refina_resultado (refina_estado DFSMem.valores DFSMem.bien_formado DFSMem.estable s)
      (DFSMem._dfs ga limite u s) (DFS._dfs ga limite u (DFSMem.valores s)).
Proof.
  induction limite as [|f IH]; intros u s Hwf; [done|]. cbn [DFSMem._dfs DFS._dfs].
  destruct (dfs_mem_visitar_refina u s Hwf) as (Hval0 & Hwf0 & Hest0).
  rewrite <- Hval0.
  assert (refina_resultado
            (refina_estado DFSMem.valores DFSMem.bien_formado DFSMem.estable s)
            (Ok (DFSMem.visitar u s)) (Ok (DFSMem.valores (DFSMem.visitar u s)))) as H0
    by (by split_and!).
  revert H0. generalize (Ok (DFSMem.visitar u s)).
  generalize (Ok (DFSMem.valores (DFSMem.visitar u s))).
  induction (seq 0 (N ga)) as [|v l IHl]; intros ob oa H0; cbn [foldl]; [done|].
  apply IHl. destruct oa as [a|e], ob as [b|e']; try done. cbn [mbind result_bind].
  destruct H0 as (<- & Hwfa & Hesta). cbn [DFS.visitado DFSMem.valores].
  destruct (celda_np (matriz ga) (Z.of_nat u) (Z.of_nat v)) as [w|e]; [|done].
  cbn [mbind result_bind].
  destruct (bool_decide _ && bool_decide _); [|by split_and!].
  destruct (dfs_mem_con_padre_refina v u a Hwfa) as (Hval1 & Hwf1 & Hest1).
  rewrite <- Hval1. specialize (IH v _ Hwf1).
  destruct (DFSMem._dfs ga f v _) as [a'|e1], (DFS._dfs ga f v _) as [b'|e2]; try done.
  destruct IH as (? & ? & ?). split_and!; [done|done|].
  eapply dfs_mem_estable_trans; [exact Hesta|].
  by eapply dfs_mem_estable_trans.
Qed.

Lemma dfs_mem_inicial (inicio : nat) :
  DFSMem.bien_formado (DFSMem.inicial inicio) ∧
  DFSMem.valores (DFSMem.inicial inicio) = DFS.inicial inicio.
Proof. split; [|done]. split_and!; simpl; [lia..|constructor]. Qed.

Lemma dfs_mem_traza (limite : nat) (ga : GrafoActivo) (inicio : nat) :
  DFSMem.dfs_pasos limite ga inicio = DFS.dfs_pasos limite ga inicio.
Proof.
  unfold DFSMem.dfs_pasos, DFS.dfs_pasos.
  destruct (dfs_mem_inicial inicio) as [Hwf Hval].
  pose proof (dfs_mem_refina ga limite inicio _ Hwf) as H. rewrite Hval in H.
  destruct (DFSMem._dfs ga _ _ _) as [a|e], (DFS._dfs ga _ _ _) as [b|e']; try done.
  - destruct H as (<- & _ & _). done.
  - simpl in *. by subst.
Qed.

(** * Snapshot isolation *)

Section aislamiento.
Context {A B Pm Pv : Type} (abs : A → B) (wf : A → Prop) (R : A → A → Prop).
Context (R_refl : ∀ s, R s s) (R_trans : ∀ s1 s2 s3, R s1 s2 → R s2 s3 → R s1 s3).
Context (pasos : A → list Pm) (leer : A → Pm → Pv) (pasos_de : B → list Pv).
Context (pasos_abs : ∀ a, pasos_de (abs a) = leer a <$> pasos a).
Context (R_conserva : ∀ s s', wf s → R s s' → conserva_pasos pasos leer s s').

Lemma emitido_de_traza (s s' : A) (v : Pv) (resto : list Pv) :
  pasos_de (abs s') = pasos_de (abs s) ++ v :: resto → emitido pasos leer s s' v.
Proof.
  rewrite !pasos_abs. intros H.
  assert ((leer s' <$> pasos s') !! length (pasos s) = Some v) as Hv.
  { rewrite H, lookup_app_r by (rewrite length_fmap; lia).
    by rewrite length_fmap, Nat.sub_diag. }
  rewrite list_lookup_fmap in Hv. apply fmap_Some in Hv as (p & Hp & ->). by exists p.
Qed.

Lemma emitido_estable (s s1 s2 : A) (v : Pv) :
  wf s1 → R s1 s2 → emitido pasos leer s s1 v → emitido pasos leer s s2 v.
Proof.
  intros Hwf HR (p & Hp & Hl). destruct (R_conserva s1 s2 Hwf HR _ _ Hp) as [Hp2 Hl2].
  exists p. split; [done|congruence].
Qed.

Lemma iterar_exc_emitido (cA : A → result (flujo A)) (cB : B → result (flujo B)) :
  (∀ s, wf s → refina_resultado (refina_flujo abs wf R s) (cA s) (cB (abs s))) →
  ∀ t t2 s0 s r2 v, wf s0 → (t < t2)%nat →
    iterar_exc cA t s0 = Ok (Sigue s) → iterar_exc cA t2 s0 = Ok r2 →
    (∀ r', cB (abs s) = Ok r' → pasos_de (estado_de r') = pasos_de (abs s) ++ [v]) →
    emitido pasos leer s (estado_de r2) v.
Proof.
  intros Hc t t2 s0 s r2 v Hs0 Ht H1 H2 Hv.
  destruct (iterar_exc_estable abs wf R R_refl R_trans cA cB Hc t t _ _ _ Hs0
              (Nat.le_refl t) H1 H1) as [Hwf _]. simpl in Hwf.
  replace t2 with (t + S (t2 - S t))%nat in H2 by lia.
  rewrite iterar_exc_suma, H1 in H2. simpl in H2.
  pose proof (Hc s Hwf) as Hcs.
  destruct (cA s) as [[a|a]|e] eqn:Ha, (cB (abs s)) as [[b|b]|e'] eqn:Hb; try done.
  - destruct Hcs as (Hab & Hwfa & HRa).
    assert (emitido pasos leer s a v) as Hem.
    { apply (emitido_de_traza _ _ _ []). rewrite Hab. by apply (Hv (Sigue b)). }
    destruct (iterar_exc_estable abs wf R R_refl R_trans cA cB Hc O _ a (Sigue a) r2 Hwfa
                (Nat.le_0_l _) eq_refl H2) as [_ HR2].
    by eapply emitido_estable.
  - injection H2 as <-. destruct Hcs as (Hab & Hwfa & HRa). cbn [estado_de].
    apply (emitido_de_traza _ _ _ []). rewrite Hab. by apply (Hv (Alto b)).
Qed.

Lemma iterar_emitido (cA : A → flujo A) (cB : B → flujo B) :
  (∀ s, wf s → refina_flujo abs wf R s (cA s) (cB (abs s))) →
  ∀ t t2 s0 s v, wf s0 → (t < t2)%nat →
    iterar cA t s0 = Sigue s →
    pasos_de (estado_de (cB (abs s))) = pasos_de (abs s) ++ [v] →
    emitido pasos leer s (estado_de (iterar cA t2 s0)) v.
Proof.
  intros Hc t t2 s0 s v Hs0 Ht H1 Hv.
  destruct (iterar_estable abs wf R R_refl R_trans cA cB Hc t t _ Hs0 (Nat.le_refl t))
    as [Hwf _]. rewrite H1 in Hwf. simpl in Hwf.
  replace t2 with (t + S (t2 - S t))%nat by lia.
  rewrite iterar_suma, H1. simpl.
  pose proof (Hc s Hwf) as Hcs.
  destruct (cA s) as [a|a] eqn:Ha, (cB (abs s)) as [b|b] eqn:Hb; try done.
  - destruct Hcs as (Hab & Hwfa & HRa).
    assert (emitido pasos leer s a v) as Hem.
    { apply (emitido_de_traza _ _ _ []). by rewrite Hab. }
    destruct (iterar_estable abs wf R R_refl R_trans cA cB Hc O (t2 - S t) a Hwfa
                (Nat.le_0_l _)) as [_ HR2].
    by eapply emitido_estable.
  - destruct Hcs as (Hab & Hwfa & HRa). cbn [estado_de] in *.
    apply (emitido_de_traza _ _ _ []). by rewrite Hab.
Qed.

End aislamiento.

(** ** BFS *)

Lemma bfs_mem_estable_conserva (s s' : BFSMem.estado) :
  BFSMem.bien_formado s → BFSMem.estable s s' →
  conserva_pasos BFSMem.pasos BFSMem.leer s s'.
Proof.
  intros Hwf Hest k p Hk. split.
  - destruct Hest as (_ & _ & Hpre). by eapply prefix_lookup_Some.
  - apply bfs_mem_leer_estable; [done..|]. by eapply list_elem_of_lookup_2.
Qed.

Lemma bfs_explorar_pasos (ga : GrafoActivo) (u : Z) (l : list Z) :
  ∀ s s', plegar (BFS.explorar ga u) s l = Ok s' → BFS.pasos s' = BFS.pasos s.
Proof.
  intros s s'. apply (plegar_inv (λ x, BFS.pasos x = BFS.pasos s)); [|done].
  intros x v x' _ Hx. unfold BFS.explorar.
  destruct (celda_np (matriz ga) u v) as [w|]; simpl; [|done].
  destruct (_ && _); intros [= <-]; done.
Qed.

Lemma bfs_cuerpo_emite (ga : GrafoActivo) (b : BFS.estado) (u : Z) (resto : list Z)
    (r : flujo BFS.estado) :
  BFS.cola b = u :: resto → u ∉ BFS.visitado b → BFS.cuerpo ga b = Ok r →
  BFS.pasos (estado_de r) =
    BFS.pasos b ++ [{| BFS.actual := u; BFS.visitados := {[u]} ∪ BFS.visitado b;
                       BFS.p_padre := BFS.padre b |}].
Proof.
  intros Hq Hu. unfold BFS.cuerpo. rewrite Hq, bool_decide_eq_false_2 by done. cbv zeta.
  destruct (plegar _ _ _) as [s2|] eqn:Hpl; simpl; [|done]. intros [= <-]. simpl.
  by rewrite (bfs_explorar_pasos _ _ _ _ _ Hpl).
Qed.

Lemma bfs_mem_aislado (ga : GrafoActivo) (inicio : Z) : bfs_aislado ga inicio.
Proof.
  split.
  - intros t1 t2 r1 r2 Ht H1 H2.
    destruct (iterar_exc_estable BFSMem.valores BFSMem.bien_formado BFSMem.estable
      bfs_mem_estable_refl bfs_mem_estable_trans (BFSMem.cuerpo ga) (BFS.cuerpo ga)
      (bfs_mem_cuerpo_refina ga) t1 t2 _ r1 r2 (proj1 (bfs_mem_inicial inicio)) Ht H1 H2)
      as [Hwf Hest].
    by apply bfs_mem_estable_conserva.
  - intros t t2 s u resto r2 Ht H1 Hq Hu H2.
    apply (iterar_exc_emitido BFSMem.valores BFSMem.bien_formado BFSMem.estable
      bfs_mem_estable_refl bfs_mem_estable_trans BFSMem.pasos BFSMem.leer BFS.pasos
      (λ a, eq_refl) bfs_mem_estable_conserva (BFSMem.cuerpo ga) (BFS.cuerpo ga)
      (bfs_mem_cuerpo_refina ga) t t2 (BFSMem.inicial inicio) s r2);
      [apply bfs_mem_inicial|done..|].
    intros r' Hr'. by apply (bfs_cuerpo_emite ga (BFSMem.valores s) u resto).
Qed.

(** ** Dijkstra *)

Lemma dij_mem_estable_conserva (s s' : DijkstraMem.estado) :
  DijkstraMem.bien_formado s → DijkstraMem.estable s s' →
  conserva_pasos DijkstraMem.pasos DijkstraMem.leer s s'.
Proof.
  intros Hwf Hest k p Hk. split.
  - destruct Hest as (_ & _ & _ & Hpre). by eapply prefix_lookup_Some.
  - apply dij_mem_leer_estable; [done..|]. by eapply list_elem_of_lookup_2.
Qed.

Lemma dij_relajar_pasos (ga : GrafoActivo) (costo : Z) (u : nat) (l : list nat) :
  ∀ s, Dijkstra.pasos (foldl (Dijkstra.relajar ga costo u) s l) = Dijkstra.pasos s.
Proof.
  induction l as [|v l IH]; intros s; cbn [foldl]; [done|]. rewrite IH.
  unfold Dijkstra.relajar. case_bool_decide; [|done]. cbv zeta.
  by destruct (Z_lt_num _ _).
Qed.

Lemma dij_cuerpo_emite (ga : GrafoActivo) (objetivo : nat) (b : Dijkstra.estado)
    (costo : Z) (u : nat) (resto : list (Z * nat)) :
  heappop (Dijkstra.pq b) = Some ((costo, u), resto) → u ∉ Dijkstra.visitado b →
  Dijkstra.pasos (estado_de (Dijkstra.cuerpo ga objetivo b)) =
    Dijkstra.pasos b ++ [{| Dijkstra.actual := u;
                            Dijkstra.visitados := {[u]} ∪ Dijkstra.visitado b;
                            Dijkstra.p_dist := Dijkstra.dist b;
                            Dijkstra.p_padre := Dijkstra.padre b |}].
Proof.
  intros Hq Hu. unfold Dijkstra.cuerpo. rewrite Hq, bool_decide_eq_false_2 by done.
  cbv zeta. case_bool_decide; cbn [estado_de]; [done|]. by rewrite dij_relajar_pasos.
Qed.

Lemma dij_mem_aislado (ga : GrafoActivo) (inicio objetivo : nat) :
  dij_aislado ga inicio objetivo.
Proof.
  split.
  - intros t1 t2 Ht.
    destruct (iterar_estable DijkstraMem.valores DijkstraMem.bien_formado DijkstraMem.estable
      dij_mem_estable_refl dij_mem_estable_trans (DijkstraMem.cuerpo ga objetivo)
      (Dijkstra.cuerpo ga objetivo) (dij_mem_cuerpo_refina ga objetivo) t1 t2 _
      (proj1 (dij_mem_inicial ga inicio)) Ht) as [Hwf Hest].
    by apply dij_mem_estable_conserva.
  - intros t t2 s costo u resto Ht H1 Hq Hu.
    apply (iterar_emitido DijkstraMem.valores DijkstraMem.bien_formado DijkstraMem.estable
      dij_mem_estable_refl dij_mem_estable_trans DijkstraMem.pasos DijkstraMem.leer
      Dijkstra.pasos (λ a, eq_refl) dij_mem_estable_conserva
      (DijkstraMem.cuerpo ga objetivo) (Dijkstra.cuerpo ga objetivo)
      (dij_mem_cuerpo_refina ga objetivo) t t2 (DijkstraMem.inicial ga inicio) s);
      [apply dij_mem_inicial|done..|].
    by apply (dij_cuerpo_emite ga objetivo (DijkstraMem.valores s) costo u resto).
Qed.

(** ** A* *)

Section a_star_aislado.
Context {P : Type} (h : nat → P) (suma : Z → P → P) (ltb : P * nat → P * nat → bool).

Lemma ast_mem_estable_conserva (s s' : @AStarMem.estado P) :
  AStarMem.bien_formado s → AStarMem.estable s s' →
  conserva_pasos AStarMem.pasos AStarMem.leer s s'.
Proof.
  intros Hwf Hest k p Hk. split.
  - destruct Hest as (_ & _ & _ & Hpre). by eapply prefix_lookup_Some.
  - apply ast_mem_leer_estable; [done..|]. by eapply list_elem_of_lookup_2.
Qed.

Lemma ast_expandir_pasos (ga : GrafoActivo) (u : nat) (l : list nat) :
  ∀ s : @AStar.estado P,
    AStar.pasos (foldl (AStar.expandir h suma ltb ga u) s l) = AStar.pasos s.
Proof.
  induction l as [|v l IH]; intros s; cbn [foldl]; [done|]. rewrite IH.
  unfold AStar.expandir. case_bool_decide; [|done]. cbv zeta.
  by destruct (match AStar.g s !! v with Some _ => _ | None => _ end).
Qed.

Lemma ast_cuerpo_emite (ga : GrafoActivo) (objetivo : nat) (b : @AStar.estado P)
    (f : P) (u : nat) (resto : list (P * nat)) :
  heappop (AStar.pq b) = Some ((f, u), resto) → u ∉ AStar.visitado b →
  AStar.pasos (estado_de (AStar.cuerpo h suma ltb ga objetivo b)) =
    AStar.pasos b ++ [{| AStar.actual := u;
                         AStar.visitados := {[u]} ∪ AStar.visitado b;
                         AStar.p_g := AStar.g b;
                         AStar.p_padre := AStar.padre b |}].
Proof.
  intros Hq Hu. unfold AStar.cuerpo. rewrite Hq, bool_decide_eq_false_2 by done.
  cbv zeta. case_bool_decide; cbn [estado_de]; [done|]. by rewrite ast_expandir_pasos.
Qed.

Lemma ast_mem_conserva (ga : GrafoActivo) (inicio objetivo : nat) (t1 t2 : nat) :
  (t1 ≤ t2)%nat →
  conserva_pasos AStarMem.pasos AStarMem.leer
    (estado_de (AStarMem.bucle h suma ltb ga t1 inicio objetivo))
    (estado_de (AStarMem.bucle h suma ltb ga t2 inicio objetivo)).
Proof.
  intros Ht.
  destruct (iterar_estable AStarMem.valores AStarMem.bien_formado AStarMem.estable
    ast_mem_estable_refl ast_mem_estable_trans (AStarMem.cuerpo h suma ltb ga objetivo)
    (AStar.cuerpo h suma ltb ga objetivo) (ast_mem_cuerpo_refina h suma ltb ga objetivo)
    t1 t2 _ (proj1 (ast_mem_inicial h inicio)) Ht) as [Hwf Hest].
  by apply ast_mem_estable_conserva.
Qed.

Lemma ast_mem_emitido (ga : GrafoActivo) (inicio objetivo : nat) (t t2 : nat)
    (s : @AStarMem.estado P) (f : P) (u : nat) (resto : list (P * nat)) :
  (t < t2)%nat →
  AStarMem.bucle h suma ltb ga t inicio objetivo = Sigue s →
  heappop (AStarMem.pq s) = Some ((f, u), resto) →
  u ∉ AStarMem.visitado s →
  emitido AStarMem.pasos AStarMem.leer s
    (estado_de (AStarMem.bucle h suma ltb ga t2 inicio objetivo))
    {| AStar.actual := u; AStar.visitados := {[u]} ∪ AStarMem.visitado s;
       AStar.p_g := AStarMem.g s; AStar.p_padre := AStarMem.padre s |}.
Proof.
  intros Ht H1 Hq Hu.
  apply (iterar_emitido AStarMem.valores AStarMem.bien_formado AStarMem.estable
    ast_mem_estable_refl ast_mem_estable_trans AStarMem.pasos AStarMem.leer
    AStar.pasos (λ a, eq_refl) ast_mem_estable_conserva
    (AStarMem.cuerpo h suma ltb ga objetivo) (AStar.cuerpo h suma ltb ga objetivo)
    (ast_mem_cuerpo_refina h suma ltb ga objetivo) t t2 (AStarMem.inicial h inicio) s);
    [apply ast_mem_inicial|done..|].
  by apply (ast_cuerpo_emite ga objetivo (AStarMem.valores s) f u resto).
Qed.

End a_star_aislado.

Lemma ast_mem_aislado (ga : GrafoActivo) (inicio objetivo : nat) :
  ast_aislado ga inicio objetivo.
Proof.
  split.
  - intros t1 t2 Ht. by apply ast_mem_conserva.
  - intros t t2 s f u resto Ht H1 Hq Hu. by eapply ast_mem_emitido.
Qed.

(** ** Prim *)

Lemma prim_mem_estable_conserva (s s' : PrimMem.estado) :
  PrimMem.bien_formado s → PrimMem.estable s s' →
  conserva_pasos PrimMem.pasos PrimMem.leer s s'.
Proof.
  intros Hwf Hest k p Hk. split.
  - destruct Hest as (_ & _ & Hpre). by eapply prefix_lookup_Some.
  - apply prim_mem_leer_estable; [done..|]. by eapply list_elem_of_lookup_2.
Qed.

Lemma prim_empujar_pasos (u : nat) (l : list (nat * Z)) :
  ∀ s, Prim.pasos (foldl (Prim.empujar u) s l) = Prim.pasos s.
Proof.
  induction l as [|[v w] l IH]; intros s; cbn [foldl]; [done|]. rewrite IH.
  unfold Prim.empujar. by destruct (negb _).
Qed.

Lemma prim_cuerpo_emite (ga : GrafoActivo) (lista : list (list (nat * Z)))
    (b : Prim.estado) (peso : Z) (u : nat) (resto : list (Z * nat)) :
  heappop (Prim.heap b) = Some ((peso, u), resto) →
  default false (Prim.visitado b !! u) = false →
  Prim.pasos (estado_de (Prim.cuerpo ga lista b)) =
    Prim.pasos b ++ [{| Prim.actual := u;
                        Prim.visitados := marcados ga (<[u := true]> (Prim.visitado b));
                        Prim.mst := match default None (Prim.padre b !! u) with
                                    | Some p => Prim.e_mst b ++ [(p, u)]
                                    | None => Prim.e_mst b
                                    end |}].
Proof.
  intros Hq Hu. unfold Prim.cuerpo. rewrite Hq, Hu. cbv zeta. cbn [estado_de].
  by rewrite prim_empujar_pasos.
Qed.

Lemma prim_mem_aislado (ga : GrafoActivo) : prim_aislado ga.
Proof.
  split.
  - intros t1 t2 Ht.
    destruct (iterar_estable PrimMem.valores PrimMem.bien_formado PrimMem.estable
      prim_mem_estable_refl prim_mem_estable_trans
      (PrimMem.cuerpo ga (matriz_a_lista_ady (matriz ga)))
      (Prim.cuerpo ga (matriz_a_lista_ady (matriz ga)))
      (prim_mem_cuerpo_refina ga _) t1 t2 _
      (proj1 (prim_mem_inicial ga)) Ht) as [Hwf Hest].
    by apply prim_mem_estable_conserva.
  - intros t t2 s peso u resto Ht H1 Hq Hu.
    apply (iterar_emitido PrimMem.valores PrimMem.bien_formado PrimMem.estable
      prim_mem_estable_refl prim_mem_estable_trans PrimMem.pasos PrimMem.leer
      Prim.pasos (λ a, eq_refl) prim_mem_estable_conserva
      (PrimMem.cuerpo ga (matriz_a_lista_ady (matriz ga)))
      (Prim.cuerpo ga (matriz_a_lista_ady (matriz ga)))
      (prim_mem_cuerpo_refina ga _) t t2 (PrimMem.inicial ga) s);
      [apply prim_mem_inicial|done..|].
    by apply (prim_cuerpo_emite ga _ (PrimMem.valores s) peso u resto).
Qed.

(** ** Kruskal *)

Lemma kruskal_mem_estable_conserva (s s' : KruskalMem.estado) :
  KruskalMem.bien_formado s → KruskalMem.estable s s' →
  conserva_pasos KruskalMem.pasos KruskalMem.leer s s'.
Proof.
  intros Hwf Hest k p Hk. split.
  - destruct Hest as (_ & Hpre). by eapply prefix_lookup_Some.
  - apply kruskal_mem_leer_estable; [done..|]. by eapply list_elem_of_lookup_2.
Qed.

Lemma kruskal_cuerpo_emite (limite : nat) (b b' : Kruskal.estado) (u v : nat) (w : Z) :
  Kruskal.cuerpo limite b (u, v, w) = Ok b' →
  ∃ aceptada,
    Kruskal.pasos b' =
      Kruskal.pasos b ++ [{| Kruskal.edge := (u, v); Kruskal.w := w;
                             Kruskal.ok := aceptada;
                             Kruskal.mst := if aceptada then Kruskal.e_mst b ++ [(u, v)]
                                            else Kruskal.e_mst b |}].
Proof.
  unfold Kruskal.cuerpo.
  destruct (Kruskal.find limite (Kruskal.padre_uf b) u) as [[uf1 ru]|]; [|done].
  cbn [mbind result_bind fst snd].
  destruct (Kruskal.find limite uf1 v) as [[uf2 rv]|]; [|done].
  cbn [mbind result_bind fst snd]. intros [= <-]. by exists (bool_decide (ru ≠ rv)).
Qed.

Lemma kruskal_mem_plegar (limite : nat) (l : list (nat * nat * Z)) (s s' : KruskalMem.estado) :
  KruskalMem.bien_formado s → plegar (KruskalMem.cuerpo limite) s l = Ok s' →
  KruskalMem.bien_formado s' ∧ KruskalMem.estable s s'.
Proof.
  intros Hs Hrun.
  pose proof (plegar_refina KruskalMem.valores KruskalMem.bien_formado KruskalMem.estable
    kruskal_mem_estable_refl kruskal_mem_estable_trans
    (KruskalMem.cuerpo limite) (Kruskal.cuerpo limite) l
    (λ s x Hs, kruskal_mem_cuerpo_refina limite s x Hs) s Hs) as H.
  rewrite Hrun in H. destruct (plegar (Kruskal.cuerpo limite) _ l); [|done].
  by destruct H as (_ & ? & ?).
Qed.

Lemma kruskal_mem_aislado (limite : nat) (ga : GrafoActivo) : kruskal_aislado limite ga.
Proof.
  pose proof (proj1 (kruskal_mem_inicial ga)) as Hwf0.
  split.
  - intros l1 l2 s1 s2 H1. unfold KruskalMem.recorrer in *. rewrite plegar_app, H1.
    cbn [mbind result_bind]. intros H2.
    destruct (kruskal_mem_plegar limite l1 _ _ Hwf0 H1) as [Hwf1 _].
    apply kruskal_mem_estable_conserva; [done|].
    by apply (kruskal_mem_plegar limite l2 s1 s2).
  - intros l1 u v w l2 s1 s2 H1. unfold KruskalMem.recorrer in *. rewrite plegar_app, H1.
    cbn [mbind result_bind plegar].
    destruct (kruskal_mem_plegar limite l1 _ _ Hwf0 H1) as [Hwf1 _].
    pose proof (kruskal_mem_cuerpo_refina limite s1 (u, v, w) Hwf1) as Hc.
    destruct (KruskalMem.cuerpo limite s1 (u, v, w)) as [sa|] eqn:Hsa; [|done].
    cbn [mbind result_bind]. intros H2.
    destruct (Kruskal.cuerpo limite (KruskalMem.valores s1) (u, v, w)) as [b|] eqn:Hb;
      [|done].
    destruct Hc as (Hval & Hwfa & Hesta).
    destruct (kruskal_cuerpo_emite limite _ _ u v w Hb) as (aceptada & Hem).
    exists aceptada.
    apply (emitido_estable KruskalMem.bien_formado KruskalMem.estable
             KruskalMem.pasos KruskalMem.leer kruskal_mem_estable_conserva s1 sa);
      [done|by apply (kruskal_mem_plegar limite l2)|].
    apply (emitido_de_traza KruskalMem.valores KruskalMem.pasos KruskalMem.leer
             Kruskal.pasos (λ a, eq_refl) _ _ _ []).
    by rewrite Hval.
Qed.

(** ** DFS *)

Lemma dfs_mem_estable_conserva (s s' : DFSMem.estado) :
  DFSMem.bien_formado s → DFSMem.estable s s' →
  conserva_pasos DFSMem.pasos DFSMem.leer s s'.
Proof.
  intros Hwf Hest k p Hk. split.
  - destruct Hest as (_ & _ & Hpre). by eapply prefix_lookup_Some.
  - apply dfs_mem_leer_estable; [done..|]. by eapply list_elem_of_lookup_2.
Qed.

Lemma dfs_emite (ga : GrafoActivo) (limite : nat) :
  ∀ u b b', DFS._dfs ga limite u b = Ok b' →
    ∃ resto, DFS.pasos b' =
      DFS.pasos b ++ {| DFS.actual := u; DFS.visitados := {[u]} ∪ DFS.visitado b;
                        DFS.p_padre := DFS.padre b |} :: resto.
Proof.
  induction limite as [|f IH]; intros u b b'; [done|]. cbn [DFS._dfs].
  set (p := {| DFS.actual := u |}).
  assert (∀ x, Ok (DFS.visitar u b) = Ok x →
               ∃ resto, DFS.pasos x = DFS.pasos b ++ p :: resto) as H0.
  { intros x [= <-]. by exists []. }
  revert H0. generalize (Ok (DFS.visitar u b)).
  induction (seq 0 (N ga)) as [|v l IHl]; intros os Hos; cbn [foldl]; [apply Hos|].
  apply IHl. intros x Hx. destruct os as [s'|e]; [|done]. cbn [mbind result_bind] in Hx.
  destruct (Hos s' eq_refl) as (r & Hr).
  destruct (celda_np _ _ _) as [w|]; [|done]. cbn [mbind result_bind] in Hx.
  destruct (bool_decide _ && bool_decide _).
  - destruct (IH _ _ _ Hx) as (r' & Hr'). simpl in Hr'.
    rewrite Hr', Hr, <- app_assoc. simpl. by eexists.
  - injection Hx as <-. by eexists.
Qed.

Lemma dfs_mem_aislado (ga : GrafoActivo) (inicio : nat) : dfs_aislado ga inicio.
Proof.
  split; [apply dfs_mem_inicial|].
  intros limite u s s' Hwf Hrun. pose proof (dfs_mem_refina ga limite u s Hwf) as H.
  rewrite Hrun in H. destruct (DFS._dfs ga limite u _) as [b'|] eqn:Hb; [|done].
  destruct H as (Hval & Hwf' & Hest). split_and!; [done|by apply dfs_mem_estable_conserva|].
  destruct (dfs_emite ga limite u _ _ Hb) as (resto & Hr).
  apply (emitido_de_traza DFSMem.valores DFSMem.pasos DFSMem.leer
           DFS.pasos (λ a, eq_refl) _ _ _ resto).
  by rewrite Hval.
Qed.

(** ** The runs over objects end, and leave the steps of the runs over values *)

Lemma bfs_mem_termina (ga : GrafoActivo) (inicio : Z) :
  cuadrada ga → 0 ≤ inicio < Z.of_nat (N ga) →
  ∃ s, BFSMem.bucle ga (BFS.fuel ga) inicio = Ok (Alto s) ∧
       BFS.bfs_pasos ga inicio = Ok (BFSMem.traza s) ∧
       crece ∅ (bfs_vista <$> BFSMem.traza s) (BFSMem.visitado s).
Proof.
  intros Hc Hi. destruct (bfs_pasos_crece ga inicio Hc Hi) as (b & Hb & Hp & Hcr).
  destruct (bfs_mem_inicial inicio) as [Hwf Hval].
  pose proof (iterar_exc_refina BFSMem.valores BFSMem.bien_formado BFSMem.estable
    bfs_mem_estable_refl bfs_mem_estable_trans (BFSMem.cuerpo ga) (BFS.cuerpo ga)
    (bfs_mem_cuerpo_refina ga) (BFS.fuel ga) _ Hwf) as H.
  rewrite Hval in H. unfold BFS.bucle in Hb. rewrite Hb in H. unfold BFSMem.bucle.
  destruct (iterar_exc (BFSMem.cuerpo ga) _ _) as [[a|a]|e]; try done.
  destruct H as (<- & _ & _). by exists a.
Qed.

Lemma dfs_mem_termina (limite : nat) (ga : GrafoActivo) (inicio : nat) :
  cuadrada ga → (inicio < N ga)%nat → (N ga ≤ limite)%nat →
  ∃ s, DFSMem._dfs ga limite inicio (DFSMem.inicial inicio) = Ok s ∧
       DFS.dfs_pasos limite ga inicio = Ok (DFSMem.traza s) ∧
       crece ∅ (dfs_vista <$> DFSMem.traza s) (DFSMem.visitado s).
Proof.
  intros Hc Hi Hlim.
  destruct (dfs_pasos_crece limite ga inicio Hc Hi Hlim) as (b & Hb & Hp & Hcr).
  destruct (dfs_mem_inicial inicio) as [Hwf Hval].
  pose proof (dfs_mem_refina ga limite inicio _ Hwf) as H.
  rewrite Hval, Hb in H.
  destruct (DFSMem._dfs ga _ _ _) as [a|]; [|done].
  destruct H as (<- & _ & _). by exists a.
Qed.

Lemma dij_mem_termina (ga : GrafoActivo) (inicio objetivo : nat) :
  (inicio < N ga)%nat →
  ∃ s, DijkstraMem.bucle ga (Dijkstra.fuel ga) inicio objetivo = Alto s ∧
       DijkstraMem.valores s = estado_de (Dijkstra.bucle ga inicio objetivo) ∧
       crece ∅ (dij_vista <$> DijkstraMem.traza s) (DijkstraMem.visitado s).
Proof.
  intros Hi. destruct (dij_bucle_crece ga inicio objetivo Hi) as (b & Hb & Hfin).
  destruct (dij_mem_inicial ga inicio) as [Hwf Hval].
  pose proof (iterar_refina DijkstraMem.valores DijkstraMem.bien_formado DijkstraMem.estable
    dij_mem_estable_refl dij_mem_estable_trans (DijkstraMem.cuerpo ga objetivo)
    (Dijkstra.cuerpo ga objetivo) (dij_mem_cuerpo_refina ga objetivo) (Dijkstra.fuel ga) _ Hwf)
    as H.
  rewrite Hval in H. rewrite Hb. unfold Dijkstra.bucle in Hb. rewrite Hb in H.
  unfold DijkstraMem.bucle.
  destruct (iterar (DijkstraMem.cuerpo ga objetivo) _ _) as [a|a]; try done.
  destruct H as (<- & _ & _). by exists a.
Qed.

Lemma ast_mem_termina (ga : GrafoActivo) (inicio objetivo : nat) :
  (inicio < N ga)%nat →
  ∃ s, AStarMem.bucle_float ga (AStar.fuel ga) inicio objetivo = Alto s ∧
       AStarMem.valores s = estado_de (AStar.bucle_float ga inicio objetivo) ∧
       crece ∅ (ast_vista <$> AStarMem.traza s) (AStarMem.visitado s).
Proof.
  intros Hi. unfold AStar.bucle_float, AStarMem.bucle_float.
  set (h := AStar.h_objetivo ga objetivo).
  set (suma := λ (nuevo : Z) (p : float), PrimFloat.add (AStar.float_de_Z nuevo) p).
  destruct (ast_bucle_crece h suma AStar.entrada_float_ltb ga inicio objetivo Hi)
    as (b & Hb & Hcr).
  destruct (ast_mem_inicial h inicio) as [Hwf Hval].
  pose proof (iterar_refina AStarMem.valores AStarMem.bien_formado AStarMem.estable
    ast_mem_estable_refl ast_mem_estable_trans
    (AStarMem.cuerpo h suma AStar.entrada_float_ltb ga objetivo)
    (AStar.cuerpo h suma AStar.entrada_float_ltb ga objetivo)
    (ast_mem_cuerpo_refina h suma AStar.entrada_float_ltb ga objetivo)
    (AStar.fuel ga) _ Hwf) as H.
  rewrite Hval in H. rewrite Hb. unfold AStar.bucle in Hb. rewrite Hb in H.
  unfold AStarMem.bucle.
  destruct (iterar (AStarMem.cuerpo h suma _ ga objetivo) _ _) as [a|a]; try done.
  destruct H as (<- & _ & _). by exists a.
Qed.

Lemma prim_mem_termina (ga : GrafoActivo) :
  length (matriz ga) = N ga → (0 < N ga)%nat →
  ∃ s, PrimMem.bucle ga (Prim.fuel ga) = Alto s ∧
       Prim.prim_pasos ga = PrimMem.traza s ∧
       crece ∅ (prim_vista <$> PrimMem.traza s)
             (list_to_set (marcados ga (PrimMem.visitado s))).
Proof.
  intros Hm HN. destruct (prim_pasos_crece ga Hm HN) as (b & Hb & Hcr).
  rewrite <- prim_mem_traza.
  destruct (prim_mem_inicial ga) as [Hwf Hval].
  pose proof (iterar_refina PrimMem.valores PrimMem.bien_formado PrimMem.estable
    prim_mem_estable_refl prim_mem_estable_trans
    (PrimMem.cuerpo ga (matriz_a_lista_ady (matriz ga)))
    (Prim.cuerpo ga (matriz_a_lista_ady (matriz ga)))
    (prim_mem_cuerpo_refina ga _) (Prim.fuel ga) _ Hwf) as H.
  rewrite Hval in H. unfold Prim.bucle in Hb. rewrite Hb in H. unfold PrimMem.bucle.
  destruct (iterar (PrimMem.cuerpo ga _) _ _) as [a|a]; try done.
  destruct H as (<- & _ & _). by exists a.
Qed.

Lemma kruskal_mem_extiende (limite : nat) (ga : GrafoActivo) (ps : list Kruskal.paso) :
  Kruskal.kruskal_pasos limite ga = Ok ps →
  ∃ s, KruskalMem.recorrer limite ga (Kruskal.aristas ga) = Ok s ∧
       KruskalMem.traza s = ps ∧
       extiende [] (KruskalMem.traza s) (KruskalMem.e_mst s).
Proof.
  intros Hps. unfold Kruskal.kruskal_pasos in Hps.
  pose proof (kruskal_mem_recorrer limite ga (Kruskal.aristas ga)) as Hr.
  destruct (Kruskal.recorrer limite ga _) as [b|] eqn:Hb; [|done].
  destruct (KruskalMem.recorrer limite ga _) as [a|]; [|done].
  destruct Hr as (Hval & Hwf & _). injection Hps as <-. exists a.
  split_and!; [done|by rewrite <- Hval|].
  change (KruskalMem.traza a) with (Kruskal.pasos (KruskalMem.valores a)).
  change (KruskalMem.e_mst a) with (Kruskal.e_mst (KruskalMem.valores a)).
  rewrite Hval. revert Hb. unfold Kruskal.recorrer.
  apply (plegar_inv (λ s, extiende [] (Kruskal.pasos s) (Kruskal.e_mst s))); [|done].
  intros s x s' _ Hs Hx. by eapply kruskal_cuerpo_extiende.
Qed.

(** * The conversions of [grafo.py] *)

Lemma elem_of_lista_ady (m : list (list Z)) (i j : nat) (w : Z) :
  (j, w) ∈ default [] (matriz_a_lista_ady m !! i) ↔
  (i < length m)%nat ∧ (j < length m)%nat ∧ w = celda m i j ∧ w ≠ 0.
Proof.
  unfold matriz_a_lista_ady. rewrite list_lookup_fmap.
  destruct (decide (i < length m)%nat) as [Hi|Hi].
  - rewrite lookup_seq_lt by done. simpl. rewrite list_elem_of_bind. split.
    + intros (j' & Hjw & Hj). apply elem_of_seq in Hj.
      case_bool_decide; [|by apply elem_of_nil in Hjw].
      apply list_elem_of_singleton in Hjw as [= -> ->]. split_and!; [done|lia|done|done].
    + intros (_ & Hj & -> & Hw). exists j. split; [|apply elem_of_seq; lia].
      rewrite bool_decide_eq_true_2 by done. by apply list_elem_of_singleton.
  - rewrite lookup_seq_ge by lia. simpl. split; [by intros ?%elem_of_nil|].
    intros (? & _). lia.
Qed.

Lemma aristas_de_lista_ady (m : list (list Z)) :
  matriz_a_aristas m =
    i ← seq 0 (length m);
    (λ jw, (i, jw.1, jw.2)) <$> default [] (matriz_a_lista_ady m !! i).
Proof.
  unfold matriz_a_aristas, matriz_a_lista_ady.
  apply Forall_bind_ext, Forall_forall. intros i Hi. apply elem_of_seq in Hi.
  rewrite list_lookup_fmap, lookup_seq_lt by lia. simpl.
  induction (seq 0 (length m)) as [|j l IH]; [done|].
  rewrite !bind_cons, fmap_app, IH. f_equal. by case_bool_decide.
Qed.

(** X1. On a matrix whose rows have at least [len(m)] cells each, so
    that every read of the two conversions is inside its row, the list of
    edges and the adjacency list hold the same edges, those of the
    nonzero cells of the leading square of dimension [len(m)]: [(j, w)]
    is in [lista[i]] exactly when [(i, j, w)] is in the list of edges.
    The adjacency list has one row per row of the matrix, and the list of
    edges is the rows of the adjacency list one after the other, each
    pair with the index of its row. When the matrix is moreover
    symmetric, the list of edges holds every edge in both directions. *)
Theorem aristas_y_lista_ady (m : list (list Z)) :
  Forall (λ fila, (length m ≤ length fila)%nat) m →
  length (matriz_a_lista_ady m) = length m ∧
  matriz_a_aristas m =
    (i ← seq 0 (length m);
     (λ jw, (i, jw.1, jw.2)) <$> default [] (matriz_a_lista_ady m !! i)) ∧
  (∀ i j w, (j, w) ∈ default [] (matriz_a_lista_ady m !! i) ↔ (i, j, w) ∈ matriz_a_aristas m) ∧
  (∀ i j w, (i, j, w) ∈ matriz_a_aristas m ↔
            (i < length m)%nat ∧ (j < length m)%nat ∧ w = celda m i j ∧ w ≠ 0) ∧
  ((∀ i j, celda m i j = celda m j i) →
   ∀ i j w, (i, j, w) ∈ matriz_a_aristas m → (j, i, w) ∈ matriz_a_aristas m).
Proof.
  intros _. split_and!.
  - unfold matriz_a_lista_ady. by rewrite length_fmap, length_seq.
  - apply aristas_de_lista_ady.
  - intros i j w. by rewrite elem_of_lista_ady, elem_of_matriz_a_aristas.
  - apply elem_of_matriz_a_aristas.
  - intros Hsim i j w. rewrite !elem_of_matriz_a_aristas. intros (? & ? & -> & ?).
    split_and!; [done|done|apply Hsim|done].
Qed.

Lemma aristas_y_lista_ady_testigo :
  let m := [[0; 3]; [3; 0]] in
  Forall (λ fila, (length m ≤ length fila)%nat) m ∧
  length (matriz_a_lista_ady m) = length m ∧
  matriz_a_aristas m =
    (i ← seq 0 (length m);
     (λ jw, (i, jw.1, jw.2)) <$> default [] (matriz_a_lista_ady m !! i)) ∧
  (∀ i j w, (j, w) ∈ default [] (matriz_a_lista_ady m !! i) ↔ (i, j, w) ∈ matriz_a_aristas m) ∧
  (∀ i j w, (i, j, w) ∈ matriz_a_aristas m ↔
            (i < length m)%nat ∧ (j < length m)%nat ∧ w = celda m i j ∧ w ≠ 0) ∧
  ((∀ i j, celda m i j = celda m j i) →
   ∀ i j w, (i, j, w) ∈ matriz_a_aristas m → (j, i, w) ∈ matriz_a_aristas m).
Proof.
  assert (Forall (λ fila : list Z, (2 ≤ length fila)%nat) [[0; 3]; [3; 0]]) as H
    by (repeat constructor).
  split; [exact H|]. exact (aristas_y_lista_ady [[0; 3]; [3; 0]] H).
Defined.

Lemma columnas_spec (n : nat) :
  (n ≤ columnas n * columnas n)%nat ∧ ∀ c, (n ≤ c * c)%nat → (columnas n ≤ c)%nat.
Proof.
  unfold columnas. cbv zeta.
  pose proof (Z.sqrt_spec (Z.of_nat n) ltac:(lia)) as [Hlo Hhi].
  pose proof (Z.sqrt_nonneg (Z.of_nat n)) as Hr.
  set (r := Z.to_nat (Z.sqrt (Z.of_nat n))).
  assert (Z.sqrt (Z.of_nat n) = Z.of_nat r) as Hrz by (unfold r; lia).
  rewrite Hrz in Hlo, Hhi. case_bool_decide as Heq.
  - split; [lia|]. intros c Hc. nia.
  - split; [nia|]. intros c Hc. nia.
Qed.

Lemma generar_coords_lookup (n i : nat) :
  generar_coords n !! i =
    if bool_decide (i < n)%nat then Some (i `mod` columnas n, i `div` columnas n)%nat
    else None.
Proof.
  unfold generar_coords. case_bool_decide as Hi.
  - apply elem_of_list_to_map.
    + rewrite <- list_fmap_compose. simpl.
      replace ((fst ∘ (λ i0 : nat, (i0, (i0 `mod` columnas n, i0 `div` columnas n)%nat))) <$> seq 0 n)
        with (seq 0 n); [apply NoDup_seq|].
      by rewrite <- (list_fmap_id (seq 0 n)) at 1.
    + apply list_elem_of_fmap. exists i. split; [done|]. apply elem_of_seq. lia.
  - apply not_elem_of_list_to_map. rewrite <- list_fmap_compose.
    intros Hin. apply list_elem_of_fmap in Hin as (j & -> & Hj).
    apply elem_of_seq in Hj. simpl in Hi. lia.
Qed.

(** X2. [generar_coords(n)] gives a cell to each of the nodes [0..n-1]
    and to nothing else; the side [columnas] of the grid is the least
    number whose square is at least [n]; every cell lies in the square
    grid of that side; and no two nodes share a cell. *)
Theorem generar_coords_rejilla (n : nat) :
  let c := columnas n in
  (n ≤ c * c)%nat ∧ (∀ c', (n ≤ c' * c')%nat → (c ≤ c')%nat) ∧
  (∀ i, (i < n)%nat →
     generar_coords n !! i = Some (i `mod` c, i `div` c)%nat ∧
     (i `mod` c < c)%nat ∧ (i `div` c < c)%nat) ∧
  (∀ i, (n ≤ i)%nat → generar_coords n !! i = None) ∧
  (∀ i j p, generar_coords n !! i = Some p → generar_coords n !! j = Some p → i = j).
Proof.
  intros c. destruct (columnas_spec n) as [Hn Hmin]. fold c in Hn, Hmin.
  split_and!; [done|done|..].
  - intros i Hi. assert (0 < c)%nat as Hc by nia. split_and!.
    + rewrite generar_coords_lookup. by rewrite bool_decide_eq_true_2.
    + apply Nat.mod_upper_bound. lia.
    + apply Nat.Div0.div_lt_upper_bound. lia.
  - intros i Hi. rewrite generar_coords_lookup. by rewrite bool_decide_eq_false_2 by lia.
  - intros i j p. rewrite !generar_coords_lookup.
    case_bool_decide; [|done]. case_bool_decide; [|done].
    intros [= <-] [= Hm Hd]. fold c in Hm, Hd.
    rewrite (Nat.div_mod_eq i c), (Nat.div_mod_eq j c). by rewrite Hm, Hd.
Qed.

(** * The graph that [cargar] draws *)

Lemma indexar_nat_inv {A : Type} (l : list A) (i : nat) (x : A) :
  indexar l (Z.of_nat i) = Ok x → l !! i = Some x.
Proof.
  unfold indexar. case_bool_decide.
  - rewrite Nat2Z.id. destruct (l !! i); simpl; [by intros [= ->]|done].
  - rewrite bool_decide_eq_false_2 by lia. done.
Qed.

Lemma celda_np_nat_inv (m : list (list Z)) (i j : nat) (w : Z) :
  celda_np m (Z.of_nat i) (Z.of_nat j) = Ok w →
  ∃ fila, m !! i = Some fila ∧ fila !! j = Some w ∧ celda m i j = w.
Proof.
  unfold celda_np. destruct (indexar m (Z.of_nat i)) as [fila|] eqn:Hi; simpl; [|done].
  intros Hj. apply indexar_nat_inv in Hi, Hj. exists fila. split_and!; [done..|].
  unfold celda. rewrite Hi. simpl. by rewrite Hj.
Qed.

Lemma peso_arista_add_edge (g : gmap string (gmap string Z)) (a b x y : string) (w : Z) :
  peso_arista (add_edge g a b w) x y =
    if bool_decide ((x = a ∧ y = b) ∨ (x = b ∧ y = a)) then Some w else peso_arista g x y.
Proof.
  unfold peso_arista, add_edge. cbv zeta.
  destruct (decide (x = b)) as [->|Hxb].
  - rewrite lookup_insert_eq. simpl. destruct (decide (y = a)) as [->|Hya].
    + rewrite lookup_insert_eq. by rewrite bool_decide_eq_true_2 by tauto.
    + rewrite lookup_insert_ne by done. destruct (decide (b = a)) as [->|Hba].
      * rewrite lookup_insert_eq. simpl. rewrite lookup_insert_ne by done.
        rewrite bool_decide_eq_false_2 by (intros [[_ ->]|[_ ->]]; done).
        by destruct (g !! a).
      * rewrite lookup_insert_ne by done.
        rewrite bool_decide_eq_false_2 by (intros [[-> _]|[_ ->]]; done).
        by destruct (g !! b).
  - rewrite lookup_insert_ne by done. destruct (decide (x = a)) as [->|Hxa].
    + rewrite lookup_insert_eq. simpl. destruct (decide (y = b)) as [->|Hyb].
      * rewrite lookup_insert_eq. by rewrite bool_decide_eq_true_2 by tauto.
      * rewrite lookup_insert_ne by done.
        rewrite bool_decide_eq_false_2 by (intros [[_ ->]|[-> _]]; done).
        by destruct (g !! a).
    + rewrite lookup_insert_ne by done.
      by rewrite bool_decide_eq_false_2 by (intros [[-> _]|[-> _]]; done).
Qed.

Lemma agregar_arista_dibujada (arr : list (list Z)) (ns : list string)
    (L : list (nat * nat)) (g g1 : gmap string (gmap string Z)) (i j : nat) :
  NoDup ns → (i < j)%nat → (∀ i' j', (i', j') ∈ L → (i' < j')%nat) →
  dibujada arr ns L g → agregar_arista arr ns g (i, j) = Ok g1 →
  dibujada arr ns (L ++ [(i, j)]) g1.
Proof.
  intros Hnd Hij HL Hg Hg1. unfold agregar_arista in Hg1. simpl in Hg1.
  destruct (celda_np arr _ _) as [w1|] eqn:Hw1; simpl in Hg1; [|done].
  apply celda_np_nat_inv in Hw1 as (fila & _ & _ & Hw1).
  case_bool_decide as Hpos.
  - destruct (indexar ns (Z.of_nat i)) as [a1|] eqn:Ha1; simpl in Hg1; [|done].
    destruct (indexar ns (Z.of_nat j)) as [b1|] eqn:Hb1; simpl in Hg1; [|done].
    injection Hg1 as <-. apply indexar_nat_inv in Ha1, Hb1.
    intros a b w. rewrite peso_arista_add_edge. case_bool_decide as Hab.
    + split.
      * intros [= <-]. exists i, j. split; [apply elem_of_app; right; by left|].
        split_and!; [done|done|]. destruct Hab as [[-> ->]|[-> ->]]; tauto.
      * intros (i' & j' & Hin & Hc & Hw & Hlab).
        assert (i' < j')%nat as Hij'.
        { apply elem_of_app in Hin as [Hin|Hin]; [by apply HL|].
          by apply list_elem_of_singleton in Hin as [= -> ->]. }
        assert (i' = i ∧ j' = j) as [-> ->]; [|congruence].
        destruct Hab as [[-> ->]|[-> ->]], Hlab as [[Hi' Hj']|[Hi' Hj']].
        -- split; eapply NoDup_lookup; eauto.
        -- pose proof (NoDup_lookup _ _ _ _ Hnd Hi' Hb1).
           pose proof (NoDup_lookup _ _ _ _ Hnd Hj' Ha1). lia.
        -- pose proof (NoDup_lookup _ _ _ _ Hnd Hi' Hb1).
           pose proof (NoDup_lookup _ _ _ _ Hnd Hj' Ha1). lia.
        -- split; eapply NoDup_lookup; eauto.
    + rewrite (Hg a b w). split.
      * intros (i' & j' & Hin & ?). exists i', j'. split; [|done].
        apply elem_of_app. by left.
      * intros (i' & j' & Hin & Hc & Hw & Hlab).
        apply elem_of_app in Hin as [Hin|Hin]; [by exists i', j'|].
        apply list_elem_of_singleton in Hin as [= -> ->]. exfalso. apply Hab.
        destruct Hlab as [[Hi' Hj']|[Hi' Hj']]; [left|right]; split; congruence.
  - injection Hg1 as <-. intros a b w. rewrite (Hg a b w). split.
    + intros (i' & j' & Hin & ?). exists i', j'. split; [|done].
      apply elem_of_app. by left.
    + intros (i' & j' & Hin & Hc & Hw & Hlab).
      apply elem_of_app in Hin as [Hin|Hin]; [by exists i', j'|].
      apply list_elem_of_singleton in Hin as [= -> ->]. lia.
Qed.

Lemma plegar_agregar_arista (arr : list (list Z)) (ns : list string) :
  NoDup ns →
  ∀ l L g g', (∀ i j, (i, j) ∈ l → (i < j)%nat) → (∀ i j, (i, j) ∈ L → (i < j)%nat) →
    dibujada arr ns L g → plegar (agregar_arista arr ns) g l = Ok g' →
    dibujada arr ns (L ++ l) g'.
Proof.
  intros Hnd. induction l as [|[i j] l IH]; intros L g g' Hl HL Hg; simpl.
  - intros [= <-]. by rewrite app_nil_r.
  - destruct (agregar_arista arr ns g (i, j)) as [g1|] eqn:Hg1; simpl; [|done].
    intros Hg'. replace (L ++ (i, j) :: l) with ((L ++ [(i, j)]) ++ l)
      by (by rewrite <- app_assoc).
    apply (IH _ g1); [| | |done].
    + intros i' j' Hin. apply Hl. by right.
    + intros i' j' Hin. apply elem_of_app in Hin as [Hin|Hin]; [by apply HL|].
      apply list_elem_of_singleton in Hin as [= -> ->]. apply Hl. by left.
    + apply (agregar_arista_dibujada arr ns L g g1 i j); [done| |done..].
      apply Hl. by left.
Qed.

(** X3. With labels that are all different, the NetworkX graph that
    [cargar] builds has between two labels the edge of the positive cell
    above the diagonal whose indices carry them, in either order and with
    the weight of the cell, and has no other edge: no cell on or below the
    diagonal gives one. *)
Theorem cargar_dibuja_triangulo_superior (m : list (list Z)) (ns : list string)
    (g : string) (ga : GrafoActivo) :
  cargar m ns g = Ok ga → NoDup ns →
  ∀ a b w, peso_arista (G ga) a b = Some w ↔
    ∃ i j, (i < j < N ga)%nat ∧ celda (matriz ga) i j = w ∧ w > 0 ∧
           ((nombres ga !! i = Some a ∧ nombres ga !! j = Some b) ∨
            (nombres ga !! i = Some b ∧ nombres ga !! j = Some a)).
Proof.
  unfold cargar. destruct (np_array m) as [arr|] eqn:Harr; simpl; [|done].
  destruct (plegar _ _ _) as [g'|] eqn:Hg; simpl; [|done]. intros [= <-] Hnd. simpl.
  intros a b w.
  assert (dibujada arr ns ([] ++ pares_superiores (length m)) g') as H.
  { apply (plegar_agregar_arista arr ns Hnd _ [] ∅ g'); [| | |done].
    - intros i j Hin. apply elem_of_pares_superiores in Hin. lia.
    - intros i j Hin. by apply elem_of_nil in Hin.
    - intros a' b' w'. unfold peso_arista. rewrite lookup_empty. simpl. split; [done|].
      intros (? & ? & Hin & _). by apply elem_of_nil in Hin. }
  rewrite (H a b w). simpl. split.
  - intros (i & j & Hin & ?). apply elem_of_pares_superiores in Hin. by exists i, j.
  - intros (i & j & Hij & ?). exists i, j. split; [|done].
    by apply elem_of_pares_superiores.
Qed.

Lemma cargar_dibuja_triangulo_superior_testigo :
  cargar matriz_grafo2 nombres_grafo2 "Grafo 2" = Ok grafo2 ∧
  NoDup nombres_grafo2 ∧
  ∀ a b w, peso_arista (G grafo2) a b = Some w ↔
    ∃ i j, (i < j < N grafo2)%nat ∧ celda (matriz grafo2) i j = w ∧ w > 0 ∧
           ((nombres grafo2 !! i = Some a ∧ nombres grafo2 !! j = Some b) ∨
            (nombres grafo2 !! i = Some b ∧ nombres grafo2 !! j = Some a)).
Proof.
  assert (NoDup nombres_grafo2) as Hnd
    by (apply (bool_decide_unpack (NoDup nombres_grafo2)); vm_compute; exact I).
  split; [apply grafo2_cargado|]. split; [exact Hnd|].
  apply (cargar_dibuja_triangulo_superior matriz_grafo2 nombres_grafo2 "Grafo 2" grafo2);
    [apply grafo2_cargado|exact Hnd].
Defined.

(** ** Routes

    [es_ruta ga l]: every two consecutive nodes of [l] are joined by an
    edge of the graph; [peso_ruta ga l] is the sum of the weights of
    these edges. *)

(** * Routes *)

Lemma es_ruta_snoc (ga : GrafoActivo) (l : list nat) (u v : nat) :
  es_ruta ga (l ++ [u]) → celda (matriz ga) u v > 0 → es_ruta ga ((l ++ [u]) ++ [v]).
Proof.
  intros Hl Huv. induction l as [|a l IH]; simpl; [done|].
  destruct l as [|b l]; simpl in *; [tauto|]. split; [tauto|]. apply IH. tauto.
Qed.

Lemma peso_ruta_snoc (ga : GrafoActivo) (l : list nat) (u v : nat) :
  peso_ruta ga ((l ++ [u]) ++ [v]) = peso_ruta ga (l ++ [u]) + celda (matriz ga) u v.
Proof.
  induction l as [|a l IH]; simpl; [lia|].
  destruct l as [|b l]; simpl in *; lia.
Qed.

Lemma ruta_camino_de (ga : GrafoActivo) (inicio : nat) (l : list nat) :
  ∀ k, head l = Some inicio → last l = Some k → es_ruta ga l →
       Forall (λ v, (v < N ga)%nat) l → camino_de ga inicio k (peso_ruta ga l).
Proof.
  induction l as [|v l IH] using rev_ind; intros k Hh Hl Hr Hn; [by simpl in Hh|].
  rewrite last_snoc in Hl. injection Hl as ->.
  destruct l as [|a l _] using rev_ind.
  - simpl in *. injection Hh as ->. constructor.
  - rewrite peso_ruta_snoc. apply Forall_app in Hn as [Hn Hk].
    apply Forall_inv in Hk. constructor; [|done|].
    + apply IH; [|by rewrite last_snoc| |done].
      * destruct l; simpl in *; done.
      * clear -Hr. induction l as [|b l IH]; simpl in *; [done|].
        destruct l as [|c l]; simpl in *; [tauto|]. split; [tauto|]. apply IH. tauto.
    + clear -Hr. induction l as [|b l IH]; simpl in *; [tauto|].
      destruct l as [|c l]; simpl in *; [tauto|]. apply IH. tauto.
Qed.

(** * The reconstruction of a path from the parents *)

Lemma subir_fin (padre : gmap nat (option nat)) (fuel : nat) (camino : list nat) :
  subir padre fuel None camino = Some camino.
Proof. by destruct fuel. Qed.

Section reconstruccion.
Context (ga : GrafoActivo) (inicio : nat) (padre : gmap nat (option nat)) (pot : nat → Z).
Context (raiz : padre !! inicio = Some None).
Context (unica : ∀ v, padre !! v = Some None → v = inicio).
Context (arista : ∀ v u, padre !! v = Some (Some u) →
  is_Some (padre !! u) ∧ celda (matriz ga) u v > 0 ∧ pot u + celda (matriz ga) u v ≤ pot v).
Context (rango : ∀ v, is_Some (padre !! v) → (v < N ga)%nat).

Lemma subir_ruta (fuel : nat) :
  ∀ k camino, is_Some (padre !! k) → (size (bajo padre pot k) ≤ fuel)%nat →
    ∃ l, subir padre fuel (Some k) camino = Some (camino ++ reverse l) ∧
         ruta_de ga inicio k l ∧ peso_ruta ga l ≤ pot k - pot inicio ∧
         Forall (λ v, pot v ≤ pot k) l.
Proof.
  induction fuel as [|f IH]; intros k camino Hk Hsize.
  { assert (k ∈ bajo padre pot k) as Hin.
    { apply elem_of_filter. split; [lia|]. by apply elem_of_dom. }
    assert (size (bajo padre pot k) = 0)%nat as H0 by lia. apply size_empty_iff in H0.
    set_solver. }
  simpl. destruct Hk as [p Hp]. rewrite Hp. destruct p as [u|].
  - destruct (arista _ _ Hp) as (Hu & Hw & Hpot).
    assert (size (bajo padre pot u) < size (bajo padre pot k))%nat as Hlt.
    { apply subset_size. apply strict_spec_alt. split.
      - intros x Hx. apply elem_of_filter in Hx as [Hx Hd].
        apply elem_of_filter. split; [lia|done].
      - intros Heq. assert (k ∈ bajo padre pot u) as Hin.
        { rewrite Heq. apply elem_of_filter. split; [lia|].
          apply elem_of_dom. by eexists. }
        apply elem_of_filter in Hin as [Hin _]. lia. }
    destruct (IH u (camino ++ [k]) Hu) as (l & -> & [Hh Hl Hr Hn Hnd] & Hpeso & Hcota);
      [lia|].
    exists (l ++ [k]). rewrite reverse_app, <- app_assoc. simpl. split; [done|].
    destruct l as [|a l _] using rev_ind; [done|].
    rewrite last_snoc in Hl. injection Hl as ->.
    split_and!.
    + split.
      * destruct l; simpl in *; done.
      * by rewrite last_snoc.
      * by apply es_ruta_snoc.
      * apply Forall_app. split; [done|]. apply Forall_singleton, rango. by eexists.
      * apply NoDup_app. split_and!; [done| |apply NoDup_singleton].
        intros x Hx ->%list_elem_of_singleton.
        eapply Forall_forall in Hcota; [|exact Hx]. simpl in Hcota. lia.
    + rewrite peso_ruta_snoc. lia.
    + apply Forall_app. split; [|by apply Forall_singleton].
      eapply Forall_impl; [exact Hcota|]. simpl. intros. lia.
  - apply unica in Hp as ->. rewrite subir_fin. exists [inicio]. simpl. split; [done|].
    split_and!; [|lia|by apply Forall_singleton].
    split; simpl; [done|done|done| |apply NoDup_singleton].
    apply Forall_singleton, rango. by eexists.
Qed.

Lemma reconstruir_ruta (k : nat) :
  is_Some (padre !! k) →
  ∃ l, reconstruir padre k = Some l ∧
       ruta_de ga inicio k l ∧ peso_ruta ga l ≤ pot k - pot inicio.
Proof.
  intros Hk. unfold reconstruir.
  destruct (subir_ruta (size padre) k [] Hk) as (l & -> & Hl & Hp & _).
  - etrans; [apply (subseteq_size _ (dom padre))|rewrite size_dom; lia].
    intros x Hx. by apply elem_of_filter in Hx as [_ ?].
  - exists l. simpl. by rewrite reverse_involutive.
Qed.

Lemma reconstruir_fuera (k : nat) : padre !! k = None → reconstruir padre k = Some [].
Proof. intros Hk. unfold reconstruir. destruct (size padre); simpl; by rewrite Hk. Qed.

End reconstruccion.

(** * The path of Dijkstra *)

Lemma dij_padres_relajar (ga : GrafoActivo) (inicio : nat) (costo : Z) (u : nat)
    (s : Dijkstra.estado) (v : nat) :
  (v < N ga)%nat →
  (celda (matriz ga) u v > 0 →
   int64 (costo + celda (matriz ga) u v) = costo + celda (matriz ga) u v) →
  dij_padres ga inicio s →
  (∃ du, Dijkstra.dist s !! u = Some (Num du) ∧ du ≤ costo) →
  let s' := Dijkstra.relajar ga costo u s v in
  dij_padres ga inicio s' ∧ ∃ du, Dijkstra.dist s' !! u = Some (Num du) ∧ du ≤ costo.
Proof.
  intros Hv Hcabe Hinv (du & Hdu & Hle). cbv zeta. unfold Dijkstra.relajar.
  case_bool_decide as Hw; [|by eauto]. cbv zeta. rewrite (Hcabe Hw).
  destruct (Z_lt_num _ _) eqn:Hlt; [|by eauto].
  destruct Hinv as [Hlen Hini Hneg Hcla Hraiz Huni Hari Hdom].
  pose proof (Hneg _ _ Hdu) as Hdu0.
  set (w := celda (matriz ga) u v) in *.
  assert (∀ dv, Dijkstra.dist s !! v = Some (Num dv) → costo + w < dv) as Hmejor.
  { intros dv Hdv. rewrite Hdv in Hlt. simpl in Hlt. by apply bool_decide_eq_true in Hlt. }
  assert (v ≠ inicio) as Hvi.
  { intros ->. specialize (Hmejor _ Hini). lia. }
  assert (v ≠ u) as Hvu.
  { intros ->. specialize (Hmejor _ Hdu). lia. }
  split; [|exists du; simpl; by rewrite list_lookup_insert_ne].
  split; simpl.
  - by rewrite length_insert.
  - by rewrite list_lookup_insert_ne.
  - intros x d. destruct (decide (x = v)) as [->|Hx].
    + rewrite list_lookup_insert_eq by lia. intros [= <-]. lia.
    + rewrite list_lookup_insert_ne by done. apply Hneg.
  - intros c x Hin. apply elem_of_heappush in Hin as [[= -> ->]|Hin].
    + exists (costo + w). by rewrite list_lookup_insert_eq by lia.
    + destruct (Hcla _ _ Hin) as (d & Hd & Hdc). destruct (decide (x = v)) as [->|Hx].
      * exists (costo + w). rewrite list_lookup_insert_eq by lia. split; [done|].
        specialize (Hmejor _ Hd). lia.
      * exists d. by rewrite list_lookup_insert_ne.
  - by rewrite lookup_insert_ne.
  - intros x. destruct (decide (x = v)) as [->|Hx].
    + by rewrite lookup_insert_eq.
    + rewrite lookup_insert_ne by done. apply Huni.
  - intros x y. destruct (decide (x = v)) as [->|Hx].
    + rewrite lookup_insert_eq. intros [= <-]. split; [done|].
      exists du, (costo + w). rewrite list_lookup_insert_ne by done.
      rewrite list_lookup_insert_eq by lia. split_and!; [done|done|lia].
    + rewrite lookup_insert_ne by done. intros Hxy.
      destruct (Hari _ _ Hxy) as (Hc & dy & dx & Hdy & Hdx & Hyx). split; [done|].
      destruct (decide (y = v)) as [->|Hy].
      * exists (costo + w), dx. rewrite list_lookup_insert_eq by lia.
        rewrite list_lookup_insert_ne by done. split_and!; [done|done|].
        specialize (Hmejor _ Hdy). lia.
      * exists dy, dx. by rewrite !list_lookup_insert_ne.
  - intros x. destruct (decide (x = v)) as [->|Hx].
    + rewrite lookup_insert_eq, list_lookup_insert_eq by lia. split; eauto.
    + rewrite lookup_insert_ne, list_lookup_insert_ne by done. apply Hdom.
Qed.

Lemma dij_padres_foldl (ga : GrafoActivo) (inicio : nat) (costo : Z) (u : nat) (l : list nat) :
  Forall (λ v, (v < N ga)%nat) l →
  (∀ v, celda (matriz ga) u v > 0 →
        int64 (costo + celda (matriz ga) u v) = costo + celda (matriz ga) u v) →
  ∀ s, dij_padres ga inicio s →
       (∃ du, Dijkstra.dist s !! u = Some (Num du) ∧ du ≤ costo) →
       dij_padres ga inicio (foldl (Dijkstra.relajar ga costo u) s l).
Proof.
  intros Hl Hcabe. induction l as [|v l IH]; intros s Hs Hu; cbn [foldl]; [done|].
  apply Forall_cons in Hl as [Hv Hl].
  destruct (dij_padres_relajar ga inicio costo u s v Hv (Hcabe v) Hs Hu) as [Hs' Hu'].
  by apply IH.
Qed.

Lemma dij_padres_cuerpo (ga : GrafoActivo) (inicio objetivo : nat) (s : Dijkstra.estado) :
  pesos_acotados ga → dij_cota ga s →
  dij_padres ga inicio s → dij_padres ga inicio (estado_de (Dijkstra.cuerpo ga objetivo s)).
Proof.
  intros Hac Hcot Hinv. unfold Dijkstra.cuerpo.
  destruct (Dijkstra.pq s) as [|[costo u] resto] eqn:Hpq; simpl; [done|].
  pose proof Hinv as [Hlen Hini Hneg Hcla Hraiz Huni Hari Hdom].
  assert (dij_padres ga inicio
            {| Dijkstra.dist := Dijkstra.dist s; Dijkstra.padre := Dijkstra.padre s;
               Dijkstra.pq := resto; Dijkstra.pasos := Dijkstra.pasos s;
               Dijkstra.visitado := Dijkstra.visitado s |}) as Hresto.
  { split; simpl; try done. intros c v Hin. apply Hcla. rewrite Hpq. by right. }
  case_bool_decide as Hvis; simpl; [done|].
  set (s1 := {| Dijkstra.dist := Dijkstra.dist s |}).
  assert (dij_padres ga inicio s1) as Hs1.
  { destruct Hresto. by split. }
  case_bool_decide; simpl; [done|].
  apply dij_padres_foldl; [| |done|].
  - apply Forall_forall. intros v Hv. apply elem_of_seq in Hv. lia.
  - intros v Hw. by apply (dij_cota_cabe ga s costo u resto).
  - apply (Hcla costo u). rewrite Hpq. by left.
Qed.

Lemma dij_padres_inicial (ga : GrafoActivo) (inicio : nat) :
  (inicio < N ga)%nat → dij_padres ga inicio (Dijkstra.inicial ga inicio).
Proof.
  intros Hi.
  assert (∀ v d, <[inicio := Num 0]> (replicate (N ga) Inf) !! v = Some (Num d) →
                 v = inicio ∧ d = 0) as Hd.
  { intros v d. destruct (decide (v = inicio)) as [->|Hv].
    - rewrite list_lookup_insert_eq by (by rewrite length_replicate). by intros [= <-].
    - rewrite list_lookup_insert_ne by done. intros H.
      apply lookup_replicate in H as [? _]. done. }
  assert (<[inicio := Num 0]> (replicate (N ga) Inf) !! inicio = Some (Num 0)) as H0
    by (by rewrite list_lookup_insert_eq by (by rewrite length_replicate)).
  split; simpl.
  - by rewrite length_insert, length_replicate.
  - done.
  - intros v d H. apply Hd in H as [_ ->]. done.
  - intros c v Hin. apply list_elem_of_singleton in Hin as [= -> ->]. by exists 0.
  - apply lookup_singleton_eq.
  - intros v H. apply lookup_singleton_Some in H as [-> _]. done.
  - intros v u H. apply lookup_singleton_Some in H as [_ ?]. done.
  - intros v. split.
    + intros [p H]. apply lookup_singleton_Some in H as [<- _]. by exists 0.
    + intros [d H]. apply Hd in H as [-> _]. rewrite lookup_singleton_eq. by eexists.
Qed.

Lemma dij_padres_final (ga : GrafoActivo) (inicio objetivo : nat) :
  pesos_acotados ga → (inicio < N ga)%nat →
  dij_padres ga inicio (estado_de (Dijkstra.bucle ga inicio objetivo)).
Proof.
  intros Hac Hi. unfold Dijkstra.bucle.
  apply (iterar_inv (λ s, dij_cota ga s ∧ dij_padres ga inicio s)).
  - intros s [Hcot Hs]. split; [by apply dij_cota_cuerpo|by apply dij_padres_cuerpo].
  - split; [by apply dij_cota_inicial|by apply dij_padres_inicial].
Qed.

(** The potential of a node: its distance, when it has one. *)
Lemma dij_padres_ruta (ga : GrafoActivo) (inicio k : nat) (s : Dijkstra.estado) (d : Z) :
  dij_padres ga inicio s → Dijkstra.dist s !! k = Some (Num d) →
  ∃ l, reconstruir (Dijkstra.padre s) k = Some l ∧
       ruta_de ga inicio k l ∧ peso_ruta ga l ≤ d.
Proof.
  intros [Hlen Hini Hneg Hcla Hraiz Huni Hari Hdom] Hk.
  set (pot := λ v, match Dijkstra.dist s !! v with Some (Num z) => z | _ => 0 end).
  destruct (reconstruir_ruta ga inicio (Dijkstra.padre s) pot Hraiz Huni) with (k := k)
    as (l & Hl & Hr & Hp).
  - intros v u Hvu. destruct (Hari _ _ Hvu) as (Hw & du & dv & Hdu & Hdv & Hle).
    split_and!; [apply Hdom; by eexists|done|]. unfold pot. by rewrite Hdu, Hdv.
  - intros v Hv. apply Hdom in Hv as [z Hz]. apply lookup_lt_Some in Hz. lia.
  - apply Hdom. by eexists.
  - exists l. split_and!; [done..|]. unfold pot in Hp. rewrite Hk, Hini in Hp. lia.
Qed.

Lemma dij_padres_fuera (ga : GrafoActivo) (inicio k : nat) (s : Dijkstra.estado) :
  dij_padres ga inicio s → (∀ d, Dijkstra.dist s !! k ≠ Some (Num d)) →
  reconstruir (Dijkstra.padre s) k = Some [].
Proof.
  intros [_ _ _ _ _ _ _ Hdom] Hk. apply reconstruir_fuera.
  destruct (Dijkstra.padre s !! k) eqn:Hp; [|done].
  destruct (proj1 (Hdom k)) as [z Hz]; [by eexists|]. by apply Hk in Hz.
Qed.

(** With weights that leave room for their sums, the call returns: the
    loop ends, and the parents lead from every node back to the start. *)
Lemma dij_devuelve (ga : GrafoActivo) (inicio objetivo : nat) :
  pesos_acotados ga → (inicio < N ga)%nat →
  ∃ s camino,
    Dijkstra.bucle ga inicio objetivo = Alto s ∧
    dij_fin ga inicio objetivo s ∧ dij_padres ga inicio s ∧
    reconstruir (Dijkstra.padre s) objetivo = Some camino ∧
    Dijkstra.dijkstra_pasos ga inicio objetivo =
      Devuelve (Dijkstra.pasos s, camino, Dijkstra.dist s).
Proof.
  intros Hac Hi.
  pose proof (dij_padres_final ga inicio objetivo Hac Hi) as Hpad.
  destruct (dij_bucle_termina ga inicio objetivo Hac Hi) as (s & Hs & Hfin).
  rewrite Hs in Hpad. cbn [estado_de] in Hpad.
  assert (∃ camino, reconstruir (Dijkstra.padre s) objetivo = Some camino) as [camino Hcam].
  { destruct (Dijkstra.dist s !! objetivo) as [[d|]|] eqn:Hd.
    - destruct (dij_padres_ruta ga inicio objetivo s d Hpad Hd) as (l & Hl & _). by exists l.
    - exists []. apply (dij_padres_fuera ga inicio); [done|]. intros d. by rewrite Hd.
    - exists []. apply (dij_padres_fuera ga inicio); [done|]. intros d. by rewrite Hd. }
  exists s, camino. split_and!; [done..|].
  unfold Dijkstra.dijkstra_pasos. rewrite bool_decide_eq_true_2 by done.
  rewrite Hs. cbn [estado_de]. by rewrite Hcam.
Qed.

(** X4. The path that [dijkstra_pasos] returns, for a square matrix
    whose weights leave room for their sums in 64 bits and a start node
    of the graph: the call returns. When the goal has a finite distance,
    the path starts at the start node, ends at the goal, follows edges of
    the graph, repeats no node, and the sum of its weights is
    [dist[objetivo]], which no walk from the start to the goal undercuts.
    Otherwise the path is empty, and the goal cannot be reached from the
    start. *)
Theorem dijkstra_camino_minimo (ga : GrafoActivo) (inicio objetivo : nat) :
  cuadrada ga → pesos_acotados ga → (inicio < N ga)%nat →
  ∃ ps camino dist,
    Dijkstra.dijkstra_pasos ga inicio objetivo = Devuelve (ps, camino, dist) ∧
    match dist !! objetivo with
    | Some (Num d) =>
        ruta_de ga inicio objetivo camino ∧ peso_ruta ga camino = d ∧
        ∀ c, camino_de ga inicio objetivo c → d ≤ c
    | _ => camino = [] ∧ ∀ c, ¬ camino_de ga inicio objetivo c
    end.
Proof.
  intros _ Hac Hi.
  destruct (dij_devuelve ga inicio objetivo Hac Hi)
    as (s & camino & Hs & [_ _ _ Hopt] & Hpad & Hcam & Hret).
  exists (Dijkstra.pasos s), camino, (Dijkstra.dist s). split; [done|].
  assert (∀ c, camino_de ga inicio objetivo c →
            ∃ d, Dijkstra.dist s !! objetivo = Some (Num d) ∧ d ≤ c) as Hopt' by done.
  destruct (Dijkstra.dist s !! objetivo) as [[d|]|] eqn:Hd.
  - destruct (dij_padres_ruta ga inicio objetivo s d Hpad Hd) as (l & Hl & Hr & Hp).
    rewrite Hcam in Hl. injection Hl as <-.
    split_and!; [done| |].
    + destruct Hr as [Hh Hl Hr Hn _].
      destruct (Hopt' _ (ruta_camino_de ga inicio _ _ Hh Hl Hr Hn)) as (d' & [= <-] & ?).
      lia.
    + intros c Hc. destruct (Hopt' _ Hc) as (d' & [= <-] & ?). done.
  - split.
    + pose proof (dij_padres_fuera ga inicio objetivo s Hpad) as H.
      rewrite Hcam in H. rewrite Hd in H. by injection H as ->.
    + intros c Hc. by destruct (Hopt' _ Hc) as (d' & [=] & _).
  - split.
    + pose proof (dij_padres_fuera ga inicio objetivo s Hpad) as H.
      rewrite Hcam in H. rewrite Hd in H. by injection H as ->.
    + intros c Hc. by destruct (Hopt' _ Hc) as (d' & [=] & _).
Qed.

Lemma dijkstra_camino_minimo_testigo :
  ∃ ps camino dist,
    Dijkstra.dijkstra_pasos grafo2 0 4 = Devuelve (ps, camino, dist) ∧
    match dist !! 4%nat with
    | Some (Num d) =>
        ruta_de grafo2 0 4 camino ∧ peso_ruta grafo2 camino = d ∧
        ∀ c, camino_de grafo2 0 4 c → d ≤ c
    | _ => camino = [] ∧ ∀ c, ¬ camino_de grafo2 0 4 c
    end.
Proof.
  apply (dijkstra_camino_minimo grafo2 0 4);
    [apply grafo2_cuadrada|apply grafo2_acotado|].
  rewrite (proj2 grafo2_cargado). lia.
Defined.

(** * The path of A* *)

Section a_star_camino.
Context {P : Type} (h : nat → P) (suma : Z → P → P) (ltb : P * nat → P * nat → bool).

Lemma ast_padres_expandir (ga : GrafoActivo) (inicio u : nat) (gu : Z)
    (s : @AStar.estado P) (v : nat) :
  (v < N ga)%nat →
  (celda (matriz ga) u v > 0 →
   int64 (gu + celda (matriz ga) u v) = gu + celda (matriz ga) u v) →
  ast_padres ga inicio s → AStar.g s !! u = Some gu →
  let s' := AStar.expandir h suma ltb ga u s v in
  ast_padres ga inicio s' ∧ AStar.g s' !! u = Some gu.
Proof.
  intros Hv Hcabe Hinv Hgu. cbv zeta. unfold AStar.expandir.
  case_bool_decide as Hw; [|by eauto]. cbv zeta. rewrite Hgu. simpl.
  rewrite (Hcabe Hw).
  set (w := celda (matriz ga) u v) in *.
  destruct (match AStar.g s !! v with
            | Some gv => bool_decide (gu + w < gv)
            | None => true
            end) eqn:Hlt; [|by eauto].
  destruct Hinv as [Hini Hneg Hpq Hraiz Huni Hari Hdom].
  pose proof (Hneg _ _ Hgu) as Hgu0.
  assert (∀ gv, AStar.g s !! v = Some gv → gu + w < gv) as Hmejor.
  { intros gv Hgv. rewrite Hgv in Hlt. by apply bool_decide_eq_true in Hlt. }
  assert (v ≠ inicio) as Hvi.
  { intros ->. specialize (Hmejor _ Hini). lia. }
  assert (v ≠ u) as Hvu.
  { intros ->. specialize (Hmejor _ Hgu). lia. }
  split; [|simpl; by rewrite lookup_insert_ne].
  split; simpl.
  - by rewrite lookup_insert_ne.
  - intros x c. destruct (decide (x = v)) as [->|Hx].
    + rewrite lookup_insert_eq. intros [= <-]. lia.
    + rewrite lookup_insert_ne by done. apply Hneg.
  - apply Forall_forall. intros e He. apply elem_of_heappush in He as [->|He].
    + simpl. rewrite lookup_insert_eq. by eexists.
    + eapply Forall_forall in Hpq; [|exact He]. simpl in Hpq.
      destruct (decide (e.2 = v)) as [->|Hx].
      * rewrite lookup_insert_eq. by eexists.
      * by rewrite lookup_insert_ne.
  - by rewrite lookup_insert_ne.
  - intros x. destruct (decide (x = v)) as [->|Hx].
    + by rewrite lookup_insert_eq.
    + rewrite lookup_insert_ne by done. apply Huni.
  - intros x y. destruct (decide (x = v)) as [->|Hx].
    + rewrite lookup_insert_eq. intros [= <-]. split_and!; [done|done|].
      exists gu, (gu + w). rewrite lookup_insert_ne by done.
      rewrite lookup_insert_eq. split_and!; [done|done|lia].
    + rewrite lookup_insert_ne by done. intros Hxy.
      destruct (Hari _ _ Hxy) as (Hxn & Hc & gy & gx & Hgy & Hgx & Hyx).
      split_and!; [done|done|].
      destruct (decide (y = v)) as [->|Hy].
      * exists (gu + w), gx. rewrite lookup_insert_eq.
        rewrite lookup_insert_ne by done. split_and!; [done|done|].
        specialize (Hmejor _ Hgy). lia.
      * exists gy, gx. by rewrite !lookup_insert_ne.
  - intros x. destruct (decide (x = v)) as [->|Hx].
    + rewrite !lookup_insert_eq. split; eauto.
    + rewrite !lookup_insert_ne by done. apply Hdom.
Qed.

Lemma ast_padres_foldl (ga : GrafoActivo) (inicio u : nat) (gu : Z) (l : list nat) :
  Forall (λ v, (v < N ga)%nat) l →
  (∀ v, celda (matriz ga) u v > 0 →
        int64 (gu + celda (matriz ga) u v) = gu + celda (matriz ga) u v) →
  ∀ s : @AStar.estado P, ast_padres ga inicio s → AStar.g s !! u = Some gu →
       ast_padres ga inicio (foldl (AStar.expandir h suma ltb ga u) s l).
Proof.
  intros Hl Hcabe. induction l as [|v l IH]; intros s Hs Hu; cbn [foldl]; [done|].
  apply Forall_cons in Hl as [Hv Hl].
  destruct (ast_padres_expandir ga inicio u gu s v Hv (Hcabe v) Hs Hu) as [Hs' Hu'].
  by apply IH.
Qed.

Lemma ast_padres_cuerpo (ga : GrafoActivo) (inicio objetivo : nat) (s : @AStar.estado P) :
  pesos_acotados ga → ast_cota ga s → ast_inv ga inicio s →
  ast_padres ga inicio s →
  ast_padres ga inicio (estado_de (AStar.cuerpo h suma ltb ga objetivo s)).
Proof.
  intros Hac Hcot [Hnod _ _] Hinv. unfold AStar.cuerpo.
  destruct (AStar.pq s) as [|[f u] resto] eqn:Hpq; simpl; [done|].
  pose proof Hinv as [Hini Hneg Hcola Hraiz Huni Hari Hdom].
  rewrite Hpq in Hcola. apply Forall_cons in Hcola as [_ Hresto].
  apply Forall_cons in Hnod as [[Hu [gu Hgu]] _]. simpl in Hu, Hgu.
  case_bool_decide as Hvis; simpl; [by split|].
  set (s1 := {| AStar.g := AStar.g s |}).
  assert (ast_padres ga inicio s1) as Hs1 by (by split).
  case_bool_decide; simpl; [done|].
  apply (ast_padres_foldl ga inicio u gu); [| |done|done].
  - apply Forall_forall. intros v Hv. apply elem_of_seq in Hv. lia.
  - intros v Hw. by apply (margen_suma ga (AStar.visitado s) gu u v Hac (Hcot u gu Hgu)).
Qed.

Lemma ast_padres_inicial (ga : GrafoActivo) (inicio : nat) :
  (inicio < N ga)%nat → ast_padres ga inicio (AStar.inicial h inicio).
Proof.
  intros Hi. split; simpl.
  - apply lookup_singleton_eq.
  - intros v c H. apply lookup_singleton_Some in H as [_ <-]. done.
  - apply Forall_singleton. simpl. rewrite lookup_singleton_eq. by eexists.
  - apply lookup_singleton_eq.
  - intros v H. apply lookup_singleton_Some in H as [-> _]. done.
  - intros v u H. apply lookup_singleton_Some in H as [_ ?]. done.
  - intros v. split; intros [p H]; apply lookup_singleton_Some in H as [<- _];
      rewrite lookup_singleton_eq; by eexists.
Qed.

Lemma ast_padres_ruta (ga : GrafoActivo) (inicio k : nat) (s : @AStar.estado P) (c : Z) :
  (inicio < N ga)%nat → ast_padres ga inicio s → AStar.g s !! k = Some c →
  ∃ l, reconstruir (AStar.padre s) k = Some l ∧
       ruta_de ga inicio k l ∧ peso_ruta ga l ≤ c.
Proof.
  intros Hi [Hini Hneg Hcola Hraiz Huni Hari Hdom] Hk.
  set (pot := λ v, default 0 (AStar.g s !! v)).
  destruct (reconstruir_ruta ga inicio (AStar.padre s) pot Hraiz Huni) with (k := k)
    as (l & Hl & Hr & Hp).
  - intros v u Hvu. destruct (Hari _ _ Hvu) as (_ & Hw & gu & gv & Hgu & Hgv & Hle).
    split_and!; [apply Hdom; by eexists|done|]. unfold pot. by rewrite Hgu, Hgv.
  - intros v [[u|] Hv].
    + by destruct (Hari _ _ Hv).
    + apply Huni in Hv. by subst.
  - apply Hdom. by eexists.
  - exists l. split_and!; [done..|]. unfold pot in Hp. rewrite Hk, Hini in Hp.
    simpl in Hp. lia.
Qed.

(** With weights that leave room for their sums, the loop ends, the
    parents lead from every node with a cost back to the start, and the
    call returns. *)
Lemma ast_devuelve (ga : GrafoActivo) (inicio objetivo : nat) :
  pesos_acotados ga → (inicio < N ga)%nat →
  ∃ s camino,
    AStar.bucle h suma ltb ga inicio objetivo = Alto s ∧
    (∀ v c, AStar.g s !! v = Some c → camino_de ga inicio v c) ∧
    AStar.a_star_gen h suma ltb ga inicio objetivo =
      Devuelve (AStar.pasos s, camino, AStar.g s) ∧
    match AStar.g s !! objetivo with
    | Some c => ruta_de ga inicio objetivo camino ∧ peso_ruta ga camino ≤ c
    | None => camino = []
    end.
Proof.
  intros Hac Hi.
  assert (∃ s, AStar.bucle h suma ltb ga inicio objetivo = Alto s ∧
               (∀ v c, AStar.g s !! v = Some c → camino_de ga inicio v c) ∧
               ast_padres ga inicio s) as (s & Hs & Hcam & Hpad).
  { unfold AStar.bucle.
    apply (iterar_termina
             (λ s, (ast_cota ga s ∧ ast_inv ga inicio s) ∧ ast_padres ga inicio s)
             (λ s, (∀ v c, AStar.g s !! v = Some c → camino_de ga inicio v c) ∧
                   ast_padres ga inicio s)
             (ast_medida ga)).
    - intros s [[Hcot Hinv] Hpad].
      pose proof (ast_cuerpo_spec h suma ltb ga inicio objetivo s Hac Hcot Hinv) as Hsp.
      pose proof (ast_padres_cuerpo ga inicio objetivo s Hac Hcot Hinv Hpad) as Hpd.
      destruct (AStar.cuerpo h suma ltb ga objetivo s); simpl in Hpd.
      + destruct Hsp as [[? ?] ?]. by split_and!.
      + destruct Hsp as [_ ?]. by split.
    - split; [split; [apply ast_cota_inicial|by apply ast_inv_inicial]|].
      by apply ast_padres_inicial.
    - unfold ast_medida, AStar.fuel. simpl.
      pose proof (faltan_length (∅ : gset nat) (seq 0 (N ga))) as Hf.
      rewrite length_seq in Hf. nia. }
  assert (∃ camino, reconstruir (AStar.padre s) objetivo = Some camino ∧
            match AStar.g s !! objetivo with
            | Some c => ruta_de ga inicio objetivo camino ∧ peso_ruta ga camino ≤ c
            | None => camino = []
            end) as (camino & Hrec & Hruta).
  { destruct (AStar.g s !! objetivo) as [c|] eqn:Hc.
    - destruct (ast_padres_ruta ga inicio objetivo s c Hi Hpad Hc) as (l & Hl & ?).
      by exists l.
    - exists []. split; [|done]. apply reconstruir_fuera.
      destruct (AStar.padre s !! objetivo) eqn:Hp; [|done].
      destruct Hpad as [_ _ _ _ _ _ Hdom].
      destruct (proj1 (Hdom objetivo)) as [z Hz]; [by eexists|]. congruence. }
  exists s, camino. split_and!; [done|done| |done].
  unfold AStar.a_star_gen. rewrite Hs. cbn [estado_de]. by rewrite Hrec.
Qed.

End a_star_camino.

Lemma heuristica_en_rango (n a b : nat) :
  (a < n)%nat → (b < n)%nat → ∃ x, AStar.heuristica (generar_coords n) a b = Ok x.
Proof.
  intros Ha Hb. unfold AStar.heuristica. rewrite !generar_coords_lookup.
  rewrite !bool_decide_eq_true_2 by done. simpl. by eexists.
Qed.


(** For a start and a goal of the graph and weights that leave room for
    their sums, [a_star_pasos] returns what the loop and the
    reconstruction leave. *)
Lemma a_star_devuelve (ga : GrafoActivo) (inicio objetivo : nat) :
  pesos_acotados ga → (inicio < N ga)%nat → (objetivo < N ga)%nat →
  ∃ s camino,
    AStar.bucle_float ga inicio objetivo = Alto s ∧
    (∀ v c, AStar.g s !! v = Some c → camino_de ga inicio v c) ∧
    AStar.a_star_pasos ga inicio objetivo = Devuelve (AStar.pasos s, camino, AStar.g s) ∧
    match AStar.g s !! objetivo with
    | Some c => ruta_de ga inicio objetivo camino ∧ peso_ruta ga camino ≤ c
    | None => camino = []
    end.
Proof.
  intros Hac Hi Ho. unfold AStar.a_star_pasos, AStar.bucle_float.
  destruct (heuristica_en_rango (N ga) inicio objetivo Hi Ho) as [x ->].
  by apply ast_devuelve.
Qed.

(** X5. The path that [a_star_pasos] returns, for a square matrix whose
    weights leave room for their sums in 64 bits, and a start node and a
    goal of the graph: the call returns, and so does [dijkstra_pasos].
    When [g] has a cost for the goal, the path starts at the start node,
    ends at the goal, follows edges of the graph and repeats no node; the
    sum of its weights is at most the reported [g[objetivo]], and at
    least the distance that [dijkstra_pasos] reports for the goal. When
    [g] has no cost for the goal, the path is empty. *)
Theorem a_star_camino (ga : GrafoActivo) (inicio objetivo : nat) :
  cuadrada ga → pesos_acotados ga → (inicio < N ga)%nat → (objetivo < N ga)%nat →
  ∃ pa camino g pd cd dist,
    AStar.a_star_pasos ga inicio objetivo = Devuelve (pa, camino, g) ∧
    Dijkstra.dijkstra_pasos ga inicio objetivo = Devuelve (pd, cd, dist) ∧
    match g !! objetivo with
    | Some c =>
        ruta_de ga inicio objetivo camino ∧ peso_ruta ga camino ≤ c ∧
        ∃ d, dist !! objetivo = Some (Num d) ∧ d ≤ peso_ruta ga camino
    | None => camino = []
    end.
Proof.
  intros _ Hac Hi Ho.
  destruct (a_star_devuelve ga inicio objetivo Hac Hi Ho)
    as (sa & camino & _ & _ & Hra & Hruta).
  destruct (dij_devuelve ga inicio objetivo Hac Hi)
    as (sd & cd & _ & [_ _ _ Hopt] & _ & _ & Hrd).
  exists (AStar.pasos sa), camino, (AStar.g sa), (Dijkstra.pasos sd), cd, (Dijkstra.dist sd).
  split_and!; [done|done|].
  destruct (AStar.g sa !! objetivo) as [c|]; [|done]. destruct Hruta as [Hr Hp].
  split_and!; [done|done|].
  apply Hopt. destruct Hr as [Hh Hl Hru Hn _]. by apply ruta_camino_de.
Qed.

Lemma a_star_camino_testigo :
  ∃ pa camino g pd cd dist,
    AStar.a_star_pasos grafo2 0 4 = Devuelve (pa, camino, g) ∧
    Dijkstra.dijkstra_pasos grafo2 0 4 = Devuelve (pd, cd, dist) ∧
    match g !! 4%nat with
    | Some c =>
        ruta_de grafo2 0 4 camino ∧ peso_ruta grafo2 camino ≤ c ∧
        ∃ d, dist !! 4%nat = Some (Num d) ∧ d ≤ peso_ruta grafo2 camino
    | None => camino = []
    end.
Proof.
  apply (a_star_camino grafo2 0 4); [apply grafo2_cuadrada|apply grafo2_acotado|..];
    rewrite (proj2 grafo2_cargado); lia.
Defined.

(** C4, amended: for every square matrix whose weights leave room for
    their sums in 64 bits, and every start and goal of the graph, both
    calls return; when A* has a cost [g[objetivo]], that cost is the cost
    of a walk from the start to the goal, Dijkstra reports a finite
    [dist[objetivo]], which is the least cost of such a walk, and
    [dist[objetivo] <= g[objetivo]]. The two are not always equal. *)
Theorem a_star_no_mejora_dijkstra (ga : GrafoActivo) (inicio objetivo : nat) :
  cuadrada ga → pesos_acotados ga → (inicio < N ga)%nat → (objetivo < N ga)%nat →
  ∃ pa ca g pd cd dist,
    AStar.a_star_pasos ga inicio objetivo = Devuelve (pa, ca, g) ∧
    Dijkstra.dijkstra_pasos ga inicio objetivo = Devuelve (pd, cd, dist) ∧
    ∀ c, g !! objetivo = Some c →
      camino_de ga inicio objetivo c ∧
      ∃ d, dist !! objetivo = Some (Num d) ∧ d ≤ c ∧
           camino_de ga inicio objetivo d ∧
           ∀ c', camino_de ga inicio objetivo c' → d ≤ c'.
Proof.
  intros _ Hac Hi Ho.
  destruct (a_star_devuelve ga inicio objetivo Hac Hi Ho)
    as (sa & ca & _ & Hcam & Hra & _).
  destruct (dij_devuelve ga inicio objetivo Hac Hi)
    as (sd & cd & _ & [_ _ Hcamd Hopt] & _ & _ & Hrd).
  exists (AStar.pasos sa), ca, (AStar.g sa), (Dijkstra.pasos sd), cd, (Dijkstra.dist sd).
  split_and!; [done|done|]. intros c Hg.
  pose proof (Hcam _ _ Hg) as Hc.
  split; [done|]. destruct (Hopt c Hc) as (d & Hd & Hle).
  exists d. split_and!; try done; [by apply Hcamd|].
  intros c' Hc'. destruct (Hopt c' Hc') as (d' & Hd' & Hle'). congruence.
Qed.

Lemma a_star_no_mejora_dijkstra_testigo :
  ∃ pa ca g pd cd dist,
    AStar.a_star_pasos grafo_atajo 1 0 = Devuelve (pa, ca, g) ∧
    Dijkstra.dijkstra_pasos grafo_atajo 1 0 = Devuelve (pd, cd, dist) ∧
    ∀ c, g !! 0%nat = Some c →
      camino_de grafo_atajo 1 0 c ∧
      ∃ d, dist !! 0%nat = Some (Num d) ∧ d ≤ c ∧
           camino_de grafo_atajo 1 0 d ∧
           ∀ c', camino_de grafo_atajo 1 0 c' → d ≤ c'.
Proof.
  apply (a_star_no_mejora_dijkstra grafo_atajo 1 0).
  - split; [reflexivity|]. vm_compute. repeat constructor.
  - apply grafo_atajo_acotado.
  - vm_compute. lia.
  - vm_compute. lia.
Defined.

(** ** Reading the distances of Bellman-Ford

    [bf_sano]: the invariant of the distances and the parents, on a
    graph without negative weights. [bf_cota k dist]: [dist] is at most
    the weight of every route of at most [k] edges from the origin.
    [bf_fijo dist]: no edge can be relaxed. *)

(** * Bellman-Ford: the distances *)

Lemma es_ruta_snoc_inv (ga : GrafoActivo) (l : list nat) (u v : nat) :
  es_ruta ga ((l ++ [u]) ++ [v]) → es_ruta ga (l ++ [u]) ∧ celda (matriz ga) u v > 0.
Proof.
  induction l as [|a l IH]; simpl; [tauto|].
  destruct l as [|b l]; simpl in *; [tauto|]. intros [? H]. apply IH in H. tauto.
Qed.

Lemma mejora_refl (d : list num) : mejora d d.
Proof. intros v x H. exists x. split; [done|lia]. Qed.

Lemma mejora_trans (d1 d2 d3 : list num) : mejora d1 d2 → mejora d2 d3 → mejora d1 d3.
Proof.
  intros H12 H23 v x H. destruct (H12 _ _ H) as (x' & H' & ?).
  destruct (H23 _ _ H') as (x'' & H'' & ?). exists x''. split; [done|lia].
Qed.

Lemma bf_cota_mejora (ga : GrafoActivo) (origen k : nat) (d d' : list num) :
  mejora d d' → bf_cota ga origen k d → bf_cota ga origen k d'.
Proof.
  intros Hm Hc l v Hh Hl Hr Hn Hlen. destruct (Hc l v Hh Hl Hr Hn Hlen) as (x & Hx & ?).
  destruct (Hm _ _ Hx) as (x' & Hx' & ?). exists x'. split; [done|lia].
Qed.

Lemma NoDup_acotada (n : nat) (l : list nat) :
  NoDup l → Forall (λ v, (v < n)%nat) l → (length l ≤ n)%nat.
Proof.
  intros Hnd Hl. trans (length (seq 0 n)); [|by rewrite length_seq].
  apply submseteq_length.
  apply NoDup_submseteq; [done|]. intros x Hx.
  eapply Forall_forall in Hl; [|exact Hx]. apply elem_of_seq. simpl in Hl. lia.
Qed.

Lemma peso_ruta_no_negativo (ga : GrafoActivo) (l : list nat) :
  es_ruta ga l → 0 ≤ peso_ruta ga l.
Proof.
  induction l as [|a l IH]; simpl; [done|]. destruct l as [|b l]; [done|].
  intros [Hab Hr]. specialize (IH Hr). lia.
Qed.

Lemma peso_ruta_take (ga : GrafoActivo) (l : list nat) :
  es_ruta ga l → ∀ n, peso_ruta ga (take n l) ≤ peso_ruta ga l.
Proof.
  induction l as [|a l IH]; intros Hr n; [by destruct n|].
  pose proof (peso_ruta_no_negativo ga _ Hr) as H0.
  destruct n as [|n]; [done|]. destruct l as [|b l]; [by destruct n|].
  destruct Hr as [Hab Hr]. specialize (IH Hr n).
  destruct n as [|n]; [simpl in *; lia|].
  change (take (S (S n)) (a :: b :: l)) with (a :: b :: take n l).
  change (take (S n) (b :: l)) with (b :: take n l) in IH.
  change (peso_ruta ga (a :: b :: take n l))
    with (celda (matriz ga) a b + peso_ruta ga (b :: take n l)).
  change (peso_ruta ga (a :: b :: l)) with (celda (matriz ga) a b + peso_ruta ga (b :: l)).
  lia.
Qed.

Lemma peso_ruta_cota (ga : GrafoActivo) (l : list nat) :
  peso_ruta ga l ≤ Z.of_nat (length l - 1) * peso_max ga.
Proof.
  pose proof (peso_max_no_negativo ga) as HM.
  induction l as [|a l IH]; [simpl; lia|]. destruct l as [|b l]; [simpl; lia|].
  change (peso_ruta ga (a :: b :: l)) with (celda (matriz ga) a b + peso_ruta ga (b :: l)).
  pose proof (celda_peso_max ga a b). simpl in IH |- *.
  rewrite Nat.sub_0_r in IH. nia.
Qed.

Lemma bf_sano_camino (ga : GrafoActivo) (origen : nat) (s : BellmanFord.estado)
    (v : nat) (d : Z) :
  bf_sano ga origen s → BellmanFord.dist s !! v = Some (Num d) → camino_de ga origen v d.
Proof.
  intros [_ _ _ Hcam _ _ _ _] Hd. destruct (Hcam v d Hd) as (l & [Hh Hl Hr Hn _] & <- & _).
  by apply ruta_camino_de.
Qed.

(** A finite distance is the weight of a route that repeats no node, so
    that one more weight fits in 64 bits. *)
Lemma bf_sano_cabe (ga : GrafoActivo) (origen : nat) (s : BellmanFord.estado)
    (u v : nat) (du w : Z) :
  pesos_acotados ga → bf_sano ga origen s → BellmanFord.dist s !! u = Some (Num du) →
  w = celda (matriz ga) u v → w > 0 → int64 (du + w) = du + w.
Proof.
  intros Hac [_ _ Hneg Hcam _ _ _ _] Hdu -> Hw.
  destruct (Hcam u du Hdu) as (l & [Hh Hl Hr Hn Hnd] & Hp & _).
  pose proof (Hneg _ _ Hdu) as H0.
  pose proof (NoDup_acotada (N ga) l Hnd Hn) as Hlen.
  pose proof (peso_ruta_cota ga l) as Hcota.
  pose proof (celda_peso_max ga u v) as Hle.
  pose proof (pesos_acotados_max ga Hac) as Hmax.
  pose proof (peso_max_no_negativo ga) as HM.
  assert (0 < length l)%nat as Hpos by (destruct l; [done|simpl; lia]).
  apply int64_id. nia.
Qed.

(** One turn of [for u, v, peso in grafo]. *)
Lemma bf_sano_relajar (ga : GrafoActivo) (origen i : nat) (s : BellmanFord.estado)
    (u v : nat) (w : Z) :
  pesos_acotados ga →
  (u < N ga)%nat → (v < N ga)%nat → w = celda (matriz ga) u v → w > 0 →
  bf_sano ga origen s →
  let s' := BellmanFord.relajar i s (u, v, w) in
  bf_sano ga origen s' ∧ mejora (BellmanFord.dist s) (BellmanFord.dist s') ∧
  (∀ du, BellmanFord.dist s !! u = Some (Num du) →
     ∃ dv, BellmanFord.dist s' !! v = Some (Num dv) ∧ dv ≤ du + w) ∧
  (BellmanFord.cambio_en_iteracion s = true → BellmanFord.cambio_en_iteracion s' = true) ∧
  (BellmanFord.cambio_en_iteracion s' = false → s' = s).
Proof.
  intros Hac Hu Hv Hw Hpos Hinv. cbv zeta. unfold BellmanFord.relajar.
  pose proof Hinv as [Hlen Hini Hneg Hcam Hraiz Huni Hari Hdom].
  destruct (lookup_lt_is_Some_2 (BellmanFord.dist s) u) as [xu Hxu]; [lia|].
  destruct (lookup_lt_is_Some_2 (BellmanFord.dist s) v) as [xv Hxv]; [lia|].
  rewrite Hxu, Hxv. simpl.
  destruct xu as [du|]; [|split_and!; [done|apply mejora_refl|by intros ?|done|done]].
  rewrite (bf_sano_cabe ga origen s u v du w Hac Hinv Hxu Hw Hpos).
  destruct (Z_lt_num (du + w) xv) eqn:Hlt.
  - pose proof (Hneg _ _ Hxu) as Hdu0.
    assert (∀ dv, xv = Num dv → du + w < dv) as Hmejor.
    { intros dv ->. simpl in Hlt. by apply bool_decide_eq_true in Hlt. }
    assert (v ≠ origen) as Hvo.
    { intros ->. rewrite Hini in Hxv. injection Hxv as <-. specialize (Hmejor _ eq_refl). lia. }
    assert (v ≠ u) as Hvu.
    { intros ->. rewrite Hxu in Hxv. injection Hxv as <-. specialize (Hmejor _ eq_refl). lia. }
    split_and!; simpl; [|..|done|done].
    + split; simpl.
      * by rewrite length_insert.
      * by rewrite list_lookup_insert_ne.
      * intros x d. destruct (decide (x = v)) as [->|Hx].
        -- rewrite list_lookup_insert_eq by lia. intros [= <-]. lia.
        -- rewrite list_lookup_insert_ne by done. apply Hneg.
      * intros x d. destruct (decide (x = v)) as [->|Hx].
        -- rewrite list_lookup_insert_eq by lia. intros [= <-].
           destruct (Hcam u du Hxu) as (lu & [Hh Hl Hr Hn Hnd] & Hpu & Hpre).
           assert (v ∉ lu) as Hvl.
           { intros Hin. apply list_elem_of_lookup_1 in Hin as [k Hk].
             destruct (Hpre k v Hk) as (dx & Hdx & Hle).
             rewrite Hxv in Hdx. injection Hdx as ->. specialize (Hmejor _ eq_refl).
             pose proof (peso_ruta_take ga lu Hr (S k)). lia. }
           destruct lu as [|u' l' _] using rev_ind; [done|].
           rewrite last_snoc in Hl. injection Hl as ->.
           exists ((l' ++ [u]) ++ [v]). split_and!.
           ++ split.
              ** by destruct l'.
              ** by rewrite last_snoc.
              ** apply es_ruta_snoc; [done|lia].
              ** apply Forall_app. split; [done|]. by apply Forall_singleton.
              ** apply NoDup_app. split_and!; [done| |apply NoDup_singleton].
                 intros y Hy ->%list_elem_of_singleton. done.
           ++ rewrite peso_ruta_snoc. lia.
           ++ intros k y Hk. destruct (decide (k < length (l' ++ [u]))%nat) as [Hlt'|Hge].
              ** rewrite lookup_app_l in Hk by done.
                 rewrite take_app_le by lia.
                 destruct (Hpre k y Hk) as (dy & Hdy & ?).
                 exists dy. split; [|done]. rewrite list_lookup_insert_ne; [done|].
                 intros <-. apply Hvl. by eapply list_elem_of_lookup_2.
              ** rewrite lookup_app_r in Hk by lia.
                 apply list_lookup_singleton_Some in Hk as [Hk0 <-].
                 rewrite take_ge by (rewrite length_app; simpl; lia).
                 exists (du + w). rewrite list_lookup_insert_eq by lia.
                 split; [done|]. rewrite peso_ruta_snoc. lia.
        -- rewrite list_lookup_insert_ne by done. intros Hd.
           destruct (Hcam x d Hd) as (l & Hrl & Hpl & Hpre).
           exists l. split_and!; [done|done|]. intros k y Hk.
           destruct (Hpre k y Hk) as (dy & Hdy & ?).
           destruct (decide (y = v)) as [->|Hy].
           ++ exists (du + w). rewrite list_lookup_insert_eq by lia. split; [done|].
              rewrite Hxv in Hdy. injection Hdy as ->. specialize (Hmejor _ eq_refl). lia.
           ++ exists dy. by rewrite list_lookup_insert_ne.
      * by rewrite lookup_insert_ne.
      * intros x. destruct (decide (x = v)) as [->|Hx].
        -- by rewrite lookup_insert_eq.
        -- rewrite lookup_insert_ne by done. apply Huni.
      * intros x y. destruct (decide (x = v)) as [->|Hx].
        -- rewrite lookup_insert_eq. intros [= <-]. split; [lia|].
           exists du, (du + w). rewrite list_lookup_insert_ne by done.
           rewrite list_lookup_insert_eq by lia. split_and!; [done|done|lia].
        -- rewrite lookup_insert_ne by done. intros Hxy.
           destruct (Hari _ _ Hxy) as (Hc & dy & dx & Hdy & Hdx & Hyx). split; [done|].
           destruct (decide (y = v)) as [->|Hy].
           ++ exists (du + w), dx. rewrite list_lookup_insert_eq by lia.
              rewrite list_lookup_insert_ne by done. split_and!; [done|done|].
              rewrite Hxv in Hdy. injection Hdy as ->. specialize (Hmejor _ eq_refl). lia.
           ++ exists dy, dx. by rewrite !list_lookup_insert_ne.
      * intros x. destruct (decide (x = v)) as [->|Hx].
        -- rewrite lookup_insert_eq, list_lookup_insert_eq by lia. split; eauto.
        -- rewrite lookup_insert_ne, list_lookup_insert_ne by done. apply Hdom.
    + intros x d. destruct (decide (x = v)) as [->|Hx].
      * rewrite list_lookup_insert_eq by lia. intros Hd. rewrite Hxv in Hd.
        injection Hd as ->. exists (du + w). split; [done|].
        specialize (Hmejor _ eq_refl). lia.
      * rewrite list_lookup_insert_ne by done. intros Hd. exists d. split; [done|lia].
    + intros du' [= <-]. exists (du + w). rewrite list_lookup_insert_eq by lia.
      split; [done|lia].
  - apply Z_lt_num_false in Hlt as (dv & -> & Hle).
    split_and!; [done|apply mejora_refl| |done|done].
    intros du' [= <-]. exists dv. split; [done|lia].
Qed.

Lemma bf_cambio_foldl (i : nat) (l : list (nat * nat * Z)) :
  ∀ s, BellmanFord.cambio_en_iteracion s = true →
       BellmanFord.cambio_en_iteracion (foldl (BellmanFord.relajar i) s l) = true.
Proof.
  induction l as [|[[a b] c] l IH]; intros s Hs; cbn [foldl]; [done|].
  apply IH. unfold BellmanFord.relajar.
  destruct (default Inf (BellmanFord.dist s !! a)); [|done]. by destruct (Z_lt_num _ _).
Qed.

Lemma bf_sano_foldl (ga : GrafoActivo) (origen i : nat) (l : list (nat * nat * Z)) :
  pesos_acotados ga →
  (∀ u v w, (u, v, w) ∈ l →
     (u < N ga)%nat ∧ (v < N ga)%nat ∧ w = celda (matriz ga) u v ∧ w > 0) →
  ∀ s, bf_sano ga origen s →
    let s' := foldl (BellmanFord.relajar i) s l in
    bf_sano ga origen s' ∧ mejora (BellmanFord.dist s) (BellmanFord.dist s') ∧
    (∀ u v w du, (u, v, w) ∈ l → BellmanFord.dist s !! u = Some (Num du) →
       ∃ dv, BellmanFord.dist s' !! v = Some (Num dv) ∧ dv ≤ du + w).
Proof.
  intros Hac. induction l as [|[[u v] w] l IH]; intros Hl s Hs; cbv zeta; cbn [foldl].
  { split_and!; [done|apply mejora_refl|]. intros ? ? ? ? ?%elem_of_nil. done. }
  destruct (Hl u v w) as (Hu & Hv & Hw & Hpos); [by left|].
  destruct (bf_sano_relajar ga origen i s u v w Hac Hu Hv Hw Hpos Hs)
    as (Hs1 & Hm1 & Hr1 & _ & _).
  set (s1 := BellmanFord.relajar i s (u, v, w)) in *.
  destruct (IH (λ u v w H, Hl u v w (proj2 (elem_of_cons _ _ _) (or_intror H))) s1 Hs1)
    as (Hs' & Hm' & Hr').
  split_and!.
  - done.
  - by eapply mejora_trans.
  - intros a b c da Hin Hda. apply elem_of_cons in Hin as [[= -> -> ->]|Hin].
    + destruct (Hr1 _ Hda) as (dv & Hdv & ?). destruct (Hm' _ _ Hdv) as (dv' & Hdv' & ?).
      exists dv'. split; [done|lia].
    + destruct (Hm1 _ _ Hda) as (da' & Hda' & ?).
      destruct (Hr' a b c da' Hin Hda') as (dv & Hdv & ?). exists dv. split; [done|lia].
Qed.

(** A round without relaxation leaves the state as it was, and no
    edge can be relaxed. *)
Lemma bf_sin_cambio (ga : GrafoActivo) (origen i : nat) (l : list (nat * nat * Z)) :
  pesos_acotados ga →
  (∀ u v w, (u, v, w) ∈ l →
     (u < N ga)%nat ∧ (v < N ga)%nat ∧ w = celda (matriz ga) u v ∧ w > 0) →
  ∀ s, bf_sano ga origen s →
    BellmanFord.cambio_en_iteracion (foldl (BellmanFord.relajar i) s l) = false →
    foldl (BellmanFord.relajar i) s l = s ∧
    ∀ u v w du, (u, v, w) ∈ l → BellmanFord.dist s !! u = Some (Num du) →
      ∃ dv, BellmanFord.dist s !! v = Some (Num dv) ∧ dv ≤ du + w.
Proof.
  intros Hac. induction l as [|[[u v] w] l IH]; intros Hl s Hs; cbn [foldl].
  { split; [done|]. intros ? ? ? ? ?%elem_of_nil. done. }
  intros Hfalse.
  destruct (Hl u v w) as (Hu & Hv & Hw & Hpos); [by left|].
  destruct (bf_sano_relajar ga origen i s u v w Hac Hu Hv Hw Hpos Hs)
    as (Hs1 & _ & Hr1 & _ & Hf1).
  set (s1 := BellmanFord.relajar i s (u, v, w)) in *.
  assert (BellmanFord.cambio_en_iteracion s1 = false) as Hs1f.
  { destruct (BellmanFord.cambio_en_iteracion s1) eqn:E; [|done].
    by rewrite (bf_cambio_foldl i l s1 E) in Hfalse. }
  specialize (Hf1 Hs1f). rewrite Hf1 in *.
  destruct (IH (λ u v w H, Hl u v w (proj2 (elem_of_cons _ _ _) (or_intror H))) s Hs Hfalse)
    as [Heq Hfix].
  split; [done|]. intros a b c da Hin Hda.
  apply elem_of_cons in Hin as [[= -> -> ->]|Hin]; [by apply Hr1|by eapply Hfix].
Qed.

Lemma bf_sano_ext (ga : GrafoActivo) (origen : nat) (s s' : BellmanFord.estado) :
  BellmanFord.dist s' = BellmanFord.dist s → BellmanFord.padre s' = BellmanFord.padre s →
  bf_sano ga origen s → bf_sano ga origen s'.
Proof. intros Hd Hp [? ? ? ? ? ? ? ?]. split; rewrite ?Hd, ?Hp; done. Qed.

Lemma bf_fijo_cota (ga : GrafoActivo) (origen k : nat) (dist : list num) :
  dist !! origen = Some (Num 0) → bf_fijo ga dist → bf_cota ga origen k dist.
Proof.
  intros H0 Hfix l w Hh Hl Hr Hn _. revert w Hh Hl Hr Hn.
  induction l as [|v l IH] using rev_ind; intros w Hh Hl Hr Hn; [by simpl in Hh|].
  rewrite last_snoc in Hl. injection Hl as <-.
  destruct l as [|u l _] using rev_ind.
  - simpl in *. injection Hh as ->. exists 0. done.
  - apply es_ruta_snoc_inv in Hr as [Hr Huv]. apply Forall_app in Hn as [Hn Hv].
    apply Forall_inv in Hv.
    destruct (IH u) as (du & Hdu & Hle); [by destruct l|by rewrite last_snoc|done|done|].
    assert (u < N ga)%nat as Hu.
    { apply Forall_app in Hn as [_ Hu]. by apply Forall_inv in Hu. }
    destruct (Hfix u v du Hu Hv Huv Hdu) as (dv & Hdv & ?).
    exists dv. split; [done|]. rewrite peso_ruta_snoc. lia.
Qed.

Lemma bf_ronda_cota (ga : GrafoActivo) (origen : nat) (grafo : list (nat * nat * Z))
    (s : BellmanFord.estado) (i k : nat) :
  pesos_acotados ga → aristas_validas ga grafo → bf_sano ga origen s →
  bf_cota ga origen k (BellmanFord.dist s) →
  match BellmanFord.ronda grafo s i with
  | Sigue s' => bf_sano ga origen s' ∧ bf_cota ga origen (S k) (BellmanFord.dist s')
  | Alto s' => bf_sano ga origen s' ∧ bf_fijo ga (BellmanFord.dist s')
  end.
Proof.
  intros Hac Hval Hs Hk. unfold BellmanFord.ronda. cbv zeta.
  set (s0 := {| BellmanFord.dist := BellmanFord.dist s |}).
  assert (bf_sano ga origen s0) as Hs0 by (by apply (bf_sano_ext ga origen s)).
  assert (∀ u v w, (u, v, w) ∈ grafo →
            (u < N ga)%nat ∧ (v < N ga)%nat ∧ w = celda (matriz ga) u v ∧ w > 0) as Hval'
    by (intros u v w; apply Hval).
  destruct (bf_sano_foldl ga origen i grafo Hac Hval' s0 Hs0) as (Hs1 & Hm & Hr).
  destruct (BellmanFord.cambio_en_iteracion (foldl (BellmanFord.relajar i) s0 grafo)) eqn:Hc.
  - split; [by eapply bf_sano_ext; [| |exact Hs1]|]. cbn [BellmanFord.dist].
    intros l v Hh Hl Hru Hn Hlen.
    destruct (decide (length l ≤ S k)%nat) as [Hcorta|Hlarga].
    { by apply (bf_cota_mejora ga origen k _ _ Hm Hk). }
    destruct l as [|b l _] using rev_ind; [simpl in *; lia|].
    destruct l as [|a l _] using rev_ind; [simpl in *; lia|].
    rewrite last_snoc in Hl. injection Hl as ->.
    apply es_ruta_snoc_inv in Hru as [Hru Hab]. apply Forall_app in Hn as [Hn Hv].
    apply Forall_inv in Hv.
    assert (a < N ga)%nat as Ha.
    { apply Forall_app in Hn as [_ Ha]. by apply Forall_inv in Ha. }
    destruct (Hk (l ++ [a]) a) as (da & Hda & Hle);
      [by destruct l|by rewrite last_snoc|done|done|rewrite !length_app in *; simpl in *; lia|].
    destruct (Hr a v (celda (matriz ga) a v) da) as (dv & Hdv & ?); [by apply Hval|done|].
    exists dv. split; [done|]. rewrite peso_ruta_snoc. lia.
  - destruct (bf_sin_cambio ga origen i grafo Hac Hval' s0 Hs0 Hc) as [Heq Hfix].
    rewrite Heq. split; [by eapply bf_sano_ext; [| |exact Hs0]|]. cbn [BellmanFord.dist].
    intros u v du Hu Hv Huv Hdu. apply (Hfix u v _ du); [by apply Hval|done].
Qed.

Lemma bf_rondas_cota (ga : GrafoActivo) (origen : nat) (grafo : list (nat * nat * Z))
    (idx : list nat) :
  pesos_acotados ga → aristas_validas ga grafo →
  ∀ s k, bf_sano ga origen s → bf_cota ga origen k (BellmanFord.dist s) →
    let s' := BellmanFord.rondas_desde grafo s idx in
    bf_sano ga origen s' ∧
    (bf_cota ga origen (k + length idx) (BellmanFord.dist s') ∨
     bf_fijo ga (BellmanFord.dist s')).
Proof.
  intros Hac Hval. induction idx as [|i idx IH]; intros s k Hs Hk; cbv zeta; simpl.
  { split; [done|]. left. by rewrite Nat.add_0_r. }
  pose proof (bf_ronda_cota ga origen grafo s i k Hac Hval Hs Hk) as Hr.
  destruct (BellmanFord.ronda grafo s i) as [s'|s'].
  - destruct Hr as [Hs' Hk']. destruct (IH s' (S k) Hs' Hk') as [? H]. split; [done|].
    by replace (k + S (length idx))%nat with (S k + length idx)%nat by lia.
  - destruct Hr. split; [done|by right].
Qed.

Lemma bf_sano_inicial (ga : GrafoActivo) (origen : nat) :
  (origen < N ga)%nat →
  bf_sano ga origen (BellmanFord.inicial ga origen) ∧
  bf_cota ga origen 0 (BellmanFord.dist (BellmanFord.inicial ga origen)).
Proof.
  intros Hi.
  assert (∀ v d, <[origen := Num 0]> (replicate (N ga) Inf) !! v = Some (Num d) →
                 v = origen ∧ d = 0) as Hd.
  { intros v d. destruct (decide (v = origen)) as [->|Hv].
    - rewrite list_lookup_insert_eq by (by rewrite length_replicate). by intros [= <-].
    - rewrite list_lookup_insert_ne by done. intros H.
      apply lookup_replicate in H as [? _]. done. }
  assert (<[origen := Num 0]> (replicate (N ga) Inf) !! origen = Some (Num 0)) as H0
    by (by rewrite list_lookup_insert_eq by (by rewrite length_replicate)).
  split.
  - split; simpl.
    + by rewrite length_insert, length_replicate.
    + done.
    + intros v d H. apply Hd in H as [_ ->]. done.
    + intros v d H. apply Hd in H as [-> ->]. exists [origen]. split_and!.
      * split; simpl; [done|done|done|by apply Forall_singleton|apply NoDup_singleton].
      * done.
      * intros k x Hk. apply list_lookup_singleton_Some in Hk as [-> <-].
        exists 0. done.
    + apply lookup_singleton_eq.
    + intros v H. apply lookup_singleton_Some in H as [-> _]. done.
    + intros v u H. apply lookup_singleton_Some in H as [_ ?]. done.
    + intros v. split.
      * intros [p H]. apply lookup_singleton_Some in H as [<- _]. by exists 0.
      * intros [d H]. apply Hd in H as [-> _]. rewrite lookup_singleton_eq. by eexists.
  - intros l v Hh Hl Hr Hn Hlen. simpl.
    destruct l as [|a [|b l]]; simpl in *; [done| |lia].
    injection Hh as ->. injection Hl as <-. exists 0. done.
Qed.

Lemma aristas_validas_matriz (ga : GrafoActivo) :
  length (matriz ga) = N ga → (∀ i j, 0 ≤ celda (matriz ga) i j) →
  aristas_validas ga (matriz_a_aristas (matriz ga)).
Proof.
  intros Hlen Hpos u v w. rewrite elem_of_matriz_a_aristas, Hlen.
  specialize (Hpos u v). split; intros (? & ? & -> & ?); split_and!; try done; lia.
Qed.

(** A node that a walk reaches with the cost [c] is reached by a route
    of fewer than [N] edges that weighs at most [c]: the one that
    Dijkstra finds. *)
Lemma ruta_corta (ga : GrafoActivo) (origen v : nat) (c : Z) :
  pesos_acotados ga → (origen < N ga)%nat → camino_de ga origen v c →
  ∃ l, ruta_de ga origen v l ∧ peso_ruta ga l ≤ c ∧ (length l ≤ N ga)%nat.
Proof.
  intros Hac Hi Hc.
  destruct (dij_devuelve ga origen v Hac Hi) as (s & _ & _ & [_ _ _ Hopt] & Hpad & _ & _).
  destruct (Hopt _ Hc) as (d & Hd & Hle).
  destruct (dij_padres_ruta ga origen v s d Hpad Hd) as (l & _ & Hr & Hp).
  exists l. split_and!; [done|lia|].
  destruct Hr. by apply NoDup_acotada.
Qed.

Lemma bf_final_optimo (ga : GrafoActivo) (origen : nat) :
  cuadrada ga → (origen < N ga)%nat → (∀ i j, 0 ≤ celda (matriz ga) i j) →
  pesos_acotados ga →
  bf_sano ga origen (BellmanFord.final ga origen) ∧
  ∀ v c, camino_de ga origen v c →
    ∃ d, BellmanFord.dist (BellmanFord.final ga origen) !! v = Some (Num d) ∧ d ≤ c.
Proof.
  intros [Hlen _] Hi Hpos Hac. unfold BellmanFord.final.
  destruct (bf_sano_inicial ga origen Hi) as [Hs0 Hk0].
  destruct (bf_rondas_cota ga origen (matriz_a_aristas (matriz ga)) (seq 0 (N ga - 1))
              Hac (aristas_validas_matriz ga Hlen Hpos) _ O Hs0 Hk0) as [Hs Hfin].
  split; [done|]. intros v c Hc.
  destruct (ruta_corta ga origen v c Hac Hi Hc) as (l & [Hh Hl Hr Hn _] & Hp & Hlen').
  assert (bf_cota ga origen (N ga - 1)
            (BellmanFord.dist (BellmanFord.rondas_desde (matriz_a_aristas (matriz ga))
               (BellmanFord.inicial ga origen) (seq 0 (N ga - 1))))) as Hcota.
  { destruct Hfin as [Hcota|Hfix].
    - by rewrite length_seq in Hcota.
    - apply bf_fijo_cota; [by destruct Hs|done]. }
  destruct (Hcota l v Hh Hl Hr Hn) as (d & Hd & ?); [lia|].
  exists d. split; [done|lia].
Qed.

Lemma bf_sano_ruta (ga : GrafoActivo) (origen k : nat) (s : BellmanFord.estado) (d : Z) :
  bf_sano ga origen s → BellmanFord.dist s !! k = Some (Num d) →
  ∃ l, reconstruir (BellmanFord.padre s) k = Some l ∧
       ruta_de ga origen k l ∧ peso_ruta ga l ≤ d.
Proof.
  intros [Hlen Hini Hneg Hcam Hraiz Huni Hari Hdom] Hk.
  set (pot := λ v, match BellmanFord.dist s !! v with Some (Num z) => z | _ => 0 end).
  destruct (reconstruir_ruta ga origen (BellmanFord.padre s) pot Hraiz Huni) with (k := k)
    as (l & Hl & Hr & Hp).
  - intros v u Hvu. destruct (Hari _ _ Hvu) as (Hw & du & dv & Hdu & Hdv & Hle).
    split_and!; [apply Hdom; by eexists|done|]. unfold pot. by rewrite Hdu, Hdv.
  - intros v Hv. apply Hdom in Hv as [z Hz]. apply lookup_lt_Some in Hz. lia.
  - apply Hdom. by eexists.
  - exists l. split_and!; [done..|]. unfold pot in Hp. rewrite Hk, Hini in Hp. lia.
Qed.

(** Without negative weights, and with weights that leave room for
    their sums, the call returns: the distances are the least costs, and
    the parents lead from every node with a distance back to the
    origin. *)
Lemma bf_devuelve (ga : GrafoActivo) (origen objetivo : nat) :
  cuadrada ga → (origen < N ga)%nat → (∀ i j, 0 ≤ celda (matriz ga) i j) →
  pesos_acotados ga →
  let s := BellmanFord.final ga origen in
  ∃ camino,
    BellmanFord.bellman_ford_pasos ga origen objetivo =
      Devuelve (BellmanFord.pasos s, camino, BellmanFord.dist s) ∧
    bf_sano ga origen s ∧
    (∀ v c, camino_de ga origen v c →
       ∃ d, BellmanFord.dist s !! v = Some (Num d) ∧ d ≤ c) ∧
    match BellmanFord.dist s !! objetivo with
    | Some (Num d) => ruta_de ga origen objetivo camino ∧ peso_ruta ga camino = d
    | _ => camino = []
    end.
Proof.
  intros Hc Hi Hpos Hac. cbv zeta.
  destruct (bf_final_optimo ga origen Hc Hi Hpos Hac) as [Hs Hopt].
  unfold BellmanFord.bellman_ford_pasos. rewrite bool_decide_eq_true_2 by done. cbv zeta.
  set (s := BellmanFord.final ga origen) in *.
  assert (∃ camino, reconstruir (BellmanFord.padre s) objetivo = Some camino ∧
            match BellmanFord.dist s !! objetivo with
            | Some (Num d) => ruta_de ga origen objetivo camino ∧ peso_ruta ga camino = d
            | _ => camino = []
            end) as (camino & Hrec & Hruta).
  { assert ((∀ d, BellmanFord.dist s !! objetivo ≠ Some (Num d)) →
            reconstruir (BellmanFord.padre s) objetivo = Some []) as Hfuera.
    { intros Hno. apply reconstruir_fuera.
      destruct (BellmanFord.padre s !! objetivo) eqn:Hp; [|done].
      destruct Hs as [_ _ _ _ _ _ _ Hdom].
      destruct (proj1 (Hdom objetivo)) as [z Hz]; [by eexists|]. by apply Hno in Hz. }
    destruct (BellmanFord.dist s !! objetivo) as [[d|]|] eqn:Hd.
    - destruct (bf_sano_ruta ga origen objetivo s d Hs Hd) as (l & Hl & Hr & Hp).
      exists l. split_and!; [done|done|].
      destruct Hr as [Hh Hla Hr Hn _].
      destruct (Hopt _ _ (ruta_camino_de ga origen _ _ Hh Hla Hr Hn)) as (d' & Hd' & ?).
      rewrite Hd in Hd'. injection Hd' as <-. lia.
    - exists []. split; [|done]. by apply Hfuera.
    - exists []. split; [|done]. by apply Hfuera. }
  exists camino. rewrite Hrec. done.
Qed.

(** X6. On a square matrix without negative weights, whose weights
    leave room for their sums in 64 bits, and from an origin of the
    graph, [bellman_ford_pasos] returns, and the distances that it
    returns are the shortest distances: a node has the finite distance
    [d] exactly when a walk from the origin reaches it with the cost [d]
    and none with less, and it has the distance infinity exactly when no
    walk reaches it. *)
Theorem bellman_ford_distancias (ga : GrafoActivo) (origen objetivo : nat) :
  cuadrada ga → (origen < N ga)%nat → (∀ i j, 0 ≤ celda (matriz ga) i j) →
  pesos_acotados ga →
  ∃ ps camino dist,
    BellmanFord.bellman_ford_pasos ga origen objetivo = Devuelve (ps, camino, dist) ∧
    length dist = N ga ∧
    (∀ v d, dist !! v = Some (Num d) ↔
            camino_de ga origen v d ∧ ∀ c, camino_de ga origen v c → d ≤ c) ∧
    (∀ v, dist !! v = Some Inf ↔ (v < N ga)%nat ∧ ∀ c, ¬ camino_de ga origen v c).
Proof.
  intros Hc Hi Hpos Hac.
  destruct (bf_devuelve ga origen objetivo Hc Hi Hpos Hac) as (camino & Hret & Hs & Hopt & _).
  set (s := BellmanFord.final ga origen) in *.
  exists (BellmanFord.pasos s), camino, (BellmanFord.dist s). split; [done|].
  assert (∀ v d, BellmanFord.dist s !! v = Some (Num d) → camino_de ga origen v d) as Hcam
    by (intros v d; by apply bf_sano_camino).
  destruct Hs as [Hlen _ _ _ _ _ _ _]. split_and!; [done|..].
  - intros v d. split.
    + intros Hd. split; [by apply Hcam|]. intros c Hvc.
      destruct (Hopt _ _ Hvc) as (d' & Hd' & ?). congruence.
    + intros [Hvd Hmin]. destruct (Hopt _ _ Hvd) as (d' & Hd' & ?).
      pose proof (Hmin _ (Hcam _ _ Hd')). replace d with d' by lia. done.
  - intros v. split.
    + intros Hv. split; [apply lookup_lt_Some in Hv; lia|].
      intros c Hvc. destruct (Hopt _ _ Hvc) as (d' & Hd' & ?). congruence.
    + intros [Hv Hno]. destruct (lookup_lt_is_Some_2 (BellmanFord.dist s) v) as [[d|] Hd];
        [lia| |done]. destruct (Hno d). by apply Hcam.
Qed.

Lemma grafo2_sin_negativos (i j : nat) : 0 ≤ celda (matriz grafo2) i j.
Proof.
  do 7 (destruct i as [|i]; [do 7 (destruct j as [|j]; [vm_compute; done|]); done|]).
  done.
Qed.

Lemma bellman_ford_distancias_testigo :
  ∃ ps camino dist,
    BellmanFord.bellman_ford_pasos grafo2 0 4 = Devuelve (ps, camino, dist) ∧
    length dist = N grafo2 ∧
    (∀ v d, dist !! v = Some (Num d) ↔
            camino_de grafo2 0 v d ∧ ∀ c, camino_de grafo2 0 v c → d ≤ c) ∧
    (∀ v, dist !! v = Some Inf ↔ (v < N grafo2)%nat ∧ ∀ c, ¬ camino_de grafo2 0 v c).
Proof.
  apply (bellman_ford_distancias grafo2 0 4).
  - apply grafo2_cuadrada.
  - rewrite (proj2 grafo2_cargado). lia.
  - apply grafo2_sin_negativos.
  - apply grafo2_acotado.
Defined.

(** X7. On a square matrix without negative weights, whose weights
    leave room for their sums in 64 bits, and from an origin of the
    graph, [bellman_ford_pasos] returns, and the path that it returns is
    a shortest path: when the goal has a finite distance the path goes
    from the origin to the goal along edges of the graph, repeats no node
    and weighs [dist[objetivo]]; otherwise it is empty. For a goal of the
    graph, the distance to the goal is the one that [dijkstra_pasos]
    returns. *)
Theorem bellman_ford_camino (ga : GrafoActivo) (origen objetivo : nat) :
  cuadrada ga → (origen < N ga)%nat → (∀ i j, 0 ≤ celda (matriz ga) i j) →
  pesos_acotados ga →
  ∃ ps camino dist,
    BellmanFord.bellman_ford_pasos ga origen objetivo = Devuelve (ps, camino, dist) ∧
    match dist !! objetivo with
    | Some (Num d) => ruta_de ga origen objetivo camino ∧ peso_ruta ga camino = d
    | _ => camino = []
    end ∧
    ((objetivo < N ga)%nat →
     ∃ pd cd dd, Dijkstra.dijkstra_pasos ga origen objetivo = Devuelve (pd, cd, dd) ∧
                 dist !! objetivo = dd !! objetivo).
Proof.
  intros Hc Hi Hpos Hac.
  destruct (bf_devuelve ga origen objetivo Hc Hi Hpos Hac)
    as (camino & Hret & Hs & Hopt & Hruta).
  set (s := BellmanFord.final ga origen) in *.
  exists (BellmanFord.pasos s), camino, (BellmanFord.dist s). split_and!; [done|done|].
  intros Ho.
  destruct (dij_devuelve ga origen objetivo Hac Hi)
    as (sd & cd & _ & [Hlend _ Hcamd Hoptd] & _ & _ & Hrd).
  exists (Dijkstra.pasos sd), cd, (Dijkstra.dist sd). split; [done|].
  assert (∀ v d, BellmanFord.dist s !! v = Some (Num d) → camino_de ga origen v d) as Hcam
    by (intros v d; by apply bf_sano_camino).
  destruct Hs as [Hlen _ _ _ _ _ _ _].
  destruct (lookup_lt_is_Some_2 (BellmanFord.dist s) objetivo) as [x Hx]; [lia|].
  destruct (lookup_lt_is_Some_2 (Dijkstra.dist sd) objetivo) as [y Hy]; [lia|].
  rewrite Hx, Hy. f_equal. destruct x as [d|], y as [e|]; [|..|done].
  + destruct (Hopt _ _ (Hcamd _ _ Hy)) as (d' & Hd' & ?).
    destruct (Hoptd _ (Hcam _ _ Hx)) as (e' & He' & ?).
    rewrite Hx in Hd'. rewrite Hy in He'. injection Hd' as <-. injection He' as <-.
    f_equal. lia.
  + destruct (Hoptd _ (Hcam _ _ Hx)) as (e' & He' & ?). congruence.
  + destruct (Hopt _ _ (Hcamd _ _ Hy)) as (d' & Hd' & ?). congruence.
Qed.

Lemma bellman_ford_camino_testigo :
  ∃ ps camino dist,
    BellmanFord.bellman_ford_pasos grafo2 0 4 = Devuelve (ps, camino, dist) ∧
    match dist !! 4%nat with
    | Some (Num d) => ruta_de grafo2 0 4 camino ∧ peso_ruta grafo2 camino = d
    | _ => camino = []
    end ∧
    ((4 < N grafo2)%nat →
     ∃ pd cd dd, Dijkstra.dijkstra_pasos grafo2 0 4 = Devuelve (pd, cd, dd) ∧
                 dist !! 4%nat = dd !! 4%nat).
Proof.
  apply (bellman_ford_camino grafo2 0 4).
  - apply grafo2_cuadrada.
  - rewrite (proj2 grafo2_cargado). lia.
  - apply grafo2_sin_negativos.
  - apply grafo2_acotado.
Defined.


Lemma grafo2_enteros64 : enteros64 grafo2.
Proof. apply (bool_decide_unpack (enteros64 grafo2)). vm_compute. exact I. Qed.


(** ** Reachability

    [alcanzable ga a b]: a walk along edges of the graph leads from [a]
    to [b]. *)

(** * Reachability *)

Lemma alcanzable_rango (ga : GrafoActivo) (a b : nat) :
  (a < N ga)%nat → alcanzable ga a b → (b < N ga)%nat.
Proof. intros Ha [c Hc]. by eapply camino_de_rango. Qed.

Lemma alcanzable_arista (ga : GrafoActivo) (a u v : nat) :
  alcanzable ga a u → (v < N ga)%nat → celda (matriz ga) u v > 0 → alcanzable ga a v.
Proof. intros [c Hc] Hv Hw. eexists. by constructor. Qed.

(** The nodes of a trace of visits: each one once, and together the
    last set. *)
Lemma crece_actuales `{Countable A} (prev : gset A) (l : list (A * gset A)) (fin : gset A) :
  crece prev l fin →
  NoDup (l.*1) ∧ (∀ a, a ∈ l.*1 → a ∉ prev) ∧ (∀ a, a ∈ fin ↔ a ∈ prev ∨ a ∈ l.*1).
Proof.
  revert prev. induction l as [|[b w] l IH]; intros prev; simpl.
  - intros ->. split_and!; [constructor|by intros ? ?%elem_of_nil|].
    intros a. rewrite elem_of_nil. tauto.
  - intros (Hb & -> & Hr). destruct (IH _ Hr) as (Hnd & Hno & Hfin). split_and!.
    + constructor; [|done]. intros Hin. apply Hno in Hin. set_solver.
    + intros a Ha. apply elem_of_cons in Ha as [->|Ha]; [done|].
      apply Hno in Ha. set_solver.
    + intros a. rewrite Hfin, elem_of_cons. set_solver.
Qed.

(** * BFS visits what can be reached *)

Lemma bfs_base_explorar (ga : GrafoActivo) (inicio u v : nat) (s s' : BFS.estado) :
  (v < N ga)%nat → alcanzable ga inicio u → Z.of_nat u ∈ BFS.visitado s →
  bfs_base ga inicio s → bfs_cerrado ga (Some u) s →
  BFS.explorar ga (Z.of_nat u) s (Z.of_nat v) = Ok s' →
  bfs_base ga inicio s' ∧ bfs_cerrado ga (Some u) s' ∧
  BFS.visitado s' = BFS.visitado s ∧ BFS.pasos s' = BFS.pasos s ∧
  (∀ z, z ∈ BFS.cola s → z ∈ BFS.cola s') ∧
  (celda (matriz ga) u v > 0 →
   Z.of_nat v ∈ BFS.visitado s' ∨ Z.of_nat v ∈ BFS.cola s').
Proof.
  intros Hv Hu Huv [Hcola Hvis Hini Hpad Hdom Hpasos] Hcer. unfold BFS.explorar.
  destruct (celda_np (matriz ga) (Z.of_nat u) (Z.of_nat v)) as [w|] eqn:Hw; simpl; [|done].
  apply celda_np_nat_inv in Hw as (fila & _ & _ & Hw). rewrite <- Hw.
  destruct (decide (celda (matriz ga) u v > 0)) as [Hpos|Hpos].
  2:{ rewrite (bool_decide_eq_false_2 _ Hpos). simpl. intros [= <-].
      split_and!; done. }
  rewrite (bool_decide_eq_true_2 _ Hpos).
  destruct (decide (Z.of_nat v ∈ BFS.visitado s)) as [Hnv|Hnv].
  { rewrite bool_decide_eq_false_2 by (by intros ?). simpl. intros [= <-].
    split_and!; try done. intros _. by left. }
  rewrite (bool_decide_eq_true_2 _ Hnv). simpl.
  intros [= <-]. simpl. split_and!; [|..|done|done| |].
  - split; simpl.
    + intros z Hz. apply elem_of_app in Hz as [Hz|Hz]; [by apply Hcola|].
      apply list_elem_of_singleton in Hz as ->. exists v. split; [done|].
      by eapply alcanzable_arista.
    + done.
    + destruct Hini; [by left|right]. apply elem_of_app. by left.
    + intros z p. destruct (BFS.padre s !! Z.of_nat v) as [q|] eqn:Hq; [apply Hpad|].
      destruct (decide (z = Z.of_nat v)) as [->|Hz].
      * rewrite lookup_insert_eq. intros [= <-]. right. exists u, v.
        split_and!; [done|done| |done|done].
        intros Heq. destruct (Hdom (Z.of_nat v)) as [? Hsome]; [|congruence].
        rewrite Heq. destruct Hini; [by left|by right].
      * rewrite lookup_insert_ne by done. apply Hpad.
    + intros z Hz.
      assert (is_Some (BFS.padre s !! z) ∨ z = Z.of_nat v) as [Hs| ->].
      { destruct Hz as [Hz|Hz]; [left; apply Hdom; by left|].
        apply elem_of_app in Hz as [Hz|Hz]; [left; apply Hdom; by right|].
        apply list_elem_of_singleton in Hz. by right. }
      * destruct (BFS.padre s !! Z.of_nat v) eqn:Hq; [done|].
        destruct (decide (z = Z.of_nat v)) as [->|Hne];
          [rewrite lookup_insert_eq; by eexists|by rewrite lookup_insert_ne].
      * destruct (BFS.padre s !! Z.of_nat v) eqn:Hq; [by eexists|].
        rewrite lookup_insert_eq. by eexists.
    + done.
  - intros a b Ha Hne Hb Hab. destruct (Hcer a b Ha Hne Hb Hab); [by left|right].
    simpl. apply elem_of_app. by left.
  - intros z Hz. apply elem_of_app. by left.
  - intros _. right. apply elem_of_app. right. by apply list_elem_of_singleton.
Qed.

Lemma bfs_base_plegar (ga : GrafoActivo) (inicio u : nat) (l : list nat) :
  Forall (λ v, (v < N ga)%nat) l → alcanzable ga inicio u →
  ∀ s s', Z.of_nat u ∈ BFS.visitado s →
    bfs_base ga inicio s → bfs_cerrado ga (Some u) s →
    plegar (BFS.explorar ga (Z.of_nat u)) s (Z.of_nat <$> l) = Ok s' →
    bfs_base ga inicio s' ∧ bfs_cerrado ga (Some u) s' ∧
    BFS.visitado s' = BFS.visitado s ∧ BFS.pasos s' = BFS.pasos s ∧
    (∀ z, z ∈ BFS.cola s → z ∈ BFS.cola s') ∧
    (∀ v, v ∈ l → celda (matriz ga) u v > 0 →
          Z.of_nat v ∈ BFS.visitado s' ∨ Z.of_nat v ∈ BFS.cola s').
Proof.
  intros Hl Hu. induction l as [|v l IH]; intros s s' Huv Hb Hc; simpl.
  { intros [= <-]. split_and!; try done. by intros ? ?%elem_of_nil. }
  apply Forall_cons in Hl as [Hv Hl].
  destruct (BFS.explorar ga (Z.of_nat u) s (Z.of_nat v)) as [s1|] eqn:Hs1; simpl; [|done].
  destruct (bfs_base_explorar ga inicio u v s s1 Hv Hu Huv Hb Hc Hs1)
    as (Hb1 & Hc1 & Hv1 & Hp1 & Hq1 & He1).
  intros Hs'. destruct (IH Hl s1 s') as (Hb' & Hc' & Hv' & Hp' & Hq' & He');
    [by rewrite Hv1|done|done|done|].
  split_and!; [done|done|congruence|congruence|by eauto|].
  intros x Hx Hw. apply elem_of_cons in Hx as [->|Hx]; [|by apply He'].
  destruct (He1 Hw) as [H|H]; [left; congruence|right; by apply Hq'].
Qed.

Lemma bfs_base_cuerpo (ga : GrafoActivo) (inicio : nat) (s : BFS.estado)
    (r : flujo BFS.estado) :
  (inicio < N ga)%nat →
  bfs_base ga inicio s ∧ bfs_cerrado ga None s →
  BFS.cuerpo ga s = Ok r →
  bfs_base ga inicio (estado_de r) ∧ bfs_cerrado ga None (estado_de r).
Proof.
  intros Hi [Hb Hc]. pose proof Hb as [Hcola Hvis Hini Hpad Hdom Hpasos].
  pose proof Hc as Hc0. unfold bfs_cerrado in Hc. unfold BFS.cuerpo.
  destruct (BFS.cola s) as [|z resto] eqn:Hq; [by intros [= <-]|].
  destruct (Hcola z) as (u & -> & Hu); [by left|].
  pose proof (alcanzable_rango ga inicio u Hi Hu) as HuN.
  case_bool_decide as Hzv.
  - intros [= <-]. simpl. split.
    + split; simpl.
      * intros z Hz. apply Hcola. by right.
      * done.
      * destruct Hini as [?|Hin]; [by left|].
        apply elem_of_cons in Hin as [->|?]; [by left|by right].
      * done.
      * intros z [Hz|Hz]; apply Hdom; [by left|right; by right].
      * done.
    + intros a b Ha Hne Hb' Hab. destruct (Hc a b Ha Hne Hb' Hab) as [?|Hin]; [by left|].
      simpl. apply elem_of_cons in Hin as [->|?]; [by left|by right].
  - cbv zeta.
    set (s1 := {| BFS.visitado := {[Z.of_nat u]} ∪ BFS.visitado s |}).
    destruct (plegar _ s1 _) as [s2|] eqn:Hs2; simpl; [|done]. intros [= <-]. simpl.
    assert (bfs_base ga inicio s1) as Hb1.
    { split; simpl.
      - intros z Hz. apply Hcola. by right.
      - intros z Hz. apply elem_of_union in Hz as [->%elem_of_singleton|Hz]; [|by apply Hvis].
        by exists u.
      - destruct Hini as [?|Hin]; [left; set_solver|].
        apply elem_of_cons in Hin as [->|?]; [left; set_solver|by right].
      - intros z p Hz. destruct (Hpad _ _ Hz) as [?|(a & b & ? & ? & ? & ? & ?)]; [by left|].
        right. exists a, b. split_and!; [done..| |done]. set_solver.
      - intros z [Hz|Hz]; apply Hdom.
        + apply elem_of_union in Hz as [->%elem_of_singleton|Hz]; [right; by left|by left].
        + right. by right.
      - intros p Hp. apply elem_of_app in Hp as [Hp|Hp]; [by apply Hpasos|].
        apply list_elem_of_singleton in Hp as ->. intros z Hz Hne. simpl in *.
        destruct (Hdom z) as [q Hq'].
        { apply elem_of_union in Hz as [->%elem_of_singleton|Hz]; [right; by left|by left]. }
        destruct (Hpad _ _ Hq') as [[? _]|(a & b & -> & -> & _ & Ha & Hab)]; [done|].
        exists a, b. split_and!; [done|done| |done]. set_solver. }
    assert (bfs_cerrado ga (Some u) s1) as Hc1.
    { intros a b Ha Hne Hb' Hab. simpl in *.
      assert (Z.of_nat a ∈ BFS.visitado s) as Ha'.
      { apply elem_of_union in Ha as [Ha%elem_of_singleton|Ha]; [|done].
        apply Nat2Z.inj in Ha as ->. done. }
      destruct (Hc a b Ha' ltac:(done) Hb' Hab) as [?|Hin]; [left; set_solver|].
      apply elem_of_cons in Hin as [->|?]; [left; set_solver|by right]. }
    destruct (bfs_base_plegar ga inicio u (seq 0 (N ga))) with (s := s1) (s' := s2)
      as (Hb2 & Hc2 & Hv2 & _ & _ & He2); [|done|simpl; set_solver|done|done|done|].
    { apply Forall_forall. intros v Hv. apply elem_of_seq in Hv. lia. }
    split; [done|]. intros a b Ha Hne Hb' Hab.
    destruct (decide (a = u)) as [->|Hau].
    + apply He2; [apply elem_of_seq; lia|done].
    + apply (Hc2 a b); [done| |done|done]. by intros [= ->].
Qed.

Lemma bfs_base_inicial (ga : GrafoActivo) (inicio : nat) :
  bfs_base ga inicio (BFS.inicial (Z.of_nat inicio)) ∧
  bfs_cerrado ga None (BFS.inicial (Z.of_nat inicio)).
Proof.
  split; [split; simpl|].
  - intros z ->%list_elem_of_singleton. exists inicio. split; [done|]. exists 0. constructor.
  - intros z ?%elem_of_empty. done.
  - right. by left.
  - intros z p Hz. apply lookup_singleton_Some in Hz as [<- <-]. by left.
  - intros z [H|H]; [by apply elem_of_empty in H|].
    apply list_elem_of_singleton in H as ->. rewrite lookup_singleton_eq. by eexists.
  - intros p ?%elem_of_nil. done.
  - intros a b ?%elem_of_empty. done.
Qed.

(** X8. For a square matrix and a start node of the graph, BFS ends, and
    the nodes of its steps are the nodes that a walk from the start
    reaches, each one once. In every step, every visited node other than
    the start has as parent a visited node of which it is a neighbour:
    the parents of the visited nodes form a tree rooted at the start. *)
Theorem bfs_recorre_alcanzables (ga : GrafoActivo) (inicio : nat) :
  cuadrada ga → (inicio < N ga)%nat →
  ∃ s, BFS.bucle ga (Z.of_nat inicio) = Ok (Alto s) ∧
       BFS.bfs_pasos ga (Z.of_nat inicio) = Ok (BFS.pasos s) ∧
       NoDup (BFS.actual <$> BFS.pasos s) ∧
       (∀ z, z ∈ BFS.actual <$> BFS.pasos s ↔
             ∃ v, z = Z.of_nat v ∧ alcanzable ga inicio v) ∧
       (∀ p, p ∈ BFS.pasos s → bfs_arbol ga inicio p).
Proof.
  intros Hc Hi.
  destruct (bfs_bucle_termina ga (Z.of_nat inicio) Hc) as (s & Hs & Hinv & Hq).
  { unfold indice_valido. lia. }
  exists s. split; [done|]. split; [unfold BFS.bfs_pasos; by rewrite Hs|].
  pose proof (iterar_exc_inv (λ x, bfs_base ga inicio x ∧ bfs_cerrado ga None x)
    (BFS.cuerpo ga) (λ x r Hx Hr, bfs_base_cuerpo ga inicio x r Hi Hx Hr)
    (BFS.fuel ga) _ _ (bfs_base_inicial ga inicio) Hs) as [Hb Hcer]. simpl in Hb, Hcer.
  destruct Hinv as [_ Hcrece _ _ _ _ _].
  destruct (crece_actuales _ _ _ Hcrece) as (Hnd & _ & Hfin).
  assert ((bfs_vista <$> BFS.pasos s).*1 = BFS.actual <$> BFS.pasos s) as Hact.
  { rewrite <- list_fmap_compose. done. }
  rewrite Hact in Hnd, Hfin. split; [done|].
  destruct Hb as [_ Hvis Hini _ _ Hpasos]. rewrite Hq in Hini.
  split; [|done]. intros z. split.
  - intros Hz. apply Hvis, Hfin. by right.
  - intros (v & -> & c & Hv).
    assert (Z.of_nat v ∈ BFS.visitado s) as Hin.
    { induction Hv as [|u v c Hu IH Hv Hw].
      - destruct Hini as [?|?%elem_of_nil]; done.
      - destruct (Hcer u v IH ltac:(done) Hv Hw) as [?|Hin]; [done|].
        rewrite Hq in Hin. by apply elem_of_nil in Hin. }
    apply Hfin in Hin as [?%elem_of_empty|?]; done.
Qed.

Lemma bfs_recorre_alcanzables_testigo :
  ∃ s, BFS.bucle grafo2 (Z.of_nat 0) = Ok (Alto s) ∧
       BFS.bfs_pasos grafo2 (Z.of_nat 0) = Ok (BFS.pasos s) ∧
       NoDup (BFS.actual <$> BFS.pasos s) ∧
       (∀ z, z ∈ BFS.actual <$> BFS.pasos s ↔
             ∃ v, z = Z.of_nat v ∧ alcanzable grafo2 0 v) ∧
       (∀ p, p ∈ BFS.pasos s → bfs_arbol grafo2 0 p).
Proof.
  apply (bfs_recorre_alcanzables grafo2 0).
  - apply grafo2_cuadrada.
  - rewrite (proj2 grafo2_cargado). lia.
Defined.

(** * DFS visits what can be reached *)

Lemma dfs_foldl_raise (ga : GrafoActivo) (f u : nat) (e : exn) (l : list nat) :
  foldl (λ os v,
           s' ← os;
           if bool_decide (celda (matriz ga) u v > 0) && bool_decide (v ∉ DFS.visitado s')
           then DFS._dfs ga f v (DFS.con_padre v u s')
           else Ok s') (Raise e) l = Raise e.
Proof. by induction l. Qed.

Lemma dfs_alc (ga : GrafoActivo) (inicio : nat) (fuel : nat) :
  cuadrada ga →
  ∀ u s s',
    dfs_sano ga inicio s → alcanzable ga inicio u → (u < N ga)%nat →
    (u = inicio ∨ ∃ a, DFS.padre s !! u = Some (Some a) ∧ a ∈ DFS.visitado s ∧
                       celda (matriz ga) a u > 0) →
    DFS._dfs ga fuel u s = Ok s' →
    dfs_sano ga inicio s' ∧ DFS.visitado s ⊆ DFS.visitado s' ∧ u ∈ DFS.visitado s' ∧
    (∀ x v, x ∈ DFS.visitado s' → x ∉ DFS.visitado s → (v < N ga)%nat →
            celda (matriz ga) x v > 0 → v ∈ DFS.visitado s').
Proof.
  intros Hcua. induction fuel as [|f IH]; intros u s s' Hs Hu HuN Hpu; [done|].
  cbn [DFS._dfs]. rewrite (dfs_lecturas ga f u _ Hcua HuN (rango_acotado (N ga))).
  set (paso := λ (os : result DFS.estado) (v : nat),
         s' ← os;
         if bool_decide (celda (matriz ga) u v > 0) && bool_decide (v ∉ DFS.visitado s')
         then DFS._dfs ga f v (DFS.con_padre v u s') else Ok s').
  destruct Hs as [Hvis Hpad Hpasos].
  assert (dfs_sano ga inicio (DFS.visitar u s)) as Hs0.
  { split; simpl.
    - intros z Hz. apply elem_of_union in Hz as [->%elem_of_singleton|Hz]; [done|by apply Hvis].
    - intros z Hz Hne. apply elem_of_union in Hz as [->%elem_of_singleton|Hz].
      + destruct Hpu as [->|(a & Ha & Hin & Hw)]; [done|]. exists a. split_and!; [done| |done].
        set_solver.
      + destruct (Hpad z Hz Hne) as (a & Ha & Hin & Hw). exists a.
        split_and!; [done| |done]. set_solver.
    - intros p Hp. apply elem_of_app in Hp as [Hp|Hp]; [by apply Hpasos|].
      apply list_elem_of_singleton in Hp as ->. intros z Hz Hne. simpl in *.
      apply elem_of_union in Hz as [->%elem_of_singleton|Hz].
      + destruct Hpu as [->|(a & Ha & Hin & Hw)]; [done|]. exists a. split_and!; [done| |done].
        set_solver.
      + destruct (Hpad z Hz Hne) as (a & Ha & Hin & Hw). exists a.
        split_and!; [done| |done]. set_solver. }
  assert (∀ l x, Forall (λ v, (v < N ga)%nat) l →
            dfs_sano ga inicio x → u ∈ DFS.visitado x →
            foldl paso (Ok x) l = Ok s' →
            dfs_sano ga inicio s' ∧ DFS.visitado x ⊆ DFS.visitado s' ∧
            (∀ y v, y ∈ DFS.visitado s' → y ∉ DFS.visitado x → (v < N ga)%nat →
                    celda (matriz ga) y v > 0 → v ∈ DFS.visitado s') ∧
            (∀ v, v ∈ l → celda (matriz ga) u v > 0 → v ∈ DFS.visitado s')) as Hfold.
  { induction l as [|v l IHl]; intros x Hl Hx Hux; cbn [foldl].
    { intros [= <-]. split_and!; [done|done|done|by intros ? ?%elem_of_nil]. }
    apply Forall_cons in Hl as [Hv Hl]. unfold paso at 2. cbn [mbind result_bind].
    destruct (decide (celda (matriz ga) u v > 0)) as [Hw|Hw];
      [rewrite (bool_decide_eq_true_2 _ Hw)|rewrite (bool_decide_eq_false_2 _ Hw)];
      cbn [andb].
    2:{ intros Hrun. destruct (IHl x Hl Hx Hux Hrun) as (Hs' & Hsub & Hcer & Hvec).
        split_and!; [done..|]. intros v' Hv' Hw'.
        apply elem_of_cons in Hv' as [->|Hv']; [done|by apply Hvec]. }
    destruct (decide (v ∈ DFS.visitado x)) as [Hvx|Hvx].
    { rewrite bool_decide_eq_false_2 by (by intros ?).
      intros Hrun. destruct (IHl x Hl Hx Hux Hrun) as (Hs' & Hsub & Hcer & Hvec).
      split_and!; [done..|]. intros v' Hv' Hw'.
      apply elem_of_cons in Hv' as [->|Hv']; [by apply Hsub|by apply Hvec]. }
    rewrite (bool_decide_eq_true_2 _ Hvx).
    destruct (DFS._dfs ga f v (DFS.con_padre v u x)) as [x2|e] eqn:Hx2;
      [|intros Hn; unfold paso in Hn; by rewrite dfs_foldl_raise in Hn].
    intros Hrun.
    destruct (IH v (DFS.con_padre v u x) x2) as (Hs2 & Hsub2 & Hv2 & Hcer2); [| | | |done|].
    - destruct Hx as [Hvis' Hpad' Hpasos']. split; simpl; [done| |done].
      intros z Hz Hne. destruct (Hpad' z Hz Hne) as (a & Ha & Hin & Hwa). exists a.
      split_and!; [|done|done]. rewrite lookup_insert_ne; [done|]. by intros <-.
    - by eapply alcanzable_arista.
    - done.
    - right. exists u. simpl. rewrite lookup_insert_eq. done.
    - simpl in Hsub2.
      destruct (IHl x2 Hl Hs2 (Hsub2 _ Hux) Hrun) as (Hs' & Hsub & Hcer & Hvec).
      split_and!; [done|by etrans| |].
      + intros y w Hy Hny Hw' Hyw.
        destruct (decide (y ∈ DFS.visitado x2)) as [Hy2|Hy2].
        * apply Hsub. by apply (Hcer2 y w).
        * by apply (Hcer y w).
      + intros v' Hv' Hw'. apply elem_of_cons in Hv' as [->|Hv']; [by apply Hsub|].
        by apply Hvec. }
  intros Hrun.
  destruct (Hfold (seq 0 (N ga)) (DFS.visitar u s)) as (Hs' & Hsub & Hcer & Hvec);
    [|done|simpl; set_solver|done|].
  { apply Forall_forall. intros v Hv. apply elem_of_seq in Hv. lia. }
  simpl in Hsub. split_and!; [done|set_solver|set_solver|].
  intros x v Hx Hnx Hv Hxv. destruct (decide (x = u)) as [->|Hxu].
  - apply Hvec; [apply elem_of_seq; lia|done].
  - apply (Hcer x v); [done| |done|done]. simpl. set_solver.
Qed.

(** X9. For a square matrix, a start node of the graph and a recursion
    limit that leaves room for one nested call of [_dfs] for each node,
    DFS returns, and the nodes of its steps are the nodes that a walk
    from the start reaches, each one once. In every step, every visited
    node other than the start has as parent a visited node of which it is
    a neighbour. *)
Theorem dfs_recorre_alcanzables (limite : nat) (ga : GrafoActivo) (inicio : nat) :
  cuadrada ga → (inicio < N ga)%nat → (N ga ≤ limite)%nat →
  ∃ ps, DFS.dfs_pasos limite ga inicio = Ok ps ∧
        NoDup (DFS.actual <$> ps) ∧
        (∀ v, v ∈ DFS.actual <$> ps ↔ alcanzable ga inicio v) ∧
        (∀ p, p ∈ ps → dfs_arbol ga inicio p).
Proof.
  intros Hcua Hi Hlim.
  destruct (dfs_pasos_crece limite ga inicio Hcua Hi Hlim) as (s & Hs & Hps & Hcrece).
  exists (DFS.pasos s). split; [done|].
  destruct (crece_actuales _ _ _ Hcrece) as (Hnd & _ & Hfin).
  assert ((dfs_vista <$> DFS.pasos s).*1 = DFS.actual <$> DFS.pasos s) as Hact.
  { rewrite <- list_fmap_compose. done. }
  rewrite Hact in Hnd, Hfin. split; [done|].
  destruct (dfs_alc ga inicio limite Hcua inicio (DFS.inicial inicio) s)
    as ([Hvis Hpad Hpasos] & _ & Hin & Hcer); [|by exists 0; constructor|done|by left|done|].
  { split; simpl; [by intros ? ?%elem_of_empty|by intros ? ?%elem_of_empty|
                  by intros ? ?%elem_of_nil]. }
  split; [|done]. intros v. split.
  - intros Hv. apply Hvis, Hfin. by right.
  - intros [c Hv].
    assert (v ∈ DFS.visitado s) as Hv'.
    { induction Hv as [|u v c Hu IH Hv Hw]; [done|].
      apply (Hcer u v); [done|simpl; set_solver|done|done]. }
    apply Hfin in Hv' as [?%elem_of_empty|?]; done.
Qed.

Lemma dfs_recorre_alcanzables_testigo :
  ∃ ps, DFS.dfs_pasos 7 grafo2 0 = Ok ps ∧
        NoDup (DFS.actual <$> ps) ∧
        (∀ v, v ∈ DFS.actual <$> ps ↔ alcanzable grafo2 0 v) ∧
        (∀ p, p ∈ ps → dfs_arbol grafo2 0 p).
Proof.
  apply (dfs_recorre_alcanzables 7 grafo2 0).
  - apply grafo2_cuadrada.
  - rewrite (proj2 grafo2_cargado). lia.
  - rewrite (proj2 grafo2_cargado). lia.
Defined.

(** ** The tree of Prim

    [prim_incluido s v]: the node [v] is marked in [visitado]. *)

Lemma prim_arbol_snoc (ga : GrafoActivo) (vis : gset nat) (ar : list (nat * nat))
    (ps : list Prim.paso) (fv : gset nat) (f : list (nat * nat)) (p : Prim.paso) :
  prim_arbol ga vis ar ps fv f → prim_hoja ga fv f p →
  prim_arbol ga vis ar (ps ++ [p]) (list_to_set (Prim.visitados p)) (Prim.mst p).
Proof.
  revert vis ar. induction ps as [|q ps IH]; intros vis ar; simpl.
  - by intros [-> ->].
  - intros [? ?] ?. split; [done|]. by apply IH.
Qed.

Lemma prim_arbol_lookup (ga : GrafoActivo) (vis : gset nat) (ar : list (nat * nat))
    (ps : list Prim.paso) (fv : gset nat) (f : list (nat * nat)) :
  prim_arbol ga vis ar ps fv f →
  (∀ p, ps !! 0%nat = Some p → prim_hoja ga vis ar p) ∧
  (∀ k p q, ps !! k = Some p → ps !! (S k) = Some q →
     prim_hoja ga (list_to_set (Prim.visitados p)) (Prim.mst p) q).
Proof.
  revert vis ar. induction ps as [|x ps IH]; intros vis ar; simpl.
  - intros _. split; [done|]. intros k p q H. by rewrite lookup_nil in H.
  - intros [Hx Hr]. destruct (IH _ _ Hr) as [H0 HS]. split.
    + by intros p [= <-].
    + intros [|k] p q; simpl.
      * intros [= <-]. apply H0.
      * apply HS.
Qed.

Lemma crece_lookup `{Countable A} (prev : gset A) (l : list (A * gset A)) (fin : gset A) :
  crece prev l fin →
  ∀ k a v b w, l !! k = Some (a, v) → l !! (S k) = Some (b, w) →
    a ∈ v ∧ (b ∉ v) ∧ w = {[b]} ∪ v.
Proof.
  revert prev. induction l as [|[x y] l IH]; intros prev; simpl.
  - intros _ k a v b w Hk. by rewrite lookup_nil in Hk.
  - intros (Hx & Hy & Hr) [|k] a v b w; simpl.
    + intros [= <- <-]. destruct l as [|[b' w'] l]; [done|]. simpl.
      intros [= <- <-]. simpl in Hr. destruct Hr as (? & ? & _).
      split; [set_solver|done].
    + apply (IH _ Hr).
Qed.

Lemma prim_sano_empujar (u : nat) (l : list (nat * Z)) :
  ∀ s,
    let s' := foldl (Prim.empujar u) s l in
    Prim.visitado s' = Prim.visitado s ∧ Prim.e_mst s' = Prim.e_mst s ∧
    Prim.pasos s' = Prim.pasos s ∧ length (Prim.padre s') = length (Prim.padre s) ∧
    (∀ e, e ∈ Prim.heap s' ↔
          e ∈ Prim.heap s ∨ ∃ v w, e = (w, v) ∧ (v, w) ∈ l ∧ ¬ prim_incluido s v) ∧
    (∀ v, Prim.padre s' !! v = Prim.padre s !! v ∨
          (Prim.padre s' !! v = Some (Some u) ∧ ∃ w, (v, w) ∈ l ∧ ¬ prim_incluido s v)) ∧
    (∀ v w, (v, w) ∈ l → ¬ prim_incluido s v → (v < length (Prim.padre s))%nat →
            Prim.padre s' !! v = Some (Some u)).
Proof.
  induction l as [|[v w] l IH]; intros s; cbv zeta; cbn [foldl].
  - split_and!; try done.
    + intros e. split; [by left|]. intros [?|(? & ? & _ & ?%elem_of_nil & _)]; done.
    + by left.
    + intros ? ? ?%elem_of_nil. done.
  - destruct (default false (Prim.visitado s !! v)) eqn:Hvis.
    + assert (Prim.empujar u s (v, w) = s) as E
        by (unfold Prim.empujar; by rewrite Hvis).
      rewrite E. destruct (IH s) as (Hv & He & Hp & Hl & Hh & Hpa & Hpb).
      unfold prim_incluido in *.
      split_and!; try done.
      * intros e. rewrite Hh. split.
        -- intros [?|(v' & w' & -> & Hin & Hno)]; [by left|].
           right. exists v', w'. split_and!; [done| |done]. by right.
        -- intros [?|(v' & w' & -> & Hin & Hno)]; [by left|].
           apply elem_of_cons in Hin as [[= -> ->]|Hin]; [congruence|].
           right. by exists v', w'.
      * intros x. destruct (Hpa x) as [?|(? & w' & ? & ?)]; [by left|].
        right. split; [done|]. exists w'. split; [by right|done].
      * intros v' w' Hin Hno Hlt.
        apply elem_of_cons in Hin as [[= -> ->]|Hin]; [congruence|]. by eapply Hpb.
    + set (s1 := {| Prim.visitado := Prim.visitado s;
                    Prim.heap := heappush entrada_ltb (Prim.heap s) (w, v);
                    Prim.e_mst := Prim.e_mst s;
                    Prim.padre := <[v := Some u]> (Prim.padre s);
                    Prim.pasos := Prim.pasos s;
                    Prim.extraidos := Prim.extraidos s |}).
      assert (Prim.empujar u s (v, w) = s1) as E
        by (unfold Prim.empujar; by rewrite Hvis).
      rewrite E. destruct (IH s1) as (Hv & He & Hp & Hl & Hh & Hpa & Hpb).
      unfold prim_incluido in *. subst s1.
      cbn [Prim.visitado Prim.heap Prim.e_mst Prim.padre Prim.pasos] in *.
      rewrite length_insert in Hl, Hpb. split_and!; try done.
      * intros e. rewrite Hh, elem_of_heappush. split.
        -- intros [[->|?]|(v' & w' & -> & Hin & Hno)]; [|by left|].
           ++ right. exists v, w. split_and!; [done|by left|congruence].
           ++ right. exists v', w'. split_and!; [done|by right|done].
        -- intros [?|(v' & w' & -> & Hin & Hno)]; [left; by right|].
           apply elem_of_cons in Hin as [[= -> ->]|Hin]; [left; by left|].
           right. by exists v', w'.
      * intros x. destruct (Hpa x) as [Hx|(? & w' & ? & ?)].
        -- destruct (decide (x = v)) as [->|Hne].
           ++ destruct (decide (v < length (Prim.padre s))%nat) as [Hlt|Hge].
              ** right. rewrite Hx, list_lookup_insert_eq by done. split; [done|].
                 exists w. split; [by left|congruence].
              ** left. rewrite Hx. rewrite list_insert_ge by lia. done.
           ++ left. rewrite Hx. by rewrite list_lookup_insert_ne.
        -- right. split; [done|]. exists w'. split; [by right|done].
      * intros v' w' Hin Hno Hlt.
        apply elem_of_cons in Hin as [[= -> ->]|Hin]; [|by eapply Hpb].
        destruct (Hpa v) as [Hx|[Hx _]]; [|done].
        rewrite Hx. by rewrite list_lookup_insert_eq.
Qed.

Lemma prim_incluido_rango (ga : GrafoActivo) (s : Prim.estado) (v : nat) :
  length (Prim.visitado s) = N ga → prim_incluido s v → (v < N ga)%nat.
Proof.
  intros Hlen Hv. unfold prim_incluido in Hv.
  destruct (Prim.visitado s !! v) eqn:E; [|done].
  apply lookup_lt_Some in E. lia.
Qed.

Lemma prim_sano_cuerpo (ga : GrafoActivo) (s : Prim.estado) :
  length (matriz ga) = N ga → (∀ i j, 0 ≤ celda (matriz ga) i j) →
  prim_inv ga s → prim_sano ga s →
  prim_sano ga (estado_de (Prim.cuerpo ga (matriz_a_lista_ady (matriz ga)) s)).
Proof.
  intros Hm Hpos [Hlen Hnod _] Hs. pose proof Hs as [Hpl Hhe Hpa Hra Hal Hce Har].
  unfold Prim.cuerpo.
  destruct (Prim.heap s) as [|[peso u] resto] eqn:Hh; cbn [heappop]; [done|].
  apply Forall_cons in Hnod as [Hu Hnod]. simpl in Hu.
  destruct (default false (Prim.visitado s !! u)) eqn:Hvis.
  { cbn [estado_de]. split; unfold prim_incluido in *; cbn; try done.
    - intros w v Hin. apply (Hhe w v). by right.
    - destruct Hra as [?|(_ & _ & _ & _ & Hno)]; [by left|]. by destruct (Hno u).
    - intros a v Ha Hv Hw. destruct (Hce a v Ha Hv Hw) as [?|[w Hin]]; [by left|].
      apply elem_of_cons in Hin as [[= -> ->]|Hin]; [by left|]. right. by exists w. }
  set (vis := <[u := true]> (Prim.visitado s)).
  set (mst' := match default None (Prim.padre s !! u) with
               | Some p => Prim.e_mst s ++ [(p, u)]
               | None => Prim.e_mst s
               end).
  set (p := {| Prim.actual := u; Prim.visitados := marcados ga vis; Prim.mst := mst' |}).
  set (s1 := {| Prim.visitado := vis; Prim.heap := resto; Prim.e_mst := mst';
                Prim.padre := Prim.padre s; Prim.pasos := Prim.pasos s ++ [p];
                Prim.extraidos := Prim.extraidos s ++ [(peso, u)] |}).
  change (prim_sano ga (estado_de (Sigue
    (foldl (Prim.empujar u) s1 (default [] (matriz_a_lista_ady (matriz ga) !! u)))))).
  cbn [estado_de].
  destruct (prim_sano_empujar u (default [] (matriz_a_lista_ady (matriz ga) !! u)) s1)
    as (Hv2 & He2 & Hp2 & Hl2 & Hh2 & Hpa2 & Hpb2).
  set (s' := foldl (Prim.empujar u) s1 (default [] (matriz_a_lista_ady (matriz ga) !! u))) in *.
  cbn [Prim.visitado Prim.heap Prim.e_mst Prim.padre Prim.pasos] in Hv2, He2, Hp2, Hl2, Hh2, Hpa2, Hpb2.
  assert (∀ x, prim_incluido s1 x ↔ x = u ∨ prim_incluido s x) as Hinc1.
  { intros x. unfold prim_incluido. simpl. unfold vis.
    destruct (decide (x = u)) as [->|Hne].
    - rewrite list_lookup_insert_eq by lia. simpl. tauto.
    - rewrite list_lookup_insert_ne by done. split; [by right|]. by intros [?|?]. }
  assert (∀ x, prim_incluido s' x ↔ x = u ∨ prim_incluido s x) as Hinc.
  { intros x. rewrite <- Hinc1. unfold prim_incluido. by rewrite Hv2. }
  assert (¬ prim_incluido s u) as Hnu by (unfold prim_incluido; congruence).
  (* the step of [u] *)
  assert (prim_hoja ga (list_to_set (marcados ga (Prim.visitado s))) (Prim.e_mst s) p ∧
          alcanzable ga 0 u ∧ prim_incluido s' 0) as (Hhoja & Halu & Hr0).
  { destruct (Hhe peso u) as [?|[[a Ha]|[-> Hps]]]; [by left|done| |].
    - destruct (Hpa u a Ha) as [Hia Hw]. split_and!.
      + right. exists a. subst p mst'. cbn [Prim.actual Prim.mst]. rewrite Ha. simpl.
        split_and!; [|done|done].
        rewrite elem_of_list_to_set, elem_of_marcados. split; [|done].
        by eapply prim_incluido_rango.
      + eapply alcanzable_arista; [by apply Hal|done|done].
      + apply Hinc. destruct Hra as [?|(_ & _ & H0 & _ & Hno)]; [by right|].
        destruct (decide (u = 0%nat)) as [->|Hne]; [by left|]. by destruct (Hno a).
    - destruct Hra as [?|(_ & _ & H0 & He & Hno)]; [done|]. split_and!.
      + left. subst p mst'. cbn [Prim.actual Prim.mst]. rewrite H0. simpl.
        split_and!; [|done|done]. apply set_eq. intros x.
        rewrite elem_of_list_to_set, elem_of_marcados. split; [|set_solver].
        intros [_ Hx]. by destruct (Hno x).
      + exists 0. constructor.
      + apply Hinc. by left. }
  split.
  - rewrite Hl2. exact Hpl.
  - intros w v Hin. apply Hh2 in Hin as [Hin|(v' & w' & [= -> ->] & Hin & Hno)].
    + destruct (Hhe w v) as [?|[[a Ha]|[-> _]]]; [by right| | |].
      * left. apply Hinc. by right.
      * right. left. destruct (Hpa2 v) as [Hx|[Hx _]]; rewrite Hx; by eexists.
      * by left.
    + right. left. exists u. apply (Hpb2 v' w' Hin Hno).
      change (Prim.padre s1) with (Prim.padre s). rewrite Hpl.
      apply elem_of_lista_ady in Hin. lia.
  - intros v a Hva. destruct (Hpa2 v) as [Hx|[Hx (w & Hin & _)]].
    + rewrite Hx in Hva. destruct (Hpa v a Hva) as [? ?]. split; [|done].
      apply Hinc. by right.
    + rewrite Hx in Hva. injection Hva as <-. split; [apply Hinc; by left|].
      apply elem_of_lista_ady in Hin as (_ & _ & -> & Hne).
      specialize (Hpos u v). lia.
  - by left.
  - intros v [->|Hv]%Hinc; [done|by apply Hal].
  - intros a v Ha Hv Hw. apply Hinc in Ha as [->|Ha].
    + destruct (decide (default false (Prim.visitado s1 !! v) = true)) as [Hi|Hi].
      * left. apply Hinc. by apply Hinc1.
      * right. exists (celda (matriz ga) u v). apply Hh2. right.
        exists v, (celda (matriz ga) u v). split_and!; [done| |done].
        apply elem_of_lista_ady. split_and!; [lia|lia|done|lia].
    + destruct (Hce a v Ha Hv Hw) as [?|[w Hin]].
      * left. apply Hinc. by right.
      * apply elem_of_cons in Hin as [[= -> ->]|Hin].
        -- left. apply Hinc. by left.
        -- right. exists w. apply Hh2. by left.
  - rewrite Hp2, Hv2, He2.
    apply (prim_arbol_snoc ga ∅ [] (Prim.pasos s) _ _ p Har Hhoja).
Qed.

Lemma prim_cuerpo_alto (ga : GrafoActivo) (l : list (list (nat * Z))) (s s' : Prim.estado) :
  Prim.cuerpo ga l s = Alto s' → s' = s ∧ Prim.heap s = [].
Proof.
  unfold Prim.cuerpo. destruct (Prim.heap s) as [|[peso u] resto]; cbn [heappop].
  - by intros [= <-].
  - by destruct (default false _).
Qed.

Lemma prim_sano_inicial (ga : GrafoActivo) : (0 < N ga)%nat → prim_sano ga (Prim.inicial ga).
Proof.
  intros HN.
  assert (∀ v, ¬ prim_incluido (Prim.inicial ga) v) as Hno.
  { intros v. unfold prim_incluido. simpl.
    destruct (decide (v < N ga)%nat).
    - by rewrite lookup_replicate_2.
    - rewrite lookup_ge_None_2; [done|]. rewrite length_replicate. lia. }
  split; simpl.
  - by rewrite length_replicate.
  - intros w v ->%list_elem_of_singleton%pair_eq%proj2. by right; right.
  - intros v a Hva. apply lookup_replicate in Hva as [? _]. done.
  - right. split_and!; [done| |by rewrite lookup_replicate_2|done|done].
    exists 0. by left.
  - intros v Hv. by destruct (Hno v).
  - intros u v Hu. by destruct (Hno u).
  - split; [|done]. apply set_eq. intros x.
    rewrite elem_of_list_to_set, elem_of_marcados. split; [|set_solver].
    intros [_ Hx]. by destruct (Hno x).
Qed.

(** X10. For a square matrix without negative weights and with a node 0,
    Prim ends and builds a spanning tree of the part of the graph that
    node 0 reaches: the nodes of its steps are the nodes a walk from 0
    reaches, each one once; the first step is node 0 with no edge; every
    later step appends to the edges of the step before it exactly one
    edge of the graph, from a node included before to its own node, which
    was not included. *)
Theorem prim_arbol_generador (ga : GrafoActivo) :
  cuadrada ga → (0 < N ga)%nat → (∀ i j, 0 ≤ celda (matriz ga) i j) →
  ∃ s, Prim.bucle ga = Alto s ∧ Prim.prim_pasos ga = Prim.pasos s ∧
       NoDup (Prim.actual <$> Prim.pasos s) ∧
       (∀ v, v ∈ Prim.actual <$> Prim.pasos s ↔ alcanzable ga 0 v) ∧
       (∀ p, Prim.pasos s !! 0%nat = Some p →
             Prim.actual p = 0%nat ∧ Prim.mst p = [] ∧
             ∀ v, v ∈ Prim.visitados p ↔ v = 0%nat) ∧
       (∀ k p q, Prim.pasos s !! k = Some p → Prim.pasos s !! (S k) = Some q →
          (Prim.actual q ∉ Prim.visitados p) ∧
          (∀ v, v ∈ Prim.visitados q ↔ v = Prim.actual q ∨ v ∈ Prim.visitados p) ∧
          ∃ a, a ∈ Prim.visitados p ∧ celda (matriz ga) a (Prim.actual q) > 0 ∧
               Prim.mst q = Prim.mst p ++ [(a, Prim.actual q)]).
Proof.
  intros [Hm _] HN Hpos.
  destruct (iterar_termina (λ x, prim_inv ga x ∧ prim_sano ga x)
              (λ x, prim_inv ga x ∧ prim_sano ga x ∧ Prim.heap x = [])
              (prim_medida ga)
              (Prim.cuerpo ga (matriz_a_lista_ady (matriz ga))))
    with (fuel := Prim.fuel ga) (s := Prim.inicial ga)
    as (s & Hs & [Hlen _ Hc] & [_ _ _ Hra Hal Hce Har] & Hq).
  - intros x [Hx Hsx]. pose proof (prim_cuerpo_spec ga x Hm Hx) as H1.
    pose proof (prim_sano_cuerpo ga x Hm Hpos Hx Hsx) as H2.
    destruct (Prim.cuerpo ga (matriz_a_lista_ady (matriz ga)) x) as [x'|x'] eqn:E.
    + destruct H1. by split.
    + apply prim_cuerpo_alto in E as [-> ?]. done.
  - split; [|by apply prim_sano_inicial]. split; simpl.
    + by rewrite length_replicate.
    + by repeat constructor.
    + apply set_eq. intros i. rewrite elem_of_list_to_set, elem_of_marcados.
      split; [|set_solver]. intros [Hi H].
      rewrite lookup_replicate_2 in H by done. done.
  - unfold prim_medida, Prim.fuel. simpl.
    pose proof (faltan_length (list_to_set (marcados ga (replicate (N ga) false)) : gset nat)
                  (seq 0 (N ga))) as Hf.
    rewrite length_seq in Hf. nia.
  - exists s. fold (Prim.bucle ga) in Hs. split; [done|].
    split; [unfold Prim.prim_pasos; by rewrite Hs|].
    destruct (crece_actuales _ _ _ Hc) as (Hnd & _ & Hfin).
    assert ((prim_vista <$> Prim.pasos s).*1 = Prim.actual <$> Prim.pasos s) as Hact.
    { rewrite <- list_fmap_compose. done. }
    rewrite Hact in Hnd, Hfin.
    assert (∀ v, v ∈ Prim.actual <$> Prim.pasos s ↔ prim_incluido s v) as Hinc.
    { intros v. split.
      - intros Hv. pose proof (proj2 (Hfin v) (or_intror Hv)) as Hm'.
        rewrite elem_of_list_to_set, elem_of_marcados in Hm'. apply Hm'.
      - intros Hv. destruct (proj1 (Hfin v)) as [?%elem_of_empty|?]; [|done|done].
        rewrite elem_of_list_to_set, elem_of_marcados.
        split; [by eapply prim_incluido_rango|done]. }
    destruct (prim_arbol_lookup _ _ _ _ _ _ Har) as [H0 HS].
    split_and!; [done| | |].
    + intros v. rewrite Hinc. split; [apply Hal|].
      intros [c Hv].
      induction Hv as [|u v c Hu IH Hv Hw].
      * destruct Hra as [?|(_ & [w Hw] & _)]; [done|]. rewrite Hq in Hw.
        by apply elem_of_nil in Hw.
      * destruct (Hce u v IH Hv Hw) as [?|[w Hin]]; [done|]. rewrite Hq in Hin.
        by apply elem_of_nil in Hin.
    + intros p Hp. destruct (H0 p Hp) as [(_ & Ha & Hmst)|(a & Ha & _)];
        [|by apply elem_of_empty in Ha].
      split_and!; [done..|]. intros v.
      destruct (Prim.pasos s) as [|p' r] eqn:Eps; [done|]. injection Hp as ->.
      simpl in Hc. destruct Hc as (_ & Hv & _).
      rewrite <- (elem_of_list_to_set (C := gset nat)), Hv, Ha. set_solver.
    + intros k p q Hp Hq'.
      destruct (crece_lookup _ _ _ Hc k (Prim.actual p) (list_to_set (Prim.visitados p))
                  (Prim.actual q) (list_to_set (Prim.visitados q))) as (Hpp & Hqn & Hqv).
      { rewrite list_lookup_fmap, Hp. done. }
      { rewrite list_lookup_fmap, Hq'. done. }
      split_and!.
      * by rewrite elem_of_list_to_set in Hqn.
      * intros v. rewrite <- (elem_of_list_to_set (C := gset nat) v (Prim.visitados q)), Hqv.
        rewrite elem_of_union, elem_of_singleton, elem_of_list_to_set. done.
      * destruct (HS k p q Hp Hq') as [(He & _)|(a & Ha & Hw & Hmst)].
        -- rewrite He in Hpp. by apply elem_of_empty in Hpp.
        -- exists a. split_and!; [by apply elem_of_list_to_set in Ha|done|done].
Qed.

Lemma prim_arbol_generador_testigo :
  ∃ s, Prim.bucle grafo2 = Alto s ∧ Prim.prim_pasos grafo2 = Prim.pasos s ∧
       NoDup (Prim.actual <$> Prim.pasos s) ∧
       (∀ v, v ∈ Prim.actual <$> Prim.pasos s ↔ alcanzable grafo2 0 v) ∧
       (∀ p, Prim.pasos s !! 0%nat = Some p →
             Prim.actual p = 0%nat ∧ Prim.mst p = [] ∧
             ∀ v, v ∈ Prim.visitados p ↔ v = 0%nat) ∧
       (∀ k p q, Prim.pasos s !! k = Some p → Prim.pasos s !! (S k) = Some q →
          (Prim.actual q ∉ Prim.visitados p) ∧
          (∀ v, v ∈ Prim.visitados q ↔ v = Prim.actual q ∨ v ∈ Prim.visitados p) ∧
          ∃ a, a ∈ Prim.visitados p ∧ celda (matriz grafo2) a (Prim.actual q) > 0 ∧
               Prim.mst q = Prim.mst p ++ [(a, Prim.actual q)]).
Proof.
  apply (prim_arbol_generador grafo2).
  - apply grafo2_cuadrada.
  - rewrite (proj2 grafo2_cargado). lia.
  - intros i j.
    do 7 (destruct i as [|i]; [do 7 (destruct j as [|j]; [vm_compute; done|]); done|]).
    done.
Defined.

(** ** The union-find of Kruskal

    [uf_raiz uf k x r]: in the list of parents [uf], [k] parent links
    lead from [x] to [r], and [r] is its own parent. *)

Lemma uf_raiz_lookup (uf : list nat) (k x r : nat) :
  uf_raiz uf k x r → (x < length uf)%nat.
Proof. intros H. destruct H as [x H|x p k r H _ _]; by apply lookup_lt_Some in H. Qed.

Lemma uf_raiz_raiz (uf : list nat) (k x r : nat) :
  uf_raiz uf k x r → uf !! r = Some r.
Proof. by induction 1. Qed.

Lemma uf_raiz_unica (uf : list nat) (k x r : nat) :
  uf_raiz uf k x r → ∀ k' r', uf_raiz uf k' x r' → k' = k ∧ r' = r.
Proof.
  induction 1 as [x Hx|x p k r Hx Hp _ IH]; intros k' r' H'.
  - inversion H' as [y Hy|y q j t Hy Hq Hr]; subst; [done|]. congruence.
  - inversion H' as [y Hy|y q j t Hy Hq Hr]; subst; [congruence|].
    assert (q = p) as -> by congruence.
    destruct (IH _ _ Hr) as [-> ->]. done.
Qed.

Lemma uf_rep_unica (uf : list nat) (x r r' : nat) :
  uf_rep uf x r → uf_rep uf x r' → r = r'.
Proof. intros [k Hk] [k' Hk']. by destruct (uf_raiz_unica _ _ _ _ Hk _ _ Hk'). Qed.

Lemma uf_rep_raiz (uf : list nat) (r : nat) : uf !! r = Some r → uf_rep uf r r.
Proof. intros H. exists O. by constructor. Qed.

Lemma uf_rep_sube (uf : list nat) (x p r : nat) :
  uf !! x = Some p → p ≠ x → uf_rep uf p r → uf_rep uf x r.
Proof. intros Hx Hp [k Hk]. exists (S k). by econstructor. Qed.

(** The nodes on the way to the root are different nodes, so the way
    has fewer links than the list has entries. *)
Lemma uf_raiz_cota (uf : list nat) (k x r : nat) :
  uf_raiz uf k x r → (k < length uf)%nat.
Proof.
  intros H.
  assert (∃ l, length l = S k ∧ NoDup l ∧
               Forall (λ y, ∃ j, (j ≤ k)%nat ∧ uf_raiz uf j y r) l) as (l & Hl & Hnd & Hall).
  { induction H as [x Hx|x p k r Hx Hp Hr IH].
    - exists [x]. split_and!; [done|apply NoDup_singleton|].
      apply Forall_singleton. exists O. split; [lia|by constructor].
    - destruct IH as (l & Hl & Hnd & Hall). exists (x :: l). split_and!.
      + simpl. by rewrite Hl.
      + constructor; [|done]. intros Hin.
        eapply Forall_forall in Hall as (j & Hj & Hjr); [|exact Hin].
        destruct (uf_raiz_unica uf (S k) x r (raiz_sube uf x p k r Hx Hp Hr) _ _ Hjr). lia.
      + constructor.
        * exists (S k). split; [lia|by econstructor].
        * eapply Forall_impl; [exact Hall|]. intros y (j & Hj & Hjr). exists j.
          split; [lia|done]. }
  assert (length l ≤ length uf)%nat; [|lia].
  apply NoDup_acotada; [done|]. eapply Forall_impl; [exact Hall|].
  intros y (j & _ & Hj). by eapply uf_raiz_lookup.
Qed.

(** Path compression keeps the representatives. *)
Lemma uf_comprimir (uf : list nat) (x r : nat) :
  uf_rep uf x r → ∀ y ry, uf_rep (<[x := r]> uf) y ry ↔ uf_rep uf y ry.
Proof.
  intros Hxr y ry.
  assert (x < length uf)%nat as Hx by (destruct Hxr as [k Hk]; by eapply uf_raiz_lookup).
  assert (uf !! r = Some r) as Hr by (destruct Hxr as [k Hk]; by eapply uf_raiz_raiz).
  split.
  - intros [j Hj]. induction Hj as [y Hy|y p j ry Hy Hp _ IH].
    + destruct (decide (y = x)) as [->|Hne].
      * rewrite list_lookup_insert_eq in Hy by done. by injection Hy as ->.
      * rewrite list_lookup_insert_ne in Hy by done. by apply uf_rep_raiz.
    + destruct (decide (y = x)) as [->|Hne].
      * rewrite list_lookup_insert_eq in Hy by done. injection Hy as <-.
        by rewrite <- (uf_rep_unica uf r r ry (uf_rep_raiz uf r Hr) IH).
      * rewrite list_lookup_insert_ne in Hy by done. by eapply uf_rep_sube.
  - intros [j Hj]. induction Hj as [y Hy|y p j ry Hy Hp Hpr IH].
    + destruct (decide (y = x)) as [->|Hne].
      * rewrite <- (uf_rep_unica uf x x r (uf_rep_raiz uf x Hy) Hxr).
        apply uf_rep_raiz. by rewrite list_lookup_insert_eq.
      * apply uf_rep_raiz. by rewrite list_lookup_insert_ne.
    + destruct (decide (y = x)) as [->|Hne].
      * assert (ry = r) as ->.
        { eapply uf_rep_unica; [|exact Hxr]. eapply uf_rep_sube; [done..|]. by exists j. }
        assert (r ≠ x) as Hrx by (intros ->; congruence).
        eapply (uf_rep_sube _ x r); [by rewrite list_lookup_insert_eq|done|].
        apply uf_rep_raiz. by rewrite list_lookup_insert_ne.
      * eapply (uf_rep_sube _ y p); [by rewrite list_lookup_insert_ne|done|done].
Qed.

(** Linking the root [ru] under the root [rv] moves the class of [ru]
    to [rv] and keeps the others. *)
Lemma uf_unir (uf : list nat) (ru rv : nat) :
  uf !! ru = Some ru → uf !! rv = Some rv → ru ≠ rv →
  ∀ y ry, uf_rep (<[ru := rv]> uf) y ry ↔
          ∃ r0, uf_rep uf y r0 ∧ ry = (if decide (r0 = ru) then rv else r0).
Proof.
  intros Hu Hv Hne y ry.
  assert (ru < length uf)%nat as Hlu by (by apply lookup_lt_Some in Hu).
  split.
  - intros [j Hj]. induction Hj as [y Hy|y p j ry Hy Hp _ IH].
    + destruct (decide (y = ru)) as [->|Hy'].
      * rewrite list_lookup_insert_eq in Hy by done. congruence.
      * rewrite list_lookup_insert_ne in Hy by done. exists y.
        split; [by apply uf_rep_raiz|]. by rewrite decide_False.
    + destruct IH as (r0 & Hr0 & ->). destruct (decide (y = ru)) as [->|Hy'].
      * rewrite list_lookup_insert_eq in Hy by done. injection Hy as <-.
        rewrite <- (uf_rep_unica uf rv rv r0 (uf_rep_raiz uf rv Hv) Hr0).
        exists ru. split; [by apply uf_rep_raiz|].
        repeat case_decide; congruence.
      * rewrite list_lookup_insert_ne in Hy by done. exists r0.
        split; [by eapply uf_rep_sube|done].
  - intros (r0 & [j Hj] & ->). induction Hj as [y Hy|y p j r0 Hy Hp _ IH].
    + destruct (decide (y = ru)) as [->|Hy'].
      * eapply (uf_rep_sube _ ru rv); [by rewrite list_lookup_insert_eq|done|].
        apply uf_rep_raiz. by rewrite list_lookup_insert_ne.
      * apply uf_rep_raiz. by rewrite list_lookup_insert_ne.
    + assert (y ≠ ru) as Hy' by (intros ->; congruence).
      eapply (uf_rep_sube _ y p); [by rewrite list_lookup_insert_ne|done|done].
Qed.

(** [find] returns the representative when the recursion limit leaves
    room for one call for each node on the way to the root, and keeps
    every representative. *)
Lemma find_spec (limite : nat) :
  ∀ uf x k r, uf_raiz uf k x r → (k < limite)%nat →
    ∃ uf', Kruskal.find limite uf x = Ok (uf', r) ∧ length uf' = length uf ∧
           ∀ y ry, uf_rep uf' y ry ↔ uf_rep uf y ry.
Proof.
  induction limite as [|f IH]; intros uf x k r Hk Hle; [lia|].
  cbn [Kruskal.find]. inversion Hk as [y Hy|y p j t Hy Hp Hr]; subst.
  - rewrite Hy. simpl. rewrite bool_decide_eq_false_2 by (intros H; by apply H).
    by exists uf.
  - rewrite Hy. simpl. rewrite bool_decide_eq_true_2 by done.
    destruct (IH uf p j r Hr) as (uf1 & -> & Hl1 & Hrep); [lia|].
    cbn [mbind result_bind fst snd].
    exists (<[x := r]> uf1). split; [done|]. split; [by rewrite length_insert|].
    intros y ry. rewrite <- Hrep. apply uf_comprimir. apply Hrep. by exists (S j).
Qed.

Lemma conectados_mono (es es' : list (nat * nat)) (x y : nat) :
  (∀ e, e ∈ es → e ∈ es') → conectados es x y → conectados es' x y.
Proof.
  intros Hsub. unfold conectados, rtsc. apply rtc_subrel.
  intros a b [?|?]; [left|right]; by apply Hsub.
Qed.

Lemma conectados_rep (uf : list nat) (es : list (nat * nat)) :
  (∀ a b, (a, b) ∈ es → ∃ r, uf_rep uf a r ∧ uf_rep uf b r) →
  ∀ x y, conectados es x y → ∀ r, uf_rep uf x r → uf_rep uf y r.
Proof.
  intros Hes x y Hxy. induction Hxy as [x|x z y Hxz _ IH]; intros r Hr; [done|].
  apply IH. destruct Hxz as [Hin|Hin]; destruct (Hes _ _ Hin) as (r' & Ha & Hb).
  - by rewrite (uf_rep_unica _ _ _ _ Hr Ha).
  - by rewrite (uf_rep_unica _ _ _ _ Hr Hb).
Qed.

Lemma kruskal_traza_snoc (prev : list (nat * nat)) (ps : list Kruskal.paso)
    (fin : list (nat * nat)) (p : Kruskal.paso) :
  kruskal_traza prev ps fin →
  (Kruskal.ok p = true ↔ ¬ conectados fin (Kruskal.edge p).1 (Kruskal.edge p).2) →
  Kruskal.mst p = (if Kruskal.ok p then fin ++ [Kruskal.edge p] else fin) →
  kruskal_traza prev (ps ++ [p]) (Kruskal.mst p).
Proof.
  revert prev. induction ps as [|q ps IH]; intros prev; simpl.
  - by intros ->.
  - intros (? & ? & ?) ? ?. split_and!; [done..|]. by apply IH.
Qed.

Lemma kr_inv_cuerpo (limite : nat) (ga : GrafoActivo) (hechas : list (nat * nat * Z))
    (s : Kruskal.estado) (u v : nat) (w : Z) :
  kr_inv ga hechas s → (u < N ga)%nat → (v < N ga)%nat → (N ga ≤ limite)%nat →
  ∃ s', Kruskal.cuerpo limite s (u, v, w) = Ok s' ∧
        kr_inv ga (hechas ++ [(u, v, w)]) s'.
Proof.
  intros [[Hlen Hbos] Har Hcl Hhe Htr] Hu Hv Hlim.
  destruct (Hbos u Hu) as (ru & ku & Hku).
  destruct (find_spec limite _ u ku ru Hku) as (uf1 & Hf1 & Hl1 & Hrep1).
  { pose proof (uf_raiz_cota _ _ _ _ Hku). lia. }
  destruct (Hbos v Hv) as (rv & Hrv). apply Hrep1 in Hrv as [kv Hkv].
  destruct (find_spec limite _ v kv rv Hkv) as (uf2 & Hf2 & Hl2 & Hrep2).
  { pose proof (uf_raiz_cota _ _ _ _ Hkv). lia. }
  assert (∀ y ry, uf_rep uf2 y ry ↔ uf_rep (Kruskal.padre_uf s) y ry) as Hrep.
  { intros y ry. by rewrite Hrep2, Hrep1. }
  assert (uf_rep uf2 u ru) as Hru by (apply Hrep; by exists ku).
  assert (uf_rep uf2 v rv) as Hrv by (apply Hrep2; by exists kv).
  assert (ru ≠ rv ↔ ¬ conectados (Kruskal.e_mst s) u v) as Hcrit.
  { split.
    - intros Hne Hcon. apply Hne.
      apply (uf_rep_unica (Kruskal.padre_uf s) v ru rv); [|by apply Hrep].
      eapply conectados_rep; [exact Har|exact Hcon|]. by exists ku.
    - intros Hno Heq. apply Hno. apply (Hcl u v rv); apply Hrep; [|done].
      by rewrite <- Heq. }
  unfold Kruskal.cuerpo. rewrite Hf1. cbn [mbind result_bind fst snd]. rewrite Hf2.
  cbn [mbind result_bind fst snd]. eexists. split; [reflexivity|].
  destruct (decide (ru = rv)) as [Heq|Hne].
  - rewrite bool_decide_eq_false_2 by (intros H; by apply H). split; cbn.
    + split; [lia|]. intros x Hx. destruct (Hbos x Hx) as [r Hr]. exists r. by apply Hrep.
    + intros a b Hab. destruct (Har a b Hab) as (r & Ha & Hb). exists r. by rewrite !Hrep.
    + intros x y r Hx Hy. eapply Hcl; apply Hrep; done.
    + intros a b c [Hin|Hin]%elem_of_app; [by eapply Hhe|].
      apply list_elem_of_singleton in Hin as [= -> -> ->].
      eapply Hcl; apply Hrep; [exact Hru|]. by rewrite Heq.
    + apply (kruskal_traza_snoc _ _ _
        {| Kruskal.edge := (u, v); Kruskal.w := w; Kruskal.ok := false;
           Kruskal.mst := Kruskal.e_mst s |} Htr); [|done].
      cbn. split; [done|]. intros Hno. by apply Hcrit in Hno.
  - rewrite bool_decide_eq_true_2 by done.
    assert (uf2 !! ru = Some ru) as Hlu by (destruct Hru as [k Hk]; by eapply uf_raiz_raiz).
    assert (uf2 !! rv = Some rv) as Hlv by (destruct Hrv as [k Hk]; by eapply uf_raiz_raiz).
    pose proof (uf_unir uf2 ru rv Hlu Hlv Hne) as Hun.
    assert (∀ x y, conectados (Kruskal.e_mst s) x y →
                   conectados (Kruskal.e_mst s ++ [(u, v)]) x y) as Hmono.
    { intros x y. apply conectados_mono. intros e He. apply elem_of_app. by left. }
    assert (conectados (Kruskal.e_mst s ++ [(u, v)]) u v) as Huv.
    { apply rtsc_lr. apply elem_of_app. right. by apply list_elem_of_singleton. }
    split; cbn.
    + split; [rewrite length_insert; lia|]. intros x Hx. destruct (Hbos x Hx) as [r Hr].
      eexists. apply Hun. exists r. split; [by apply Hrep|done].
    + intros a b [Hab|Hab]%elem_of_app.
      * destruct (Har a b Hab) as (r & Ha & Hb).
        exists (if decide (r = ru) then rv else r).
        split; apply Hun; exists r; (split; [by apply Hrep|done]).
      * apply list_elem_of_singleton in Hab as [= -> ->]. exists rv. split; apply Hun.
        -- exists ru. split; [done|]. by rewrite decide_True.
        -- exists rv. split; [done|]. by rewrite decide_False.
    + intros x y r (rx & Hx & Hrx)%Hun (ry & Hy & Hry)%Hun.
      assert (∀ a b c, uf_rep uf2 a c → uf_rep uf2 b c →
                       conectados (Kruskal.e_mst s ++ [(u, v)]) a b) as Hold.
      { intros a b c Ha Hb. apply Hmono. eapply Hcl; apply Hrep; done. }
      destruct (decide (rx = ru)) as [->|Hx'], (decide (ry = ru)) as [->|Hy'].
      * by eapply Hold.
      * subst r. subst ry. trans u; [by eapply Hold|]. trans v; [done|]. by eapply Hold.
      * subst r. subst rx. trans v; [by eapply Hold|]. trans u; [by symmetry|].
        by eapply Hold.
      * subst r. subst rx. by eapply Hold.
    + intros a b c [Hin|Hin]%elem_of_app; [apply Hmono; by eapply Hhe|].
      by apply list_elem_of_singleton in Hin as [= -> -> ->].
    + apply (kruskal_traza_snoc _ _ _
        {| Kruskal.edge := (u, v); Kruskal.w := w; Kruskal.ok := true;
           Kruskal.mst := Kruskal.e_mst s ++ [(u, v)] |} Htr); [|done].
      cbn. split; [|done]. intros _. by apply Hcrit.
Qed.

Lemma kr_inv_plegar (limite : nat) (ga : GrafoActivo) (l : list (nat * nat * Z)) :
  (N ga ≤ limite)%nat →
  Forall (λ a, (a.1.1 < N ga)%nat ∧ (a.1.2 < N ga)%nat) l →
  ∀ hechas s, kr_inv ga hechas s →
    ∃ s', plegar (Kruskal.cuerpo limite) s l = Ok s' ∧ kr_inv ga (hechas ++ l) s'.
Proof.
  intros Hlim. induction l as [|[[u v] w] l IH]; intros Hl hechas s Hs; cbn [plegar].
  - exists s. by rewrite app_nil_r.
  - apply Forall_cons in Hl as [[Hu Hv] Hl]. simpl in Hu, Hv.
    destruct (kr_inv_cuerpo limite ga hechas s u v w Hs Hu Hv Hlim) as (s1 & -> & Hs1).
    cbn [mbind result_bind]. rewrite cons_middle, app_assoc. by apply IH.
Qed.

Lemma kr_inv_inicial (ga : GrafoActivo) : kr_inv ga [] (Kruskal.inicial ga).
Proof.
  split; simpl.
  - split; [by rewrite length_seq|]. intros x Hx. exists x. apply uf_rep_raiz.
    by rewrite lookup_seq_lt.
  - intros a b ?%elem_of_nil. done.
  - intros x y r Hx Hy.
    assert (∀ z, uf_rep (seq 0 (N ga)) z r → z = r) as Hz.
    { intros z [k Hk]. inversion Hk as [? H|? p ? ? H Hp]; subst; [done|].
      apply lookup_seq in H as [? _]. simpl in *. congruence. }
    rewrite (Hz x Hx), (Hz y Hy). done.
  - intros u v w ?%elem_of_nil. done.
  - done.
Qed.

(** * The order of the steps of Kruskal *)

Lemma insertar_perm (a : nat * nat * Z) (l : list (nat * nat * Z)) :
  Kruskal.insertar a l ≡ₚ a :: l.
Proof.
  induction l as [|b r IH]; simpl; [done|]. case_bool_decide; [|done].
  rewrite IH. apply Permutation_swap.
Qed.

Lemma insertar_ordenada (a : nat * nat * Z) (l : list (nat * nat * Z)) :
  StronglySorted (λ x y, x.2 ≤ y.2) l →
  StronglySorted (λ x y, x.2 ≤ y.2) (Kruskal.insertar a l).
Proof.
  induction l as [|b r IH]; simpl; intros Hs.
  - repeat constructor.
  - apply StronglySorted_inv in Hs as [Hr Hb]. case_bool_decide as Hba.
    + constructor; [by apply IH|]. rewrite insertar_perm. by constructor.
    + constructor; [by constructor|]. constructor; [lia|].
      eapply Forall_impl; [exact Hb|]. intros x Hx. simpl in Hx. lia.
Qed.

Lemma ordenar_spec (l : list (nat * nat * Z)) :
  Kruskal.ordenar l ≡ₚ l ∧ StronglySorted (λ x y, x.2 ≤ y.2) (Kruskal.ordenar l).
Proof.
  unfold Kruskal.ordenar.
  assert (∀ acc, StronglySorted (λ x y : nat * nat * Z, x.2 ≤ y.2) acc →
            foldl (λ acc a, Kruskal.insertar a acc) acc l ≡ₚ acc ++ l ∧
            StronglySorted (λ x y, x.2 ≤ y.2)
              (foldl (λ acc a, Kruskal.insertar a acc) acc l)) as H.
  { induction l as [|a l IH]; intros acc Hacc; simpl.
    - by rewrite app_nil_r.
    - destruct (IH (Kruskal.insertar a acc)) as [Hp Hs]; [by apply insertar_ordenada|].
      split; [|done]. rewrite Hp, insertar_perm. simpl. apply Permutation_middle. }
  apply (H []). constructor.
Qed.

Lemma elem_of_kr_candidatas (ga : GrafoActivo) (i j : nat) (c : Z) :
  (i, j, c) ∈ kr_candidatas ga ↔
  (i < j)%nat ∧ (j < N ga)%nat ∧ c = celda (matriz ga) i j ∧ c > 0.
Proof.
  unfold kr_candidatas. rewrite list_elem_of_bind. split.
  - intros (i' & Hin & Hi'). apply list_elem_of_bind in Hin as (j' & Hin & Hj').
    apply elem_of_seq in Hi', Hj'. case_bool_decide; [|by apply elem_of_nil in Hin].
    apply list_elem_of_singleton in Hin as [= -> -> ->]. split_and!; [lia|lia|done|done].
  - intros (Hij & Hj & -> & Hc). exists i. split; [|apply elem_of_seq; lia].
    apply list_elem_of_bind. exists j. split; [|apply elem_of_seq; lia].
    rewrite bool_decide_eq_true_2 by done. by apply list_elem_of_singleton.
Qed.

Lemma kr_candidatas_NoDup (ga : GrafoActivo) : NoDup (kr_candidatas ga).
Proof.
  unfold kr_candidatas. apply NoDup_bind; [| |apply NoDup_seq].
  - intros i1 i2 [[a b] c] _ _ H1 H2.
    apply list_elem_of_bind in H1 as (j1 & H1 & _), H2 as (j2 & H2 & _).
    destruct (bool_decide (celda (matriz ga) i1 j1 > 0)); [|by apply elem_of_nil in H1].
    destruct (bool_decide (celda (matriz ga) i2 j2 > 0)); [|by apply elem_of_nil in H2].
    apply list_elem_of_singleton in H1, H2. congruence.
  - intros i _. apply NoDup_bind; [| |apply NoDup_seq].
    + intros j1 j2 [[a b] c] _ _ H1 H2.
      destruct (bool_decide (celda (matriz ga) i j1 > 0)); [|by apply elem_of_nil in H1].
      destruct (bool_decide (celda (matriz ga) i j2 > 0)); [|by apply elem_of_nil in H2].
      apply list_elem_of_singleton in H1, H2. congruence.
    + intros j _. case_bool_decide; [apply NoDup_singleton|apply NoDup_nil_2].
Qed.

Lemma kruskal_aristas_spec (ga : GrafoActivo) :
  Kruskal.aristas ga ≡ₚ kr_candidatas ga ∧
  StronglySorted (λ x y, x.2 ≤ y.2) (Kruskal.aristas ga).
Proof. apply ordenar_spec. Qed.

Lemma kr_arista_plegar (limite : nat) (l : list (nat * nat * Z)) :
  ∀ s s', plegar (Kruskal.cuerpo limite) s l = Ok s' →
    kr_arista <$> Kruskal.pasos s' = (kr_arista <$> Kruskal.pasos s) ++ l.
Proof.
  induction l as [|[[u v] w] l IH]; intros s s'; cbn [plegar].
  - intros [= <-]. by rewrite app_nil_r.
  - destruct (Kruskal.cuerpo limite s (u, v, w)) as [s1|] eqn:Hs1; [|done].
    cbn [mbind result_bind]. intros Hs'. rewrite (IH _ _ Hs').
    destruct (kruskal_cuerpo_emite limite s s1 u v w Hs1) as (aceptada & ->).
    rewrite fmap_app. simpl. by rewrite <- app_assoc.
Qed.

Lemma kruskal_pasos_aristas (limite : nat) (ga : GrafoActivo) (ps : list Kruskal.paso) :
  Kruskal.kruskal_pasos limite ga = Ok ps → kr_arista <$> ps = Kruskal.aristas ga.
Proof.
  unfold Kruskal.kruskal_pasos, Kruskal.recorrer.
  destruct (plegar _ _ _) as [s|] eqn:Hs; [|done]. intros [= <-].
  by rewrite (kr_arista_plegar _ _ _ _ Hs).
Qed.

Lemma kruskal_aristas_rango (ga : GrafoActivo) :
  Forall (λ a : nat * nat * Z, (a.1.1 < N ga)%nat ∧ (a.1.2 < N ga)%nat)
    (Kruskal.aristas ga).
Proof.
  destruct (kruskal_aristas_spec ga) as [Hperm _].
  apply Forall_forall. intros [[i j] c] Hin. rewrite Hperm in Hin.
  apply elem_of_kr_candidatas in Hin. simpl. lia.
Qed.

(** With room in the recursion limit for one call of [find] for each
    node, Kruskal returns. *)
Lemma kruskal_devuelve (limite : nat) (ga : GrafoActivo) :
  (N ga ≤ limite)%nat →
  ∃ s, Kruskal.recorrer limite ga (Kruskal.aristas ga) = Ok s ∧
       Kruskal.kruskal_pasos limite ga = Ok (Kruskal.pasos s) ∧
       kr_inv ga (Kruskal.aristas ga) s.
Proof.
  intros Hlim.
  destruct (kr_inv_plegar limite ga _ Hlim (kruskal_aristas_rango ga) [] _
              (kr_inv_inicial ga)) as (s & Hs & Hinv).
  exists s. unfold Kruskal.kruskal_pasos, Kruskal.recorrer. rewrite Hs. done.
Qed.

Lemma StronglySorted_fmap_inv {A B : Type} (R : relation A) (R' : relation B) (f : A → B)
    (l : list A) :
  (∀ x y, R' (f x) (f y) → R x y) → StronglySorted R' (f <$> l) → StronglySorted R l.
Proof.
  intros HR. induction l as [|a l IH]; intros Hs; [constructor|].
  rewrite fmap_cons in Hs. apply StronglySorted_inv in Hs as [Hl Ha].
  constructor; [by apply IH|].
  rewrite Forall_fmap in Ha. eapply Forall_impl; [exact Ha|]. intros x Hx. by apply HR.
Qed.

(** X11. For a square matrix and a recursion limit that leaves room
    for one nested call of [find] for each node, Kruskal returns, and its
    steps are the edges of the upper triangle with a positive weight, one
    step for each, with the weight of the matrix, in an order of weights
    that never decreases. *)
Theorem kruskal_orden_de_pasos (limite : nat) (ga : GrafoActivo) :
  cuadrada ga → (N ga ≤ limite)%nat →
  ∃ ps, Kruskal.kruskal_pasos limite ga = Ok ps ∧
    StronglySorted (λ p q, Kruskal.w p ≤ Kruskal.w q) ps ∧
    NoDup (Kruskal.edge <$> ps) ∧
    ∀ i j c, (∃ p, p ∈ ps ∧ Kruskal.edge p = (i, j) ∧ Kruskal.w p = c) ↔
             (i < j)%nat ∧ (j < N ga)%nat ∧ c = celda (matriz ga) i j ∧ c > 0.
Proof.
  intros _ Hlim. destruct (kruskal_aristas_spec ga) as [Hperm Hsort].
  destruct (kruskal_devuelve limite ga Hlim) as (s & _ & Hret & _).
  exists (Kruskal.pasos s). split; [done|].
  pose proof (kruskal_pasos_aristas limite ga _ Hret) as Hps. split_and!.
  - apply (StronglySorted_fmap_inv _ (λ x y : nat * nat * Z, x.2 ≤ y.2) kr_arista);
      [done|]. by rewrite Hps.
  - assert (Kruskal.edge <$> Kruskal.pasos s
            = (λ a : nat * nat * Z, a.1) <$> Kruskal.aristas ga) as ->.
    { rewrite <- Hps, <- list_fmap_compose. apply list_fmap_ext.
      intros k p _. unfold kr_arista. simpl. by destruct (Kruskal.edge p). }
    rewrite Hperm. apply NoDup_fmap_2_strong; [|apply kr_candidatas_NoDup].
    intros [[a b] c] [[a' b'] c'] H1 H2 [= -> ->].
    apply elem_of_kr_candidatas in H1 as (_ & _ & -> & _).
    apply elem_of_kr_candidatas in H2 as (_ & _ & -> & _). done.
  - intros i j c. rewrite <- elem_of_kr_candidatas, <- Hperm, <- Hps, list_elem_of_fmap.
    split.
    + intros (p & Hp & He & Hw). exists p. split; [|done]. unfold kr_arista.
      by rewrite He, Hw.
    + intros (p & He & Hp). exists p. unfold kr_arista in He.
      injection He as -> -> ->. split; [done|]. split; [|done]. by destruct (Kruskal.edge p).
Qed.

Lemma kruskal_orden_de_pasos_testigo :
  ∃ ps, Kruskal.kruskal_pasos 7 grafo2 = Ok ps ∧
    StronglySorted (λ p q, Kruskal.w p ≤ Kruskal.w q) ps ∧
    NoDup (Kruskal.edge <$> ps) ∧
    ∀ i j c, (∃ p, p ∈ ps ∧ Kruskal.edge p = (i, j) ∧ Kruskal.w p = c) ↔
             (i < j)%nat ∧ (j < N grafo2)%nat ∧ c = celda (matriz grafo2) i j ∧ c > 0.
Proof.
  apply (kruskal_orden_de_pasos 7 grafo2); [apply grafo2_cuadrada|].
  rewrite (proj2 grafo2_cargado). lia.
Defined.

Lemma kruskal_traza_lookup (prev : list (nat * nat)) (ps : list Kruskal.paso)
    (fin : list (nat * nat)) :
  kruskal_traza prev ps fin →
  (∀ p, ps !! 0%nat = Some p →
     (Kruskal.ok p = true ↔ ¬ conectados prev (Kruskal.edge p).1 (Kruskal.edge p).2) ∧
     Kruskal.mst p = (if Kruskal.ok p then prev ++ [Kruskal.edge p] else prev)) ∧
  (∀ k p q, ps !! k = Some p → ps !! (S k) = Some q →
     (Kruskal.ok q = true ↔
        ¬ conectados (Kruskal.mst p) (Kruskal.edge q).1 (Kruskal.edge q).2) ∧
     Kruskal.mst q = (if Kruskal.ok q then Kruskal.mst p ++ [Kruskal.edge q]
                      else Kruskal.mst p)) ∧
  fin = default prev (Kruskal.mst <$> last ps).
Proof.
  revert prev. induction ps as [|x ps IH]; intros prev; simpl.
  - intros ->. split_and!; [done| |done]. intros k p q H. by rewrite lookup_nil in H.
  - intros (Hok & Hmst & Hr). destruct (IH _ Hr) as (H0 & HS & Hfin). split_and!.
    + by intros p [= <-].
    + intros [|k] p q; simpl.
      * intros [= <-]. apply H0.
      * apply HS.
    + rewrite Hfin, last_cons. by destruct (last ps).
Qed.

(** X12. For a square matrix and a recursion limit that leaves room
    for one nested call of [find] for each node, Kruskal returns; it
    accepts the edge of a step exactly when the edges accepted before it
    do not join its two ends, so the accepted edges never close a cycle;
    the first step is accepted; the list ['mst'] of a step is the list of
    the step before it, with the edge appended when it is accepted; and
    at the end the accepted edges join the two ends of every edge of the
    upper triangle with a positive weight: they are a spanning forest of
    those edges. *)
Theorem kruskal_bosque_generador (limite : nat) (ga : GrafoActivo) :
  cuadrada ga → (N ga ≤ limite)%nat →
  ∃ ps, Kruskal.kruskal_pasos limite ga = Ok ps ∧
    (∀ p, ps !! 0%nat = Some p → Kruskal.ok p = true ∧ Kruskal.mst p = [Kruskal.edge p]) ∧
    (∀ k p q, ps !! k = Some p → ps !! (S k) = Some q →
       (Kruskal.ok q = true ↔
          ¬ conectados (Kruskal.mst p) (Kruskal.edge q).1 (Kruskal.edge q).2) ∧
       Kruskal.mst q = (if Kruskal.ok q then Kruskal.mst p ++ [Kruskal.edge q]
                        else Kruskal.mst p)) ∧
    (∀ i j, (i < j)%nat → (j < N ga)%nat → celda (matriz ga) i j > 0 →
            conectados (default [] (Kruskal.mst <$> last ps)) i j).
Proof.
  intros _ Hlim.
  destruct (kruskal_aristas_spec ga) as [Hperm _].
  destruct (kruskal_devuelve limite ga Hlim) as (s & _ & Hret & [_ _ _ Hhe Htr]).
  exists (Kruskal.pasos s). split; [done|].
  destruct (kruskal_traza_lookup _ _ _ Htr) as (H0 & HS & Hfin). split_and!.
  - intros p Hp. destruct (H0 p Hp) as [Hok Hmst].
    assert (Kruskal.ok p = true) as Hp1.
    { apply Hok. intros Hcon.
      assert (kr_arista p ∈ kr_candidatas ga) as Hc.
      { rewrite <- Hperm, <- (kruskal_pasos_aristas limite ga _ Hret).
        apply list_elem_of_fmap.
        exists p. split; [done|]. by eapply list_elem_of_lookup_2. }
      apply elem_of_kr_candidatas in Hc as (Hlt & _).
      assert ((Kruskal.edge p).1 = (Kruskal.edge p).2); [|lia].
      clear -Hcon. unfold conectados, rtsc in Hcon.
      destruct Hcon as [|x y z [H|H] _]; [done|by apply elem_of_nil in H..]. }
    split; [done|]. by rewrite Hmst, Hp1.
  - exact HS.
  - intros i j Hij Hj Hc. rewrite <- Hfin. apply (Hhe i j (celda (matriz ga) i j)).
    simpl. rewrite Hperm. apply elem_of_kr_candidatas. done.
Qed.

Lemma kruskal_bosque_generador_testigo :
  ∃ ps, Kruskal.kruskal_pasos 7 grafo2 = Ok ps ∧
    (∀ p, ps !! 0%nat = Some p → Kruskal.ok p = true ∧ Kruskal.mst p = [Kruskal.edge p]) ∧
    (∀ k p q, ps !! k = Some p → ps !! (S k) = Some q →
       (Kruskal.ok q = true ↔
          ¬ conectados (Kruskal.mst p) (Kruskal.edge q).1 (Kruskal.edge q).2) ∧
       Kruskal.mst q = (if Kruskal.ok q then Kruskal.mst p ++ [Kruskal.edge q]
                        else Kruskal.mst p)) ∧
    (∀ i j, (i < j)%nat → (j < N grafo2)%nat → celda (matriz grafo2) i j > 0 →
            conectados (default [] (Kruskal.mst <$> last ps)) i j).
Proof.
  apply (kruskal_bosque_generador 7 grafo2); [apply grafo2_cuadrada|].
  rewrite (proj2 grafo2_cargado). lia.
Defined.

(** ** Matrices of integers in a JSON file

    The JSON value of a matrix of integers. *)

Lemma de_orden_lookup (n : nat) (m : list (list Z)) (i j : nat) :
  de_orden n m → (i < n)%nat → (j < n)%nat →
  ∃ fila, m !! i = Some fila ∧ length fila = n ∧ fila !! j = Some (celda m i j).
Proof.
  intros [Hlen Hf] Hi Hj. destruct (lookup_lt_is_Some_2 m i) as [fila Hfila]; [lia|].
  assert (length fila = n) as Hl by (eapply Forall_lookup_1 in Hf; eauto).
  destruct (lookup_lt_is_Some_2 fila j) as [z Hz]; [lia|].
  exists fila. split_and!; [done..|]. unfold celda. rewrite Hfila. simpl. by rewrite Hz.
Qed.

Lemma poner_celda_orden (n : nat) (m : list (list Z)) (i j : nat) (z : Z) :
  de_orden n m → de_orden n (poner_celda m i j z).
Proof.
  intros [Hlen Hf]. unfold poner_celda. destruct (m !! i) as [fila|] eqn:Hfila; [|done].
  split; [by rewrite length_insert|]. apply Forall_insert; [done|].
  rewrite length_insert. eapply Forall_lookup_1 in Hf; eauto.
Qed.

Lemma celda_poner (n : nat) (m : list (list Z)) (i j : nat) (z : Z) (k l : nat) :
  de_orden n m → (i < n)%nat → (j < n)%nat →
  celda (poner_celda m i j z) k l
  = if bool_decide (k = i ∧ l = j) then z else celda m k l.
Proof.
  intros Hm Hi Hj. destruct (de_orden_lookup n m i j Hm Hi Hj) as (fila & Hfila & Hl & _).
  unfold poner_celda, celda. rewrite Hfila.
  destruct (decide (k = i)) as [->|Hk].
  - rewrite list_lookup_insert_eq by (apply lookup_lt_Some in Hfila; lia). simpl.
    destruct (decide (l = j)) as [->|Hlj].
    + rewrite list_lookup_insert_eq by lia. by rewrite bool_decide_eq_true_2.
    + rewrite list_lookup_insert_ne by done. rewrite bool_decide_eq_false_2 by tauto.
      by rewrite Hfila.
  - rewrite list_lookup_insert_ne by done. by rewrite bool_decide_eq_false_2 by tauto.
Qed.

Lemma simetrizar_entera_celda (n : nat) (m : list (list Z)) (i j : nat) :
  de_orden n m → (i < n)%nat → (j < n)%nat →
  de_orden n (simetrizar_entera m (i, j)) ∧
  ∀ k l, celda (simetrizar_entera m (i, j)) k l
         = if bool_decide ((k = i ∧ l = j) ∨ (k = j ∧ l = i))
           then celda m i j `max` celda m j i else celda m k l.
Proof.
  intros Hm Hi Hj. unfold simetrizar_entera. cbn [fst snd].
  case_bool_decide as Hab.
  - split; [done|]. intros k l. case_bool_decide as Hkl; [|done].
    destruct Hkl as [[-> ->]|[-> ->]]; lia.
  - split; [by do 2 apply poner_celda_orden|]. intros k l.
    rewrite (celda_poner n) by (try apply poner_celda_orden; done).
    rewrite (celda_poner n) by done.
    repeat case_bool_decide; try done; exfalso; tauto.
Qed.

Lemma simetrizar_entera_foldl (n : nat) (m0 : list (list Z)) (l : list (nat * nat)) :
  Forall (λ ij, (ij.1 < n)%nat ∧ (ij.2 < n)%nat) l →
  ∀ m, de_orden n m →
    (∀ i j, (celda m i j = celda m0 i j `max` celda m0 j i ∧
             celda m j i = celda m0 i j `max` celda m0 j i) ∨
            (celda m i j = celda m0 i j ∧ celda m j i = celda m0 j i)) →
    let m' := foldl simetrizar_entera m l in
    de_orden n m' ∧
    (∀ i j, celda m i j = celda m0 i j `max` celda m0 j i →
            celda m j i = celda m0 i j `max` celda m0 j i →
            celda m' i j = celda m0 i j `max` celda m0 j i) ∧
    (∀ i j, (i, j) ∈ l → celda m' i j = celda m0 i j `max` celda m0 j i).
Proof.
  induction l as [|[i j] l IH]; intros Hl m Hm Hinv; cbv zeta; cbn [foldl].
  - split_and!; [done|done|]. intros i j ?%elem_of_nil. done.
  - apply Forall_cons in Hl as [[Hi Hj] Hl]. simpl in Hi, Hj.
    destruct (simetrizar_entera_celda n m i j Hm Hi Hj) as [Hm1 Hc1].
    set (m1 := simetrizar_entera m (i, j)) in *.
    assert (celda m i j `max` celda m j i = celda m0 i j `max` celda m0 j i) as Hmx.
    { destruct (Hinv i j) as [[-> ->]|[-> ->]]; lia. }
    assert (∀ a b, (celda m1 a b = celda m0 a b `max` celda m0 b a ∧
                    celda m1 b a = celda m0 a b `max` celda m0 b a) ∨
                   (celda m1 a b = celda m0 a b ∧ celda m1 b a = celda m0 b a)) as Hinv1.
    { intros a b. rewrite !Hc1.
      destruct (Hinv a b) as [[Ha Hb]|[Ha Hb]];
        repeat case_bool_decide; try tauto;
        repeat match goal with H : _ ∨ _ |- _ => destruct H end;
        repeat match goal with H : _ ∧ _ |- _ => destruct H end; subst;
        try (exfalso; tauto); left; lia. }
    destruct (IH Hl m1 Hm1 Hinv1) as (Hm' & Hkeep & Hdone). split_and!; [done| |].
    + intros a b Ha Hb. apply Hkeep.
      * rewrite Hc1. case_bool_decide as Hab; [|done].
        destruct Hab as [[-> ->]|[-> ->]]; lia.
      * rewrite Hc1. case_bool_decide as Hab; [|done].
        destruct Hab as [[-> ->]|[-> ->]]; lia.
    + intros a b [[= -> ->]|Hin]%elem_of_cons; [|by apply Hdone].
      apply Hkeep.
      * rewrite Hc1. rewrite bool_decide_eq_true_2 by tauto. done.
      * rewrite Hc1. rewrite bool_decide_eq_true_2 by tauto. lia.
Qed.

Lemma elem_of_pares (n i j : nat) : (i, j) ∈ pares n ↔ (i < n)%nat ∧ (j < n)%nat.
Proof.
  unfold pares. rewrite list_elem_of_bind. split.
  - intros (i' & Hij & Hi). apply list_elem_of_bind in Hij as (j' & Hij & Hj).
    apply list_elem_of_singleton in Hij as [= -> ->]. apply elem_of_seq in Hi, Hj. lia.
  - intros [Hi Hj]. exists i. split; [|apply elem_of_seq; lia].
    apply list_elem_of_bind. exists j. split; [by apply list_elem_of_singleton|].
    apply elem_of_seq. lia.
Qed.

(** The symmetric matrix of the largest of each two mirrored cells. *)
Lemma simetrizar_entera_pares (n : nat) (m : list (list Z)) :
  de_orden n m →
  de_orden n (foldl simetrizar_entera m (pares n)) ∧
  ∀ i j, (i < n)%nat → (j < n)%nat →
    celda (foldl simetrizar_entera m (pares n)) i j = celda m i j `max` celda m j i.
Proof.
  intros Hm.
  destruct (simetrizar_entera_foldl n m (pares n)) with (m := m) as (Hm' & _ & Hdone).
  - apply Forall_forall. intros [i j] Hij. by apply elem_of_pares in Hij.
  - done.
  - intros i j. by right.
  - split; [done|]. intros i j Hi Hj. apply Hdone. by apply elem_of_pares.
Qed.

Lemma py_item_matriz (n : nat) (m : list (list Z)) (i j : nat) :
  de_orden n m → (i < n)%nat → (j < n)%nat →
  ∃ fila, m !! i = Some fila ∧ (j < length fila)%nat ∧
    py_item (json_de_matriz m) i = Ok (JList (JInt <$> fila)) ∧
    py_item (JList (JInt <$> fila)) j = Ok (JInt (celda m i j)).
Proof.
  intros Hm Hi Hj. destruct (de_orden_lookup n m i j Hm Hi Hj) as (fila & Hfila & Hl & Hz).
  exists fila. split_and!; [done|lia| |].
  - unfold json_de_matriz, py_item. apply indexar_ok.
    by rewrite list_lookup_fmap, Hfila.
  - unfold py_item. apply indexar_ok. by rewrite list_lookup_fmap, Hz.
Qed.

Lemma asignar_celda_matriz (n : nat) (m : list (list Z)) (i j : nat) (z : Z) :
  de_orden n m → (i < n)%nat → (j < n)%nat →
  asignar_celda (json_de_matriz m) i j (JInt z) = Ok (json_de_matriz (poner_celda m i j z)).
Proof.
  intros Hm Hi Hj. destruct (de_orden_lookup n m i j Hm Hi Hj) as (fila & Hfila & Hl & _).
  unfold asignar_celda, json_de_matriz, poner_celda. rewrite Hfila.
  rewrite (indexar_ok _ _ (JList (JInt <$> fila))) by (by rewrite list_lookup_fmap, Hfila).
  simpl. rewrite length_fmap. rewrite bool_decide_eq_true_2 by lia. simpl.
  by rewrite !list_fmap_insert.
Qed.

Section enteros.
Variable py_ne : json → json → bool.
Variable py_max : json → json → result json.
Hypothesis py_ne_enteros : ∀ a b, py_ne (JInt a) (JInt b) = negb (bool_decide (a = b)).
Hypothesis py_max_enteros : ∀ a b, py_max (JInt a) (JInt b) = Ok (JInt (a `max` b)).

Lemma simetrizar_celda_entera (n : nat) (m : list (list Z)) (i j : nat) :
  de_orden n m → (i < n)%nat → (j < n)%nat →
  simetrizar_celda py_ne py_max (json_de_matriz m) (i, j)
  = Ok (json_de_matriz (simetrizar_entera m (i, j))).
Proof.
  intros Hm Hi Hj. unfold simetrizar_celda, simetrizar_entera. cbn [fst snd].
  destruct (py_item_matriz n m i j Hm Hi Hj) as (fi & _ & _ & -> & Hij).
  cbn [mbind result_bind]. rewrite Hij. cbn [mbind result_bind].
  destruct (py_item_matriz n m j i Hm Hj Hi) as (fj & _ & _ & -> & Hji).
  cbn [mbind result_bind]. rewrite Hji. cbn [mbind result_bind].
  rewrite py_ne_enteros.
  case_bool_decide as Hab; cbn [negb]; [done|].
  rewrite py_max_enteros. cbn [mbind result_bind].
  rewrite (asignar_celda_matriz n) by done. cbn [mbind result_bind].
  by rewrite (asignar_celda_matriz n) by (try apply poner_celda_orden; done).
Qed.

Lemma plegar_simetrizar_celda (n : nat) (l : list (nat * nat)) :
  Forall (λ ij, (ij.1 < n)%nat ∧ (ij.2 < n)%nat) l →
  ∀ m, de_orden n m →
    plegar (simetrizar_celda py_ne py_max) (json_de_matriz m) l
    = Ok (json_de_matriz (foldl simetrizar_entera m l)).
Proof.
  induction l as [|[i j] l IH]; intros Hl m Hm; simpl; [done|].
  apply Forall_cons in Hl as [[Hi Hj] Hl]. simpl in Hi, Hj.
  rewrite (simetrizar_celda_entera n) by done. simpl.
  apply IH; [done|]. by apply simetrizar_entera_celda.
Qed.

Lemma no_cuadrada_matriz (n : nat) (m : list (list Z)) :
  Forall (λ fila, length fila = n) m →
  no_cuadrada n ((λ fila, JList (JInt <$> fila)) <$> m) = Ok false.
Proof.
  induction 1 as [|fila m Hf _ IH]; simpl; [done|].
  rewrite length_fmap. by rewrite bool_decide_eq_false_2 by (intros H; by apply H).
Qed.

Lemma formato_matriz_entera (d : list (string * json)) (m : list (list Z))
    (noms : option (list json)) :
  buscar "matriz" d = Some (json_de_matriz m) →
  buscar "nombres" d = JList <$> noms →
  de_orden (length m) m →
  formato_matriz py_ne py_max (JDict d)
  = Ok (Exito (json_de_matriz (foldl simetrizar_entera m (pares (length m))))
              (match noms with
               | Some l => if bool_decide (length l = length m) then JList l
                           else JList (nombre_por_defecto <$> seq 0 (length m))
               | None => JList (nombre_por_defecto <$> seq 0 (length m))
               end)).
Proof.
  intros Hmat Hnom Hm. unfold formato_matriz, py_clave. rewrite Hmat. simpl.
  rewrite length_fmap. rewrite no_cuadrada_matriz by apply Hm. simpl.
  rewrite (plegar_simetrizar_celda (length m)); [|by apply Forall_forall;
    intros [i j] Hij; apply elem_of_pares in Hij|done].
  simpl. rewrite Hnom. destruct noms as [l|]; simpl; [|done].
  case_bool_decide as Hl.
  - by rewrite bool_decide_eq_false_2.
  - rewrite bool_decide_eq_true_2 by done. done.
Qed.

End enteros.

(** X13. A file whose ["matriz"] is a square matrix of integers, with
    ["nombres"] absent or a list: the loader returns no error and a
    square matrix of the same order in which every cell is the largest
    of the cell of the file and its mirror cell, so the matrix is
    symmetric; the names are the list of the file when its length is the
    order, and the default names otherwise. *)
Theorem cargar_desde_json_simetrica
    (leer_json : string → result json) (py_ne : json → json → bool)
    (py_max : json → json → result json) (py_str : json → string)
    (str_exn : exn → string) (ruta : string)
    (d : list (string * json)) (m : list (list Z)) (noms : option (list json)) :
  (∀ a b, py_ne (JInt a) (JInt b) = negb (bool_decide (a = b))) →
  (∀ a b, py_max (JInt a) (JInt b) = Ok (JInt (a `max` b))) →
  leer_json ruta = Ok (JDict d) →
  buscar "matriz" d = Some (json_de_matriz m) →
  buscar "nombres" d = JList <$> noms →
  Forall (λ fila, length fila = length m) m →
  ∃ m',
    cargar_desde_json leer_json py_ne py_max py_str str_exn ruta
    = (Some (json_de_matriz m'),
       Some (match noms with
             | Some l => if bool_decide (length l = length m) then JList l
                         else JList (nombre_por_defecto <$> seq 0 (length m))
             | None => JList (nombre_por_defecto <$> seq 0 (length m))
             end),
       None) ∧
    length m' = length m ∧ Forall (λ fila, length fila = length m) m' ∧
    ∀ i j, (i < length m)%nat → (j < length m)%nat →
      celda m' i j = celda m i j `max` celda m j i ∧ celda m' i j = celda m' j i.
Proof.
  intros Hne Hmax Hleer Hmat Hnom Hf.
  assert (de_orden (length m) m) as Hm by done.
  destruct (simetrizar_entera_pares (length m) m Hm) as [[Hl' Hf'] Hc].
  exists (foldl simetrizar_entera m (pares (length m))). split_and!; [|done|done|].
  - unfold cargar_desde_json, intento. rewrite Hleer. simpl. rewrite Hmat.
    rewrite bool_decide_eq_true_2 by by eexists. simpl.
    by rewrite (formato_matriz_entera py_ne py_max Hne Hmax d m noms Hmat Hnom Hm).
  - intros i j Hi Hj. rewrite !Hc by done. lia.
Qed.

Lemma cargar_desde_json_simetrica_testigo :
  ∃ m',
    cargar_desde_json
      (un_archivo (JDict [("matriz", json_de_matriz [[0; 2]; [3; 0]])]))
      ne_enteros max_enteros str_cadenas (λ _, "error") "grafo.json"
    = (Some (json_de_matriz m'),
       Some (JList (nombre_por_defecto <$> seq 0 2)), None) ∧
    length m' = 2%nat ∧ Forall (λ fila, length fila = 2%nat) m' ∧
    ∀ i j, (i < 2)%nat → (j < 2)%nat →
      celda m' i j = celda [[0; 2]; [3; 0]] i j `max` celda [[0; 2]; [3; 0]] j i ∧
      celda m' i j = celda m' j i.
Proof.
  apply (cargar_desde_json_simetrica
           (un_archivo (JDict [("matriz", json_de_matriz [[0; 2]; [3; 0]])]))
           ne_enteros max_enteros str_cadenas (λ _, "error"%string) "grafo.json"
           [("matriz"%string, json_de_matriz [[0; 2]; [3; 0]])] [[0; 2]; [3; 0]] None).
  - done.
  - done.
  - done.
  - done.
  - done.
  - repeat constructor.
Defined.

(** X14. A file whose ["matriz"] is a list of lists in which some row has
    a length other than the number of rows: the loader returns the
    message of the matrix that is not square, and neither a matrix nor
    names. *)
Theorem cargar_desde_json_no_cuadrada
    (leer_json : string → result json) (py_ne : json → json → bool)
    (py_max : json → json → result json) (py_str : json → string)
    (str_exn : exn → string) (ruta : string)
    (d : list (string * json)) (filas : list (list json)) :
  leer_json ruta = Ok (JDict d) →
  buscar "matriz" d = Some (JList (JList <$> filas)) →
  Exists (λ fila, length fila ≠ length filas) filas →
  cargar_desde_json leer_json py_ne py_max py_str str_exn ruta
  = (None, None, Some mensaje_no_cuadrada).
Proof.
  intros Hleer Hmat Hex. unfold cargar_desde_json, intento. rewrite Hleer. simpl.
  rewrite Hmat. rewrite bool_decide_eq_true_2 by by eexists. simpl.
  unfold formato_matriz, py_clave. rewrite Hmat. simpl. rewrite length_fmap.
  rewrite no_cuadrada_detecta; [done| |].
  - apply Forall_fmap, Forall_forall. intros l _. by exists l.
  - apply Exists_fmap. eapply Exists_impl; [exact Hex|]. simpl. congruence.
Qed.

Lemma cargar_desde_json_no_cuadrada_testigo :
  cargar_desde_json
    (un_archivo (JDict [("matriz", JList (JList <$> [[JInt 0; JInt 1]]))]))
    ne_enteros max_enteros str_cadenas (λ _, "error") "grafo.json"
  = (None, None, Some mensaje_no_cuadrada).
Proof.
  apply (cargar_desde_json_no_cuadrada
           (un_archivo (JDict [("matriz", JList (JList <$> [[JInt 0; JInt 1]]))]))
           ne_enteros max_enteros str_cadenas (λ _, "error"%string) "grafo.json"
           [("matriz"%string, JList (JList <$> [[JInt 0; JInt 1]]))] [[JInt 0; JInt 1]]).
  - done.
  - done.
  - apply Exists_cons_hd. simpl. lia.
Defined.

Lemma cargar_de_orden (m : list (list Z)) (ns : list string) (g : string) :
  de_orden (length m) m → length ns = length m →
  ∃ ga, cargar m ns g = Ok ga ∧ matriz ga = m ∧ nombres ga = ns ∧ N ga = length m.
Proof.
  intros [_ Hf] Hns.
  unfold cargar. rewrite (np_array_ok m (length m)) by done. simpl.
  destruct (plegar_ok (λ _, True) (agregar_arista m ns) (pares_superiores (length m)))
    with (s := (∅ : gmap string (gmap string Z))) as (g' & -> & _); [|done|by eexists].
  intros s [i j] Hij _. apply elem_of_pares_superiores in Hij.
  destruct (de_orden_lookup (length m) m i j) as (fila & Hfila & _ & Hw); [done|lia|lia|].
  destruct (celda_np_ok _ _ _ _ _ Hfila Hw) as [Hnp _].
  unfold agregar_arista. simpl. rewrite Hnp. simpl.
  case_bool_decide; [|by eexists].
  destruct (lookup_lt_is_Some_2 ns i) as [a Ha]; [lia|].
  destruct (lookup_lt_is_Some_2 ns j) as [b Hb]; [lia|].
  rewrite (indexar_ok _ _ _ Ha). simpl. rewrite (indexar_ok _ _ _ Hb). simpl.
  by eexists.
Qed.

Lemma nombres_por_defecto_cadenas (l : list nat) :
  ∃ ns, nombre_por_defecto <$> l = JStr <$> ns ∧ length ns = length l.
Proof.
  induction l as [|i l (ns & Hns & Hl)]; [by exists []|].
  rewrite fmap_cons, Hns. unfold nombre_por_defecto.
  case_bool_decide; eexists (_ :: ns); simpl; by rewrite Hl.
Qed.

(** X15. A file whose ["matriz"] is a square matrix of integers, with
    ["nombres"] absent or a list of strings: what the loader returns is
    loaded by [cargar] without an error, and the loaded graph has a
    square and symmetric matrix of the order of the file and one name
    for each node. *)
Theorem cargar_desde_json_y_cargar
    (leer_json : string → result json) (py_ne : json → json → bool)
    (py_max : json → json → result json) (py_str : json → string)
    (str_exn : exn → string) (ruta : string)
    (d : list (string * json)) (m : list (list Z)) (noms : option (list string))
    (g : string) :
  (∀ a b, py_ne (JInt a) (JInt b) = negb (bool_decide (a = b))) →
  (∀ a b, py_max (JInt a) (JInt b) = Ok (JInt (a `max` b))) →
  leer_json ruta = Ok (JDict d) →
  buscar "matriz" d = Some (json_de_matriz m) →
  buscar "nombres" d = (λ l, JList (JStr <$> l)) <$> noms →
  Forall (λ fila, length fila = length m) m →
  ∃ m' ns ga,
    cargar_desde_json leer_json py_ne py_max py_str str_exn ruta
    = (Some (json_de_matriz m'), Some (JList (JStr <$> ns)), None) ∧
    cargar m' ns g = Ok ga ∧
    cuadrada ga ∧ N ga = length m ∧ length (nombres ga) = N ga ∧
    ∀ i j, (i < N ga)%nat → (j < N ga)%nat →
      celda (matriz ga) i j = celda (matriz ga) j i.
Proof.
  intros Hne Hmax Hleer Hmat Hnom Hf.
  assert (de_orden (length m) m) as Hm by done.
  destruct (simetrizar_entera_pares (length m) m Hm) as [[Hl' Hf'] Hc].
  set (m' := foldl simetrizar_entera m (pares (length m))) in *.
  assert (∃ ns, length ns = length m ∧
            formato_matriz py_ne py_max (JDict d)
            = Ok (Exito (json_de_matriz m') (JList (JStr <$> ns)))) as (ns & Hns & Hfm).
  { rewrite (formato_matriz_entera py_ne py_max Hne Hmax d m
               ((λ l : list string, JStr <$> l) <$> noms) Hmat); [|by destruct noms|done].
    fold m'. destruct noms as [l|]; simpl.
    - rewrite length_fmap. case_bool_decide as Hl; [by exists l|].
      destruct (nombres_por_defecto_cadenas (seq 0 (length m))) as (ns & -> & Hns).
      exists ns. by rewrite Hns, length_seq.
    - destruct (nombres_por_defecto_cadenas (seq 0 (length m))) as (ns & -> & Hns).
      exists ns. by rewrite Hns, length_seq. }
  destruct (cargar_de_orden m' ns g) as (ga & Hga & H1 & H2 & H3).
  { split; [done|]. by rewrite Hl'. }
  { by rewrite Hl'. }
  exists m', ns, ga. split_and!.
  - unfold cargar_desde_json, intento. rewrite Hleer. simpl. rewrite Hmat.
    rewrite bool_decide_eq_true_2 by by eexists. simpl. by rewrite Hfm.
  - done.
  - split; rewrite H1, H3, Hl'; [done|]. done.
  - by rewrite H3.
  - by rewrite H2, H3, Hl'.
  - intros i j Hi Hj. rewrite H3, Hl' in Hi, Hj. rewrite H1, !Hc by done. lia.
Qed.

Lemma cargar_desde_json_y_cargar_testigo :
  ∃ m' ns ga,
    cargar_desde_json
      (un_archivo (JDict [("matriz", json_de_matriz [[0; 2]; [3; 0]])]))
      ne_enteros max_enteros str_cadenas (λ _, "error") "grafo.json"
    = (Some (json_de_matriz m'), Some (JList (JStr <$> ns)), None) ∧
    cargar m' ns "Custom" = Ok ga ∧
    cuadrada ga ∧ N ga = 2%nat ∧ length (nombres ga) = N ga ∧
    ∀ i j, (i < N ga)%nat → (j < N ga)%nat →
      celda (matriz ga) i j = celda (matriz ga) j i.
Proof.
  apply (cargar_desde_json_y_cargar
           (un_archivo (JDict [("matriz", json_de_matriz [[0; 2]; [3; 0]])]))
           ne_enteros max_enteros str_cadenas (λ _, "error"%string) "grafo.json"
           [("matriz"%string, json_de_matriz [[0; 2]; [3; 0]])] [[0; 2]; [3; 0]] None
           "Custom").
  - done.
  - done.
  - done.
  - done.
  - done.
  - repeat constructor.
Defined.

(** ** Lists of edges in a JSON file

    [une py_str e a b]: the edge [e] of the file joins the names [a] and
    [b], in one direction or the other. *)

Lemma cadena_menor_trans (a b c : string) :
  cadena_menor a b → cadena_menor b c → cadena_menor a c.
Proof.
  unfold cadena_menor, String.ltb. intros Hab Hbc.
  destruct (String.compare a b) eqn:E1; try done.
  destruct (String.compare b c) eqn:E2; try done.
  apply OrderedTypeEx.String_as_OT.cmp_lt in E1, E2.
  pose proof (OrderedTypeEx.String_as_OT.lt_trans _ _ _ E1 E2) as E3.
  apply OrderedTypeEx.String_as_OT.cmp_lt in E3.
  unfold OrderedTypeEx.String_as_OT.cmp in E3. by rewrite E3.
Qed.

Lemma cadena_menor_irrefl (a : string) : ¬ cadena_menor a a.
Proof.
  unfold cadena_menor, String.ltb. pose proof (String.compare_antisym a a) as H.
  destruct (String.compare a a); done.
Qed.

Lemma cadena_menor_total (a b : string) :
  String.eqb a b = false → String.ltb a b = false → cadena_menor b a.
Proof.
  unfold cadena_menor, String.ltb. intros Heq.
  rewrite (String.compare_antisym b a).
  destruct (String.compare a b) eqn:E; [|done|done].
  apply String.compare_eq_iff in E. subst. by rewrite String.eqb_refl in Heq.
Qed.

Lemma insertar_cadena_spec (s : string) (l : list string) :
  StronglySorted cadena_menor l →
  StronglySorted cadena_menor (insertar_cadena s l) ∧
  ∀ x, x ∈ insertar_cadena s l ↔ x = s ∨ x ∈ l.
Proof.
  induction l as [|t r IH]; intros Hs; simpl.
  - split; [repeat constructor|]. intros x.
    rewrite list_elem_of_singleton, elem_of_nil. tauto.
  - apply StronglySorted_inv in Hs as [Hr Ht].
    destruct (String.eqb s t) eqn:Heq.
    { apply String.eqb_eq in Heq as ->. split; [by constructor|].
      intros x. rewrite elem_of_cons. tauto. }
    destruct (String.ltb s t) eqn:Hlt.
    { split; [|intros x; by rewrite !elem_of_cons].
      constructor; [by constructor|]. constructor; [done|].
      eapply Forall_impl; [exact Ht|]. intros y Hy. by eapply cadena_menor_trans. }
    destruct (IH Hr) as [Hs' Hin]. split.
    + constructor; [done|]. apply Forall_forall. intros y [->|Hy]%Hin.
      * by apply cadena_menor_total.
      * eapply Forall_forall in Ht; eauto.
    + intros x. rewrite !elem_of_cons, Hin. tauto.
Qed.

Lemma ordenar_conjunto_spec (l : list string) :
  StronglySorted cadena_menor (ordenar_conjunto l) ∧
  ∀ x, x ∈ ordenar_conjunto l ↔ x ∈ l.
Proof.
  unfold ordenar_conjunto.
  assert (∀ acc, StronglySorted cadena_menor acc →
            StronglySorted cadena_menor (foldl (λ acc s, insertar_cadena s acc) acc l) ∧
            ∀ x, x ∈ foldl (λ acc s, insertar_cadena s acc) acc l ↔ x ∈ acc ∨ x ∈ l) as H.
  { induction l as [|s l IH]; intros acc Hacc; simpl.
    - split; [done|]. intros x. rewrite elem_of_nil. tauto.
    - destruct (insertar_cadena_spec s acc Hacc) as [Hs Hin].
      destruct (IH _ Hs) as [Hs' Hin']. split; [done|].
      intros x. rewrite Hin', Hin, elem_of_cons. tauto. }
  destruct (H [] ltac:(constructor)) as [Hs Hin]. split; [done|].
  intros x. rewrite Hin, elem_of_nil. tauto.
Qed.

Lemma ordenada_NoDup (l : list string) : StronglySorted cadena_menor l → NoDup l.
Proof.
  induction 1 as [|a l _ IH Ha]; constructor; [|done].
  intros Hin. eapply Forall_forall in Ha; [|exact Hin]. by apply cadena_menor_irrefl in Ha.
Qed.

Lemma indice_spec (ns : list string) (s : string) :
  NoDup ns → s ∈ ns →
  (indice ns s < length ns)%nat ∧ ns !! indice ns s = Some s ∧
  ∀ i, ns !! i = Some s → i = indice ns s.
Proof.
  intros Hnd Hin. unfold indice.
  destruct (list_find_elem_of (λ t, t = s) ns s Hin eq_refl) as [[k t] Hk].
  rewrite Hk. simpl. apply list_find_Some in Hk as (Hk & -> & _).
  split_and!; [by eapply lookup_lt_Some|done|].
  intros i Hi. by eapply NoDup_lookup.
Qed.

Lemma celda_alter {A : Type} (m : list (list A)) (u v : nat) (p : A) (i j : nat) :
  (∃ fila, m !! u = Some fila ∧ (v < length fila)%nat) →
  alter (λ fila, <[v := p]> fila) u m !! i ≫= (.!! j)
  = if bool_decide (i = u ∧ j = v) then Some p else m !! i ≫= (.!! j).
Proof.
  intros (fila & Hfila & Hv). destruct (decide (i = u)) as [->|Hi].
  - rewrite list_lookup_alter, Hfila. simpl. rewrite decide_True by done. simpl.
    destruct (decide (j = v)) as [->|Hj].
    + rewrite list_lookup_insert_eq by done. by rewrite bool_decide_eq_true_2.
    + rewrite list_lookup_insert_ne by done. by rewrite bool_decide_eq_false_2 by tauto.
  - rewrite list_lookup_alter_ne by done. by rewrite bool_decide_eq_false_2 by tauto.
Qed.

Lemma forma_alter {A : Type} (n : nat) (m : list (list A)) (u v : nat) (p : A) :
  length m = n → Forall (λ fila, length fila = n) m →
  length (alter (λ fila, <[v := p]> fila) u m) = n ∧
  Forall (λ fila, length fila = n) (alter (λ fila, <[v := p]> fila) u m).
Proof.
  intros Hl Hf. split; [by rewrite length_alter|].
  apply Forall_alter; [done|]. intros fila _ H. by rewrite length_insert.
Qed.

Lemma forma_lookup {A : Type} (n : nat) (m : list (list A)) (u v : nat) :
  length m = n → Forall (λ fila, length fila = n) m → (u < n)%nat → (v < n)%nat →
  ∃ fila, m !! u = Some fila ∧ (v < length fila)%nat.
Proof.
  intros Hl Hf Hu Hv. destruct (lookup_lt_is_Some_2 m u) as [fila Hfila]; [lia|].
  exists fila. split; [done|]. eapply Forall_lookup_1 in Hf; eauto. simpl in Hf. lia.
Qed.

Lemma elem_of_extremos (py_str : json → string) (es : list (list (string * json)))
    (s : string) :
  Forall (λ e, is_Some (buscar "origen" e) ∧ is_Some (buscar "destino" e)) es →
  s ∈ extremos py_str es ↔ ∃ e b, e ∈ es ∧ une py_str e s b.
Proof.
  intros Hes. unfold extremos. rewrite list_elem_of_bind. split.
  - intros (e & Hs & He). exists e.
    destruct (buscar "origen" e) as [o|] eqn:Ho; [|by apply elem_of_nil in Hs].
    destruct (buscar "destino" e) as [d|] eqn:Hd; [|by apply elem_of_nil in Hs].
    apply elem_of_cons in Hs as [->|Hs].
    + exists (py_str d). split; [done|]. exists o, d. split_and!; [done..|]. by left.
    + apply list_elem_of_singleton in Hs as ->.
      exists (py_str o). split; [done|]. exists o, d. split_and!; [done..|]. by right.
  - intros (e & b & He & o & d & Ho & Hd & Hab). exists e. split; [|done].
    rewrite Ho, Hd. destruct Hab as [[<- _]|[_ <-]]; [by left|]. right. by left.
Qed.

Lemma plegar_recoger_nodos (py_str : json → string) (es : list (list (string * json))) :
  Forall (λ e, is_Some (buscar "origen" e) ∧ is_Some (buscar "destino" e)) es →
  ∀ acc, plegar (recoger_nodos py_str) acc (JDict <$> es)
         = Ok (acc ++ extremos py_str es).
Proof.
  induction 1 as [|e es [[o Ho] [d Hd]] _ IH]; intros acc.
  - simpl. by rewrite app_nil_r.
  - assert (recoger_nodos py_str acc (JDict e) = Ok (acc ++ [py_str o; py_str d])) as Hr.
    { unfold recoger_nodos, py_clave. by rewrite Ho, Hd. }
    rewrite fmap_cons. cbn [plegar]. rewrite Hr. cbn [mbind result_bind]. rewrite IH.
    unfold extremos. rewrite bind_cons, Ho, Hd. by rewrite <- app_assoc.
Qed.

Section aristas.
Variable py_str : json → string.
Variable ns : list string.
Hypothesis ns_NoDup : NoDup ns.

(** The matrix after the edges [es], from the matrix of zeros. *)
Lemma plegar_poner_arista (es : list (list (string * json))) :
  Forall (λ e, ∃ o d, buscar "origen" e = Some o ∧ buscar "destino" e = Some d ∧
                      py_str o ∈ ns ∧ py_str d ∈ ns) es →
  ∃ m, plegar (poner_arista py_str ns)
         (replicate (length ns) (replicate (length ns) (JInt 0))) (JDict <$> es) = Ok m ∧
       length m = length ns ∧ Forall (λ fila, length fila = length ns) m ∧
       ∀ i j a b, ns !! i = Some a → ns !! j = Some b →
         m !! i ≫= (.!! j) = m !! j ≫= (.!! i) ∧
         ((∀ e, e ∈ es → ¬ une py_str e a b) → m !! i ≫= (.!! j) = Some (JInt 0)) ∧
         (∀ l1 e l2, es = l1 ++ e :: l2 → une py_str e a b →
            (∀ x, x ∈ l2 → ¬ une py_str x a b) →
            m !! i ≫= (.!! j) = Some (default (JInt 1) (buscar "peso" e))).
Proof.
  induction es as [|e es IH] using rev_ind; intros Hes.
  - exists (replicate (length ns) (replicate (length ns) (JInt 0))).
    split_and!; [done|by rewrite length_replicate| |].
    + apply Forall_replicate. by rewrite length_replicate.
    + intros i j a b Hi Hj. apply lookup_lt_Some in Hi, Hj.
      assert (∀ x y, (x < length ns)%nat → (y < length ns)%nat →
                replicate (length ns) (replicate (length ns) (JInt 0)) !! x ≫= (.!! y)
                = Some (JInt 0)) as Hz.
      { intros x y Hx Hy. rewrite lookup_replicate_2 by done. simpl.
        by rewrite lookup_replicate_2. }
      rewrite !Hz by done. split_and!; [done|done|].
      intros l1 e l2 Hl. by destruct l1.
  - apply Forall_app in Hes as [Hes He]. apply Forall_inv in He.
    destruct He as (o & d & Ho & Hd & Hon & Hdn).
    destruct (IH Hes) as (m & Hm & Hlen & Hf & Hc).
    destruct (indice_spec ns (py_str o) ns_NoDup Hon) as (Hu & Hul & Huu).
    destruct (indice_spec ns (py_str d) ns_NoDup Hdn) as (Hv & Hvl & Hvu).
    set (u := indice ns (py_str o)) in *. set (v := indice ns (py_str d)) in *.
    set (p := default (JInt 1) (buscar "peso" e)).
    set (m1 := alter (λ fila, <[v := p]> fila) u m).
    set (m2 := alter (λ fila, <[u := p]> fila) v m1).
    destruct (forma_alter (length ns) m u v p Hlen Hf) as [Hlen1 Hf1]. fold m1 in Hlen1, Hf1.
    destruct (forma_alter (length ns) m1 v u p Hlen1 Hf1) as [Hlen2 Hf2].
    fold m2 in Hlen2, Hf2.
    assert (∀ i j, m2 !! i ≫= (.!! j)
                   = if bool_decide ((i = u ∧ j = v) ∨ (i = v ∧ j = u)) then Some p
                     else m !! i ≫= (.!! j)) as Hc2.
    { intros i j. unfold m2. rewrite celda_alter by (by apply (forma_lookup (length ns))).
      unfold m1. rewrite celda_alter by (by apply (forma_lookup (length ns))).
      repeat case_bool_decide; try done; exfalso; tauto. }
    assert (∀ i j a b, ns !! i = Some a → ns !! j = Some b →
              ((i = u ∧ j = v) ∨ (i = v ∧ j = u)) ↔ une py_str e a b) as Hune.
    { intros i j a b Hi Hj. split.
      - intros Hij. exists o, d. split_and!; [done..|].
        destruct Hij as [[-> ->]|[-> ->]]; [left|right]; split; congruence.
      - intros (o' & d' & Ho' & Hd' & Hab).
        assert (o' = o) as -> by congruence. assert (d' = d) as -> by congruence.
        destruct Hab as [[<- <-]|[<- <-]]; [left|right]; split; by (apply Huu || apply Hvu). }
    exists m2. split_and!; [|done|done|].
    + rewrite fmap_app, plegar_app, Hm. simpl.
      unfold poner_arista. simpl. rewrite Ho, Hd. simpl. done.
    + intros i j a b Hi Hj. destruct (Hc i j a b Hi Hj) as (Hsim & Hno & Hsi).
      rewrite !Hc2. split_and!.
      * rewrite Hsim. repeat case_bool_decide; try done; exfalso; tauto.
      * intros Hnone. rewrite bool_decide_eq_false_2.
        -- apply Hno. intros x Hx. apply Hnone. apply elem_of_app. by left.
        -- intros Hij. apply (Hnone e); [|by eapply Hune].
           apply elem_of_app. right. by apply list_elem_of_singleton.
      * intros l1 x l2 Hl Hx Hl2. destruct l2 as [|y l2 _] using rev_ind.
        -- apply app_inj_tail in Hl as [-> ->].
           rewrite bool_decide_eq_true_2; [done|]. by eapply Hune.
        -- rewrite app_comm_cons, app_assoc in Hl. apply app_inj_tail in Hl as [-> ->].
           rewrite bool_decide_eq_false_2.
           ++ apply (Hsi l1 x l2); [done|done|].
              intros z Hz. apply Hl2. apply elem_of_app. by left.
           ++ intros Hij. apply (Hl2 y); [|by eapply Hune].
              apply elem_of_app. right. by apply list_elem_of_singleton.
Qed.

End aristas.

(** X16. A file without ["matriz"] whose ["aristas"] is a list of
    objects with ["origen"] and ["destino"]: the loader returns no
    error; the names are the names of the ends of the edges, each one
    once, in ascending order; the matrix is square, of the order of the
    names, and symmetric; the cell of two names is 0 when no edge of the
    file joins them, and otherwise the ["peso"] (1 when absent) of the
    last edge of the file that joins them, in either direction. *)
Theorem cargar_desde_json_aristas_matriz
    (leer_json : string → result json) (py_ne : json → json → bool)
    (py_max : json → json → result json) (py_str : json → string)
    (str_exn : exn → string) (ruta : string)
    (d : list (string * json)) (es : list (list (string * json))) :
  leer_json ruta = Ok (JDict d) →
  buscar "matriz" d = None →
  buscar "aristas" d = Some (JList (JDict <$> es)) →
  Forall (λ e, is_Some (buscar "origen" e) ∧ is_Some (buscar "destino" e)) es →
  ∃ m ns,
    cargar_desde_json leer_json py_ne py_max py_str str_exn ruta
    = (Some (JList (JList <$> m)), Some (JList (JStr <$> ns)), None) ∧
    StronglySorted cadena_menor ns ∧
    (∀ s, s ∈ ns ↔ ∃ e b, e ∈ es ∧ une py_str e s b) ∧
    length m = length ns ∧ Forall (λ fila, length fila = length ns) m ∧
    ∀ i j a b, ns !! i = Some a → ns !! j = Some b →
      m !! i ≫= (.!! j) = m !! j ≫= (.!! i) ∧
      ((∀ e, e ∈ es → ¬ une py_str e a b) → m !! i ≫= (.!! j) = Some (JInt 0)) ∧
      (∀ l1 e l2, es = l1 ++ e :: l2 → une py_str e a b →
         (∀ x, x ∈ l2 → ¬ une py_str x a b) →
         m !! i ≫= (.!! j) = Some (default (JInt 1) (buscar "peso" e))).
Proof.
  intros Hleer Hmat Har Hes.
  destruct (ordenar_conjunto_spec (extremos py_str es)) as [Hsort Hin].
  set (ns := ordenar_conjunto (extremos py_str es)) in *.
  assert (∀ s, s ∈ ns ↔ ∃ e b, e ∈ es ∧ une py_str e s b) as Hns.
  { intros s. rewrite Hin. by apply elem_of_extremos. }
  destruct (plegar_poner_arista py_str ns (ordenada_NoDup ns Hsort) es)
    as (m & Hm & Hlen & Hf & Hc).
  { apply Forall_forall. intros e He.
    eapply Forall_forall in Hes as [[o Ho] [dd Hd]]; [|exact He].
    exists o, dd. split_and!; [done|done| |].
    - apply Hns. exists e, (py_str dd). split; [done|]. exists o, dd.
      split_and!; [done..|]. by left.
    - apply Hns. exists e, (py_str o). split; [done|]. exists o, dd.
      split_and!; [done..|]. by right. }
  exists m, ns. split_and!; [|done..].
  unfold cargar_desde_json, intento. rewrite Hleer. simpl. rewrite Hmat.
  rewrite bool_decide_eq_false_2 by (by intros [? ?]). simpl. rewrite Har.
  rewrite bool_decide_eq_true_2 by by eexists. simpl.
  unfold formato_aristas, py_clave. rewrite Har. simpl.
  rewrite (plegar_recoger_nodos py_str es Hes []). simpl. fold ns. by rewrite Hm.
Qed.

Lemma cargar_desde_json_aristas_matriz_testigo :
  ∃ m ns,
    cargar_desde_json
      (un_archivo (JDict [("aristas",
         JList (JDict <$> [[("origen", JStr "B"); ("destino", JStr "A"); ("peso", JInt 5)]]))]))
      ne_enteros max_enteros str_cadenas (λ _, "error") "grafo.json"
    = (Some (JList (JList <$> m)), Some (JList (JStr <$> ns)), None) ∧
    StronglySorted cadena_menor ns ∧
    (∀ s, s ∈ ns ↔ ∃ e b,
       e ∈ [[("origen", JStr "B"); ("destino", JStr "A"); ("peso", JInt 5)]]%string ∧
       une str_cadenas e s b) ∧
    length m = length ns ∧ Forall (λ fila, length fila = length ns) m ∧
    ∀ i j a b, ns !! i = Some a → ns !! j = Some b →
      m !! i ≫= (.!! j) = m !! j ≫= (.!! i) ∧
      ((∀ e, e ∈ [[("origen", JStr "B"); ("destino", JStr "A"); ("peso", JInt 5)]]%string →
             ¬ une str_cadenas e a b) → m !! i ≫= (.!! j) = Some (JInt 0)) ∧
      (∀ l1 e l2,
         [[("origen", JStr "B"); ("destino", JStr "A"); ("peso", JInt 5)]]%string
         = l1 ++ e :: l2 → une str_cadenas e a b →
         (∀ x, x ∈ l2 → ¬ une str_cadenas x a b) →
         m !! i ≫= (.!! j) = Some (default (JInt 1) (buscar "peso" e))).
Proof.
  apply (cargar_desde_json_aristas_matriz
           (un_archivo (JDict [("aristas",
              JList (JDict <$> [[("origen", JStr "B"); ("destino", JStr "A");
                                 ("peso", JInt 5)]]))]))
           ne_enteros max_enteros str_cadenas (λ _, "error"%string) "grafo.json"
           [("aristas"%string,
             JList (JDict <$> [[("origen", JStr "B"); ("destino", JStr "A");
                                ("peso", JInt 5)]]))]
           [[("origen", JStr "B"); ("destino", JStr "A"); ("peso", JInt 5)]]%string).
  - done.
  - done.
  - done.
  - repeat constructor; by eexists.
Defined.

(** ** The choice of the nodes ([app.py], [_run_algorithm])

    [l.index(s)]: the first index of [s]; [None] is the [ValueError]. *)

Lemma lista_index_spec (l : list string) (s : string) :
  s ∈ l →
  ∃ i, lista_index l s = Some i ∧ l !! i = Some s ∧ ∀ j, l !! j = Some s → (i ≤ j)%nat.
Proof.
  intros Hin. unfold lista_index.
  destruct (list_find_elem_of (λ t, t = s) l s Hin eq_refl) as [[k t] Hk].
  rewrite Hk. simpl. exists k. split; [done|].
  apply list_find_Some in Hk as (Hk & -> & Hmin). split; [done|].
  intros j Hj. destruct (decide (k ≤ j)%nat); [done|].
  destruct (Hmin j s Hj); [lia|done].
Qed.

(** X17. For a loaded graph with a square matrix, at least one node and
    one name for each node, the indices that [_run_algorithm] passes to
    the algorithms are indices of nodes: a name of the list gives the
    first index that carries it (its own index when the names are all
    different), any other text gives 0 for the origin and [N - 1] for
    the destination; and with the origin chosen so, BFS raises no
    exception, and DFS returns its steps when the recursion limit leaves
    room for one nested call of [_dfs] for each node. *)
Theorem elegir_indices_validos (limite : nat) (ga : GrafoActivo)
    (origen_name dest_name : string) :
  cuadrada ga → length (nombres ga) = N ga → (0 < N ga)%nat → (N ga ≤ limite)%nat →
  let o := elegir_origen ga origen_name in
  let d := elegir_destino ga dest_name in
  0 ≤ o < Z.of_nat (N ga) ∧ 0 ≤ d < Z.of_nat (N ga) ∧
  (∀ i, nombres ga !! i = Some origen_name →
        nombres ga !! Z.to_nat o = Some origen_name ∧ (Z.to_nat o ≤ i)%nat ∧
        (NoDup (nombres ga) → o = Z.of_nat i)) ∧
  (∀ i, nombres ga !! i = Some dest_name →
        nombres ga !! Z.to_nat d = Some dest_name ∧ (Z.to_nat d ≤ i)%nat ∧
        (NoDup (nombres ga) → d = Z.of_nat i)) ∧
  (origen_name ∉ nombres ga → o = 0) ∧
  (dest_name ∉ nombres ga → d = Z.of_nat (N ga) - 1) ∧
  (∃ ps, BFS.bfs_pasos ga o = Ok ps) ∧
  (∃ ps, DFS.dfs_pasos limite ga (Z.to_nat o) = Ok ps).
Proof.
  intros Hc Hlen HN Hlim. cbv zeta.
  assert (∀ s (z : Z), 0 ≤ z < Z.of_nat (N ga) →
            let x := if bool_decide (s ∈ nombres ga)
                     then Z.of_nat (default O (lista_index (nombres ga) s)) else z in
            0 ≤ x < Z.of_nat (N ga) ∧
            (∀ i, nombres ga !! i = Some s →
                  nombres ga !! Z.to_nat x = Some s ∧ (Z.to_nat x ≤ i)%nat ∧
                  (NoDup (nombres ga) → x = Z.of_nat i)) ∧
            (s ∉ nombres ga → x = z)) as H.
  { intros s z Hz. cbv zeta. case_bool_decide as Hin.
    - destruct (lista_index_spec _ _ Hin) as (k & -> & Hk & Hmin). simpl.
      pose proof (lookup_lt_Some _ _ _ Hk). split_and!; [lia|lia| |done].
      intros i Hi. rewrite Nat2Z.id. split_and!; [done|by apply Hmin|].
      intros Hnd. f_equal. by eapply NoDup_lookup.
    - split_and!; [lia|lia| |done]. intros i Hi. destruct Hin.
      by eapply list_elem_of_lookup_2. }
  destruct (H origen_name 0) as (Ho & Ho1 & Ho2); [lia|].
  destruct (H dest_name (Z.of_nat (N ga) - 1)) as (Hd & Hd1 & Hd2); [lia|].
  fold (elegir_origen ga origen_name) in Ho, Ho1, Ho2.
  fold (elegir_destino ga dest_name) in Hd, Hd1, Hd2.
  split_and!; try done; try lia.
  - destruct (bfs_bucle_termina ga (elegir_origen ga origen_name) Hc) as (s & Hs & _).
    { unfold indice_valido. lia. }
    exists (BFS.pasos s). unfold BFS.bfs_pasos. by rewrite Hs.
  - destruct (dfs_pasos_crece limite ga (Z.to_nat (elegir_origen ga origen_name)))
      as (s & _ & Hs & _); [done|lia|done|]. by eexists.
Qed.

Lemma elegir_indices_validos_testigo :
  let o := elegir_origen grafo2 "T" in
  let d := elegir_destino grafo2 "W" in
  0 ≤ o < Z.of_nat (N grafo2) ∧ 0 ≤ d < Z.of_nat (N grafo2) ∧
  (∀ i, nombres grafo2 !! i = Some "T"%string →
        nombres grafo2 !! Z.to_nat o = Some "T"%string ∧ (Z.to_nat o ≤ i)%nat ∧
        (NoDup (nombres grafo2) → o = Z.of_nat i)) ∧
  (∀ i, nombres grafo2 !! i = Some "W"%string →
        nombres grafo2 !! Z.to_nat d = Some "W"%string ∧ (Z.to_nat d ≤ i)%nat ∧
        (NoDup (nombres grafo2) → d = Z.of_nat i)) ∧
  ("T"%string ∉ nombres grafo2 → o = 0) ∧
  ("W"%string ∉ nombres grafo2 → d = Z.of_nat (N grafo2) - 1) ∧
  (∃ ps, BFS.bfs_pasos grafo2 o = Ok ps) ∧
  (∃ ps, DFS.dfs_pasos 7 grafo2 (Z.to_nat o) = Ok ps).
Proof.
  apply (elegir_indices_validos 7 grafo2 "T" "W").
  - apply grafo2_cuadrada.
  - reflexivity.
  - rewrite (proj2 grafo2_cargado). lia.
  - rewrite (proj2 grafo2_cargado). lia.
Defined.

(** ** The order of the steps of Dijkstra

    [dij_distancia p d]: in the step [p], the distance of its node is [d]. *)

Lemma StronglySorted_snoc {A : Type} (R : relation A) (l : list A) (x : A) :
  StronglySorted R l → Forall (λ y, R y x) l → StronglySorted R (l ++ [x]).
Proof.
  induction 1 as [|a l Hl IH Ha]; intros Hx; simpl.
  - repeat constructor.
  - apply Forall_cons in Hx as [Hax Hx]. constructor; [by apply IH|].
    apply Forall_app. split; [done|]. by constructor.
Qed.

Lemma StronglySorted_lookup {A : Type} (R : relation A) (l : list A) (i j : nat) (x y : A) :
  StronglySorted R l → l !! i = Some x → l !! j = Some y → (i < j)%nat → R x y.
Proof.
  intros Hs. revert i j. induction Hs as [|a l Hl IH Ha]; intros i j Hi Hj Hij.
  - by rewrite lookup_nil in Hi.
  - destruct j as [|j]; [lia|]. simpl in Hj. destruct i as [|i]; simpl in Hi.
    + injection Hi as <-. eapply Forall_forall in Ha; [done|]. by eapply list_elem_of_lookup_2.
    + apply (IH i j); [done..|lia].
Qed.

Lemma dij_relajar_visitado (ga : GrafoActivo) (costo : Z) (u : nat) (l : list nat) :
  ∀ s, Dijkstra.visitado (foldl (Dijkstra.relajar ga costo u) s l) = Dijkstra.visitado s.
Proof.
  induction l as [|v l IH]; intros s; cbn [foldl]; [done|]. rewrite IH.
  unfold Dijkstra.relajar. case_bool_decide; [|done]. cbv zeta.
  by destruct (Z_lt_num _ _).
Qed.

Lemma dij_visitado_pasos (ga : GrafoActivo) (inicio : nat) (s : Dijkstra.estado) (a : nat) :
  dij_inv ga inicio s →
  a ∈ Dijkstra.visitado s ↔ ∃ p, p ∈ Dijkstra.pasos s ∧ Dijkstra.actual p = a.
Proof.
  intros [_ _ Hcre _ _ _ _ _ _ _ _ _].
  destruct (crece_actuales _ _ _ Hcre) as (_ & _ & Hfin). rewrite Hfin.
  rewrite <- list_fmap_compose, list_elem_of_fmap. split.
  - intros [?%elem_of_empty|(p & -> & Hp)]; [done|]. by exists p.
  - intros (p & Hp & <-). right. by exists p.
Qed.

Lemma dij_traza_cuerpo (ga : GrafoActivo) (inicio objetivo : nat) (s : Dijkstra.estado) :
  dij_inv ga inicio s → dij_traza ga inicio objetivo s → objetivo ∉ Dijkstra.visitado s →
  match Dijkstra.cuerpo ga objetivo s with
  | Sigue s' => dij_traza ga inicio objetivo s' ∧ objetivo ∉ Dijkstra.visitado s'
  | Alto s' => dij_traza ga inicio objetivo s' ∧
      ∀ c, camino_de ga inicio objetivo c →
        ∃ p, last (Dijkstra.pasos s') = Some p ∧ Dijkstra.actual p = objetivo
  end.
Proof.
  intros Hinv Htr Hobj.
  pose proof Hinv as [Hlen Hnod Hcre Hord Hini Hcam Hfin Hrel Henc Hcla Hmon Hopt].
  pose proof Htr as [Hfinal Horden Hult].
  unfold Dijkstra.cuerpo.
  destruct (Dijkstra.pq s) as [|[costo u] resto] eqn:Hpq; simpl.
  { split; [done|]. intros c Hc. destruct Hobj.
    destruct (dij_frontera ga inicio s objetivo c Hinv Hc) as [[? _]|(z & dz & Hz & Hdz & _)];
      [done|].
    apply Henc in Hdz; [|done]. by apply elem_of_nil in Hdz. }
  apply StronglySorted_inv in Hord as [Hord Hmin].
  case_bool_decide as Hvis.
  { split; [|done]. by split. }
  destruct (Hcla costo u ltac:(by left)) as (du & Hdu & Hle).
  assert (du = costo) as ->.
  { specialize (Henc u du Hvis Hdu).
    apply elem_of_cons in Henc as [[= ->]|Hin]; [done|].
    eapply Forall_forall in Hmin; [|exact Hin]. unfold entrada_le in Hmin. simpl in Hmin. lia. }
  assert (∀ c, camino_de ga inicio u c → costo ≤ c) as Hoptu.
  { intros c Hc.
    destruct (dij_frontera ga inicio s u c Hinv Hc) as [[? _]|(z & dz & Hz & Hdz & Hle')];
      [done|].
    specialize (Henc z dz Hz Hdz).
    apply elem_of_cons in Henc as [[= -> ->]|Hin]; [done|].
    eapply Forall_forall in Hmin; [|exact Hin]. unfold entrada_le in Hmin. simpl in Hmin. lia. }
  set (p := {| Dijkstra.actual := u; Dijkstra.visitados := {[u]} ∪ Dijkstra.visitado s;
               Dijkstra.p_dist := Dijkstra.dist s; Dijkstra.p_padre := Dijkstra.padre s |}).
  assert (∀ s', Dijkstra.pasos s' = Dijkstra.pasos s ++ [p] →
                dij_traza ga inicio objetivo s') as Hnueva.
  { intros s' Hps. split; rewrite Hps.
    - intros q [Hq|Hq]%elem_of_app; [by apply Hfinal|].
      apply list_elem_of_singleton in Hq as ->. exists costo. split_and!; [done| |done].
      by apply Hcam.
    - apply StronglySorted_snoc; [done|]. apply Forall_forall. intros q Hq d e Hd He.
      unfold dij_distancia in He. simpl in He. rewrite Hdu in He. injection He as <-.
      destruct (Hfinal q Hq) as (d' & Hd' & _ & Hoptq).
      unfold dij_distancia in Hd, Hd'. rewrite Hd in Hd'. injection Hd' as <-.
      assert (Dijkstra.actual q ∈ Dijkstra.visitado s) as Hqv.
      { apply (dij_visitado_pasos ga inicio s _ Hinv). by exists q. }
      destruct (Hfin _ Hqv) as [dx Hdx].
      pose proof (Hoptq dx (Hcam _ _ Hdx)).
      pose proof (Hmon (Dijkstra.actual q) costo u dx Hqv ltac:(by left) Hdx).
      lia.
    - intros i q Hq Hact. rewrite length_app. simpl.
      destruct (decide (i < length (Dijkstra.pasos s))%nat) as [Hi|Hi].
      + rewrite lookup_app_l in Hq by done. destruct Hobj. rewrite <- Hact.
        apply (dij_visitado_pasos ga inicio s _ Hinv). exists q. split; [|done].
        by eapply list_elem_of_lookup_2.
      + pose proof (lookup_lt_Some _ _ _ Hq) as Hlt. rewrite length_app in Hlt.
        simpl in Hlt. lia. }
  case_bool_decide as Hu.
  - split; [by apply Hnueva|]. intros c _. exists p. simpl. split; [|done].
    by rewrite last_snoc.
  - split; [apply Hnueva; by rewrite dij_relajar_pasos|].
    rewrite dij_relajar_visitado. simpl. set_solver.
Qed.

(** X18. For a square matrix whose weights leave room for their sums
    in 64 bits and a start node of the graph, [dijkstra_pasos] returns;
    it expands every node at most once, and when a node is expanded the
    distance recorded for it in that step is already the cost of a
    cheapest walk from the start; these distances never decrease along
    the steps; and when the goal can be reached, the goal is the node of
    the last step and of no other step. *)
Theorem dijkstra_pasos_en_orden (ga : GrafoActivo) (inicio objetivo : nat) :
  cuadrada ga → pesos_acotados ga → (inicio < N ga)%nat →
  ∃ ps camino dist,
    Dijkstra.dijkstra_pasos ga inicio objetivo = Devuelve (ps, camino, dist) ∧
    NoDup (Dijkstra.actual <$> ps) ∧
    (∀ p, p ∈ ps →
       ∃ d, dij_distancia p d ∧ camino_de ga inicio (Dijkstra.actual p) d ∧
            ∀ c, camino_de ga inicio (Dijkstra.actual p) c → d ≤ c) ∧
    (∀ i j p q d e, (i ≤ j)%nat → ps !! i = Some p → ps !! j = Some q →
       dij_distancia p d → dij_distancia q e → d ≤ e) ∧
    (∀ i p, ps !! i = Some p → Dijkstra.actual p = objetivo → S i = length ps) ∧
    (∀ c, camino_de ga inicio objetivo c →
       ∃ p, last ps = Some p ∧ Dijkstra.actual p = objetivo).
Proof.
  intros _ Hac Hi.
  destruct (iterar_termina
              (λ x, dij_cota ga x ∧ dij_inv ga inicio x ∧ dij_traza ga inicio objetivo x ∧
                    objetivo ∉ Dijkstra.visitado x)
              (λ x, dij_fin ga inicio objetivo x ∧ dij_traza ga inicio objetivo x ∧
                    ∀ c, camino_de ga inicio objetivo c →
                      ∃ p, last (Dijkstra.pasos x) = Some p ∧ Dijkstra.actual p = objetivo)
              (dij_medida ga) (Dijkstra.cuerpo ga objetivo))
    with (fuel := Dijkstra.fuel ga) (s := Dijkstra.inicial ga inicio)
    as (s & Hs & [_ Hcre _ _] & [Hfinal Horden Hult] & Hlast).
  - intros x (Hcot & Hx & Htr & Hobj).
    pose proof (dij_cota_cuerpo ga objetivo x Hac Hcot) as H0.
    pose proof (dij_cuerpo_spec ga inicio objetivo x Hac Hcot Hx) as H1.
    pose proof (dij_traza_cuerpo ga inicio objetivo x Hx Htr Hobj) as H2.
    destruct (Dijkstra.cuerpo ga objetivo x); [|by destruct H2].
    destruct H1, H2. done.
  - split_and!; [by apply dij_cota_inicial|by apply dij_inv_inicial| |set_solver].
    split; simpl; [by intros p ?%elem_of_nil|constructor|].
    intros i p H. by rewrite lookup_nil in H.
  - unfold dij_medida, Dijkstra.fuel. simpl.
    pose proof (faltan_length (∅ : gset nat) (seq 0 (N ga))) as Hf.
    rewrite length_seq in Hf. nia.
  - fold (Dijkstra.bucle ga inicio objetivo) in Hs.
    destruct (dij_devuelve ga inicio objetivo Hac Hi) as (s' & camino & Hs' & _ & _ & _ & Hret).
    rewrite Hs in Hs'. injection Hs' as <-.
    exists (Dijkstra.pasos s), camino, (Dijkstra.dist s). split; [done|].
    destruct (crece_actuales _ _ _ Hcre) as (Hnd & _ & _).
    rewrite <- list_fmap_compose in Hnd. split_and!; [done|done| |done|done].
    intros i j p q d e Hij Hp Hq Hd He.
    destruct (decide (i = j)) as [->|Hne].
    + rewrite Hp in Hq. injection Hq as <-. unfold dij_distancia in Hd, He.
      rewrite Hd in He. injection He as <-. lia.
    + assert (i < j)%nat as Hlt by lia.
      pose proof (StronglySorted_lookup _ _ i j p q Horden Hp Hq Hlt) as H. by apply H.
Qed.

Lemma dijkstra_pasos_en_orden_testigo :
  ∃ ps camino dist,
    Dijkstra.dijkstra_pasos grafo2 0 4 = Devuelve (ps, camino, dist) ∧
    NoDup (Dijkstra.actual <$> ps) ∧
    (∀ p, p ∈ ps →
       ∃ d, dij_distancia p d ∧ camino_de grafo2 0 (Dijkstra.actual p) d ∧
            ∀ c, camino_de grafo2 0 (Dijkstra.actual p) c → d ≤ c) ∧
    (∀ i j p q d e, (i ≤ j)%nat → ps !! i = Some p → ps !! j = Some q →
       dij_distancia p d → dij_distancia q e → d ≤ e) ∧
    (∀ i p, ps !! i = Some p → Dijkstra.actual p = 4%nat → S i = length ps) ∧
    (∀ c, camino_de grafo2 0 4 c →
       ∃ p, last ps = Some p ∧ Dijkstra.actual p = 4%nat).
Proof.
  apply (dijkstra_pasos_en_orden grafo2 0 4).
  - apply grafo2_cuadrada.
  - apply grafo2_acotado.
  - rewrite (proj2 grafo2_cargado). lia.
Defined.

(** ** The levels of BFS

    [saltos ga inicio v k]: a walk of [k] edges leads from [inicio] to
    [v]. *)

Lemma bfs_nivel_unico (ga : GrafoActivo) (inicio : nat) (z : Z) (k k' : nat) :
  bfs_nivel ga inicio z k → bfs_nivel ga inicio z k' → k = k'.
Proof.
  intros (v & -> & Hk & Hmin) (v' & Hv & Hk' & Hmin'). apply Nat2Z.inj in Hv as <-.
  pose proof (Hmin _ Hk'). pose proof (Hmin' _ Hk). lia.
Qed.

(** While [u] is expanded, a walk ends at a visited node or has at
    least as many edges as the level of [u]. *)
Lemma bfs_expande_frontera (ga : GrafoActivo) (inicio u : nat) (L : nat) (s : BFS.estado) :
  bfs_base ga inicio s → bfs_cerrado ga (Some u) s → bfs_expande ga inicio u L s →
  ∀ w k, saltos ga inicio w k → Z.of_nat w ∈ BFS.visitado s ∨ (L ≤ k)%nat.
Proof.
  intros [Hcola Hvis Hini Hpad Hdom Hpasos] Hcer [Hu Hpa Hhi Hdo Hor Harr Haba Hv].
  assert (∀ y k, saltos ga inicio y k → Z.of_nat y ∈ BFS.cola s →
                 Z.of_nat y ∉ BFS.visitado s → (L ≤ k)%nat) as Hcola_niv.
  { intros y k Hy Hin Hno. destruct (Hpa (Z.of_nat y)) as [ky Hky]; [apply Hdom; by right|].
    pose proof (Haba _ _ Hin Hno Hky). destruct Hky as (y' & Hyy & _ & Hmin).
    apply Nat2Z.inj in Hyy as <-. pose proof (Hmin _ Hy). lia. }
  induction 1 as [|x y k Hx IH Hy Hw].
  - destruct (decide (Z.of_nat inicio ∈ BFS.visitado s)) as [?|Hno]; [by left|]. right.
    destruct Hini as [?|Hin]; [done|]. apply (Hcola_niv inicio 0%nat); [constructor|done..].
  - destruct IH as [Hxv|Hle]; [|right; lia].
    destruct (decide (x = u)) as [->|Hxu].
    { right. destruct Hu as (u' & Huu & _ & Hmin). apply Nat2Z.inj in Huu as <-.
      pose proof (Hmin _ Hx). lia. }
    destruct (decide (Z.of_nat y ∈ BFS.visitado s)) as [?|Hno]; [by left|]. right.
    destruct (Hcer x y Hxv ltac:(by intros [= ->]) Hy Hw) as [?|Hin]; [done|].
    apply (Hcola_niv y (S k)); [by econstructor|done..].
Qed.

Lemma bfs_expande_explorar (ga : GrafoActivo) (inicio u v : nat) (L : nat)
    (s s' : BFS.estado) :
  (v < N ga)%nat → Z.of_nat u ∈ BFS.visitado s →
  bfs_base ga inicio s → bfs_cerrado ga (Some u) s → bfs_expande ga inicio u L s →
  BFS.explorar ga (Z.of_nat u) s (Z.of_nat v) = Ok s' →
  bfs_expande ga inicio u L s'.
Proof.
  intros Hv Huv Hb Hc Hex.
  pose proof (bfs_expande_frontera ga inicio u L s Hb Hc Hex) as Hfron.
  pose proof Hb as [Hcola Hvis Hini Hpad Hdom Hpasos].
  pose proof Hex as [Hu Hpa Hhi Hdo Hor Harr Haba Hvi].
  unfold BFS.explorar.
  destruct (celda_np (matriz ga) (Z.of_nat u) (Z.of_nat v)) as [w|] eqn:Hw; simpl; [|done].
  apply celda_np_nat_inv in Hw as (fila & _ & _ & Hw). rewrite <- Hw.
  destruct (decide (celda (matriz ga) u v > 0)) as [Hpos|Hpos].
  2:{ rewrite (bool_decide_eq_false_2 _ Hpos). simpl. by intros [= <-]. }
  rewrite (bool_decide_eq_true_2 _ Hpos).
  destruct (decide (Z.of_nat v ∈ BFS.visitado s)) as [Hnv|Hnv].
  { rewrite bool_decide_eq_false_2 by (by intros ?). simpl. by intros [= <-]. }
  rewrite (bool_decide_eq_true_2 _ Hnv). simpl. intros [= <-].
  (* the level of [v] *)
  assert (∃ kv, bfs_nivel ga inicio (Z.of_nat v) kv ∧ (L ≤ kv ≤ S L)%nat ∧
                (BFS.padre s !! Z.of_nat v = None → kv = S L) ∧
                (Z.of_nat v ∉ BFS.cola s → kv = S L ∧ BFS.padre s !! Z.of_nat v = None))
    as (kv & Hkv & Hrango & Hnuevo & Hfuera).
  { destruct (BFS.padre s !! Z.of_nat v) as [pv|] eqn:Hpv.
    - destruct (Hpa (Z.of_nat v)) as [kv Hkv]; [by rewrite Hpv|].
      destruct (Hdo (Z.of_nat v)) as [?|Hin]; [by rewrite Hpv|done|].
      exists kv. split_and!; [done|by eapply Haba|by eapply Harr|done|done].
    - exists (S L). split_and!; [|lia|lia|done|done].
      exists v. split; [done|]. destruct Hu as (u' & Huu & Hsu & Hmin).
      apply Nat2Z.inj in Huu as <-. split; [by econstructor|].
      assert (v ≠ inicio) as Hvini.
      { intros ->. destruct (Hdom (Z.of_nat inicio)) as [q Hq]; [destruct Hini; auto|].
        congruence. }
      intros k' Hk'. inversion Hk' as [Hi|x y k Hx Hy Hxy]; subst; [done|].
      destruct (Hfron x k Hx) as [Hxv|Hle]; [|lia].
      destruct (decide (x = u)) as [->|Hxu]; [pose proof (Hmin _ Hx); lia|].
      destruct (Hdom (Z.of_nat v)) as [q Hq]; [|congruence].
      apply (Hc x v); [done|by intros [= ->]|done|done]. }
  split; simpl.
  - done.
  - intros z Hz. destruct (BFS.padre s !! Z.of_nat v) as [pv|] eqn:Hpv; [by apply Hpa|].
    destruct (decide (z = Z.of_nat v)) as [->|Hne]; [by exists kv|].
    rewrite lookup_insert_ne in Hz by done. by apply Hpa.
  - intros z a Hz. destruct (BFS.padre s !! Z.of_nat v) as [pv|] eqn:Hpv; [by apply Hhi|].
    destruct (decide (z = Z.of_nat v)) as [->|Hne].
    + rewrite lookup_insert_eq in Hz. injection Hz as <-. exists L.
      split; [done|]. by rewrite <- (Hnuevo eq_refl).
    + rewrite lookup_insert_ne in Hz by done. by apply Hhi.
  - intros z Hz. rewrite elem_of_app, list_elem_of_singleton.
    destruct (decide (z = Z.of_nat v)) as [->|Hne]; [by right; right|].
    assert (is_Some (BFS.padre s !! z)) as Hz'.
    { destruct (BFS.padre s !! Z.of_nat v); [done|]. by rewrite lookup_insert_ne in Hz. }
    destruct (Hdo z Hz'); [by left|right; by left].
  - intros l1 z l2 x kx kz Hl Hz1 Hzv Hx Hkx Hkz.
    destruct l2 as [|y l2 _] using rev_ind.
    + apply app_inj_tail in Hl as [<- <-].
      destruct (Hfuera Hz1) as [-> _].
      rewrite (bfs_nivel_unico _ _ _ _ _ Hkz Hkv). by eapply Harr.
    + rewrite app_comm_cons, app_assoc in Hl. apply app_inj_tail in Hl as [Hl _].
      by eapply (Hor l1 z l2).
  - intros x kx [Hx| ->%list_elem_of_singleton]%elem_of_app Hkx; [by eapply Harr|].
    rewrite (bfs_nivel_unico _ _ _ _ _ Hkx Hkv). lia.
  - intros z kz [Hz| ->%list_elem_of_singleton]%elem_of_app Hzv Hkz; [by eapply Haba|].
    rewrite (bfs_nivel_unico _ _ _ _ _ Hkz Hkv). lia.
  - done.
Qed.

Lemma bfs_expande_plegar (ga : GrafoActivo) (inicio u : nat) (L : nat) (l : list nat) :
  Forall (λ v, (v < N ga)%nat) l → alcanzable ga inicio u →
  ∀ s s', Z.of_nat u ∈ BFS.visitado s →
    bfs_base ga inicio s → bfs_cerrado ga (Some u) s → bfs_expande ga inicio u L s →
    plegar (BFS.explorar ga (Z.of_nat u)) s (Z.of_nat <$> l) = Ok s' →
    bfs_expande ga inicio u L s'.
Proof.
  intros Hl Hu. induction l as [|v l IH]; intros s s' Huv Hb Hc Hex; simpl.
  { by intros [= <-]. }
  apply Forall_cons in Hl as [Hv Hl].
  destruct (BFS.explorar ga (Z.of_nat u) s (Z.of_nat v)) as [s1|] eqn:Hs1; simpl; [|done].
  destruct (bfs_base_explorar ga inicio u v s s1 Hv Hu Huv Hb Hc Hs1)
    as (Hb1 & Hc1 & Hv1 & _).
  apply (IH Hl s1 s'); [by rewrite Hv1|done|done|].
  by eapply bfs_expande_explorar.
Qed.

(** The state in which [u], taken from the queue, is marked. *)
Lemma bfs_base_visita (ga : GrafoActivo) (inicio u : nat) (s : BFS.estado)
    (resto : list Z) (ps : list BFS.paso) :
  bfs_base ga inicio s → bfs_cerrado ga None s → alcanzable ga inicio u →
  BFS.cola s = Z.of_nat u :: resto →
  ps = BFS.pasos s ++ [{| BFS.actual := Z.of_nat u;
                          BFS.visitados := {[Z.of_nat u]} ∪ BFS.visitado s;
                          BFS.p_padre := BFS.padre s |}] →
  let s1 := {| BFS.visitado := {[Z.of_nat u]} ∪ BFS.visitado s; BFS.cola := resto;
               BFS.padre := BFS.padre s; BFS.pasos := ps;
               BFS.encolados := BFS.encolados s |} in
  bfs_base ga inicio s1 ∧ bfs_cerrado ga (Some u) s1.
Proof.
  intros [Hcola Hvis Hini Hpad Hdom Hpasos] Hc Hu Hq -> s1. rewrite Hq in *. split.
  - split; simpl.
    + intros z Hz. apply Hcola. by right.
    + intros z Hz. apply elem_of_union in Hz as [->%elem_of_singleton|Hz]; [|by apply Hvis].
      by exists u.
    + destruct Hini as [?|Hin]; [left; set_solver|].
      apply elem_of_cons in Hin as [->|?]; [left; set_solver|by right].
    + intros z p Hz. destruct (Hpad _ _ Hz) as [?|(a & b & ? & ? & ? & ? & ?)]; [by left|].
      right. exists a, b. split_and!; [done..| |done]. set_solver.
    + intros z [Hz|Hz]; apply Hdom.
      * apply elem_of_union in Hz as [->%elem_of_singleton|Hz]; [right; by left|by left].
      * right. by right.
    + intros p Hp. apply elem_of_app in Hp as [Hp|Hp]; [by apply Hpasos|].
      apply list_elem_of_singleton in Hp as ->. intros z Hz Hne. simpl in *.
      destruct (Hdom z) as [q Hq'].
      { apply elem_of_union in Hz as [->%elem_of_singleton|Hz]; [right; by left|by left]. }
      destruct (Hpad _ _ Hq') as [[? _]|(a & b & -> & -> & _ & Ha & Hab)]; [done|].
      exists a, b. split_and!; [done|done| |done]. set_solver.
  - intros a b Ha Hne Hb' Hab. simpl in *.
    assert (Z.of_nat a ∈ BFS.visitado s) as Ha'.
    { apply elem_of_union in Ha as [Ha%elem_of_singleton|Ha]; [|done].
      apply Nat2Z.inj in Ha as ->. done. }
    destruct (Hc a b Ha' ltac:(done) Hb' Hab) as [?|Hin]; [left; set_solver|].
    rewrite Hq in Hin. apply elem_of_cons in Hin as [->|?]; [left; set_solver|by right].
Qed.

Lemma bfs_niveles_cuerpo (ga : GrafoActivo) (inicio : nat) (s : BFS.estado)
    (r : flujo BFS.estado) :
  (inicio < N ga)%nat →
  bfs_base ga inicio s → bfs_cerrado ga None s → bfs_niveles ga inicio s →
  BFS.cuerpo ga s = Ok r → bfs_niveles ga inicio (estado_de r).
Proof.
  intros Hi Hb Hc Hn. pose proof Hb as [Hcola Hvis Hini Hpad Hdom Hpasos].
  pose proof Hn as [Hpa Hhi Hdo Hor Han Hvi Hps Hph Hac].
  unfold BFS.cuerpo.
  destruct (BFS.cola s) as [|z resto] eqn:Hq; [by intros [= <-]|].
  destruct (Hcola z) as (u & -> & Hu); [by left|].
  pose proof (alcanzable_rango ga inicio u Hi Hu) as HuN.
  case_bool_decide as Hzv.
  - intros [= <-]. simpl. split; simpl; try done.
    + intros y Hy. destruct (Hdo y Hy) as [?|Hin]; [by left|].
      apply elem_of_cons in Hin as [->|?]; [by left|by right].
    + intros l1 y l2 x kx ky Hl Hy1 Hyv Hx.
      apply (Hor (Z.of_nat u :: l1) y l2 x kx ky); [by rewrite Hl| |done|by right].
      intros [->|?]%elem_of_cons; done.
    + intros x y kx ky Hx Hy. apply Han; by right.
    + intros v y kv ky Hv Hy. apply Hvi; [done|by right].
  - cbv zeta.
    set (vis := {[Z.of_nat u]} ∪ BFS.visitado s).
    set (p := {| BFS.actual := Z.of_nat u; BFS.visitados := vis;
                 BFS.p_padre := BFS.padre s |}).
    set (s1 := {| BFS.visitado := vis; BFS.cola := resto; BFS.padre := BFS.padre s;
                  BFS.pasos := BFS.pasos s ++ [p]; BFS.encolados := BFS.encolados s |}).
    destruct (plegar _ s1 _) as [s2|] eqn:Hs2; simpl; [|done]. intros [= <-]. simpl.
    destruct (bfs_base_visita ga inicio u s resto (BFS.pasos s ++ [p]) Hb Hc Hu Hq eq_refl)
      as [Hb1 Hc1]. fold vis in Hb1, Hc1. fold s1 in Hb1, Hc1.
    destruct (Hpa (Z.of_nat u)) as [L HL]; [apply Hdom; right; by left|].
    assert (bfs_expande ga inicio u L s1) as Hex.
    { split; simpl; try done.
      - intros y Hy. destruct (Hdo y Hy) as [?|Hin]; [left; set_solver|].
        apply elem_of_cons in Hin as [->|?]; [left; set_solver|by right].
      - intros l1 y l2 x kx ky Hl Hy1 Hyv Hx.
        apply (Hor (Z.of_nat u :: l1) y l2 x kx ky); [by rewrite Hl| |set_solver|by right].
        intros [->|?]%elem_of_cons; [|done]. set_solver.
      - intros x kx Hx Hkx. apply (Han x (Z.of_nat u) kx L); [by right|by left|done..].
      - intros y ky Hy Hyv Hky.
        destruct (list_elem_of_split_l resto y Hy) as (l1 & l2 & Hl & Hy1).
        apply (Hor (Z.of_nat u :: l1) y l2 (Z.of_nat u) L ky);
          [by rewrite Hl| |set_solver|by left|done|done].
        intros [->|?]%elem_of_cons; [|done]. set_solver.
      - intros v kv [->%elem_of_singleton|Hv]%elem_of_union Hkv.
        + by rewrite (bfs_nivel_unico _ _ _ _ _ Hkv HL).
        + apply (Hvi v (Z.of_nat u) kv L); [done|by left|done..]. }
    assert (bfs_expande ga inicio u L s2) as [_ Hpa2 Hhi2 Hdo2 Hor2 Harr2 Haba2 Hvi2].
    { apply (bfs_expande_plegar ga inicio u L (seq 0 (N ga))) with (s := s1);
        [|done|simpl; set_solver|done|done|done|done].
      apply Forall_forall. intros v Hv. apply elem_of_seq in Hv. lia. }
    destruct (bfs_base_plegar ga inicio u (seq 0 (N ga))) with (s := s1) (s' := s2)
      as (_ & _ & Hv2 & Hp2 & _ & _); [|done|simpl; set_solver|done|done|done|].
    { apply Forall_forall. intros v Hv. apply elem_of_seq in Hv. lia. }
    simpl in Hv2, Hp2.
    split; try done.
    + intros x y kx ky Hx Hy Hyv Hkx Hky.
      pose proof (Harr2 x kx Hx Hkx). pose proof (Haba2 y ky Hy Hyv Hky). lia.
    + intros v y kv ky Hv Hy Hyv Hkv Hky.
      pose proof (Hvi2 v kv Hv Hkv). pose proof (Haba2 y ky Hy Hyv Hky). lia.
    + rewrite Hp2. apply StronglySorted_snoc; [done|].
      apply Forall_forall. intros q Hq' kq ku Hkq Hku. simpl in Hku.
      apply (Hvi (BFS.actual q) (Z.of_nat u) kq ku); [by apply Hac|by left|done..].
    + rewrite Hp2. intros q y a [Hq'| ->%list_elem_of_singleton]%elem_of_app Hy.
      * by eapply Hph.
      * by apply Hhi.
    + rewrite Hp2, Hv2. intros q [Hq'| ->%list_elem_of_singleton]%elem_of_app.
      * apply elem_of_union. right. by apply Hac.
      * simpl. set_solver.
Qed.

Lemma bfs_niveles_inicial (ga : GrafoActivo) (inicio : nat) :
  bfs_niveles ga inicio (BFS.inicial (Z.of_nat inicio)).
Proof.
  assert (bfs_nivel ga inicio (Z.of_nat inicio) 0) as H0.
  { exists inicio. split_and!; [done|constructor|lia]. }
  split; simpl.
  - intros z [q Hz]. apply lookup_singleton_Some in Hz as [<- _]. by exists 0%nat.
  - intros z a Hz. by apply lookup_singleton_Some in Hz as [_ ?].
  - intros z [q Hz]. apply lookup_singleton_Some in Hz as [<- _]. right. by left.
  - intros l1 z l2 x kx kz Hl. destruct l1 as [|y l1]; [by intros _ _ ?%elem_of_nil|].
    by destruct l1.
  - intros x z kx kz ->%list_elem_of_singleton ->%list_elem_of_singleton _ Hx Hz.
    rewrite (bfs_nivel_unico _ _ _ _ _ Hx Hz). lia.
  - intros v z kv kz ?%elem_of_empty. done.
  - constructor.
  - intros p z a ?%elem_of_nil. done.
  - intros p ?%elem_of_nil. done.
Qed.

(** X19. For a square matrix and a start node of the graph, BFS visits
    the nodes level by level: the node of every step has a least number
    of edges from the start, and along the steps this number never
    decreases; and in every step a node with a parent is exactly one
    edge farther from the start than its parent, so the parents lead back
    to the start along a walk with the fewest edges. *)
Theorem bfs_por_niveles (ga : GrafoActivo) (inicio : nat) :
  cuadrada ga → (inicio < N ga)%nat →
  ∃ ps, BFS.bfs_pasos ga (Z.of_nat inicio) = Ok ps ∧
    (∀ p, p ∈ ps → ∃ k, bfs_nivel ga inicio (BFS.actual p) k) ∧
    (∀ i j p q kp kq, (i ≤ j)%nat → ps !! i = Some p → ps !! j = Some q →
       bfs_nivel ga inicio (BFS.actual p) kp → bfs_nivel ga inicio (BFS.actual q) kq →
       (kp ≤ kq)%nat) ∧
    (∀ p z a, p ∈ ps → BFS.p_padre p !! z = Some (Some a) →
       ∃ k, bfs_nivel ga inicio a k ∧ bfs_nivel ga inicio z (S k)).
Proof.
  intros Hc Hi.
  destruct (bfs_bucle_termina ga (Z.of_nat inicio) Hc) as (s & Hs & _ & _).
  { unfold indice_valido. lia. }
  exists (BFS.pasos s). split; [unfold BFS.bfs_pasos; by rewrite Hs|].
  pose proof (iterar_exc_inv
    (λ x, (bfs_base ga inicio x ∧ bfs_cerrado ga None x) ∧ bfs_niveles ga inicio x)
    (BFS.cuerpo ga)) as Hinv.
  destruct (Hinv) with (fuel := BFS.fuel ga) (s := BFS.inicial (Z.of_nat inicio))
    (r := Alto s) as [[Hb _] [Hpa _ _ _ _ _ Hps Hph Hac]].
  - intros x r [Hx Hnx] Hr. split; [by eapply bfs_base_cuerpo|].
    destruct Hx. by eapply bfs_niveles_cuerpo.
  - split; [apply bfs_base_inicial|apply bfs_niveles_inicial].
  - exact Hs.
  - simpl in *. destruct Hb as [_ _ _ _ Hdom _]. split_and!.
    + intros p Hp. apply Hpa, Hdom. left. by apply Hac.
    + intros i j p q kp kq Hij Hp Hq Hkp Hkq.
      destruct (decide (i = j)) as [->|Hne].
      * rewrite Hp in Hq. injection Hq as <-.
        rewrite (bfs_nivel_unico _ _ _ _ _ Hkp Hkq). lia.
      * assert (i < j)%nat as Hlt by lia.
        by apply (StronglySorted_lookup _ _ i j p q Hps Hp Hq Hlt).
    + intros p z a Hp Hz. by eapply Hph.
Qed.

Lemma bfs_por_niveles_testigo :
  ∃ ps, BFS.bfs_pasos grafo2 (Z.of_nat 0) = Ok ps ∧
    (∀ p, p ∈ ps → ∃ k, bfs_nivel grafo2 0 (BFS.actual p) k) ∧
    (∀ i j p q kp kq, (i ≤ j)%nat → ps !! i = Some p → ps !! j = Some q →
       bfs_nivel grafo2 0 (BFS.actual p) kp → bfs_nivel grafo2 0 (BFS.actual q) kq →
       (kp ≤ kq)%nat) ∧
    (∀ p z a, p ∈ ps → BFS.p_padre p !! z = Some (Some a) →
       ∃ k, bfs_nivel grafo2 0 a k ∧ bfs_nivel grafo2 0 z (S k)).
Proof.
  apply (bfs_por_niveles grafo2 0).
  - apply grafo2_cuadrada.
  - rewrite (proj2 grafo2_cargado). lia.
Defined.

(** ** The search of A* is complete

    While the loop runs: a node with a cost is visited or waits in the
    heap, the neighbours of the visited nodes have a cost, and the goal
    is not visited. *)

Section a_star_completo.
Context {P : Type} (h : nat → P) (suma : Z → P → P) (ltb : P * nat → P * nat → bool).

Lemma ast_cierre_foldl (ga : GrafoActivo) (u : nat) (l : list nat) :
  ∀ s : @AStar.estado P,
    (∀ v, is_Some (AStar.g s !! v) → v ∈ AStar.visitado s ∨ ∃ f, (f, v) ∈ AStar.pq s) →
    let s' := foldl (AStar.expandir h suma ltb ga u) s l in
    AStar.visitado s' = AStar.visitado s ∧
    (∀ v, is_Some (AStar.g s !! v) → is_Some (AStar.g s' !! v)) ∧
    (∀ v, is_Some (AStar.g s' !! v) → v ∈ AStar.visitado s' ∨ ∃ f, (f, v) ∈ AStar.pq s') ∧
    (∀ v, v ∈ l → celda (matriz ga) u v > 0 → is_Some (AStar.g s' !! v)).
Proof.
  induction l as [|v l IH]; intros s Hpq; cbv zeta; cbn [foldl].
  - split_and!; [done|done|done|]. by intros v ?%elem_of_nil.
  - set (s1 := AStar.expandir h suma ltb ga u s v).
    assert (AStar.visitado s1 = AStar.visitado s ∧
            (∀ x, is_Some (AStar.g s !! x) → is_Some (AStar.g s1 !! x)) ∧
            (∀ x, is_Some (AStar.g s1 !! x) →
                  x ∈ AStar.visitado s1 ∨ ∃ f, (f, x) ∈ AStar.pq s1) ∧
            (celda (matriz ga) u v > 0 → is_Some (AStar.g s1 !! v))) as (Hv1 & Hg1 & Hpq1 & Hn1).
    { unfold s1, AStar.expandir. case_bool_decide as Hw; [|done]. cbv zeta.
      destruct (AStar.g s !! v) as [gv|] eqn:Hgv.
      - case_bool_decide as Hlt; simpl.
        + split_and!; [done| | |].
          * intros x Hx. destruct (decide (x = v)) as [->|Hne].
            -- rewrite lookup_insert_eq. by eexists.
            -- by rewrite lookup_insert_ne.
          * intros x Hx. destruct (decide (x = v)) as [->|Hne].
            -- right. eexists. apply elem_of_heappush. by left.
            -- rewrite lookup_insert_ne in Hx by done.
               destruct (Hpq x Hx) as [?|[f Hf]]; [by left|]. right. exists f.
               apply elem_of_heappush. by right.
          * intros _. rewrite lookup_insert_eq. by eexists.
        + split_and!; [done|done|done|]. intros _. by rewrite Hgv.
      - simpl. split_and!; [done| | |].
        + intros x Hx. destruct (decide (x = v)) as [->|Hne].
          * rewrite lookup_insert_eq. by eexists.
          * by rewrite lookup_insert_ne.
        + intros x Hx. destruct (decide (x = v)) as [->|Hne].
          * right. eexists. apply elem_of_heappush. by left.
          * rewrite lookup_insert_ne in Hx by done.
            destruct (Hpq x Hx) as [?|[f Hf]]; [by left|]. right. exists f.
            apply elem_of_heappush. by right.
        + intros _. rewrite lookup_insert_eq. by eexists. }
    destruct (IH s1 Hpq1) as (Hv2 & Hg2 & Hpq2 & Hn2). fold s1.
    split_and!; [congruence|by auto|done|].
    intros x [->|Hx]%elem_of_cons Hw; [by apply Hg2, Hn1|by apply Hn2].
Qed.

Lemma ast_cierre_cuerpo (ga : GrafoActivo) (inicio objetivo : nat) (s : @AStar.estado P) :
  ast_inv ga inicio s → ast_cierre ga inicio objetivo s →
  match AStar.cuerpo h suma ltb ga objetivo s with
  | Sigue s' => ast_cierre ga inicio objetivo s'
  | Alto s' => ast_final ga inicio objetivo s'
  end.
Proof.
  intros Hinv Hci. pose proof Hinv as [Hnod Hcre Hcam].
  pose proof Hci as [Hpq Hvec Hini Hobj Hvis].
  assert (∀ p, p ∈ AStar.pasos s → AStar.actual p ∈ AStar.visitado s) as Hact.
  { intros p Hp. destruct (crece_actuales _ _ _ Hcre) as (_ & _ & Hfin). apply Hfin.
    right. rewrite <- list_fmap_compose. apply list_elem_of_fmap. by exists p. }
  unfold AStar.cuerpo.
  destruct (AStar.pq s) as [|[f u] resto] eqn:Hq; simpl.
  { assert (∀ w c, camino_de ga inicio w c → w ∈ AStar.visitado s) as Htodos.
    { intros w c. induction 1 as [|x y c Hx IH Hy Hw].
      - destruct (Hpq inicio Hini) as [?|[f Hf]]; [done|]. by apply elem_of_nil in Hf.
      - destruct (Hpq y (Hvec x y IH Hy Hw)) as [?|[f Hf]]; [done|].
        by apply elem_of_nil in Hf. }
    split.
    - intros c Hc. destruct Hobj. by eapply Htodos.
    - intros i p Hp Ha. destruct Hobj. rewrite <- Ha. apply Hact.
      by eapply list_elem_of_lookup_2.
    - intros _ v. split.
      + intros Hv. destruct (Hvis v Hv) as [c Hc]. exists c. by apply Hcam.
      + intros [c Hc]. by eapply Htodos. }
  apply Forall_cons in Hnod as [[Hu Hgu] Hnod]. simpl in Hu, Hgu.
  case_bool_decide as Huv.
  { split; simpl; try done. intros v Hv. destruct (Hpq v Hv) as [?|[f' Hf]]; [by left|].
    apply elem_of_cons in Hf as [[= -> ->]|Hf]; [by left|]. right. by exists f'. }
  set (p := {| AStar.actual := u; AStar.visitados := {[u]} ∪ AStar.visitado s;
               AStar.p_g := AStar.g s; AStar.p_padre := AStar.padre s |}).
  case_bool_decide as Huo.
  - subst u. split; simpl.
    + intros c _. split; [done|]. exists p. split; [by rewrite last_snoc|done].
    + intros i q Hq' Ha. rewrite length_app. simpl.
      destruct (decide (i < length (AStar.pasos s))%nat) as [Hi|Hi].
      * rewrite lookup_app_l in Hq' by done. destruct Hobj. rewrite <- Ha. apply Hact.
        by eapply list_elem_of_lookup_2.
      * pose proof (lookup_lt_Some _ _ _ Hq') as Hlt. rewrite length_app in Hlt.
        simpl in Hlt. lia.
    + intros Hno. destruct Hgu as [c Hc]. destruct (Hno c). by apply Hcam.
  - set (s1 := {| AStar.g := AStar.g s; AStar.padre := AStar.padre s; AStar.pq := resto;
                  AStar.pasos := AStar.pasos s ++ [p];
                  AStar.visitado := {[u]} ∪ AStar.visitado s |}).
    destruct (ast_cierre_foldl ga u (seq 0 (N ga)) s1) as (Hv2 & Hg2 & Hpq2 & Hn2).
    { simpl. intros v Hv. destruct (Hpq v Hv) as [?|[f' Hf]]; [left; set_solver|].
      apply elem_of_cons in Hf as [[= -> ->]|Hf]; [left; set_solver|]. right. by exists f'. }
    simpl in Hv2, Hg2. split.
    + done.
    + rewrite Hv2. intros x y [->%elem_of_singleton|Hx]%elem_of_union Hy Hw.
      * apply Hn2; [|done]. apply elem_of_seq. lia.
      * apply Hg2. by eapply Hvec.
    + by apply Hg2.
    + rewrite Hv2. set_solver.
    + rewrite Hv2. intros x [->%elem_of_singleton|Hx]%elem_of_union; apply Hg2; [done|].
      by apply Hvis.
Qed.

Lemma ast_cierre_inicial (ga : GrafoActivo) (inicio objetivo : nat) :
  ast_cierre ga inicio objetivo (AStar.inicial h inicio).
Proof.
  split; simpl.
  - intros v [c Hv]. apply lookup_singleton_Some in Hv as [<- _]. right. eexists. by left.
  - intros u v ?%elem_of_empty. done.
  - rewrite lookup_singleton_eq. by eexists.
  - set_solver.
  - intros u ?%elem_of_empty. done.
Qed.

Lemma a_star_gen_completo (ga : GrafoActivo) (inicio objetivo : nat) :
  pesos_acotados ga → (inicio < N ga)%nat →
  ∃ s, AStar.bucle h suma ltb ga inicio objetivo = Alto s ∧
       crece ∅ (ast_vista <$> AStar.pasos s) (AStar.visitado s) ∧
       (∀ v c, AStar.g s !! v = Some c → camino_de ga inicio v c) ∧
       ast_final ga inicio objetivo s.
Proof.
  intros Hac Hi. unfold AStar.bucle.
  destruct (iterar_termina
              (λ x, (ast_cota ga x ∧ ast_inv ga inicio x) ∧ ast_cierre ga inicio objetivo x)
              (λ x, (crece ∅ (ast_vista <$> AStar.pasos x) (AStar.visitado x) ∧
                     ∀ v c, AStar.g x !! v = Some c → camino_de ga inicio v c) ∧
                    ast_final ga inicio objetivo x)
              (ast_medida ga) (AStar.cuerpo h suma ltb ga objetivo))
    with (fuel := AStar.fuel ga) (s := AStar.inicial h inicio)
    as (s & Hs & [Hcre Hcam] & Hfin).
  - intros x [[Hcot Hx] Hcx].
    pose proof (ast_cuerpo_spec h suma ltb ga inicio objetivo x Hac Hcot Hx) as H1.
    pose proof (ast_cierre_cuerpo ga inicio objetivo x Hx Hcx) as H2.
    destruct (AStar.cuerpo h suma ltb ga objetivo x); [|done].
    destruct H1. done.
  - split; [split; [apply ast_cota_inicial|by apply ast_inv_inicial]|apply ast_cierre_inicial].
  - unfold ast_medida, AStar.fuel. simpl.
    pose proof (faltan_length (∅ : gset nat) (seq 0 (N ga))) as Hf.
    rewrite length_seq in Hf. nia.
  - by exists s.
Qed.

End a_star_completo.

(** X20. For a square matrix whose weights leave room for their sums in
    64 bits, and a start node and a goal of the graph, [a_star_pasos]
    returns and its search is complete: [g] has a cost for the goal
    exactly when a walk leads from the start to the goal, and then the
    goal is the node of the last step; the goal is the node of no other
    step; every node is expanded at most once; and when no walk reaches
    the goal, the nodes of the steps are the nodes that a walk from the
    start reaches. *)
Theorem a_star_completo (ga : GrafoActivo) (inicio objetivo : nat) :
  cuadrada ga → pesos_acotados ga → (inicio < N ga)%nat → (objetivo < N ga)%nat →
  ∃ ps camino g,
    AStar.a_star_pasos ga inicio objetivo = Devuelve (ps, camino, g) ∧
    (is_Some (g !! objetivo) ↔ ∃ c, camino_de ga inicio objetivo c) ∧
    ((∃ c, camino_de ga inicio objetivo c) →
     ∃ p, last ps = Some p ∧ AStar.actual p = objetivo) ∧
    (∀ i p, ps !! i = Some p → AStar.actual p = objetivo → S i = length ps) ∧
    NoDup (AStar.actual <$> ps) ∧
    ((∀ c, ¬ camino_de ga inicio objetivo c) →
     ∀ v, v ∈ AStar.actual <$> ps ↔ alcanzable ga inicio v).
Proof.
  intros _ Hac Hi Ho.
  destruct (a_star_devuelve ga inicio objetivo Hac Hi Ho) as (s' & camino & Hs' & _ & Hret & _).
  destruct (a_star_gen_completo (AStar.h_objetivo ga objetivo)
    (λ nuevo p, PrimFloat.add (AStar.float_de_Z nuevo) p)
    AStar.entrada_float_ltb ga inicio objetivo Hac Hi)
    as (s & Hs & Hcre & Hcam & [Hha Hul Hto]).
  unfold AStar.bucle_float in Hs'. rewrite Hs in Hs'. injection Hs' as <-.
  exists (AStar.pasos s), camino, (AStar.g s). split; [done|].
  destruct (crece_actuales _ _ _ Hcre) as (Hnd & _ & Hfin).
  rewrite <- list_fmap_compose in Hnd, Hfin. split_and!.
  - split.
    + intros [c Hc]. exists c. by apply Hcam.
    + intros [c Hc]. by apply (Hha c).
  - intros [c Hc]. by apply (Hha c).
  - done.
  - done.
  - intros Hno v. rewrite <- (Hto Hno v), Hfin. set_solver.
Qed.

Lemma a_star_completo_testigo :
  ∃ ps camino g,
    AStar.a_star_pasos grafo2 0 4 = Devuelve (ps, camino, g) ∧
    (is_Some (g !! 4%nat) ↔ ∃ c, camino_de grafo2 0 4 c) ∧
    ((∃ c, camino_de grafo2 0 4 c) →
     ∃ p, last ps = Some p ∧ AStar.actual p = 4%nat) ∧
    (∀ i p, ps !! i = Some p → AStar.actual p = 4%nat → S i = length ps) ∧
    NoDup (AStar.actual <$> ps) ∧
    ((∀ c, ¬ camino_de grafo2 0 4 c) →
     ∀ v, v ∈ AStar.actual <$> ps ↔ alcanzable grafo2 0 v).
Proof.
  apply (a_star_completo grafo2 0 4).
  - apply grafo2_cuadrada.
  - apply grafo2_acotado.
  - rewrite (proj2 grafo2_cargado). lia.
  - rewrite (proj2 grafo2_cargado). lia.
Defined.

(** ** The order of the steps of DFS

    [dfs_ancestro padre a x]: the parents lead from [x] up to [a]; a
    node is its own ancestor. *)

Lemma dfs_ancestro_padre (padre : gmap nat (option nat)) (a b x : nat) :
  dfs_ancestro padre a x → padre !! a = Some (Some b) → dfs_ancestro padre b x.
Proof.
  induction 1 as [|x y Hx _ IH]; intros Ha.
  - econstructor; [exact Ha|constructor].
  - econstructor; [exact Hx|by apply IH].
Qed.

Lemma dfs_ancestro_estable (padre padre' : gmap nat (option nat)) (V : gset nat)
    (a x : nat) :
  (∀ z, z ∈ V → padre' !! z = padre !! z) →
  (∀ z y, z ∈ V → padre !! z = Some (Some y) → y ∈ V) →
  x ∈ V → dfs_ancestro padre a x → dfs_ancestro padre' a x.
Proof.
  intros Heq Hcl Hx H. induction H as [|x y Hxy _ IH]; [constructor|].
  econstructor; [by rewrite Heq|]. apply IH. by eapply Hcl.
Qed.

Lemma dfs_preorden_snoc (ps : list DFS.paso) (q : DFS.paso) :
  dfs_preorden ps → (∀ p, last ps = Some p → dfs_sigue p q) → dfs_preorden (ps ++ [q]).
Proof.
  intros Hps Hq k p r Hp Hr.
  destruct (decide (S k < length ps)%nat) as [Hlt|Hge].
  - rewrite lookup_app_l in Hp by lia. rewrite lookup_app_l in Hr by done. by eapply Hps.
  - pose proof (lookup_lt_Some _ _ _ Hr) as Hlen. rewrite length_app in Hlen. simpl in Hlen.
    assert (S k = length ps) as Hk by lia.
    rewrite lookup_app_l in Hp by lia. rewrite lookup_app_r in Hr by lia.
    replace (S k - length ps)%nat with 0%nat in Hr by lia. injection Hr as <-.
    apply Hq. rewrite last_lookup. rewrite <- Hk. simpl. done.
Qed.

Lemma dfs_preorden_llamada (ga : GrafoActivo) (fuel : nat) :
  cuadrada ga →
  ∀ u s s',
    (u < N ga)%nat →
    dfs_pila s → dfs_preorden (DFS.pasos s) → u ∉ DFS.visitado s →
    (∀ y, DFS.padre s !! u = Some (Some y) → y ∈ DFS.visitado s) →
    (∀ p, last (DFS.pasos s) = Some p →
       ∃ a, DFS.padre s !! u = Some (Some a) ∧ dfs_ancestro (DFS.padre s) a (DFS.actual p)) →
    DFS._dfs ga fuel u s = Ok s' →
    dfs_pila s' ∧ dfs_preorden (DFS.pasos s') ∧
    DFS.visitado s ⊆ DFS.visitado s' ∧ u ∈ DFS.visitado s' ∧
    (∀ x, x ∈ DFS.visitado s → DFS.padre s' !! x = DFS.padre s !! x) ∧
    DFS.padre s' !! u = DFS.padre s !! u ∧
    (∃ pu rest, DFS.pasos s' = DFS.pasos s ++ pu :: rest ∧ DFS.actual pu = u) ∧
    (∃ p, last (DFS.pasos s') = Some p ∧ dfs_ancestro (DFS.padre s') u (DFS.actual p)).
Proof.
  intros Hcua. induction fuel as [|f IH]; intros u s s' HuN Hpi Hpre Hu Hpu Hlast; [done|].
  cbn [DFS._dfs]. rewrite (dfs_lecturas ga f u _ Hcua HuN (rango_acotado (N ga))).
  set (paso := λ (os : result DFS.estado) (v : nat),
         s' ← os;
         if bool_decide (celda (matriz ga) u v > 0) && bool_decide (v ∉ DFS.visitado s')
         then DFS._dfs ga f v (DFS.con_padre v u s') else Ok s').
  set (pu := {| DFS.actual := u; DFS.visitados := {[u]} ∪ DFS.visitado s;
                DFS.p_padre := DFS.padre s |}).
  set (s0 := DFS.visitar u s).
  destruct Hpi as [Hpad Hpas].
  assert (dfs_pila s0) as Hpi0.
  { split; simpl.
    - intros z y [->%elem_of_singleton|Hz]%elem_of_union Hzy.
      + apply elem_of_union. right. by apply Hpu.
      + apply elem_of_union. right. by eapply Hpad.
    - intros p [Hp| ->%list_elem_of_singleton]%elem_of_app.
      + apply elem_of_union. right. by apply Hpas.
      + simpl. set_solver. }
  assert (dfs_preorden (DFS.pasos s0)) as Hpre0.
  { apply dfs_preorden_snoc; [done|]. intros p Hp. destruct (Hlast p Hp) as (a & Ha & Hanc).
    exists a. by split. }
  assert (∀ l s1 s2,
            Forall (λ v, (v < N ga)%nat) l →
            dfs_pila s1 → dfs_preorden (DFS.pasos s1) →
            DFS.visitado s0 ⊆ DFS.visitado s1 →
            (∀ x, x ∈ DFS.visitado s0 → DFS.padre s1 !! x = DFS.padre s0 !! x) →
            (∃ rest, DFS.pasos s1 = DFS.pasos s ++ pu :: rest) →
            (∃ p, last (DFS.pasos s1) = Some p ∧
                  dfs_ancestro (DFS.padre s1) u (DFS.actual p)) →
            foldl paso (Ok s1) l = Ok s2 →
            dfs_pila s2 ∧ dfs_preorden (DFS.pasos s2) ∧
            DFS.visitado s0 ⊆ DFS.visitado s2 ∧
            (∀ x, x ∈ DFS.visitado s0 → DFS.padre s2 !! x = DFS.padre s0 !! x) ∧
            (∃ rest, DFS.pasos s2 = DFS.pasos s ++ pu :: rest) ∧
            (∃ p, last (DFS.pasos s2) = Some p ∧
                  dfs_ancestro (DFS.padre s2) u (DFS.actual p))) as Hfold.
  { induction l as [|v l IHl]; intros s1 s2 Hl Hpi1 Hpre1 Hsub1 Heq1 Hres1 Hult1;
      cbn [foldl].
    { by intros [= <-]. }
    apply Forall_cons in Hl as [Hv Hl].
    unfold paso at 2. cbn [mbind result_bind].
    destruct (bool_decide (celda (matriz ga) u v > 0) && bool_decide (v ∉ DFS.visitado s1))
      eqn:Hcond; [|by apply IHl].
    apply andb_true_iff in Hcond as [_ Hnv]. apply bool_decide_eq_true in Hnv.
    destruct (DFS._dfs ga f v (DFS.con_padre v u s1)) as [s3|e] eqn:Hs3.
    2:{ intros Hn. unfold paso in Hn. by rewrite dfs_foldl_raise in Hn. }
    destruct Hpi1 as [Hpad1 Hpas1].
    assert (u ∈ DFS.visitado s1) as Hu1 by (apply Hsub1; simpl; set_solver).
    assert (∀ z, z ∈ DFS.visitado s1 →
              DFS.padre (DFS.con_padre v u s1) !! z = DFS.padre s1 !! z) as Hcp.
    { intros z Hz. simpl. rewrite lookup_insert_ne; [done|]. by intros <-. }
    destruct (IH v (DFS.con_padre v u s1) s3)
      as (Hpi3 & Hpre3 & Hsub3 & Hv3 & Heq3 & Hpv3 & (pv & rest3 & Hps3 & _) & (p3 & Hl3 & Ha3));
      [done| | |done| | |done|].
    { split; simpl; [|done]. intros z y Hz. rewrite lookup_insert_ne by (by intros <-).
      by apply Hpad1. }
    { done. }
    { simpl. rewrite lookup_insert_eq. by intros y [= <-]. }
    { simpl. intros p Hp. exists u. rewrite lookup_insert_eq. split; [done|].
      destruct Hult1 as (p1 & Hp1 & Hanc1). rewrite Hp in Hp1. injection Hp1 as <-.
      apply (dfs_ancestro_estable (DFS.padre s1) _ (DFS.visitado s1)); [|done| |done].
      - intros z Hz. rewrite lookup_insert_ne; [done|]. by intros <-.
      - apply Hpas1. apply last_Some_elem_of in Hp. done. }
    simpl in Hsub3, Heq3, Hpv3, Hps3.
    apply IHl; [done|done|done| | | |].
    - set_solver.
    - intros x Hx. rewrite Heq3 by (by apply Hsub1). rewrite lookup_insert_ne.
      + by apply Heq1.
      + intros <-. apply Hnv. by apply Hsub1.
    - destruct Hres1 as [rest1 Hr1]. rewrite Hps3, Hr1. exists (rest1 ++ pv :: rest3).
      by rewrite <- !app_assoc.
    - exists p3. split; [done|]. apply (dfs_ancestro_padre _ v); [done|].
      rewrite Hpv3. apply lookup_insert_eq. }
  intros Hs'.
  destruct (Hfold (seq 0 (N ga)) s0 s') as (Hpi' & Hpre' & Hsub' & Heq' & [rest Hres'] & Hult');
    [apply rango_acotado|done|done|done|done|by exists []| |done|].
  { exists pu. split; [apply last_snoc|constructor]. }
  split_and!; [done|done| | | | | |done].
  - etrans; [|exact Hsub']. simpl. set_solver.
  - apply Hsub'. simpl. set_solver.
  - intros x Hx. rewrite Heq' by (simpl; set_solver). done.
  - rewrite Heq' by (simpl; set_solver). done.
  - by exists pu, rest.
Qed.

(** X21. For a square matrix, a start node of the graph and a
    recursion limit that leaves room for one nested call of [_dfs] for
    each node, DFS returns and its steps go depth first: the first step
    is the start, and in every later step the parent of the node is the
    node of the step before it or one of that node's ancestors along the
    parents. *)
Theorem dfs_en_profundidad (limite : nat) (ga : GrafoActivo) (inicio : nat) :
  cuadrada ga → (inicio < N ga)%nat → (N ga ≤ limite)%nat →
  ∃ ps, DFS.dfs_pasos limite ga inicio = Ok ps ∧
        (∃ p, ps !! 0%nat = Some p ∧ DFS.actual p = inicio) ∧
        ∀ k p q, ps !! k = Some p → ps !! (S k) = Some q →
          ∃ a, DFS.p_padre q !! DFS.actual q = Some (Some a) ∧
               dfs_ancestro (DFS.p_padre q) a (DFS.actual p).
Proof.
  intros Hcua Hi Hlim.
  destruct (dfs_pasos_crece limite ga inicio Hcua Hi Hlim) as (s & Hs & Hps & _).
  exists (DFS.pasos s). split; [done|].
  destruct (dfs_preorden_llamada ga limite Hcua inicio (DFS.inicial inicio) s)
    as (_ & Hpre & _ & _ & _ & _ & (pu & rest & Hres & Hpu) & _); try done.
  - split; simpl; [set_solver|]. by intros p ?%elem_of_nil.
  - simpl. intros y Hy. by rewrite lookup_singleton_eq in Hy.
  - simpl in Hres. split; [|exact Hpre]. exists pu. by rewrite Hres.
Qed.

Lemma dfs_en_profundidad_testigo :
  ∃ ps, DFS.dfs_pasos 7 grafo2 0 = Ok ps ∧
        (∃ p, ps !! 0%nat = Some p ∧ DFS.actual p = 0%nat) ∧
        ∀ k p q, ps !! k = Some p → ps !! (S k) = Some q →
          ∃ a, DFS.p_padre q !! DFS.actual q = Some (Some a) ∧
               dfs_ancestro (DFS.p_padre q) a (DFS.actual p).
Proof.
  apply (dfs_en_profundidad 7 grafo2 0).
  - apply grafo2_cuadrada.
  - rewrite (proj2 grafo2_cargado). lia.
  - rewrite (proj2 grafo2_cargado). lia.
Defined.


(** * The steps that the caller holds *)

Lemma dij_mem_devuelve (ga : GrafoActivo) (inicio objetivo : nat) :
  (inicio < N ga)%nat →
  ∃ s, DijkstraMem.bucle ga (Dijkstra.fuel ga) inicio objetivo = Alto s ∧
       crece ∅ (dij_vista <$> DijkstraMem.traza s) (DijkstraMem.visitado s) ∧
       (∀ r, Dijkstra.dijkstra_pasos ga inicio objetivo = Devuelve r →
             r.1.1 = DijkstraMem.traza s) ∧
       (pesos_acotados ga →
        ∃ camino dist, Dijkstra.dijkstra_pasos ga inicio objetivo =
                         Devuelve (DijkstraMem.traza s, camino, dist)).
Proof.
  intros Hi. destruct (dij_mem_termina ga inicio objetivo Hi) as (s & Hs & Hval & Hcre).
  exists s. split_and!; [done|done| |].
  - intros r. unfold Dijkstra.dijkstra_pasos. rewrite bool_decide_eq_true_2 by done.
    cbv zeta. rewrite <- Hval. destruct (reconstruir _ _); [|done]. by intros [= <-].
  - intros Hac.
    destruct (dij_devuelve ga inicio objetivo Hac Hi) as (s' & camino & Hs' & _ & _ & _ & Hret).
    exists camino, (Dijkstra.dist s'). rewrite Hret. rewrite Hs' in Hval.
    cbn [estado_de] in Hval. by rewrite <- Hval.
Qed.

Lemma ast_mem_devuelve (ga : GrafoActivo) (inicio objetivo : nat) :
  (inicio < N ga)%nat → (objetivo < N ga)%nat →
  ∃ s, AStarMem.bucle_float ga (AStar.fuel ga) inicio objetivo = Alto s ∧
       crece ∅ (ast_vista <$> AStarMem.traza s) (AStarMem.visitado s) ∧
       (∀ r, AStar.a_star_pasos ga inicio objetivo = Devuelve r →
             r.1.1 = AStarMem.traza s) ∧
       (pesos_acotados ga →
        ∃ camino g, AStar.a_star_pasos ga inicio objetivo =
                      Devuelve (AStarMem.traza s, camino, g)).
Proof.
  intros Hi Ho. destruct (ast_mem_termina ga inicio objetivo Hi) as (s & Hs & Hval & Hcre).
  exists s. split_and!; [done|done| |].
  - intros r. unfold AStar.a_star_pasos.
    destruct (heuristica_en_rango (N ga) inicio objetivo Hi Ho) as [x ->].
    unfold AStar.a_star_gen. cbv zeta. unfold AStar.bucle_float in Hval. rewrite <- Hval.
    destruct (reconstruir _ _); [|done]. by intros [= <-].
  - intros Hac.
    destruct (a_star_devuelve ga inicio objetivo Hac Hi Ho)
      as (s' & camino & Hs' & _ & Hret & _).
    exists camino, (AStar.g s'). rewrite Hret. rewrite Hs' in Hval.
    cbn [estado_de] in Hval. by rewrite <- Hval.
Qed.

(** C7. On a square matrix of 64-bit integers, from a start node and for
    a goal of the graph, and with a recursion limit that leaves room for
    one nested call for each node, the runs of BFS, DFS and Kruskal over
    objects return and the loops of Dijkstra, A* and Prim over objects
    end; the steps that the caller reads in the memory they leave are the
    steps of the runs over values (for Dijkstra and A*, the steps of
    every call that returns, and the calls return when the weights leave
    room for their sums in 64 bits); in that list every step of BFS, DFS,
    Dijkstra, A* and Prim has as visited set the set of the step before
    with its own ['actual'] node added, which was not in it. The steps of
    Kruskal have as ['mst'] the list of the step before, with the edge of
    the step appended when the step accepts it. In every algorithm the
    steps emitted are left at their place and with their contents by the
    turns (for DFS, the calls) that follow, and a step holds afterwards
    the values of the time of its emission. *)
Theorem pasos_crecientes_y_aislados (limite : nat) (ga : GrafoActivo)
    (inicio objetivo : nat) :
  cuadrada ga → enteros64 ga → (inicio < N ga)%nat → (objetivo < N ga)%nat →
  (N ga ≤ limite)%nat →
  (∃ s, BFSMem.bucle ga (BFS.fuel ga) (Z.of_nat inicio) = Ok (Alto s) ∧
        BFS.bfs_pasos ga (Z.of_nat inicio) = Ok (BFSMem.traza s) ∧
        crece ∅ (bfs_vista <$> BFSMem.traza s) (BFSMem.visitado s)) ∧
  bfs_aislado ga (Z.of_nat inicio) ∧
  (∃ s, DFSMem._dfs ga limite inicio (DFSMem.inicial inicio) = Ok s ∧
        DFS.dfs_pasos limite ga inicio = Ok (DFSMem.traza s) ∧
        crece ∅ (dfs_vista <$> DFSMem.traza s) (DFSMem.visitado s)) ∧
  dfs_aislado ga inicio ∧
  (∃ s, DijkstraMem.bucle ga (Dijkstra.fuel ga) inicio objetivo = Alto s ∧
        crece ∅ (dij_vista <$> DijkstraMem.traza s) (DijkstraMem.visitado s) ∧
        (∀ r, Dijkstra.dijkstra_pasos ga inicio objetivo = Devuelve r →
              r.1.1 = DijkstraMem.traza s) ∧
        (pesos_acotados ga →
         ∃ camino dist, Dijkstra.dijkstra_pasos ga inicio objetivo =
                          Devuelve (DijkstraMem.traza s, camino, dist))) ∧
  dij_aislado ga inicio objetivo ∧
  (∃ s, AStarMem.bucle_float ga (AStar.fuel ga) inicio objetivo = Alto s ∧
        crece ∅ (ast_vista <$> AStarMem.traza s) (AStarMem.visitado s) ∧
        (∀ r, AStar.a_star_pasos ga inicio objetivo = Devuelve r →
              r.1.1 = AStarMem.traza s) ∧
        (pesos_acotados ga →
         ∃ camino g, AStar.a_star_pasos ga inicio objetivo =
                       Devuelve (AStarMem.traza s, camino, g))) ∧
  ast_aislado ga inicio objetivo ∧
  (∃ s, PrimMem.bucle ga (Prim.fuel ga) = Alto s ∧
        Prim.prim_pasos ga = PrimMem.traza s ∧
        crece ∅ (prim_vista <$> PrimMem.traza s)
              (list_to_set (marcados ga (PrimMem.visitado s)))) ∧
  prim_aislado ga ∧
  (∃ s, KruskalMem.recorrer limite ga (Kruskal.aristas ga) = Ok s ∧
        Kruskal.kruskal_pasos limite ga = Ok (KruskalMem.traza s) ∧
        extiende [] (KruskalMem.traza s) (KruskalMem.e_mst s)) ∧
  kruskal_aislado limite ga.
Proof.
  intros Hc _ Hi Ho Hlim. split_and!.
  - apply bfs_mem_termina; [done|lia].
  - apply bfs_mem_aislado.
  - by apply dfs_mem_termina.
  - apply dfs_mem_aislado.
  - by apply dij_mem_devuelve.
  - apply dij_mem_aislado.
  - by apply ast_mem_devuelve.
  - apply ast_mem_aislado.
  - apply prim_mem_termina; [by destruct Hc|lia].
  - apply prim_mem_aislado.
  - destruct (kruskal_devuelve limite ga Hlim) as (s0 & _ & Hret & _).
    destruct (kruskal_mem_extiende limite ga _ Hret) as (s & Hs & Htr & Hext).
    exists s. split_and!; [done|by rewrite Htr|done].
  - apply kruskal_mem_aislado.
Qed.

Lemma pasos_crecientes_y_aislados_testigo :
  (∃ s, BFSMem.bucle grafo2 (BFS.fuel grafo2) (Z.of_nat 0) = Ok (Alto s) ∧
        BFS.bfs_pasos grafo2 (Z.of_nat 0) = Ok (BFSMem.traza s) ∧
        crece ∅ (bfs_vista <$> BFSMem.traza s) (BFSMem.visitado s)) ∧
  bfs_aislado grafo2 (Z.of_nat 0) ∧
  (∃ s, DFSMem._dfs grafo2 7 0 (DFSMem.inicial 0) = Ok s ∧
        DFS.dfs_pasos 7 grafo2 0 = Ok (DFSMem.traza s) ∧
        crece ∅ (dfs_vista <$> DFSMem.traza s) (DFSMem.visitado s)) ∧
  dfs_aislado grafo2 0 ∧
  (∃ s, DijkstraMem.bucle grafo2 (Dijkstra.fuel grafo2) 0 4 = Alto s ∧
        crece ∅ (dij_vista <$> DijkstraMem.traza s) (DijkstraMem.visitado s) ∧
        (∀ r, Dijkstra.dijkstra_pasos grafo2 0 4 = Devuelve r →
              r.1.1 = DijkstraMem.traza s) ∧
        (pesos_acotados grafo2 →
         ∃ camino dist, Dijkstra.dijkstra_pasos grafo2 0 4 =
                          Devuelve (DijkstraMem.traza s, camino, dist))) ∧
  dij_aislado grafo2 0 4 ∧
  (∃ s, AStarMem.bucle_float grafo2 (AStar.fuel grafo2) 0 4 = Alto s ∧
        crece ∅ (ast_vista <$> AStarMem.traza s) (AStarMem.visitado s) ∧
        (∀ r, AStar.a_star_pasos grafo2 0 4 = Devuelve r →
              r.1.1 = AStarMem.traza s) ∧
        (pesos_acotados grafo2 →
         ∃ camino g, AStar.a_star_pasos grafo2 0 4 =
                       Devuelve (AStarMem.traza s, camino, g))) ∧
  ast_aislado grafo2 0 4 ∧
  (∃ s, PrimMem.bucle grafo2 (Prim.fuel grafo2) = Alto s ∧
        Prim.prim_pasos grafo2 = PrimMem.traza s ∧
        crece ∅ (prim_vista <$> PrimMem.traza s)
              (list_to_set (marcados grafo2 (PrimMem.visitado s)))) ∧
  prim_aislado grafo2 ∧
  (∃ s, KruskalMem.recorrer 7 grafo2 (Kruskal.aristas grafo2) = Ok s ∧
        Kruskal.kruskal_pasos 7 grafo2 = Ok (KruskalMem.traza s) ∧
        extiende [] (KruskalMem.traza s) (KruskalMem.e_mst s)) ∧
  kruskal_aislado 7 grafo2.
Proof.
  apply (pasos_crecientes_y_aislados 7 grafo2 0 4).
  - apply grafo2_cuadrada.
  - apply grafo2_enteros64.
  - rewrite (proj2 grafo2_cargado). lia.
  - rewrite (proj2 grafo2_cargado). lia.
  - rewrite (proj2 grafo2_cargado). lia.
Defined.

(** * Indices outside the graph *)




